(** * ReferenceRpmdKernels: the reference RPMD integrator kernel

    A shallow embedding of
    [plugins/rpmd/platforms/reference/src/ReferenceRpmdKernels.cpp]
    and the properties of its initialisation, PILE thermostat, free
    ring-polymer drift, ring-polymer contraction and open-path force
    code.

    Conventions of the embedding.
    - [int] is a signed 32-bit integer: a [Z] with the wrap-around of
      every operation that can leave the range written out ([Int32]).
      Sizes and loop indices, which the code keeps non-negative, are
      [nat].
    - [double] is idealised as a real number ([R]) and [complex<double>]
      as a pair of reals ([Complex]).  Rounding is outside the model,
      and so are the values a real number cannot take: where the code
      divides by zero and gets an infinity or a NaN the quotient of the
      model means nothing, and a property either leaves the quotient
      standing, as the code writes it, or carries the hypothesis that
      the divisor is not zero.
    - [std::map<int,int>] is an association list kept in increasing key
      order, the order in which a range-for visits it ([IntMap]).
    - [vector<T>] is a [list T]; [a[i]] is a lookup and [a[i] = x] is
      stdpp's insert/alter, which leaves the list alone where C++ would
      index out of range (the kernel never does so on arrays of the
      shape [initialize] gives them).
    - A thrown [OpenMMException] is an explicit outcome carrying the
      message and the state the exception leaves behind.  The
      [std::length_error] of a [resize] to a negative size is an outcome
      of the same kind, with the name of the exception for its message.

    The file has three parts: the embedding, the vocabulary in which the
    properties are stated, and the proofs. *)

From Stdlib Require Import Reals Lra Lia ZArith List String Bool Sorted.
From stdpp Require Import base list.
Import ListNotations.

(** * Part I: the embedding *)

(** ** 32-bit signed integers *)

Module Int32.

Definition wrap (z : Z) : Z := ((z + 2 ^ 31) mod 2 ^ 32 - 2 ^ 31)%Z.

Definition in_range (z : Z) : Prop := (- 2 ^ 31 <= z < 2 ^ 31)%Z.

(** [a - b] and [a << n] on [int]. *)
Definition sub (a b : Z) : Z := wrap (a - b).

Definition shl (a n : Z) : Z := wrap (Z.shiftl a n).

(** A value is sign-extended when every bit from 31 upwards repeats
    bit 31: the two's-complement reading of a 32-bit pattern. *)
Definition sign_extended (z : Z) : Prop :=
  forall i, (31 <= i)%Z -> Z.testbit z i = Z.testbit z 31.

End Int32.

(** ** [std::map<int,int>] *)

Module IntMap.

(** The entries in increasing key order. *)
Definition t : Type := list (Z * Z).

Definition empty : t := [].

(** [m.find(k)], as the value found. *)
Fixpoint find (k : Z) (m : t) : option Z :=
  match m with
  | [] => None
  | (k', v') :: m' => if (k =? k')%Z then Some v' else find k m'
  end.

(** [m[k] = v]: overwrite the entry of [k], or insert it in key order. *)
Fixpoint set (k v : Z) (m : t) : t :=
  match m with
  | [] => [(k, v)]
  | (k', v') :: m' =>
      if (k <? k')%Z then (k, v) :: m
      else if (k =? k')%Z then (k, v) :: m'
      else (k', v') :: set k v m'
  end.

(** The bitwise OR of all the values. *)
Definition union_values (m : t) : Z :=
  fold_right (fun e acc => Z.lor (snd e) acc) 0%Z m.

(** The keys are strictly increasing: the list is a [std::map]. *)
Definition sorted (m : t) : Prop := StronglySorted Z.lt (map fst m).

End IntMap.

(** ** Exceptions and loops *)

(** Running a piece of the kernel either completes or throws an
    [OpenMMException]; either way the caller is left with the state as
    mutated so far. *)
Inductive Outcome (S : Type) : Type :=
| Done (s : S)
| Thrown (msg : string) (s : S).
Arguments Done {S} s.
Arguments Thrown {S} msg s.

Definition state_of {S : Type} (o : Outcome S) : S :=
  match o with Done s => s | Thrown _ s => s end.

Definition throws {S : Type} (o : Outcome S) (msg : string) : Prop :=
  exists s, o = Thrown msg s.

Definition and_then {S : Type} (o : Outcome S) (k : S -> Outcome S)
    : Outcome S :=
  match o with
  | Done s => k s
  | Thrown msg s => Thrown msg s
  end.

(** A range-for over [l] whose body may throw. *)
Fixpoint for_each {A S : Type} (body : A -> S -> Outcome S)
    (l : list A) (s : S) : Outcome S :=
  match l with
  | [] => Done s
  | a :: l' => and_then (body a s) (for_each body l')
  end.

(** [for (k = first; k < last; k++) body]. *)
Definition for_range {S : Type} (first last : nat) (body : nat -> S -> S)
    (s : S) : S :=
  fold_left (fun s k => body k s) (seq first (last - first)) s.

(** [for (k = first; k < last; k++) { f; g }], where [f] and [g] work on
    two different variables. *)
Definition for_range2 {A B : Type} (first last : nat) (f : nat -> A -> A)
    (g : nat -> B -> B) (s : A * B) : A * B :=
  for_range first last (fun k '(a, b) => (f k a, g k b)) s.

(** [for (k = 0; k < n; k++) buf[k] = f(k)]. *)
Definition fill {A : Type} (n : nat) (f : nat -> A) (buf : list A) : list A :=
  for_range 0 n (fun k buf => <[k := f k]> buf) buf.

Module Messages.
Local Open Scope string_scope.

Definition bad_force_group : string :=
  "RPMDIntegrator: Force group must be between 0 and 31".

Definition bad_copies : string :=
  "RPMDIntegrator: Number of copies for contraction cannot be greater than the total number of copies being simulated".

Definition barostat : string :=
  "Standard barostats cannot be used with RPMDIntegrator.  Use RPMDMonteCarloBarostat instead.".

Definition open_path_contraction : string :=
  "Contractions are not implemented for LePIGS!".

(** Not a message of the kernel: [vector::resize] throws
    [std::length_error] when it is asked for more than [max_size()]
    elements, which is what a negative [int] becomes as a [size_t].  The
    text of its [what()] is the library's; the outcome carries the name
    of the exception. *)
Definition length_error : string := "std::length_error".

End Messages.

Local Open Scope R_scope.

(** ** Vectors and bead arrays *)

Record Vec3 : Type := mkVec3 { vec_x : R; vec_y : R; vec_z : R }.

Definition Vec3_zero : Vec3 := mkVec3 0 0 0.

Definition Vec3_add (a b : Vec3) : Vec3 :=
  mkVec3 (vec_x a + vec_x b) (vec_y a + vec_y b) (vec_z a + vec_z b).

Definition Vec3_scale (a : Vec3) (x : R) : Vec3 :=
  mkVec3 (vec_x a * x) (vec_y a * x) (vec_z a * x).

(** [a != b] on [Vec3]. *)
Definition Vec3_neqb (a b : Vec3) : bool :=
  if Req_dec_T (vec_x a) (vec_x b) then
    if Req_dec_T (vec_y a) (vec_y b) then
      if Req_dec_T (vec_z a) (vec_z b) then false else true
    else true
  else true.

(** [v[c]] and [v[c] = x] for a Cartesian component [c < 3]. *)
Definition component (v : Vec3) (c : nat) : R :=
  match c with
  | 0%nat => vec_x v
  | 1%nat => vec_y v
  | _ => vec_z v
  end.

Definition set_component (c : nat) (x : R) (v : Vec3) : Vec3 :=
  match c with
  | 0%nat => mkVec3 x (vec_y v) (vec_z v)
  | 1%nat => mkVec3 (vec_x v) x (vec_z v)
  | _ => mkVec3 (vec_x v) (vec_y v) x
  end.

(** A bead array: [arr[copy][particle]]. *)
Abbreviation BeadArray := (list (list Vec3)).

Definition bead (arr : BeadArray) (copy : nat) : list Vec3 :=
  default [] (arr !! copy).

Definition vec_at (arr : BeadArray) (copy particle : nat) : Vec3 :=
  default Vec3_zero (bead arr copy !! particle).

(** [arr[copy][particle][c]]. *)
Definition coord (arr : BeadArray) (copy particle c : nat) : R :=
  component (vec_at arr copy particle) c.

(** [arr[copy][particle][c] = x]. *)
Definition set_coord (copy particle c : nat) (x : R) (arr : BeadArray)
    : BeadArray :=
  alter (alter (set_component c x) particle) copy arr.

(** [arr[copy][particle] = g(arr[copy][particle])]. *)
Definition update_vec (copy particle : nat) (g : Vec3 -> Vec3)
    (arr : BeadArray) : BeadArray :=
  alter (alter g particle) copy arr.

(** ** Complex numbers *)

Record Complex : Type := mkComplex { real : R; imag : R }.

Definition Czero : Complex := mkComplex 0 0.

Definition Cadd (a b : Complex) : Complex :=
  mkComplex (real a + real b) (imag a + imag b).

Definition Csub (a b : Complex) : Complex :=
  mkComplex (real a - real b) (imag a - imag b).

(** [complex<double> * double]. *)
Definition Cscale (a : Complex) (x : R) : Complex :=
  mkComplex (real a * x) (imag a * x).

Definition Cmul (a b : Complex) : Complex :=
  mkComplex (real a * real b - imag a * imag b)
            (real a * imag b + imag a * real b).

Definition Cconj (a : Complex) : Complex := mkComplex (real a) (- imag a).

(** [buf[k]] on a mode buffer. *)
Definition cget (buf : list Complex) (k : nat) : Complex :=
  default Czero (buf !! k).

(** [buf[k]] on a real buffer. *)
Definition rget (buf : list R) (k : nat) : R := default 0 (buf !! k).

(** ** The transform library *)

(** The sum of [f 0 .. f (n-1)]. *)
Fixpoint Csum (f : nat -> Complex) (n : nat) : Complex :=
  match n with
  | O => Czero
  | S n' => Cadd (Csum f n') (f n')
  end.

(** [exp(-+ 2 pi i j m / n)]: minus for the forward transform. *)
Definition twiddle (forward : bool) (n j m : nat) : Complex :=
  let angle := 2 * PI * INR j * INR m / INR n in
  mkComplex (cos angle) (if forward then - sin angle else sin angle).

(** Modelled from the spec: [pocketfft::c2c] lives in the header
    [pocketfft_hdronly.h], which is not part of the kernel's source.  The
    kernel calls it in place on one axis of length [n], with [fct] as
    the only scaling, so the first [n] entries of the buffer become
    their discrete Fourier transform (forward: exponent
    [-2 pi i j m / n]; backward: [+2 pi i j m / n]), each multiplied by
    [fct], and the entries from [n] on are not touched. *)
Definition c2c (n : nat) (forward : bool) (fct : R) (data : list Complex)
    : list Complex :=
  map (fun j => Cscale (Csum (fun m => Cmul (cget data m)
                                         (twiddle forward n j m)) n) fct)
      (seq 0 n)
  ++ drop n data.

(** The open path uses [pocketfft::dct], from the same header; the
    properties below do not depend on what it computes, so it is an
    interface: [dct n type fct ortho data] transforms the first [n]
    entries with a DCT of the given type. *)
Class Pocketfft : Type := {
  dct : nat -> nat -> R -> bool -> list R -> list R
}.

(** ** The system, the integrator and the context *)

Record System : Type := mkSystem { particleMasses : list R }.

Definition getNumParticles (system : System) : nat :=
  length (particleMasses system).

Definition getParticleMass (system : System) (index : nat) : R :=
  default 0 (particleMasses system !! index).

Record RPMDIntegrator : Type := mkRPMDIntegrator {
  getNumCopies : Z;
  getStepSize : R;
  getTemperature : R;
  getFriction : R;
  getApplyThermostat : bool;
  getUseOpenPath : bool;
  getRandomNumberSeed : Z;
  getIntegrationForceGroups : Z;
  getContractions : IntMap.t
}.

(** [BOLTZ] and [AVOGADRO] come from [SimTKOpenMMRealType.h], which is
    not part of the kernel's source: they are parameters. *)
Class PhysicalConstants : Type := {
  BOLTZ : R;
  AVOGADRO : R
}.

(** [SimTKOpenMMUtilities::getNormallyDistributedRandomNumber()] draws
    from a process-wide generator: the generator's state [G] is threaded
    through the code. *)
Class RandomNumbers (G : Type) : Type := {
  getNormallyDistributedRandomNumber : G -> R * G
}.

(** What the kernel sees of a [ContextImpl] on the reference
    platform: the arrays it reads and writes through
    [extractPositions], [extractVelocities] and [extractForces], the
    periodic box, time and step count, and the rest of the engine. *)
Record Context (E : Type) : Type := mkContext {
  ctx_positions : list Vec3;
  ctx_velocities : list Vec3;
  ctx_forces : list Vec3;
  ctx_box : Vec3 * Vec3 * Vec3;
  ctx_time : R;
  ctx_stepCount : Z;
  ctx_engine : E
}.
Arguments mkContext {E}.
Arguments ctx_positions {E}.
Arguments ctx_velocities {E}.
Arguments ctx_forces {E}.
Arguments ctx_box {E}.
Arguments ctx_time {E}.
Arguments ctx_stepCount {E}.
Arguments ctx_engine {E}.

(** The physics engine behind the context. *)
Class ContextImpl (E : Type) : Type := {
  computeVirtualSites : Context E -> Context E;
  updateContextState : Context E -> Context E;
  calcForcesAndEnergy : bool -> bool -> Z -> Context E -> Context E
}.

Definition set_ctx_positions {E : Type} (pos : list Vec3) (c : Context E)
    : Context E :=
  mkContext pos (ctx_velocities c) (ctx_forces c) (ctx_box c) (ctx_time c)
    (ctx_stepCount c) (ctx_engine c).

Definition set_ctx_velocities {E : Type} (vel : list Vec3) (c : Context E)
    : Context E :=
  mkContext (ctx_positions c) vel (ctx_forces c) (ctx_box c) (ctx_time c)
    (ctx_stepCount c) (ctx_engine c).

Definition advance_time {E : Type} (dt : R) (c : Context E) : Context E :=
  mkContext (ctx_positions c) (ctx_velocities c) (ctx_forces c) (ctx_box c)
    (ctx_time c + dt) (ctx_stepCount c + 1)%Z (ctx_engine c).

Definition box_neqb (a b : Vec3 * Vec3 * Vec3) : bool :=
  Vec3_neqb (fst (fst a)) (fst (fst b))
  || Vec3_neqb (snd (fst a)) (snd (fst b))
  || Vec3_neqb (snd a) (snd b).

(** ** The kernel *)

(** The members of [ReferenceIntegrateRPMDStepKernel]. *)
Record Kernel : Type := mkKernel {
  positions : BeadArray;
  velocities : BeadArray;
  forces : BeadArray;
  contractedPositions : BeadArray;
  contractedForces : BeadArray;
  groupsByCopies : IntMap.t;
  groupsNotContracted : Z
}.

(** A kernel as its constructor leaves it. *)
Definition newKernel : Kernel := mkKernel [] [] [] [] [] IntMap.empty 0.

Definition with_groups (self : Kernel) (byCopies : IntMap.t)
    (notContracted : Z) : Kernel :=
  mkKernel (positions self) (velocities self) (forces self)
    (contractedPositions self) (contractedForces self) byCopies notContracted.

Definition with_beads (self : Kernel) (pos vel f : BeadArray) : Kernel :=
  mkKernel pos vel f (contractedPositions self) (contractedForces self)
    (groupsByCopies self) (groupsNotContracted self).

Definition with_contracted (self : Kernel) (cpos cf : BeadArray) : Kernel :=
  mkKernel (positions self) (velocities self) (forces self) cpos cf
    (groupsByCopies self) (groupsNotContracted self).

(** ** [initialize] *)

(** [v.resize(n)]: keep the first [n] elements, pad with
    default-constructed ones. *)
Definition resize {A : Type} (n : nat) (d : A) (l : list A) : list A :=
  take n l ++ replicate (n - length l) d.

Definition resize_beads (numCopies numParticles : nat) (a : BeadArray)
    : BeadArray :=
  map (resize numParticles Vec3_zero) (resize numCopies [] a).

(** The body of the loop over [integrator.getContractions()].  The
    state is the kernel together with the local [maxContractedCopies]. *)
Definition add_contraction (numCopies : Z) (c : Z * Z) (st : Kernel * Z)
    : Outcome (Kernel * Z) :=
  let '(self, maxContractedCopies) := st in
  let group := fst c in
  let copies := snd c in
  if ((group <? 0) || (group >? 31))%Z then
    Thrown Messages.bad_force_group st
  else if ((copies <? 0) || (copies >? numCopies))%Z then
    Thrown Messages.bad_copies st
  else if negb (copies =? numCopies)%Z then
    let bit := Int32.shl 1 group in
    let '(byCopies, maxCopies) :=
      match IntMap.find copies (groupsByCopies self) with
      | None =>
          (IntMap.set copies bit (groupsByCopies self),
           if (copies >? maxContractedCopies)%Z then copies
           else maxContractedCopies)
      | Some mask =>
          (IntMap.set copies (Z.lor mask bit) (groupsByCopies self),
           maxContractedCopies)
      end in
    Done (with_groups self byCopies
            (Int32.sub (groupsNotContracted self) bit), maxCopies)
  else Done st.

(** [initialize(system, integrator)].  The second component of the
    state is the seed handed to the process-wide random number
    generator, after the cast to [unsigned int]; it is [None] as long as
    [setRandomNumberSeed] has not been called.

    [positions.resize(numCopies)] is the first statement that uses the
    number of copies: a negative one is converted to a [size_t] above
    [max_size()] and the call throws [std::length_error], leaving the
    kernel as it was.  The loop over the contractions only accepts copy
    counts that are not negative, so [maxContractedCopies] and the
    number of particles (the size of a vector) are sizes that [resize]
    accepts. *)
Definition initialize (system : System) (integrator : RPMDIntegrator)
    (self : Kernel) : Outcome (Kernel * option Z) :=
  let numCopies := getNumCopies integrator in
  let numParticles := getNumParticles system in
  if (numCopies <? 0)%Z then Thrown Messages.length_error (self, None)
  else
  let sized :=
    with_beads self
      (resize_beads (Z.to_nat numCopies) numParticles (positions self))
      (resize_beads (Z.to_nat numCopies) numParticles (velocities self))
      (resize_beads (Z.to_nat numCopies) numParticles (forces self)) in
  let seed := Some (getRandomNumberSeed integrator mod 2 ^ 32)%Z in
  let start := with_groups sized (groupsByCopies sized) (-1) in
  match for_each (add_contraction numCopies) (getContractions integrator)
          (start, 0%Z) with
  | Thrown msg (self', _) => Thrown msg (self', seed)
  | Done (self', maxContractedCopies) =>
      let masked :=
        with_groups self' (groupsByCopies self')
          (Z.land (groupsNotContracted self')
             (getIntegrationForceGroups integrator)) in
      Done
        (with_contracted masked
           (resize_beads (Z.to_nat maxContractedCopies) numParticles
              (contractedPositions masked))
           (resize_beads (Z.to_nat maxContractedCopies) numParticles
              (contractedForces masked)),
         seed)
  end.

(** ** Force evaluation *)

Section Forces.
Context {E : Type} `{ContextImpl E}.

(** The body of the loop "compute forces from all groups that didn't
    have a specified contraction", for copy [i]; it is the same in
    [computeForcesClosedPath] and [computeForcesOpenPath].  [pos], [vel]
    and [f] in the source are references to the context's arrays. *)
Definition gatherBead (i : nat) (st : Kernel * Context E)
    : Outcome (Kernel * Context E) :=
  let '(self, context) := st in
  let context := set_ctx_positions (bead (positions self) i) context in
  let context := set_ctx_velocities (bead (velocities self) i) context in
  let context := computeVirtualSites context in
  let initialBox := ctx_box context in
  let context := updateContextState context in
  let finalBox := ctx_box context in
  if box_neqb initialBox finalBox then
    Thrown Messages.barostat (self, context)
  else
    let self :=
      with_beads self (<[i := ctx_positions context]> (positions self))
        (<[i := ctx_velocities context]> (velocities self)) (forces self) in
    let context :=
      calcForcesAndEnergy true false (groupsNotContracted self) context in
    let self :=
      with_beads self (positions self) (velocities self)
        (<[i := ctx_forces context]> (forces self)) in
    Done (self, context).

Definition gatherForces (totalCopies : nat) (st : Kernel * Context E)
    : Outcome (Kernel * Context E) :=
  for_each gatherBead (seq 0 totalCopies) st.

(** *** Closed path: contractions *)

(** Moving the high modes down, next to the low ones:
    [for (k = end; k < totalCopies; k++) q[k-(totalCopies-copies)] = q[k]]. *)
Definition packModes (totalCopies copies : nat) (q : list Complex)
    : list Complex :=
  let start := ((copies + 1) / 2)%nat in
  let end_ := (totalCopies - copies + start)%nat in
  for_range end_ totalCopies
    (fun k q => <[(k - (totalCopies - copies))%nat := cget q k]> q) q.

(** Moving the high modes back up and padding with zeros:
    [for (k = end; k < totalCopies; k++) q[k] = q[k-(totalCopies-copies)];
     for (k = start; k < end; k++) q[k] = 0]. *)
Definition unpackModes (totalCopies copies : nat) (q : list Complex)
    : list Complex :=
  let start := ((copies + 1) / 2)%nat in
  let end_ := (totalCopies - copies + start)%nat in
  let q :=
    for_range end_ totalCopies
      (fun k q => <[k := cget q (k - (totalCopies - copies))]> q) q in
  for_range start end_ (fun k q => <[k := Czero]> q) q.

(** "Find the contracted positions", for one particle and component. *)
Definition contractPositions (totalCopies copies : nat) (pos : BeadArray)
    (particle component : nat) (st : BeadArray * list Complex)
    : BeadArray * list Complex :=
  let '(cpos, q) := st in
  let scale1 := 1 / INR totalCopies in
  let q :=
    fill totalCopies
      (fun k => mkComplex (coord pos k particle component) 0) q in
  let q := c2c totalCopies true 1 q in
  let q :=
    if (1 <? copies)%nat then c2c copies false 1 (packModes totalCopies copies q)
    else q in
  let cpos :=
    for_range 0 copies
      (fun k cpos =>
         set_coord k particle component (scale1 * real (cget q k)) cpos)
      cpos in
  (cpos, q).

(** "Apply the forces to the original copies", for one particle and
    component.  [scale2 = 1.0/copies] is a real quotient: the code's
    value for [copies = 0] (an infinity, and a NaN once multiplied by
    zero) is outside the model, and the properties of the extension are
    stated for [1 <= copies]. *)
Definition extendForces (totalCopies copies : nat) (cf : BeadArray)
    (particle component : nat) (st : BeadArray * list Complex)
    : BeadArray * list Complex :=
  let '(f, q) := st in
  let scale2 := 1 / INR copies in
  let q :=
    fill copies (fun k => mkComplex (coord cf k particle component) 0) q in
  let q := if (1 <? copies)%nat then c2c copies true 1 q else q in
  let q := unpackModes totalCopies copies q in
  let q := c2c totalCopies false 1 q in
  let f :=
    for_range 0 totalCopies
      (fun k f =>
         set_coord k particle component
           (coord f k particle component + scale2 * real (cget q k)) f)
      f in
  (f, q).

(** The loop over particles and components around both. *)
Definition for_components {S : Type} (numParticles : nat)
    (body : nat -> nat -> S -> S) (s : S) : S :=
  for_range 0 numParticles
    (fun particle s => for_range 0 3 (body particle) s) s.

(** "Compute forces": the contracted copies go through the engine. *)
Definition contractedBead (groupFlags : Z) (i : nat)
    (st : Kernel * Context E) : Kernel * Context E :=
  let '(self, context) := st in
  let context :=
    set_ctx_positions (bead (contractedPositions self) i) context in
  let context := computeVirtualSites context in
  let context := calcForcesAndEnergy true false groupFlags context in
  (with_contracted self (contractedPositions self)
     (<[i := ctx_forces context]> (contractedForces self)),
   context).

(** The body of the loop over [groupsByCopies]. *)
Definition contractGroup (totalCopies numParticles : nat) (g : Z * Z)
    (st : Kernel * Context E) : Kernel * Context E :=
  let '(self, context) := st in
  let copies := Z.to_nat (fst g) in
  let groupFlags := snd g in
  let q := replicate totalCopies Czero in
  let '(cpos, q) :=
    for_components numParticles
      (contractPositions totalCopies copies (positions self))
      (contractedPositions self, q) in
  let self := with_contracted self cpos (contractedForces self) in
  let '(self, context) :=
    for_range 0 copies (contractedBead groupFlags) (self, context) in
  let '(f, q) :=
    for_components numParticles
      (extendForces totalCopies copies (contractedForces self))
      (forces self, q) in
  (with_beads self (positions self) (velocities self) f, context).

Definition computeForcesClosedPath (st : Kernel * Context E)
    : Outcome (Kernel * Context E) :=
  let totalCopies := length (positions (fst st)) in
  let numParticles := length (bead (positions (fst st)) 0) in
  and_then (gatherForces totalCopies st)
    (fun st =>
       Done (fold_left (fun st g => contractGroup totalCopies numParticles g st)
               (groupsByCopies (fst st)) st)).

(** *** Open path *)

(** "first and last beads experience half the potential so half the
    force". *)
Definition halveEndpoints (totalCopies numParticles : nat) (f : BeadArray)
    : BeadArray :=
  for_range 0 numParticles
    (fun i f =>
       let f := update_vec 0 i (fun v => Vec3_scale v 0.5) f in
       update_vec (totalCopies - 1) i (fun v => Vec3_scale v 0.5) f)
    f.

(** The loop over [groupsByCopies] throws in its first statement; what
    follows the [throw] in the source is never run. *)
Definition computeForcesOpenPath (st : Kernel * Context E)
    : Outcome (Kernel * Context E) :=
  let totalCopies := length (positions (fst st)) in
  let numParticles := length (bead (positions (fst st)) 0) in
  and_then (gatherForces totalCopies st)
    (fun '(self, context) =>
       let self :=
         with_beads self (positions self) (velocities self)
           (halveEndpoints totalCopies numParticles (forces self)) in
       for_each (fun _ st => Thrown Messages.open_path_contraction st)
         (groupsByCopies self) (self, context)).

End Forces.

(** ** The time step *)

Section Step.
Context `{PhysicalConstants} `{Pocketfft} {G : Type} `{RandomNumbers G}.
Variable system : System.
Variable integrator : RPMDIntegrator.
(** [positions.size()] and [positions[0].size()]. *)
Variable numCopies : nat.
Variable numParticles : nat.

(** The constants at the head of [executeClosedPath] and
    [executeOpenPath]. *)
Definition dt : R := getStepSize integrator.
Definition halfdt : R := 0.5 * dt.
Definition hbar : R := 1.054571628e-34 * AVOGADRO / (1000 * 1e-12).
Definition scale : R := 1 / sqrt (INR numCopies).
Definition nkT : R := INR numCopies * BOLTZ * getTemperature integrator.
Definition twown : R := 2 * nkT / hbar.
Definition c1_0 : R := exp (- halfdt * getFriction integrator).
Definition c2_0 : R := sqrt (1 - c1_0 * c1_0).

(** Only in [executeOpenPath]. *)
Definition nkTm1 : R := (INR numCopies - 1) * BOLTZ * getTemperature integrator.
Definition twown_open : R := 2 * nkTm1 / hbar.
Definition norm : R := sqrt (2 * INR numCopies).
Definition fct : R := 1 / norm.

(** [if (system.getParticleMass(particle) == 0.0) continue;] around the
    three components of a particle. *)
Definition for_massive_components {S : Type} (body : nat -> nat -> S -> S)
    (s : S) : S :=
  for_range 0 numParticles
    (fun particle s =>
       if Req_dec_T (getParticleMass system particle) 0 then s
       else for_range 0 3 (body particle) s)
    s.

(** "Update velocities." *)
Definition updateVelocities (f vel : BeadArray) : BeadArray :=
  for_range 0 numCopies
    (fun i vel =>
       for_range 0 numParticles
         (fun j vel =>
            if Req_dec_T (getParticleMass system j) 0 then vel
            else
              update_vec i j
                (fun v =>
                   Vec3_add v
                     (Vec3_scale (vec_at f i j)
                        (halfdt / getParticleMass system j)))
                vel)
         vel)
    vel.

(** *** Closed path *)

(** The body of "use critical damping white noise for the remaining
    modes", for mode [k]. *)
Definition thermostatMode (particle k : nat) (st : list Complex * G)
    : list Complex * G :=
  let '(v, g) := st in
  let isCenter :=
    ((numCopies mod 2 =? 0)%nat && (k =? numCopies / 2)%nat)%bool in
  let wk := twown * sin (INR k * PI / INR numCopies) in
  let c1 := exp (-2 * wk * halfdt) in
  let c2 := sqrt ((1 - c1 * c1) / 2) * (if isCenter then sqrt 2 else 1) in
  let c3 := c2 * sqrt (nkT / getParticleMass system particle) in
  let '(xi1, g) := getNormallyDistributedRandomNumber g in
  let rand1 := c3 * xi1 in
  let '(rand2, g) :=
    if isCenter then (0, g)
    else
      let '(xi2, g) := getNormallyDistributedRandomNumber g in
      (c3 * xi2, g) in
  let v := <[k := Cadd (Cscale (cget v k) c1) (mkComplex rand1 rand2)]> v in
  let v :=
    if (k <? numCopies - k)%nat then
      <[(numCopies - k)%nat :=
          Cadd (Cscale (cget v (numCopies - k)) c1)
               (mkComplex rand1 (- rand2))]> v
    else v in
  (v, g).

(** The loop over the internal modes. *)
Definition thermostatModes (particle : nat) (st : list Complex * G)
    : list Complex * G :=
  for_range 1 (numCopies / 2 + 1) (thermostatMode particle) st.

(** "Apply the PILE-L thermostat", for one particle and component. *)
Definition thermostatComponent (particle component : nat)
    (st : BeadArray * list Complex * G) : BeadArray * list Complex * G :=
  let '(vel, v, g) := st in
  let c3_0 := c2_0 * sqrt (nkT / getParticleMass system particle) in
  let v :=
    fill numCopies
      (fun k => mkComplex (scale * coord vel k particle component) 0) v in
  let v := c2c numCopies true 1 v in
  let '(xi, g) := getNormallyDistributedRandomNumber g in
  let v :=
    <[0%nat := mkComplex (real (cget v 0) * c1_0 + c3_0 * xi)
                         (imag (cget v 0))]> v in
  let '(v, g) := thermostatModes particle (v, g) in
  let v := c2c numCopies false 1 v in
  let vel :=
    for_range 0 numCopies
      (fun k vel =>
         set_coord k particle component (scale * real (cget v k)) vel)
      vel in
  (vel, v, g).

Definition applyThermostat (st : BeadArray * list Complex * G)
    : BeadArray * list Complex * G :=
  if getApplyThermostat integrator then
    for_massive_components thermostatComponent st
  else st.

(** The body of the loop over the modes [k >= 1] of the free ring
    polymer.  [sinwt/wk] is a real quotient: at temperature zero [wk] is
    zero, the code computes [0.0/0.0] and every position becomes a NaN,
    which is outside the model: a property either leaves the quotient
    standing or carries the hypothesis [twown <> 0]. *)
Definition evolveMode (k : nat) (st : list Complex * list Complex)
    : list Complex * list Complex :=
  let '(q, v) := st in
  let wk := twown * sin (INR k * PI / INR numCopies) in
  let wt := wk * dt in
  let coswt := cos wt in
  let sinwt := sin wt in
  let vprime :=
    Csub (Cscale (cget v k) coswt) (Cscale (cget q k) (wk * sinwt)) in
  let q :=
    <[k := Cadd (Cscale (cget v k) (sinwt / wk)) (Cscale (cget q k) coswt)]>
      q in
  let v := <[k := vprime]> v in
  (q, v).

(** The centroid and then the other modes. *)
Definition evolveModes (st : list Complex * list Complex)
    : list Complex * list Complex :=
  let '(q, v) := st in
  let q := <[0%nat := Cadd (cget q 0) (Cscale (cget v 0) dt)]> q in
  for_range 1 numCopies evolveMode (q, v).

(** "Evolve the free ring polymer by transforming to the frequency
    domain", for one particle and component. *)
Definition evolveComponent (particle component : nat)
    (st : BeadArray * BeadArray * (list Complex * list Complex))
    : BeadArray * BeadArray * (list Complex * list Complex) :=
  let '(pos, vel, (q, v)) := st in
  let '(q, v) :=
    for_range2 0 numCopies
      (fun k q =>
         <[k := mkComplex (scale * coord pos k particle component) 0]> q)
      (fun k v =>
         <[k := mkComplex (scale * coord vel k particle component) 0]> v)
      (q, v) in
  let q := c2c numCopies true 1 q in
  let v := c2c numCopies true 1 v in
  let '(q, v) := evolveModes (q, v) in
  let q := c2c numCopies false 1 q in
  let v := c2c numCopies false 1 v in
  let '(pos, vel) :=
    for_range2 0 numCopies
      (fun k pos =>
         set_coord k particle component (scale * real (cget q k)) pos)
      (fun k vel =>
         set_coord k particle component (scale * real (cget v k)) vel)
      (pos, vel) in
  (pos, vel, (q, v)).

Definition evolveFreeRingPolymer
    (st : BeadArray * BeadArray * (list Complex * list Complex))
    : BeadArray * BeadArray * (list Complex * list Complex) :=
  for_massive_components evolveComponent st.

(** *** Open path *)

Definition thermostatModeOpen (particle k : nat) (st : list R * G)
    : list R * G :=
  let '(v, g) := st in
  let wk := twown_open * sin (INR k * PI / INR numCopies / 2) in
  let c1 := exp (-2 * wk * halfdt) in
  let c2 := sqrt (1 - c1 * c1) in
  let c3 := c2 * sqrt (nkT / getParticleMass system particle) in
  let '(xi, g) := getNormallyDistributedRandomNumber g in
  let rand1 := c3 * xi in
  (<[k := rget v k * c1 + rand1]> v, g).

Definition thermostatComponentOpen (particle component : nat)
    (st : BeadArray * list R * G) : BeadArray * list R * G :=
  let '(vel, v, g) := st in
  let c3_0 := c2_0 * sqrt (nkT / getParticleMass system particle) in
  let v := fill numCopies (fun k => coord vel k particle component) v in
  let v := dct numCopies 2 fct true v in
  let '(xi, g) := getNormallyDistributedRandomNumber g in
  let v := <[0%nat := rget v 0 * c1_0 + c3_0 * xi]> v in
  let '(v, g) := for_range 1 numCopies (thermostatModeOpen particle) (v, g) in
  let v := dct numCopies 3 fct true v in
  let vel :=
    for_range 0 numCopies
      (fun k vel => set_coord k particle component (rget v k) vel) vel in
  (vel, v, g).

Definition applyThermostatOpen (st : BeadArray * list R * G)
    : BeadArray * list R * G :=
  if getApplyThermostat integrator then
    for_massive_components thermostatComponentOpen st
  else st.

(** The source also computes an unused [wm] here.  As on the closed
    path [sinwt/wk] is a real quotient, meaningful for [wk <> 0]. *)
Definition evolveModeOpen (k : nat) (st : list R * list R)
    : list R * list R :=
  let '(q, v) := st in
  let wk := twown_open * sin (INR k * PI / INR numCopies / 2) in
  let wt := wk * dt in
  let coswt := cos wt in
  let sinwt := sin wt in
  let vprime := rget v k * coswt - rget q k * (wk * sinwt) in
  let q := <[k := rget v k * (sinwt / wk) + rget q k * coswt]> q in
  let v := <[k := vprime]> v in
  (q, v).

Definition evolveComponentOpen (particle component : nat)
    (st : BeadArray * BeadArray * (list R * list R))
    : BeadArray * BeadArray * (list R * list R) :=
  let '(pos, vel, (q, v)) := st in
  let '(q, v) :=
    for_range2 0 numCopies
      (fun k q => <[k := coord pos k particle component]> q)
      (fun k v => <[k := coord vel k particle component]> v)
      (q, v) in
  let q := dct numCopies 2 fct true q in
  let v := dct numCopies 2 fct true v in
  let q := <[0%nat := rget q 0 + rget v 0 * dt]> q in
  let '(q, v) := for_range 1 numCopies evolveModeOpen (q, v) in
  let q := dct numCopies 3 fct true q in
  let v := dct numCopies 3 fct true v in
  let '(pos, vel) :=
    for_range2 0 numCopies
      (fun k pos => set_coord k particle component (rget q k) pos)
      (fun k vel => set_coord k particle component (rget v k) vel)
      (pos, vel) in
  (pos, vel, (q, v)).

Definition evolveFreeChain (st : BeadArray * BeadArray * (list R * list R))
    : BeadArray * BeadArray * (list R * list R) :=
  for_massive_components evolveComponentOpen st.

End Step.

Section Execute.
Context `{PhysicalConstants} `{Pocketfft} {G : Type} `{RandomNumbers G}
  {E : Type} `{ContextImpl E}.

(** The state of a step: the kernel, the context and the random number
    generator. *)
Definition StepState : Type := Kernel * Context E * G.

Definition with_generator (g : G) (o : Outcome (Kernel * Context E))
    : Outcome StepState :=
  match o with
  | Done s => Done (s, g)
  | Thrown msg s => Thrown msg (s, g)
  end.

(** [executeClosedPath] from "Apply the PILE-L thermostat" to the end:
    the step once the forces are valid. *)
Definition closedPathStep (system : System) (integrator : RPMDIntegrator)
    (numCopies numParticles : nat) (st : StepState) : Outcome StepState :=
  let '(self, context, g) := st in
  let v := replicate numCopies Czero in
  let q := replicate numCopies Czero in
  let '(vel, v, g) :=
    applyThermostat system integrator numCopies numParticles
      (velocities self, v, g) in
  let vel :=
    updateVelocities system integrator numCopies numParticles
      (forces self) vel in
  let '(pos, vel, (q, v)) :=
    evolveFreeRingPolymer system integrator numCopies numParticles
      (positions self, vel, (q, v)) in
  let self := with_beads self pos vel (forces self) in
  and_then
    (with_generator g (computeForcesClosedPath (self, context)))
    (fun '(self, context, g) =>
       let vel :=
         updateVelocities system integrator numCopies numParticles
           (forces self) (velocities self) in
       let '(vel, v, g) :=
         applyThermostat system integrator numCopies numParticles
           (vel, v, g) in
       Done
         (with_beads self (positions self) vel (forces self),
          advance_time (dt integrator) context, g)).

Definition executeClosedPath (system : System) (integrator : RPMDIntegrator)
    (forcesAreValid : bool) (st : StepState) : Outcome StepState :=
  let '(self, context, g) := st in
  let numCopies := length (positions self) in
  let numParticles := length (bead (positions self) 0) in
  and_then
    (with_generator g
       (if forcesAreValid then Done (self, context)
        else computeForcesClosedPath (self, context)))
    (closedPathStep system integrator numCopies numParticles).

(** [executeOpenPath] from "Apply the PILE-L thermostat" to the end. *)
Definition openPathStep (system : System) (integrator : RPMDIntegrator)
    (numCopies numParticles : nat) (st : StepState) : Outcome StepState :=
  let '(self, context, g) := st in
  let v := replicate numCopies 0 in
  let q := replicate numCopies 0 in
  let '(vel, v, g) :=
    applyThermostatOpen system integrator numCopies numParticles
      (velocities self, v, g) in
  let vel :=
    updateVelocities system integrator numCopies numParticles
      (forces self) vel in
  let '(pos, vel, (q, v)) :=
    evolveFreeChain system integrator numCopies numParticles
      (positions self, vel, (q, v)) in
  let self := with_beads self pos vel (forces self) in
  and_then
    (with_generator g (computeForcesOpenPath (self, context)))
    (fun '(self, context, g) =>
       let vel :=
         updateVelocities system integrator numCopies numParticles
           (forces self) (velocities self) in
       let '(vel, v, g) :=
         applyThermostatOpen system integrator numCopies numParticles
           (vel, v, g) in
       Done
         (with_beads self (positions self) vel (forces self),
          advance_time (dt integrator) context, g)).

Definition executeOpenPath (system : System) (integrator : RPMDIntegrator)
    (forcesAreValid : bool) (st : StepState) : Outcome StepState :=
  let '(self, context, g) := st in
  let numCopies := length (positions self) in
  let numParticles := length (bead (positions self) 0) in
  and_then
    (with_generator g
       (if forcesAreValid then Done (self, context)
        else computeForcesOpenPath (self, context)))
    (openPathStep system integrator numCopies numParticles).

Definition execute (system : System) (integrator : RPMDIntegrator)
    (forcesAreValid : bool) (st : StepState) : Outcome StepState :=
  if getUseOpenPath integrator then
    executeOpenPath system integrator forcesAreValid st
  else executeClosedPath system integrator forcesAreValid st.

End Execute.

(** ** The kinetic energy and the accessors *)

(** [a.dot(b)] on [Vec3]. *)
Definition Vec3_dot (a b : Vec3) : R :=
  vec_x a * vec_x b + vec_y a * vec_y b + vec_z a * vec_z b.

Section Accessors.
Context {E : Type}.

(** [computeKineticEnergy(context, integrator)].  The velocities are
    those of the context, [velData]; the integrator is not used. *)
Definition computeKineticEnergy (system : System) (context : Context E) : R :=
  let numParticles := getNumParticles system in
  let velData := ctx_velocities context in
  let energy :=
    for_range 0 numParticles
      (fun i energy =>
         let mass := getParticleMass system i in
         if Rlt_dec 0 mass then
           let v := default Vec3_zero (velData !! i) in
           energy + mass * Vec3_dot v v
         else energy)
      0 in
  0.5 * energy.

(** [copyToContext(copy, context)]. *)
Definition copyToContext (copy : nat) (self : Kernel) (context : Context E)
    : Context E :=
  set_ctx_velocities (bead (velocities self) copy)
    (set_ctx_positions (bead (positions self) copy) context).

End Accessors.

(** [setPositions(copy, pos)] and [setVelocities(copy, vel)]:
    [positions[copy][i] = pos[i]] for every particle [i] of the copy.  The
    caller passes one vector per particle; an index past the end of the
    argument, which C++ leaves undefined, reads as the zero vector. *)
Definition setPositions (copy : nat) (pos : list Vec3) (self : Kernel)
    : Kernel :=
  let numParticles := length (bead (positions self) copy) in
  with_beads self
    (for_range 0 numParticles
       (fun i arr =>
          update_vec copy i (fun _ => default Vec3_zero (pos !! i)) arr)
       (positions self))
    (velocities self) (forces self).

Definition setVelocities (copy : nat) (vel : list Vec3) (self : Kernel)
    : Kernel :=
  let numParticles := length (bead (velocities self) copy) in
  with_beads self (positions self)
    (for_range 0 numParticles
       (fun i arr =>
          update_vec copy i (fun _ => default Vec3_zero (vel !! i)) arr)
       (velocities self))
    (forces self).

(** * Part II: the vocabulary of the properties *)

(** ** Contraction entries that [initialize] rejects *)

Definition bad_group (c : Z * Z) : Prop := (fst c < 0 \/ 31 < fst c)%Z.

Definition bad_copies (numCopies : Z) (c : Z * Z) : Prop :=
  (snd c < 0 \/ numCopies < snd c)%Z.

Definition bad_entry (numCopies : Z) (c : Z * Z) : Prop :=
  bad_group c \/ bad_copies numCopies c.

Definition bad_groupb (c : Z * Z) : bool :=
  ((fst c <? 0) || (31 <? fst c))%Z.

Definition bad_entryb (numCopies : Z) (c : Z * Z) : bool :=
  (bad_groupb c || (snd c <? 0) || (numCopies <? snd c))%Z.

(** The first entry, in the map's order, that is rejected. *)
Definition first_bad (numCopies : Z) (l : IntMap.t) : option (Z * Z) :=
  List.find (bad_entryb numCopies) l.

(** The message thrown for a rejected entry: the group is checked
    first. *)
Definition rejection (c : Z * Z) : string :=
  if bad_groupb c then Messages.bad_force_group else Messages.bad_copies.

(** ** The contraction schedule *)

(** What holds of the schedule after the loop over the contractions has
    gone through the entries [done]: [groupsNotContracted] is the
    complement of the union of the masks, and every bit of a mask comes
    from a processed entry with that copy count. *)
Definition schedule_invariant (numCopies : Z) (done : list (Z * Z))
    (self : Kernel) : Prop :=
  groupsNotContracted self
    = Z.lnot (IntMap.union_values (groupsByCopies self))
  /\ Int32.sign_extended (IntMap.union_values (groupsByCopies self))
  /\ (forall copies mask i,
        In (copies, mask) (groupsByCopies self) -> (0 <= i)%Z ->
        Z.testbit mask i = true ->
        exists group,
          In (group, copies) done /\ copies <> numCopies
          /\ (0 <= group <= 31)%Z
          /\ Z.testbit (Int32.shl 1 group) i = true).

(** Every processed entry with a copy count other than the total has
    its group's bit in the mask of that copy count. *)
Definition schedule_records (numCopies : Z) (done : list (Z * Z))
    (self : Kernel) : Prop :=
  forall group copies,
    In (group, copies) done -> copies <> numCopies ->
    exists mask,
      IntMap.find copies (groupsByCopies self) = Some mask
      /\ Z.testbit mask group = true.

(** The integrator with another contraction map. *)
Definition with_contractions (integrator : RPMDIntegrator) (l : IntMap.t)
    : RPMDIntegrator :=
  mkRPMDIntegrator (getNumCopies integrator) (getStepSize integrator)
    (getTemperature integrator) (getFriction integrator)
    (getApplyThermostat integrator) (getUseOpenPath integrator)
    (getRandomNumberSeed integrator) (getIntegrationForceGroups integrator) l.

(** ** Concrete configurations used to exercise the theorems *)

(** Scenario 5 of the specification: 8 copies, integration groups
    [{0, 1}], group 1 contracted to 4 copies; here group 0 is also
    listed, with the full number of copies. *)
Definition scenario5 : RPMDIntegrator :=
  mkRPMDIntegrator 8 0.001 300 1 true false 0 3 [(0, 8); (1, 4)]%Z.

Definition one_particle : System := mkSystem [1].

(** Eight copies, and force group 32 listed with all eight. *)
Definition group_32_uncontracted : RPMDIntegrator :=
  mkRPMDIntegrator 8 0.001 300 1 true false 0 3 [(32, 8)]%Z.

(** Eight copies, group 0 alone integrated, and group 1, which is not
    integrated, contracted to 4 copies. *)
Definition inactive_group_contracted : RPMDIntegrator :=
  mkRPMDIntegrator 8 0.001 300 1 true false 0 1 [(1, 4)]%Z.

(** A number of copies below zero, and no contraction. *)
Definition minus_one_copy : RPMDIntegrator :=
  mkRPMDIntegrator (-1) 0.001 300 1 true false 0 3 [].

(** ** Shapes *)

(** A bead array of [P] copies of [N] particles. *)
Definition shaped (P N : nat) (arr : BeadArray) : Prop :=
  length arr = P /\ forall k, (k < P)%nat -> length (bead arr k) = N.

(** ** The free ring polymer in the specification's words *)

(** v'_k = v_k c - q_k w_k s and q'_k = v_k s / w_k + q_k c, with
    c = cos(w_k dt) and s = sin(w_k dt), on the real and on the imaginary
    part of a mode. *)
Definition rotated_velocity (w t : R) (q v : Complex) : Complex :=
  mkComplex (real v * cos (w * t) - real q * w * sin (w * t))
            (imag v * cos (w * t) - imag q * w * sin (w * t)).

Definition rotated_position (w t : R) (q v : Complex) : Complex :=
  mkComplex (real v * sin (w * t) / w + real q * cos (w * t))
            (imag v * sin (w * t) / w + imag q * cos (w * t)).

(** q_0 <- q_0 + v_0 dt. *)
Definition drifted_centroid (t : R) (q v : Complex) : Complex :=
  mkComplex (real q + real v * t) (imag q + imag v * t).

Section DriftVocabulary.
Context `{PhysicalConstants}.
Variable integrator : RPMDIntegrator.
Variable P : nat.

(** w_k = w_n sin(k pi / P), with w_n = 2 P k_B T / hbar. *)
Definition omega (k : nat) : R :=
  twown integrator P * sin (INR k * PI / INR P).

(** The modes of one coordinate of one particle: the forward transform
    of the coordinate over the copies, scaled by 1/sqrt(P). *)
Definition to_modes (arr : BeadArray) (particle c : nat) : list Complex :=
  c2c P true 1
    (map (fun k => mkComplex (scale P * coord arr k particle c) 0) (seq 0 P)).

(** The coordinate of copy [k] that a list of modes stands for. *)
Definition from_modes (modes : list Complex) (k : nat) : R :=
  scale P * real (cget (c2c P false 1 modes) k).

(** All the modes after the drift. *)
Definition drifted_positions (Q V : list Complex) : list Complex :=
  map (fun k =>
         if (k =? 0)%nat then
           drifted_centroid (dt integrator) (cget Q 0) (cget V 0)
         else rotated_position (omega k) (dt integrator) (cget Q k) (cget V k))
      (seq 0 P).

Definition drifted_velocities (Q V : list Complex) : list Complex :=
  map (fun k =>
         if (k =? 0)%nat then cget V 0
         else rotated_velocity (omega k) (dt integrator) (cget Q k) (cget V k))
      (seq 0 P).

End DriftVocabulary.

(** The state that the drift loop threads: positions, velocities and the
    two mode buffers, all of the kernel's shape. *)
Definition drift_state_ok (P N : nat)
    (st : BeadArray * BeadArray * (list Complex * list Complex)) : Prop :=
  shaped P N (fst (fst st)) /\ shaped P N (snd (fst st))
  /\ length (fst (snd st)) = P /\ length (snd (snd st)) = P.

Section DriftOf.
Context `{PhysicalConstants}.
Variable integrator : RPMDIntegrator.
Variable numCopies : nat.

(** What one pass of the drift computes for its coordinate, as a
    function of the coordinate's positions and velocities over the
    copies. *)
Definition drift_of (f : nat -> R * R) (k : nat) : R * R :=
  let Q :=
    c2c numCopies true 1
      (map (fun k' => mkComplex (scale numCopies * fst (f k')) 0)
         (seq 0 numCopies)) in
  let V :=
    c2c numCopies true 1
      (map (fun k' => mkComplex (scale numCopies * snd (f k')) 0)
         (seq 0 numCopies)) in
  (from_modes numCopies (drifted_positions integrator numCopies Q V) k,
   from_modes numCopies (drifted_velocities integrator numCopies Q V) k).

End DriftOf.

(** ** Sums and Hermitian symmetry *)

(** The sum of [f 0 .. f (n-1)]. *)
Fixpoint Rsum (f : nat -> R) (n : nat) : R :=
  match n with
  | O => 0
  | S n' => Rsum f n' + f n'
  end.

(** The angle of the twiddle factor. *)
Definition angle (n j m : nat) : R := 2 * PI * INR j * INR m / INR n.

(** The spectrum of a real sequence: mode 0 is real and mode [P - k] is
    the conjugate of mode [k]. *)
Definition hermitian (P : nat) (v : list Complex) : Prop :=
  imag (cget v 0) = 0
  /\ forall k, (0 < k < P)%nat -> cget v (P - k) = Cconj (cget v k).

(** ** The PILE thermostat in the specification's words *)

Section ThermostatVocabulary.
Context `{PhysicalConstants} {G : Type} `{RandomNumbers G}.
Variable system : System.
Variable integrator : RPMDIntegrator.
Variable P : nat.
Variable particle : nat.

(** The Nyquist bin: P even and k = P/2. *)
Definition isNyquist (k : nat) : bool :=
  ((P mod 2 =? 0)%nat && (k =? P / 2)%nat)%bool.

(** c1 = exp(-2 w_k dt / 2). *)
Definition pile_c1 (k : nat) : R :=
  exp (- 2 * omega integrator P k * dt integrator / 2).

(** c2 = sqrt((1 - c1^2) / 2), times sqrt 2 at the Nyquist bin. *)
Definition pile_c2 (k : nat) : R :=
  sqrt ((1 - pile_c1 k ^ 2) / 2) * (if isNyquist k then sqrt 2 else 1).



(** The generator after the draws of mode [k]: one draw at the Nyquist
    bin, two elsewhere. *)
Definition after_mode (k : nat) (g : G) : G :=
  let g1 := snd (getNormallyDistributedRandomNumber g) in
  if isNyquist k then g1 else snd (getNormallyDistributedRandomNumber g1).

(** The generator when the loop over the modes reaches mode [k], having
    started at [g] with mode 1. *)
Definition generator_at (k : nat) (g : G) : G := for_range 1 k after_mode g.


End ThermostatVocabulary.

(** ** Contraction in the specification's words *)

(** The bins kept are [0, start) and [end, P), as the code computes the
    two indices: [start = (copies+1)/2] in integer division, that is the
    floor of (P'+1)/2. *)
Definition keptStart (copies : nat) : nat := ((copies + 1) / 2)%nat.

Definition keptEnd (totalCopies copies : nat) : nat :=
  (totalCopies - copies + keptStart copies)%nat.

(** The retained modes, packed contiguously. *)
Definition kept_modes (totalCopies copies : nat) (X : list Complex)
    : list Complex :=
  take (keptStart copies) X ++ drop (keptEnd totalCopies copies) X.

(** The length-P spectrum with the [copies] bins [F] back at its two
    ends and zeros between. *)
Definition padded_modes (totalCopies copies : nat) (F : list Complex)
    : list Complex :=
  take (keptStart copies) F
  ++ replicate (keptEnd totalCopies copies - keptStart copies) Czero
  ++ drop (keptStart copies) F.

(** The claim's reading of the first index: the ceiling of (P'+1)/2. *)
Definition claimedStart (copies : nat) : nat := ((copies + 2) / 2)%nat.

Definition claimed_kept_modes (totalCopies copies : nat) (X : list Complex)
    : list Complex :=
  take (claimedStart copies) X
  ++ drop (totalCopies - copies + claimedStart copies) X.

(** A coordinate over the copies as a real sequence of modes input. *)
Definition as_complex (arr : BeadArray) (particle c n : nat) : list Complex :=
  map (fun k => mkComplex (coord arr k particle c) 0) (seq 0 n).

(** The contracted positions of one coordinate. *)
Definition contracted_position (totalCopies copies : nat) (pos : BeadArray)
    (particle c k : nat) : R :=
  1 / INR totalCopies
  * real (cget (c2c copies false 1
                  (kept_modes totalCopies copies
                     (c2c totalCopies true 1
                        (as_complex pos particle c totalCopies)))) k).

(** What the contracted forces of one coordinate add to copy [k]. *)
Definition extended_force (totalCopies copies : nat) (cf : BeadArray)
    (particle c k : nat) : R :=
  1 / INR copies
  * real (cget (c2c totalCopies false 1
                  (padded_modes totalCopies copies
                     (c2c copies true 1 (as_complex cf particle c copies))))
            k).

(** The total, over the copies, of what a force extension added. *)
Definition total_added (totalCopies : nat) (f f' : BeadArray)
    (particle c : nat) : R :=
  Rsum (fun k => coord f' k particle c - coord f k particle c) totalCopies.

(** Four copies of one particle, displaced in copy 1 only. *)
Definition impulse_positions : BeadArray :=
  [[mkVec3 0 0 0]; [mkVec3 1 0 0]; [mkVec3 0 0 0]; [mkVec3 0 0 0]].

(** Two copies of one particle with no force yet, and one contracted
    copy carrying the force 1 along x. *)
Definition no_forces : BeadArray := [[Vec3_zero]; [Vec3_zero]].

Definition unit_contracted_force : BeadArray := [[mkVec3 1 0 0]].

(** ** A concrete environment *)

(** The constants in the kernel's units (kJ/mol, K). *)
Definition reference_constants : PhysicalConstants :=
  {| BOLTZ := 1.380649e-23 * 6.02214076e23 / 1000;
     AVOGADRO := 6.02214076e23 |}.

(** Modelled from the spec: the orthonormal DCT-II (type 2) and DCT-III
    (type 3) of [pocketfft::dct], which is not part of the kernel's
    source, on the first [n] entries of the buffer.  With [ortho] set,
    bin 0 carries the factor [sqrt 2 / 2] after a type 2 transform and
    [sqrt 2] before a type 3 one. *)
Definition reference_dct : Pocketfft :=
  {| dct := fun n type fct ortho data =>
       map (fun k =>
              if (type =? 2)%nat then
                fct * (if (ortho && (k =? 0)%nat)%bool then sqrt 2 * 0.5 else 1)
                * (2 * Rsum (fun m => rget data m
                                      * cos (PI * INR k * (2 * INR m + 1)
                                             / (2 * INR n))) n)
              else
                fct * ((if ortho then sqrt 2 else 1) * rget data 0
                       + 2 * Rsum (fun m => rget data (S m)
                                            * cos (PI * INR (S m)
                                                   * (2 * INR k + 1)
                                                   / (2 * INR n)))
                               (n - 1)))
           (seq 0 n)
       ++ drop n data |}.

(** A generator that always draws 0. *)
Definition silent_generator : RandomNumbers unit :=
  {| getNormallyDistributedRandomNumber := fun g => (0, g) |}.

(** A generator whose state counts the draws, and whose draw number [n]
    is [n]. *)
Definition counting_generator : RandomNumbers nat :=
  {| getNormallyDistributedRandomNumber := fun n => (INR (S n), S n) |}.

(** Two copies of one particle in motion, and mode buffers as an
    earlier pass may have left them. *)
Definition moving_positions : BeadArray :=
  [[mkVec3 1 2 3]; [mkVec3 0 1 (-1)]].

Definition moving_velocities : BeadArray :=
  [[mkVec3 1 (-2) 2]; [mkVec3 3 1 0]].

Definition used_buffer : list Complex := [mkComplex 1 2; mkComplex 3 4].



Definition used_real_buffer : list R := [5; 6].

(** An engine with no virtual sites and no barostat, whose force on
    every particle is 4 along x, whatever the groups. *)
Definition constant_force_engine : ContextImpl unit :=
  {| computeVirtualSites := fun c => c;
     updateContextState := fun c => c;
     calcForcesAndEnergy := fun _ _ _ c =>
       mkContext (ctx_positions c) (ctx_velocities c)
         (map (fun _ => mkVec3 4 0 0) (ctx_positions c))
         (ctx_box c) (ctx_time c) (ctx_stepCount c) (ctx_engine c) |}.

Definition unit_box : Vec3 * Vec3 * Vec3 :=
  (mkVec3 1 0 0, mkVec3 0 1 0, mkVec3 0 0 1).

Definition rest_context : Context unit :=
  mkContext [Vec3_zero] [Vec3_zero] [Vec3_zero] unit_box 0 0 tt.

(** Kernels of one and of two copies of one particle at rest; the
    second with force group 1 contracted to one copy. *)
Definition one_copy_kernel : Kernel :=
  mkKernel [[Vec3_zero]] [[Vec3_zero]] [[Vec3_zero]] [] [] IntMap.empty 1.

Definition two_copy_contracting_kernel : Kernel :=
  mkKernel [[Vec3_zero]; [Vec3_zero]] [[Vec3_zero]; [Vec3_zero]]
    [[Vec3_zero]; [Vec3_zero]] [[Vec3_zero]] [[Vec3_zero]] [(1, 2)%Z] 1.

(** Kernels of two copies of one particle in motion: with nothing
    contracted, and with force group 1 contracted to one copy. *)
Definition moving_forces : BeadArray := [[mkVec3 1 1 1]; [mkVec3 2 0 (-1)]].

Definition moving_kernel : Kernel :=
  mkKernel moving_positions moving_velocities moving_forces [] []
    IntMap.empty 1.

Definition moving_contracting_kernel : Kernel :=
  mkKernel moving_positions moving_velocities moving_forces
    [[mkVec3 7 7 7]] [[mkVec3 8 8 8]] [(1, 2)%Z] 1.

(** An open-path integrator for two copies. *)
Definition open_integrator : RPMDIntegrator :=
  mkRPMDIntegrator 2 0.001 300 1 true true 0 3 [(1, 1)%Z].

(** One massive and one massless particle. *)
Definition with_virtual_site : System := mkSystem [1; 0].

(** What the constant-force engine leaves after the pass over the
    copies of the two example kernels. *)
Definition gathered_context : Context unit :=
  mkContext [Vec3_zero] [Vec3_zero] [mkVec3 4 0 0] unit_box 0 0 tt.

Definition gathered_one_copy : Kernel :=
  mkKernel [[Vec3_zero]] [[Vec3_zero]] [[mkVec3 4 0 0]] [] [] IntMap.empty 1.

Definition gathered_two_copies : Kernel :=
  mkKernel [[Vec3_zero]; [Vec3_zero]] [[Vec3_zero]; [Vec3_zero]]
    [[mkVec3 4 0 0]; [mkVec3 4 0 0]] [[Vec3_zero]] [[Vec3_zero]]
    [(1, 2)%Z] 1.

(** ** Outcomes of a step on the open path *)

Section OpenOutcomes.
Context {G E : Type} `{ContextImpl E}.

(** The outcomes of a step on the open path: [refused] when it must
    throw, [accepted] when it cannot throw the contraction error. *)
Definition refused (o : Outcome (@StepState G E)) : Prop :=
  exists msg s,
    o = Thrown msg s
    /\ (msg = Messages.open_path_contraction \/ msg = Messages.barostat)
    /\ ((forall c : Context E, ctx_box (updateContextState c) = ctx_box c) ->
        msg = Messages.open_path_contraction).

Definition accepted (o : Outcome (@StepState G E)) : Prop :=
  (exists s, o = Done s) \/ (exists s, o = Thrown Messages.barostat s).

End OpenOutcomes.

(** ** The contraction work arrays *)

(** What the loop over the contractions keeps true of the schedule and
    of [maxContractedCopies]. *)
Definition workspace_covers (numCopies : Z) (st : Kernel * Z) : Prop :=
  let '(self, maxContractedCopies) := st in
  (0 <= maxContractedCopies)%Z
  /\ (forall copies mask,
        In (copies, mask) (groupsByCopies self) ->
        (0 <= copies < numCopies)%Z /\ (copies <= maxContractedCopies)%Z)
  /\ (maxContractedCopies = 0%Z
      \/ exists mask,
           IntMap.find maxContractedCopies (groupsByCopies self) = Some mask).

(** ** Sums over the copies and mode energies *)

(** The sum of one coordinate of a particle over the first [n] copies:
    [n] times the centroid of the coordinate. *)
Definition bead_sum (arr : BeadArray) (particle c n : nat) : R :=
  Rsum (fun k => coord arr k particle c) n.

(** Twice the energy of a harmonic mode of frequency [w], per unit
    mass: [|v|^2 + w^2 |q|^2]. *)
Definition mode_energy (w : R) (q v : Complex) : R :=
  (real v ^ 2 + imag v ^ 2) + w ^ 2 * (real q ^ 2 + imag q ^ 2).

(** ** Counting the draws of the thermostat *)

Section DrawVocabulary.
Context {G : Type} `{RandomNumbers G}.

(** The generator after [n] draws. *)
Definition draws (n : nat) (g : G) : G :=
  Nat.iter n (fun g => snd (getNormallyDistributedRandomNumber g)) g.

End DrawVocabulary.

(** The number of particles of non-zero mass among the first [n]: those
    that the loops of the integrator do not skip. *)
Fixpoint massive_count (system : System) (n : nat) : nat :=
  match n with
  | O => 0
  | S n' =>
      massive_count system n'
      + (if Req_dec_T (getParticleMass system n') 0 then 0 else 1)
  end.

(** The number of draws of one pass of the thermostat over [P] copies of
    [N] particles: [3 P] for every particle of non-zero mass, none when
    the thermostat is switched off. *)
Definition thermostat_draws (system : System) (integrator : RPMDIntegrator)
    (P N : nat) : nat :=
  if getApplyThermostat integrator
  then (3 * P * massive_count system N)%nat
  else 0%nat.

Section StepDrawVocabulary.
Context {G E : Type} `{RandomNumbers G}.

(** The generator that a step leaves behind, given the number [n] of
    draws of one pass of the thermostat: two passes when the step
    completes, none or one when it throws. *)
Definition step_draws (n : nat) (g : G) (o : Outcome (@StepState G E))
    : Prop :=
  match o with
  | Done st' => snd st' = draws (2 * n) g
  | Thrown _ st' => snd st' = g \/ snd st' = draws n g
  end.

End StepDrawVocabulary.

(** ** What a step leaves alone *)

(** The contraction schedule of a kernel and the number of copies in
    each of its arrays. *)
Definition layout (self : Kernel)
    : IntMap.t * Z * (nat * nat * nat) * (nat * nat) :=
  (groupsByCopies self, groupsNotContracted self,
   (length (positions self), length (velocities self), length (forces self)),
   (length (contractedPositions self), length (contractedForces self))).

(** The time and the step count of a context. *)
Definition clock {E : Type} (c : Context E) : R * Z :=
  (ctx_time c, ctx_stepCount c).

Section EngineVocabulary.
Context {E : Type} `{ContextImpl E}.

(** The engine does not advance the clock by itself. *)
Definition engine_keeps_clock : Prop :=
  forall c : Context E,
    clock (computeVirtualSites c) = clock c
    /\ clock (updateContextState c) = clock c
    /\ forall includeForces includeEnergy groups,
         clock (calcForcesAndEnergy includeForces includeEnergy groups c)
         = clock c.

End EngineVocabulary.

(** ** The drift for another step size *)

(** The integrator with another step size. *)
Definition with_step (integrator : RPMDIntegrator) (t : R) : RPMDIntegrator :=
  mkRPMDIntegrator (getNumCopies integrator) t
    (getTemperature integrator) (getFriction integrator)
    (getApplyThermostat integrator) (getUseOpenPath integrator)
    (getRandomNumberSeed integrator) (getIntegrationForceGroups integrator)
    (getContractions integrator).

(** Two copies of one particle, copy 0 displaced along y. *)
Definition displaced_in_y : BeadArray := [[mkVec3 0 1 0]; [Vec3_zero]].

(** ** The open path *)

Section OpenVocabulary.
Context `{PhysicalConstants}.
Variable integrator : RPMDIntegrator.
Variable P : nat.

(** One coordinate of a particle over the copies. *)
Definition column (arr : BeadArray) (particle c : nat) : list R :=
  map (fun k => coord arr k particle c) (seq 0 P).

(** w_k = w_n sin(k pi / 2P), with w_n = 2 (P - 1) k_B T / hbar. *)
Definition omega_open (k : nat) : R :=
  twown_open integrator P * sin (INR k * PI / INR P / 2).

(** The modes of the open chain after the drift: bin 0 moves freely and
    every other bin is rotated at its frequency. *)
Definition open_drifted_positions (Q V : list R) : list R :=
  map (fun k =>
         if (k =? 0)%nat then rget Q 0 + rget V 0 * dt integrator
         else rget V k * sin (omega_open k * dt integrator) / omega_open k
              + rget Q k * cos (omega_open k * dt integrator))
      (seq 0 P).

Definition open_drifted_velocities (Q V : list R) : list R :=
  map (fun k =>
         if (k =? 0)%nat then rget V 0
         else rget V k * cos (omega_open k * dt integrator)
              - rget Q k * omega_open k * sin (omega_open k * dt integrator))
      (seq 0 P).

End OpenVocabulary.

Section OpenThermostatVocabulary.
Context `{PhysicalConstants} {G : Type} `{RandomNumbers G}.
Variable system : System.
Variable integrator : RPMDIntegrator.
Variable P : nat.
Variable particle : nat.

(** c1 = exp(-2 w_k dt/2) and c3 = sqrt(1 - c1^2) sqrt(n k_B T / m). *)
Definition open_c1 (k : nat) : R :=
  exp (- 2 * omega_open integrator P k * halfdt integrator).

Definition open_c3 (k : nat) : R :=
  sqrt (1 - open_c1 k ^ 2)
  * sqrt (nkT integrator P / getParticleMass system particle).

(** The number drawn after [k] earlier draws. *)
Definition draw_number (k : nat) (g : G) : R :=
  fst (getNormallyDistributedRandomNumber (draws k g)).

(** The modes of the open chain after the thermostat: bin [k] is damped
    and receives the draw number [k] of the pass. *)
Definition open_thermostatted (V : list R) (g : G) : list R :=
  map (fun k =>
         if (k =? 0)%nat then
           rget V 0 * c1_0 integrator
           + c2_0 integrator
             * sqrt (nkT integrator P / getParticleMass system particle)
             * draw_number 0 g
         else rget V k * open_c1 k + open_c3 k * draw_number k g)
      (seq 0 P).

End OpenThermostatVocabulary.

Section TransformVocabulary.
Context `{Pocketfft}.

(** The cosine transform hands back as many numbers as it is given. *)
Definition dct_keeps_length (P : nat) : Prop :=
  forall type fct ortho data,
    length data = P -> length (dct P type fct ortho data) = P.

End TransformVocabulary.

(** The state that the open-path drift threads: positions, velocities
    and the two real mode buffers, all of the kernel's shape. *)
Definition open_state_ok (P N : nat)
    (st : BeadArray * BeadArray * (list R * list R)) : Prop :=
  shaped P N (fst (fst st)) /\ shaped P N (snd (fst st))
  /\ length (fst (snd st)) = P /\ length (snd (snd st)) = P.

Section OpenDriftOf.
Context `{PhysicalConstants} `{Pocketfft}.
Variable integrator : RPMDIntegrator.
Variable P : nat.

(** What one pass of the open-path drift computes for its coordinate,
    as a function of the coordinate's positions and velocities over the
    copies. *)
Definition open_drift_of (f : nat -> R * R) (k : nat) : R * R :=
  let Q := dct P 2 (fct P) true (map (fun k' => fst (f k')) (seq 0 P)) in
  let V := dct P 2 (fct P) true (map (fun k' => snd (f k')) (seq 0 P)) in
  (rget (dct P 3 (fct P) true (open_drifted_positions integrator P Q V)) k,
   rget (dct P 3 (fct P) true (open_drifted_velocities integrator P Q V)) k).

End OpenDriftOf.

(** ** An engine without virtual sites or barostat *)

Section StaticEngine.
Context {E : Type} `{ContextImpl E}.

(** Computing the virtual sites and updating the context state change
    neither the particles nor the box, evaluating the forces does not
    move the particles, and the forces it leaves are a function [F] of
    the force groups and of the positions. *)
Definition static_engine (F : Z -> list Vec3 -> list Vec3) : Prop :=
  (forall c : Context E,
     ctx_positions (computeVirtualSites c) = ctx_positions c
     /\ ctx_velocities (computeVirtualSites c) = ctx_velocities c)
  /\ (forall c : Context E,
        ctx_positions (updateContextState c) = ctx_positions c
        /\ ctx_velocities (updateContextState c) = ctx_velocities c
        /\ ctx_box (updateContextState c) = ctx_box c)
  /\ (forall includeForces includeEnergy groups (c : Context E),
        let c' := calcForcesAndEnergy includeForces includeEnergy groups c in
        ctx_positions c' = ctx_positions c
        /\ ctx_velocities c' = ctx_velocities c
        /\ ctx_forces c' = F groups (ctx_positions c)).

End StaticEngine.

(** * Part III: proofs *)

(** ** 32-bit arithmetic *)

Section Int32Facts.
Import Int32.
Local Open Scope Z_scope.

Lemma wrap_in_range z : in_range z -> wrap z = z.
Proof.
  unfold in_range, wrap. intros Hz.
  rewrite Z.mod_small; lia.
Qed.

Lemma low_bits_false_range z :
  (forall i, 31 <= i -> Z.testbit z i = false) -> 0 <= z < 2 ^ 31.
Proof.
  intros Hhi.
  assert (Hz : z = z mod 2 ^ 31).
  { apply Z.bits_inj'. intros i Hi.
    destruct (Z.lt_ge_cases i 31) as [Hlt | Hge].
    - now rewrite Z.mod_pow2_bits_low.
    - rewrite Z.mod_pow2_bits_high by lia. now apply Hhi. }
  rewrite Hz. apply Z.mod_pos_bound. lia.
Qed.

Lemma sign_extended_in_range z : sign_extended z -> in_range z.
Proof.
  unfold sign_extended, in_range. intros Hs.
  destruct (Z.testbit z 31) eqn:Hb.
  - assert (H : 0 <= Z.lnot z < 2 ^ 31).
    { apply low_bits_false_range. intros i Hi.
      rewrite Z.lnot_spec by lia. now rewrite (Hs i Hi). }
    unfold Z.lnot in H. lia.
  - pose proof (low_bits_false_range z Hs). lia.
Qed.

(** The bits of [1 << g] for a valid force group [g]. *)
Lemma shl_1_lt31 g : 0 <= g < 31 -> shl 1 g = 2 ^ g.
Proof.
  intros Hg. unfold shl. rewrite Z.shiftl_1_l.
  apply wrap_in_range. unfold in_range.
  assert (2 ^ g < 2 ^ 31) by (apply Z.pow_lt_mono_r; lia).
  assert (0 < 2 ^ g) by (apply Z.pow_pos_nonneg; lia).
  lia.
Qed.

Lemma shl_1_31 : shl 1 31 = - 2 ^ 31.
Proof. reflexivity. Qed.

Lemma shl_1_spec g i :
  0 <= g <= 31 -> 0 <= i ->
  Z.testbit (shl 1 g) i = ((i =? g) || ((g =? 31) && (31 <=? i)))%bool.
Proof.
  intros Hg Hi.
  destruct (Z.eq_dec g 31) as [-> | Hne].
  - rewrite shl_1_31.
    replace (- 2 ^ 31) with (Z.lnot (Z.ones 31)) by reflexivity.
    rewrite Z.lnot_spec by lia. rewrite Z.testbit_ones by lia.
    destruct (Z.leb_spec 31 i), (Z.eqb_spec i 31), (Z.leb_spec 0 i),
      (Z.ltb_spec i 31); simpl; try lia; reflexivity.
  - rewrite shl_1_lt31 by lia. rewrite Z.pow2_bits_eqb by lia.
    replace (g =? 31) with false by (symmetry; apply Z.eqb_neq; lia).
    rewrite Z.eqb_sym. now rewrite orb_false_r.
Qed.

Lemma shl_1_sign_extended g : 0 <= g <= 31 -> sign_extended (shl 1 g).
Proof.
  intros Hg i Hi. rewrite !shl_1_spec by lia.
  destruct (Z.eqb_spec i g), (Z.eqb_spec g 31), (Z.leb_spec 31 i),
    (Z.eqb_spec 31 g), (Z.leb_spec 31 31); simpl; try lia; reflexivity.
Qed.

(** Two different valid groups never share a bit. *)
Lemma shl_1_disjoint g g' i :
  0 <= g <= 31 -> 0 <= g' <= 31 -> g <> g' -> 0 <= i ->
  Z.testbit (shl 1 g) i = true -> Z.testbit (shl 1 g') i = false.
Proof.
  intros Hg Hg' Hne Hi. rewrite !shl_1_spec by lia.
  destruct (Z.eqb_spec i g), (Z.eqb_spec g 31), (Z.leb_spec 31 i),
    (Z.eqb_spec i g'), (Z.eqb_spec g' 31); simpl; try lia; auto.
Qed.

(** Subtracting a mask whose bits are all set clears exactly those
    bits, without leaving the 32-bit range. *)
Lemma sub_clears x s :
  sign_extended x -> sign_extended s -> Z.ldiff s x = 0 ->
  sub x s = Z.ldiff x s.
Proof.
  intros Hx Hs Hsub. unfold sub.
  rewrite (Z.sub_nocarry_ldiff x s Hsub).
  apply wrap_in_range, sign_extended_in_range.
  intros i Hi. rewrite !Z.ldiff_spec.
  now rewrite (Hx i Hi), (Hs i Hi).
Qed.

End Int32Facts.

(** ** Association lists as maps *)

Section IntMapFacts.
Import IntMap.
Local Open Scope Z_scope.

Lemma find_set_eq k v m : find k (set k v m) = Some v.
Proof.
  induction m as [| [k' v'] m IH]; simpl.
  - now rewrite Z.eqb_refl.
  - destruct (Z.ltb_spec k k'); simpl.
    + now rewrite Z.eqb_refl.
    + destruct (Z.eqb_spec k k'); simpl.
      * now rewrite Z.eqb_refl.
      * destruct (Z.eqb_spec k k'); [lia | exact IH].
Qed.

Lemma find_set_ne k k0 v m : k0 <> k -> find k0 (set k v m) = find k0 m.
Proof.
  intros Hne. induction m as [| [k' v'] m IH]; simpl.
  - destruct (Z.eqb_spec k0 k); [lia | reflexivity].
  - destruct (Z.ltb_spec k k'); simpl.
    + destruct (Z.eqb_spec k0 k); [lia | reflexivity].
    + destruct (Z.eqb_spec k k') as [<- | Hkk']; simpl.
      * destruct (Z.eqb_spec k0 k); [lia | reflexivity].
      * now rewrite IH.
Qed.

Lemma find_In k v m : find k m = Some v -> In (k, v) m.
Proof.
  induction m as [| [k' v'] m IH]; simpl; [discriminate |].
  destruct (Z.eqb_spec k k') as [-> | Hne].
  - intros [= ->]. now left.
  - intros H. right. now apply IH.
Qed.

Lemma In_set k v m e : In e (set k v m) -> e = (k, v) \/ In e m.
Proof.
  induction m as [| [k' v'] m IH]; simpl.
  - intros [<- | []]. now left.
  - destruct (Z.ltb_spec k k'); simpl.
    + intros [<- | H']; auto.
    + destruct (Z.eqb_spec k k'); simpl.
      * intros [<- | H']; auto.
      * intros [<- | H']; auto. destruct (IH H'); auto.
Qed.

Lemma union_values_set_fresh k v m :
  find k m = None -> union_values (set k v m) = Z.lor v (union_values m).
Proof.
  unfold union_values.
  induction m as [| [k' v'] m IH]; simpl; [reflexivity |].
  destruct (Z.eqb_spec k k') as [-> | Hne]; [discriminate |].
  intros Hf. destruct (Z.ltb_spec k k'); simpl; [reflexivity |].
  rewrite (IH Hf). rewrite !Z.lor_assoc. f_equal. apply Z.lor_comm.
Qed.

Lemma union_values_absorb k v m :
  In (k, v) m -> Z.lor v (union_values m) = union_values m.
Proof.
  unfold union_values.
  induction m as [| [k' v'] m IH]; simpl; [intros [] |].
  intros [[= -> ->] | Hin].
  - now rewrite Z.lor_assoc, Z.lor_diag.
  - rewrite Z.lor_assoc, (Z.lor_comm v v'), <- Z.lor_assoc.
    now rewrite (IH Hin).
Qed.

Lemma union_values_set_lor k v0 s m :
  find k m = Some v0 ->
  union_values (set k (Z.lor v0 s) m) = Z.lor s (union_values m).
Proof.
  induction m as [| [k' v'] m IH]; simpl; [discriminate |].
  intros Hf.
  assert (Habs : Z.lor v0 (union_values ((k', v') :: m))
                 = union_values ((k', v') :: m)).
  { apply (union_values_absorb k). apply find_In. simpl. exact Hf. }
  destruct (Z.ltb_spec k k').
  - change (Z.lor (Z.lor v0 s) (union_values ((k', v') :: m))
            = Z.lor s (union_values ((k', v') :: m))).
    rewrite (Z.lor_comm v0 s), <- Z.lor_assoc. now rewrite Habs.
  - destruct (Z.eqb_spec k k') as [-> | Hne].
    + injection Hf as ->. unfold union_values. simpl.
      rewrite (Z.lor_comm v0 s). now rewrite Z.lor_assoc.
    + unfold union_values in *. simpl. rewrite (IH Hf).
      rewrite !Z.lor_assoc. f_equal. apply Z.lor_comm.
Qed.

(** Every bit of the union comes from some entry, and conversely. *)
Lemma union_values_bit m i :
  Z.testbit (union_values m) i = true ->
  exists k v, In (k, v) m /\ Z.testbit v i = true.
Proof.
  unfold union_values.
  induction m as [| [k v] m IH]; simpl.
  - rewrite Z.bits_0. discriminate.
  - rewrite Z.lor_spec. intros [Hv | Hm]%orb_true_iff.
    + exists k, v. auto.
    + destruct (IH Hm) as (k0 & v0 & Hin & Hb). exists k0, v0. auto.
Qed.

Lemma union_values_covers k v m i :
  In (k, v) m -> Z.testbit v i = true ->
  Z.testbit (union_values m) i = true.
Proof.
  intros Hin Hb. rewrite <- (union_values_absorb k v m Hin).
  rewrite Z.lor_spec, Hb. reflexivity.
Qed.

(** [set] keeps the keys strictly increasing. *)
Lemma set_sorted k v m : sorted m -> sorted (set k v m).
Proof.
  unfold sorted.
  induction m as [| [k' v'] m IH]; simpl; intros Hs.
  - repeat constructor.
  - inversion Hs as [| ? ? Hs' Hall]; subst.
    destruct (Z.ltb_spec k k').
    + simpl. constructor; [exact Hs |].
      constructor; [assumption |].
      eapply List.Forall_impl; [| exact Hall]. simpl. intros; lia.
    + destruct (Z.eqb_spec k k') as [-> | Hne]; simpl.
      * constructor; assumption.
      * constructor; [now apply IH |].
        rewrite List.Forall_forall in *. intros x Hx.
        apply in_map_iff in Hx. destruct Hx as ([k0 v0] & <- & Hin).
        apply In_set in Hin. destruct Hin as [[= -> ->] | Hin].
        -- simpl. lia.
        -- apply Hall. apply in_map_iff. now exists (k0, v0).
Qed.

End IntMapFacts.

(** ** [initialize]: validation of the contraction entries *)

Section InitializeFacts.
Local Open Scope Z_scope.

Lemma bad_groupb_spec c : bad_groupb c = true <-> bad_group c.
Proof.
  unfold bad_groupb, bad_group.
  rewrite orb_true_iff, !Z.ltb_lt. reflexivity.
Qed.

Lemma bad_entryb_spec numCopies c :
  bad_entryb numCopies c = true <-> bad_entry numCopies c.
Proof.
  unfold bad_entryb, bad_entry, bad_copies.
  rewrite !orb_true_iff, bad_groupb_spec, !Z.ltb_lt. tauto.
Qed.

(** What one pass through the loop body does to a rejected and to an
    accepted entry. *)
Lemma add_contraction_bad numCopies c st :
  bad_entryb numCopies c = true ->
  add_contraction numCopies c st = Thrown (rejection c) st.
Proof.
  destruct st as [self mx], c as [group copies].
  unfold add_contraction, rejection, bad_entryb, bad_groupb. simpl.
  rewrite !Z.gtb_ltb.
  destruct (group <? 0), (31 <? group), (copies <? 0), (numCopies <? copies);
    simpl; intros; try reflexivity; discriminate.
Qed.

Lemma add_contraction_good numCopies c st :
  bad_entryb numCopies c = false ->
  exists st', add_contraction numCopies c st = Done st'.
Proof.
  destruct st as [self mx], c as [group copies].
  unfold add_contraction, bad_entryb, bad_groupb. simpl.
  rewrite !Z.gtb_ltb.
  destruct (group <? 0), (31 <? group), (copies <? 0), (numCopies <? copies);
    simpl; intros; try discriminate.
  destruct (negb (copies =? numCopies)); [| eauto].
  destruct (IntMap.find copies (groupsByCopies self)); eauto.
Qed.

Lemma contraction_loop_outcome numCopies l st :
  match first_bad numCopies l with
  | Some c => throws (for_each (add_contraction numCopies) l st) (rejection c)
  | None => exists st', for_each (add_contraction numCopies) l st = Done st'
  end.
Proof.
  unfold first_bad. revert st.
  induction l as [| c l IH]; intros st; simpl.
  - eauto.
  - destruct (bad_entryb numCopies c) eqn:Hc.
    + rewrite (add_contraction_bad _ _ _ Hc). simpl. now exists st.
    + destruct (add_contraction_good numCopies c st Hc) as [st' ->].
      simpl. apply IH.
Qed.

(** A negative number of copies: the first [resize] throws. *)
Lemma initialize_negative_copies system integrator self :
  getNumCopies integrator < 0 ->
  initialize system integrator self
  = Thrown Messages.length_error (self, None).
Proof.
  intros HP. unfold initialize.
  destruct (Z.ltb_spec (getNumCopies integrator) 0); [reflexivity | lia].
Qed.

Lemma initialize_done_copies system integrator self s :
  initialize system integrator self = Done s -> 0 <= getNumCopies integrator.
Proof.
  unfold initialize.
  destruct (Z.ltb_spec (getNumCopies integrator) 0); [discriminate | lia].
Qed.

Lemma initialize_outcome system integrator self :
  0 <= getNumCopies integrator ->
  match first_bad (getNumCopies integrator) (getContractions integrator) with
  | Some c => throws (initialize system integrator self) (rejection c)
  | None => exists s, initialize system integrator self = Done s
  end.
Proof.
  intros HP. unfold initialize.
  destruct (Z.ltb_spec (getNumCopies integrator) 0) as [Hneg | _]; [lia |].
  match goal with
  | |- context [for_each ?b ?l ?s] =>
      pose proof (contraction_loop_outcome (getNumCopies integrator) l s) as Hl;
      destruct (first_bad (getNumCopies integrator) l) as [c |];
      destruct (for_each b l s) as [[self' mx] | msg [self' mx]]
  end.
  - destruct Hl as [s Hs]. discriminate.
  - destruct Hl as [s Hs]. injection Hs as -> _. unfold throws. eauto.
  - eauto.
  - destruct Hl as [s Hs]. discriminate.
Qed.

Lemma first_bad_Some numCopies l c :
  first_bad numCopies l = Some c -> In c l /\ bad_entry numCopies c.
Proof.
  unfold first_bad. intros Hf. apply List.find_some in Hf.
  now rewrite bad_entryb_spec in Hf.
Qed.

Lemma first_bad_None numCopies l :
  first_bad numCopies l = None <-> ~ Exists (bad_entry numCopies) l.
Proof.
  unfold first_bad. rewrite List.Exists_exists. split.
  - intros Hf (c & Hin & Hbad).
    pose proof (List.find_none _ _ Hf c Hin) as Hc.
    apply bad_entryb_spec in Hbad. congruence.
  - intros Hno. destruct (List.find (bad_entryb numCopies) l) as [c |] eqn:Hf;
      [| reflexivity].
    exfalso. apply Hno. exists c. now apply first_bad_Some.
Qed.

(** C8, as amended.  For a number of copies [P >= 0], [initialize]
    throws if and only if some contraction entry has a force group
    outside [0, 31] or a copy count outside [0, P].  The exception is
    the one of the first such entry in the map's order: "Force group
    must be between 0 and 31" when its group is bad, the copy-count
    message otherwise.  With no such entry [initialize] completes. *)
Theorem initialize_throws_iff_bad_entry system integrator self :
  let P := getNumCopies integrator in
  let contractions := getContractions integrator in
  0 <= P ->
  ((exists msg, throws (initialize system integrator self) msg)
     <-> Exists (bad_entry P) contractions)
  /\ ((exists s, initialize system integrator self = Done s)
     <-> Forall (fun c => ~ bad_entry P c) contractions)
  /\ (forall c, first_bad P contractions = Some c ->
        throws (initialize system integrator self)
          (if bad_groupb c then Messages.bad_force_group
           else Messages.bad_copies))
  /\ (throws (initialize system integrator self) Messages.bad_force_group ->
        Exists bad_group contractions)
  /\ (throws (initialize system integrator self) Messages.bad_copies ->
        Exists (bad_copies P) contractions).
Proof.
  intros P contractions HP.
  pose proof (initialize_outcome system integrator self HP) as Hout.
  fold P contractions in Hout.
  destruct (first_bad P contractions) as [c |] eqn:Hfb.
  - destruct (first_bad_Some _ _ _ Hfb) as [Hin Hbad].
    assert (Hex : Exists (bad_entry P) contractions)
      by (apply List.Exists_exists; eauto).
    destruct Hout as [s Hs].
    repeat split.
    + intros _. exact Hex.
    + intros _. exists (rejection c), s. exact Hs.
    + intros [s' Hs']. congruence.
    + intros Hall. exfalso. rewrite List.Forall_forall in Hall.
      now apply (Hall c).
    + intros c' [= <-]. exists s. exact Hs.
    + intros [s' Hs']. rewrite Hs in Hs'. injection Hs' as Hmsg _.
      unfold rejection in Hmsg.
      destruct (bad_groupb c) eqn:Hg; [| discriminate].
      apply List.Exists_exists. exists c. split; [exact Hin |].
      now apply bad_groupb_spec.
    + intros [s' Hs']. rewrite Hs in Hs'. injection Hs' as Hmsg _.
      unfold rejection in Hmsg.
      destruct (bad_groupb c) eqn:Hg; [discriminate |].
      apply List.Exists_exists. exists c. split; [exact Hin |].
      destruct Hbad as [Hbad | Hbad]; [| exact Hbad].
      apply bad_groupb_spec in Hbad. congruence.
  - apply first_bad_None in Hfb. destruct Hout as [s Hs].
    repeat split.
    + intros [msg [s' Hs']]. congruence.
    + intros Hex. contradiction.
    + intros _. apply List.Forall_forall. intros c Hin Hbad.
      apply Hfb. apply List.Exists_exists. eauto.
    + intros _. eauto.
    + intros c [=].
    + intros [s' Hs']. congruence.
    + intros [s' Hs']. congruence.
Qed.

End InitializeFacts.

Section InitializeErrorExamples.
Local Open Scope Z_scope.

(** The theorem C8 for eight copies and the entry [(32, 8)], the first
    and only rejected one: the force-group message. *)
Lemma initialize_throws_iff_bad_entry_witness :
  0 <= getNumCopies group_32_uncontracted
  /\ first_bad 8 (getContractions group_32_uncontracted) = Some (32, 8)
  /\ throws (initialize one_particle group_32_uncontracted newKernel)
       Messages.bad_force_group.
Proof.
  assert (HP : 0 <= getNumCopies group_32_uncontracted) by (simpl; lia).
  split; [exact HP |]. split; [reflexivity |].
  destruct (initialize_throws_iff_bad_entry one_particle
              group_32_uncontracted newKernel HP)
    as (_ & _ & Hfirst & _).
  exact (Hfirst (32, 8) eq_refl).
Defined.

(** C8 as stated fails for a negative number of copies: with no
    contraction entry at all, hence none that is bad, [initialize] does
    not complete.  [positions.resize(-1)] throws [std::length_error]
    before the generator is seeded and before the loop over the
    contractions. *)
Lemma negative_copies_throw_without_bad_entry :
  ~ Exists (bad_entry (getNumCopies minus_one_copy))
      (getContractions minus_one_copy)
  /\ initialize one_particle minus_one_copy newKernel
     = Thrown Messages.length_error (newKernel, None)
  /\ ~ exists s, initialize one_particle minus_one_copy newKernel = Done s.
Proof.
  split; [intros Hex; inversion Hex |].
  split; [reflexivity |].
  intros [s Hs]. discriminate Hs.
Qed.

End InitializeErrorExamples.

(** ** [initialize]: the schedule it builds *)

Section ScheduleFacts.
Local Open Scope Z_scope.

Lemma keys_determine_values (l : list (Z * Z)) k v1 v2 :
  List.NoDup (map fst l) -> In (k, v1) l -> In (k, v2) l -> v1 = v2.
Proof.
  induction l as [| [k0 v0] l IH]; simpl; [intros _ [] |].
  intros Hnd H1 H2. apply List.NoDup_cons_iff in Hnd. destruct Hnd as [Hnotin Hnd].
  destruct H1 as [H1 | H1], H2 as [H2 | H2].
  - congruence.
  - exfalso. injection H1 as -> ->. apply Hnotin. apply in_map_iff.
    now exists (k, v2).
  - exfalso. injection H2 as -> ->. apply Hnotin. apply in_map_iff.
    now exists (k, v1).
  - now apply IH.
Qed.

Lemma schedule_invariant_mono numCopies done done' self :
  (forall e, In e done -> In e done') ->
  schedule_invariant numCopies done self ->
  schedule_invariant numCopies done' self.
Proof.
  intros Hsub (Hg & Hs & Hb). repeat split; try assumption.
  intros copies mask i Hin Hi Hbit.
  destruct (Hb copies mask i Hin Hi Hbit) as (group & ? & ? & ? & ?).
  exists group. auto.
Qed.

(** A mask bit of the schedule never belongs to a group that is still to
    come. *)
Lemma schedule_bit_fresh numCopies done self group i :
  schedule_invariant numCopies done self ->
  ~ In group (map fst done) -> 0 <= group <= 31 -> 0 <= i ->
  Z.testbit (Int32.shl 1 group) i = true ->
  Z.testbit (IntMap.union_values (groupsByCopies self)) i = false.
Proof.
  intros (_ & _ & Hb) Hfresh Hg Hi Hbit.
  destruct (Z.testbit (IntMap.union_values (groupsByCopies self)) i) eqn:HU;
    [| reflexivity].
  destruct (union_values_bit _ _ HU) as (copies & mask & Hin & Hm).
  destruct (Hb copies mask i Hin Hi Hm) as (g0 & Hin0 & _ & Hg0 & Hbit0).
  assert (Hne : g0 <> group).
  { intros ->. apply Hfresh. apply in_map_iff. now exists (group, copies). }
  rewrite (shl_1_disjoint g0 group i Hg0 Hg Hne Hi Hbit0) in Hbit.
  discriminate.
Qed.

Lemma lnot_sign_extended x :
  Int32.sign_extended x -> Int32.sign_extended (Z.lnot x).
Proof.
  intros Hx i Hi. rewrite !Z.lnot_spec by lia. now rewrite (Hx i Hi).
Qed.

Lemma lor_sign_extended x y :
  Int32.sign_extended x -> Int32.sign_extended y ->
  Int32.sign_extended (Z.lor x y).
Proof.
  intros Hx Hy i Hi. rewrite !Z.lor_spec. now rewrite (Hx i Hi), (Hy i Hi).
Qed.

(** One accepted entry keeps the invariant. *)
Lemma add_contraction_invariant numCopies done group copies self mx self' mx' :
  schedule_invariant numCopies done self ->
  ~ In group (map fst done) ->
  add_contraction numCopies (group, copies) (self, mx) = Done (self', mx') ->
  schedule_invariant numCopies ((group, copies) :: done) self'.
Proof.
  intros Hinv Hfresh. unfold add_contraction. simpl.
  rewrite !Z.gtb_ltb.
  destruct (Z.ltb_spec group 0); simpl; [discriminate |].
  destruct (Z.ltb_spec 31 group); simpl; [discriminate |].
  destruct (Z.ltb_spec copies 0); simpl; [discriminate |].
  destruct (Z.ltb_spec numCopies copies); simpl; [discriminate |].
  destruct (Z.eqb_spec copies numCopies) as [-> | Hne]; simpl.
  { intros [= <- _]. eapply schedule_invariant_mono; [| exact Hinv].
    intros e He. now right. }
  assert (Hg : 0 <= group <= 31) by lia.
  set (bit := Int32.shl 1 group).
  set (U := IntMap.union_values (groupsByCopies self)).
  assert (Hdisj : forall i, 0 <= i -> Z.testbit bit i = true ->
                            Z.testbit U i = false).
  { intros i Hi Hbit.
    exact (schedule_bit_fresh _ _ _ _ _ Hinv Hfresh Hg Hi Hbit). }
  destruct Hinv as (HgNC & HsU & Hbits).
  fold U in HgNC, HsU.
  assert (Hsub : Int32.sub (groupsNotContracted self) bit
                 = Z.lnot (Z.lor bit U)).
  { rewrite HgNC. rewrite sub_clears.
    - apply Z.bits_inj'. intros i Hi.
      rewrite Z.ldiff_spec, !Z.lnot_spec, Z.lor_spec by lia.
      destruct (Z.testbit U i), (Z.testbit bit i); reflexivity.
    - now apply lnot_sign_extended.
    - now apply shl_1_sign_extended.
    - apply Z.bits_inj'. intros i Hi.
      rewrite Z.ldiff_spec, Z.lnot_spec, Z.bits_0 by lia.
      destruct (Z.testbit bit i) eqn:Hb; [| reflexivity].
      now rewrite (Hdisj i Hi Hb). }
  assert (HsU' : Int32.sign_extended (Z.lor bit U)).
  { apply lor_sign_extended; [now apply shl_1_sign_extended | exact HsU]. }
  destruct (IntMap.find copies (groupsByCopies self)) as [mask |] eqn:Hfind;
    intros [= <- _]; unfold schedule_invariant; simpl.
  - rewrite (union_values_set_lor _ _ _ _ Hfind). fold U.
    repeat split; [exact Hsub | exact HsU' |].
    intros c m i Hin Hi Hm. apply In_set in Hin.
    destruct Hin as [[= -> ->] | Hin].
    + rewrite Z.lor_spec in Hm. apply orb_true_iff in Hm.
      destruct Hm as [Hm | Hm].
      * apply find_In in Hfind.
        destruct (Hbits _ _ _ Hfind Hi Hm) as (g0 & ? & ? & ? & ?).
        exists g0. split; [now right |]. repeat split; auto; lia.
      * exists group. split; [now left |]. repeat split; auto; lia.
    + destruct (Hbits _ _ _ Hin Hi Hm) as (g0 & ? & ? & ? & ?).
      exists g0. split; [now right |]. repeat split; auto; lia.
  - rewrite (union_values_set_fresh _ _ _ Hfind). fold U.
    repeat split; [exact Hsub | exact HsU' |].
    intros c m i Hin Hi Hm. apply In_set in Hin.
    destruct Hin as [[= -> ->] | Hin].
    + exists group. split; [now left |]. repeat split; auto; lia.
    + destruct (Hbits _ _ _ Hin Hi Hm) as (g0 & ? & ? & ? & ?).
      exists g0. split; [now right |]. repeat split; auto; lia.
Qed.

Lemma contraction_loop_invariant numCopies l :
  forall done self mx self' mx',
    List.NoDup (map fst l) ->
    (forall g, In g (map fst l) -> ~ In g (map fst done)) ->
    schedule_invariant numCopies done self ->
    for_each (add_contraction numCopies) l (self, mx) = Done (self', mx') ->
    schedule_invariant numCopies (l ++ done) self'.
Proof.
  induction l as [| [group copies] l IH];
    intros done self mx self' mx' Hnd Hfresh Hinv; cbn [for_each app].
  - intros Heq. injection Heq as <- _. exact Hinv.
  - destruct (add_contraction numCopies (group, copies) (self, mx))
      as [[self1 mx1] | msg s] eqn:Hstep; simpl; [| discriminate].
    intros Hloop. simpl in Hnd. apply List.NoDup_cons_iff in Hnd.
    destruct Hnd as [Hnotin Hnd].
    assert (Hinv1 : schedule_invariant numCopies ((group, copies) :: done)
                      self1).
    { eapply add_contraction_invariant; [exact Hinv | | exact Hstep].
      apply Hfresh. now left. }
    assert (Hfresh1 : forall g, In g (map fst l) ->
                                ~ In g (map fst ((group, copies) :: done))).
    { intros g Hg [<- | Hin]; [contradiction |].
      apply (Hfresh g); [now right | exact Hin]. }
    pose proof (IH _ _ _ _ _ Hnd Hfresh1 Hinv1 Hloop) as Hfin.
    eapply schedule_invariant_mono; [| exact Hfin].
    intros e He. apply in_app_or in He. destruct He as [He | [<- | He]].
    + right. apply in_or_app. now left.
    + now left.
    + right. apply in_or_app. now right.
Qed.

Lemma initial_schedule_invariant numCopies self :
  groupsByCopies self = IntMap.empty ->
  schedule_invariant numCopies []
    (with_groups self (groupsByCopies self) (-1)).
Proof.
  intros Hempty. unfold schedule_invariant. simpl. rewrite Hempty. simpl.
  repeat split.
  - intros i Hi. now rewrite !Z.bits_0.
  - intros ? ? ? [].
Qed.

(** The schedule at the end of a successful [initialize]. *)
Lemma initialize_schedule system integrator self self' seed :
  List.NoDup (map fst (getContractions integrator)) ->
  groupsByCopies self = IntMap.empty ->
  initialize system integrator self = Done (self', seed) ->
  exists loop,
    schedule_invariant (getNumCopies integrator) (getContractions integrator)
      loop
    /\ groupsByCopies self' = groupsByCopies loop
    /\ groupsNotContracted self'
       = Z.land (groupsNotContracted loop)
           (getIntegrationForceGroups integrator).
Proof.
  intros Hnd Hempty. unfold initialize.
  destruct (getNumCopies integrator <? 0); [discriminate |].
  match goal with
  | |- context [for_each ?b ?l (?s, ?m)] =>
      destruct (for_each b l (s, m)) as [[loop mx] | msg [loop mx]] eqn:Hloop
  end; [| discriminate].
  intros [= <- _]. exists loop. split; [| split; reflexivity].
  rewrite <- (app_nil_r (getContractions integrator)).
  eapply contraction_loop_invariant; [exact Hnd | | | exact Hloop].
  - intros g _ [].
  - apply (initial_schedule_invariant (getNumCopies integrator)
             (with_beads self _ _ _)). exact Hempty.
Qed.

(** The schedule that [initialize] builds is a [std::map]: its keys are
    strictly increasing. *)
Lemma add_contraction_sorted numCopies c self mx self' mx' :
  IntMap.sorted (groupsByCopies self) ->
  add_contraction numCopies c (self, mx) = Done (self', mx') ->
  IntMap.sorted (groupsByCopies self').
Proof.
  intros Hs. unfold add_contraction.
  destruct ((fst c <? 0) || (fst c >? 31))%bool; [discriminate |].
  destruct ((snd c <? 0) || (snd c >? numCopies))%bool; [discriminate |].
  destruct (negb (snd c =? numCopies)).
  - destruct (IntMap.find (snd c) (groupsByCopies self));
      intros [= <- _]; simpl; now apply set_sorted.
  - now intros [= <- _].
Qed.

Lemma contraction_loop_sorted numCopies l : forall s m s' m',
  IntMap.sorted (groupsByCopies s) ->
  for_each (add_contraction numCopies) l (s, m) = Done (s', m') ->
  IntMap.sorted (groupsByCopies s').
Proof.
  induction l as [| c l IH]; intros s m s' m' Hs; cbn [for_each].
  - now intros [= <- _].
  - destruct (add_contraction numCopies c (s, m))
      as [[s1 m1] | msg st1] eqn:Hstep; simpl; [| discriminate].
    apply IH. eapply add_contraction_sorted; eassumption.
Qed.

Lemma initialize_schedule_sorted system integrator self self' seed :
  groupsByCopies self = IntMap.empty ->
  initialize system integrator self = Done (self', seed) ->
  IntMap.sorted (groupsByCopies self').
Proof.
  intros Hempty. unfold initialize.
  destruct (getNumCopies integrator <? 0); [discriminate |].
  match goal with
  | |- context [for_each ?b ?l ?st] =>
      destruct (for_each b l st) as [[loop mx] | msg [loop mx]] eqn:Hrun;
        [| discriminate]
  end.
  intros [= <- _]. simpl.
  eapply contraction_loop_sorted; [| exact Hrun].
  simpl. rewrite Hempty. constructor.
Qed.

(** Every accepted entry is recorded in the schedule. *)
Lemma add_contraction_records numCopies done group copies self mx self' mx' :
  schedule_records numCopies done self ->
  add_contraction numCopies (group, copies) (self, mx) = Done (self', mx') ->
  schedule_records numCopies ((group, copies) :: done) self'.
Proof.
  intros Hrec. unfold add_contraction. simpl.
  rewrite !Z.gtb_ltb.
  destruct (Z.ltb_spec group 0); simpl; [discriminate |].
  destruct (Z.ltb_spec 31 group); simpl; [discriminate |].
  destruct (Z.ltb_spec copies 0); simpl; [discriminate |].
  destruct (Z.ltb_spec numCopies copies); simpl; [discriminate |].
  destruct (Z.eqb_spec copies numCopies) as [-> | Hne]; simpl.
  { intros [= <- _] g c [[= <- <-] | Hin] Hc; [contradiction |].
    now apply Hrec. }
  assert (Hbit : Z.testbit (Int32.shl 1 group) group = true).
  { rewrite shl_1_spec by lia. now rewrite Z.eqb_refl. }
  destruct (IntMap.find copies (groupsByCopies self)) as [mask |] eqn:Hfind;
    intros [= <- _] g c [[= <- <-] | Hin] Hc; simpl.
  - exists (Z.lor mask (Int32.shl 1 group)). rewrite find_set_eq.
    split; [reflexivity |]. rewrite Z.lor_spec, Hbit. apply orb_true_r.
  - destruct (Hrec g c Hin Hc) as (m0 & Hf0 & Hb0).
    destruct (Z.eq_dec c copies) as [-> | Hcc].
    + rewrite Hfind in Hf0. injection Hf0 as <-.
      exists (Z.lor mask (Int32.shl 1 group)). rewrite find_set_eq.
      split; [reflexivity |]. now rewrite Z.lor_spec, Hb0.
    + exists m0. now rewrite find_set_ne by exact Hcc.
  - exists (Int32.shl 1 group). now rewrite find_set_eq.
  - destruct (Hrec g c Hin Hc) as (m0 & Hf0 & Hb0).
    destruct (Z.eq_dec c copies) as [-> | Hcc]; [congruence |].
    exists m0. now rewrite find_set_ne by exact Hcc.
Qed.

Lemma contraction_loop_records numCopies l :
  forall done self mx self' mx',
    schedule_records numCopies done self ->
    for_each (add_contraction numCopies) l (self, mx) = Done (self', mx') ->
    schedule_records numCopies (l ++ done) self'.
Proof.
  induction l as [| [group copies] l IH];
    intros done self mx self' mx' Hrec; cbn [for_each app].
  - intros Heq. injection Heq as <- _. exact Hrec.
  - destruct (add_contraction numCopies (group, copies) (self, mx))
      as [[self1 mx1] | msg s] eqn:Hstep; simpl; [| discriminate].
    intros Hloop.
    pose proof (add_contraction_records _ _ _ _ _ _ _ _ Hrec Hstep) as Hrec1.
    pose proof (IH _ _ _ _ _ Hrec1 Hloop) as Hfin.
    intros g c Hin Hc. apply (Hfin g c); [| exact Hc].
    destruct Hin as [[= <- <-] | Hin].
    + apply in_or_app. right. now left.
    + apply in_app_or in Hin. apply in_or_app.
      destruct Hin as [Hin | Hin]; [now left | right; now right].
Qed.

Lemma initialize_records system integrator self self' seed :
  initialize system integrator self = Done (self', seed) ->
  schedule_records (getNumCopies integrator) (getContractions integrator)
    self'.
Proof.
  unfold initialize.
  destruct (getNumCopies integrator <? 0); [discriminate |].
  match goal with
  | |- context [for_each ?b ?l (?s, ?m)] =>
      destruct (for_each b l (s, m)) as [[loop mx] | msg [loop mx]] eqn:Hloop
  end; [| discriminate].
  intros [= <- _].
  rewrite <- (app_nil_r (getContractions integrator)).
  intros g c Hin Hc.
  destruct (contraction_loop_records _ _ _ _ _ _ _
              (fun g' c' (Hno : In (g', c') []) => False_ind _ Hno) Hloop
              g c Hin Hc) as (mask & Hfind & Hbit).
  exists mask. split; [exact Hfind | exact Hbit].
Qed.

(** C5, as amended.  After a successful [initialize] of a fresh kernel,
    the groups not contracted together with the masks of the schedule
    cover the integration groups, no mask meets [groupsNotContracted],
    and masks of different copy counts are disjoint.
    [groupsNotContracted] is exactly the integration groups outside the
    masks.  The masks are not restricted to the integration groups: the
    mask of a copy count holds, among the groups 0 to 31, exactly the
    groups listed with that copy count (other than [P]), integrated or
    not.  The family is therefore a partition of the integration groups
    when every group that is contracted is integrated.  A [std::map]
    holds each force group once: that is the hypothesis on the
    contractions. *)
Theorem initialize_partitions_groups system integrator self self' seed :
  List.NoDup (map fst (getContractions integrator)) ->
  groupsByCopies self = IntMap.empty ->
  initialize system integrator self = Done (self', seed) ->
  let integrationGroups := getIntegrationForceGroups integrator in
  Z.land (Z.lor (groupsNotContracted self')
                (IntMap.union_values (groupsByCopies self')))
         integrationGroups = integrationGroups
  /\ (forall copies mask,
        In (copies, mask) (groupsByCopies self') ->
        Z.land (groupsNotContracted self') mask = 0)
  /\ (forall copies1 mask1 copies2 mask2,
        In (copies1, mask1) (groupsByCopies self') ->
        In (copies2, mask2) (groupsByCopies self') ->
        copies1 <> copies2 ->
        Z.land mask1 mask2 = 0)
  /\ groupsNotContracted self'
     = Z.land (Z.lnot (IntMap.union_values (groupsByCopies self')))
         integrationGroups
  /\ (forall copies mask group,
        In (copies, mask) (groupsByCopies self') -> 0 <= group <= 31 ->
        Z.testbit mask group = true ->
        In (group, copies) (getContractions integrator)
        /\ copies <> getNumCopies integrator)
  /\ (forall group copies,
        In (group, copies) (getContractions integrator) ->
        copies <> getNumCopies integrator ->
        exists mask,
          In (copies, mask) (groupsByCopies self')
          /\ Z.testbit mask group = true)
  /\ ((forall group copies,
         In (group, copies) (getContractions integrator) ->
         copies <> getNumCopies integrator ->
         Z.testbit integrationGroups group = true) ->
      forall group, 0 <= group <= 31 ->
        Z.testbit (Z.lor (groupsNotContracted self')
                     (IntMap.union_values (groupsByCopies self'))) group
        = Z.testbit integrationGroups group).
Proof.
  intros Hnd Hempty Hinit IG.
  pose proof (initialize_records _ _ _ _ _ Hinit) as Hrec.
  unfold schedule_records in Hrec.
  destruct (initialize_schedule _ _ _ _ _ Hnd Hempty Hinit)
    as (loop & (HgNC & _ & Hbits) & Hsched & HnotC).
  rewrite Hsched in *. rewrite HnotC. clear Hsched HnotC.
  fold IG. rewrite HgNC.
  set (U := IntMap.union_values (groupsByCopies loop)).
  assert (Hfrom : forall copies mask group,
            In (copies, mask) (groupsByCopies loop) -> 0 <= group <= 31 ->
            Z.testbit mask group = true ->
            In (group, copies) (getContractions integrator)
            /\ copies <> getNumCopies integrator).
  { intros copies mask group Hin Hg Hm.
    destruct (Hbits _ _ _ Hin (proj1 Hg) Hm) as (g0 & Hg0in & Hne & Hg0 & Hb0).
    rewrite shl_1_spec in Hb0 by lia.
    assert (group = g0) as ->.
    { apply orb_true_iff in Hb0. destruct Hb0 as [Hb0 | Hb0].
      - now apply Z.eqb_eq in Hb0.
      - apply andb_true_iff in Hb0. destruct Hb0 as [H31 Hle].
        apply Z.eqb_eq in H31. apply Z.leb_le in Hle. lia. }
    split; assumption. }
  split; [| split; [| split; [| split; [| split; [| split]]]]].
  - apply Z.bits_inj'. intros i Hi.
    rewrite !Z.land_spec, Z.lor_spec, Z.land_spec, Z.lnot_spec by lia.
    destruct (Z.testbit U i), (Z.testbit IG i); reflexivity.
  - intros copies mask Hin. apply Z.bits_inj'. intros i Hi.
    rewrite !Z.land_spec, Z.lnot_spec, Z.bits_0 by lia.
    destruct (Z.testbit mask i) eqn:Hm; [| now rewrite andb_false_r].
    unfold U. rewrite (union_values_covers _ _ _ _ Hin Hm). reflexivity.
  - intros c1 m1 c2 m2 Hin1 Hin2 Hne. apply Z.bits_inj'. intros i Hi.
    rewrite Z.land_spec, Z.bits_0.
    destruct (Z.testbit m1 i) eqn:Hb1; [| reflexivity].
    destruct (Z.testbit m2 i) eqn:Hb2; [| reflexivity].
    exfalso.
    destruct (Hbits _ _ _ Hin1 Hi Hb1) as (g1 & Hg1in & _ & Hg1 & Hs1).
    destruct (Hbits _ _ _ Hin2 Hi Hb2) as (g2 & Hg2in & _ & Hg2 & Hs2).
    assert (Hg : g1 <> g2).
    { intros ->. apply Hne.
      exact (keys_determine_values _ _ _ _ Hnd Hg1in Hg2in). }
    rewrite (shl_1_disjoint g1 g2 i Hg1 Hg2 Hg Hi Hs1) in Hs2. discriminate.
  - reflexivity.
  - exact Hfrom.
  - intros group copies Hin Hc.
    destruct (Hrec group copies Hin Hc) as (mask & Hfind & Hbit).
    exists mask. split; [now apply find_In | exact Hbit].
  - intros Hactive group Hg.
    rewrite Z.lor_spec, Z.land_spec, Z.lnot_spec by lia.
    destruct (Z.testbit U group) eqn:HU.
    + destruct (union_values_bit _ _ HU) as (copies & mask & Hin & Hm).
      destruct (Hfrom copies mask group Hin Hg Hm) as [Hentry Hc].
      rewrite (Hactive group copies Hentry Hc). reflexivity.
    + simpl. now rewrite orb_false_r.
Qed.

End ScheduleFacts.

Section InitializeExamples.
Local Open Scope Z_scope.

Lemma scenario5_keys :
  List.NoDup (map fst (getContractions scenario5)).
Proof.
  simpl. constructor.
  - simpl. intros [H | []]. discriminate H.
  - constructor; [intros [] | constructor].
Defined.

(** The theorem C5 at scenario 5: [groupsNotContracted = {0}] and
    [groupsByCopies = {4 -> 1<<1}], a partition of the integration
    groups [{0, 1}]. *)
Lemma initialize_partitions_groups_witness :
  exists self' seed,
    initialize one_particle scenario5 newKernel = Done (self', seed)
    /\ groupsNotContracted self' = 1
    /\ groupsByCopies self' = [(4, 2)]
    /\ (Z.land (Z.lor (groupsNotContracted self')
                   (IntMap.union_values (groupsByCopies self')))
          3 = 3
        /\ (forall copies mask,
              In (copies, mask) (groupsByCopies self') ->
              Z.land (groupsNotContracted self') mask = 0)
        /\ (forall copies1 mask1 copies2 mask2,
              In (copies1, mask1) (groupsByCopies self') ->
              In (copies2, mask2) (groupsByCopies self') ->
              copies1 <> copies2 ->
              Z.land mask1 mask2 = 0)
        /\ (forall copies mask group,
              In (copies, mask) (groupsByCopies self') -> 0 <= group <= 31 ->
              Z.testbit mask group = true ->
              In (group, copies) (getContractions scenario5)
              /\ copies <> 8)).
Proof.
  eexists. eexists.
  split; [reflexivity |]. split; [reflexivity |]. split; [reflexivity |].
  pose proof (initialize_partitions_groups one_particle scenario5 newKernel
                _ (Some 0) scenario5_keys eq_refl eq_refl) as Hthm.
  cbv zeta in Hthm.
  destruct Hthm as (Hcover & Hnot & Hpair & _ & Hfrom & _).
  split; [exact Hcover |]. split; [exact Hnot |].
  split; [exact Hpair | exact Hfrom].
Defined.

(** C5 as stated fails when a group that is not integrated is
    contracted: with integration groups [{0}] and group 1 contracted to
    4 of 8 copies, the schedule holds the mask [1<<1], which lies
    outside the integration groups, and the family covers [{0, 1}]. *)
Lemma contracted_group_need_not_be_integrated :
  exists self' seed,
    initialize one_particle inactive_group_contracted newKernel
    = Done (self', seed)
    /\ getIntegrationForceGroups inactive_group_contracted = 1
    /\ groupsNotContracted self' = 1
    /\ groupsByCopies self' = [(4, 2)]
    /\ Z.land 2 (getIntegrationForceGroups inactive_group_contracted) = 0
    /\ Z.lor (groupsNotContracted self')
             (IntMap.union_values (groupsByCopies self'))
       <> getIntegrationForceGroups inactive_group_contracted.
Proof.
  eexists. eexists.
  split; [reflexivity |]. split; [reflexivity |]. split; [reflexivity |].
  split; [reflexivity |]. split; [reflexivity |].
  simpl. discriminate.
Qed.

End InitializeExamples.

(** ** [initialize]: entries with the full number of copies *)

Section FullCopies.
Local Open Scope Z_scope.

Lemma for_each_app {A S : Type} (body : A -> S -> Outcome S) l1 l2 s :
  for_each body (l1 ++ l2) s = and_then (for_each body l1 s) (for_each body l2).
Proof.
  revert s. induction l1 as [| a l1 IH]; intros s; simpl; [reflexivity |].
  destruct (body a s) as [s' | msg s']; simpl; [apply IH | reflexivity].
Qed.

Lemma add_contraction_full numCopies group st :
  0 <= numCopies -> 0 <= group <= 31 ->
  add_contraction numCopies (group, numCopies) st = Done st.
Proof.
  intros HP Hg. destruct st as [self mx]. unfold add_contraction. simpl.
  rewrite !Z.gtb_ltb.
  destruct (Z.ltb_spec group 0); [lia |].
  destruct (Z.ltb_spec 31 group); [lia |].
  destruct (Z.ltb_spec numCopies 0); [lia |].
  rewrite Z.ltb_irrefl, Z.eqb_refl. reflexivity.
Qed.

(** C10, as amended.  A contraction entry for a valid force group whose
    copy count is the total number of copies is accepted and ignored: the loop body
    leaves the schedule, [groupsNotContracted] and the running maximum
    (hence the workspace size) as they were, [initialize] gives the
    result it gives without the entry, and after [initialize] the group
    is in [groupsNotContracted] exactly when it is an integration group,
    so it is evaluated on all copies. *)
Theorem full_copies_entry_is_ignored system integrator self group :
  let P := getNumCopies integrator in
  0 <= P -> 0 <= group <= 31 ->
  In (group, P) (getContractions integrator) ->
  (forall st, add_contraction P (group, P) st = Done st)
  /\ (forall l1 l2,
        getContractions integrator = l1 ++ (group, P) :: l2 ->
        initialize system integrator self
        = initialize system (with_contractions integrator (l1 ++ l2)) self)
  /\ (forall self' seed,
        List.NoDup (map fst (getContractions integrator)) ->
        groupsByCopies self = IntMap.empty ->
        initialize system integrator self = Done (self', seed) ->
        Z.testbit (groupsNotContracted self') group
        = Z.testbit (getIntegrationForceGroups integrator) group).
Proof.
  intros P HP Hg Hin. repeat split.
  - intros st. now apply add_contraction_full.
  - intros l1 l2 Hl. unfold initialize. simpl. rewrite Hl.
    destruct (getNumCopies integrator <? 0); [reflexivity |].
    rewrite !for_each_app. fold P.
    match goal with
    | |- context [for_each ?b l1 ?s] => destruct (for_each b l1 s) as [s1 | m s1]
    end; simpl; [| reflexivity].
    now rewrite (add_contraction_full P group s1 HP Hg).
  - intros self' seed Hnd Hempty Hinit.
    destruct (initialize_schedule _ _ _ _ _ Hnd Hempty Hinit)
      as (loop & (HgNC & _ & Hbits) & _ & ->).
    rewrite HgNC, Z.land_spec, Z.lnot_spec by lia.
    destruct (Z.testbit (IntMap.union_values (groupsByCopies loop)) group)
      eqn:HU; [| reflexivity].
    exfalso.
    destruct (union_values_bit _ _ HU) as (copies & mask & Hm & Hb).
    destruct (Hbits copies mask group Hm (proj1 Hg) Hb)
      as (g0 & Hg0in & Hne & Hg0 & Hb0).
    assert (Hg0g : g0 <> group).
    { intros ->. apply Hne. fold P.
      exact (keys_determine_values _ _ _ _ Hnd Hg0in Hin). }
    assert (Hself : Z.testbit (Int32.shl 1 group) group = true).
    { rewrite shl_1_spec by lia. now rewrite Z.eqb_refl. }
    rewrite (shl_1_disjoint g0 group group Hg0 Hg Hg0g (proj1 Hg) Hb0) in Hself.
    discriminate.
Qed.

(** The theorem C10 at scenario 5, where group 0 is listed with all 8
    copies. *)
Lemma full_copies_entry_is_ignored_witness :
  (0 <= getNumCopies scenario5 /\ 0 <= 0 <= 31
   /\ In (0, 8) (getContractions scenario5))
  /\ initialize one_particle scenario5 newKernel
     = initialize one_particle (with_contractions scenario5 [(1, 4)]) newKernel
  /\ Z.testbit (groupsNotContracted
                  (fst (state_of (initialize one_particle scenario5 newKernel))))
       0 = true.
Proof.
  assert (H0 : 0 <= getNumCopies scenario5) by (simpl; lia).
  assert (H1 : 0 <= 0 <= 31) by lia.
  assert (H2 : In (0, 8) (getContractions scenario5)) by (simpl; auto).
  destruct (full_copies_entry_is_ignored one_particle scenario5 newKernel 0
              H0 H1 H2) as (_ & Hskip & Hbit).
  split; [auto |]. split.
  - exact (Hskip [] [(1, 4)] eq_refl).
  - reflexivity.
Defined.

(** C10 as stated fails for an entry whose force group is out of
    range: the group is checked before the copy count is looked at, so
    the entry [(32, P)] makes [initialize] throw. *)
Lemma full_copies_entry_with_bad_group_throws :
  In (32, getNumCopies group_32_uncontracted)
     (getContractions group_32_uncontracted)
  /\ throws (initialize one_particle group_32_uncontracted newKernel)
       Messages.bad_force_group.
Proof.
  split; [simpl; auto |]. eexists. reflexivity.
Qed.

End FullCopies.

(** ** Loops and buffers *)

Section LoopFacts.

Lemma for_range_empty {St : Type} first last (body : nat -> St -> St) s :
  (last <= first)%nat -> for_range first last body s = s.
Proof.
  intros Hle. unfold for_range.
  replace (last - first)%nat with 0%nat by lia. reflexivity.
Qed.

Lemma for_range_last {St : Type} first last (body : nat -> St -> St) s :
  (first <= last)%nat ->
  for_range first (S last) body s = body last (for_range first last body s).
Proof.
  intros Hle. unfold for_range.
  replace (S last - first)%nat with (S (last - first)) by lia.
  rewrite seq_S, fold_left_app. simpl.
  now replace (first + (last - first))%nat with last by lia.
Qed.

Lemma for_range_first {St : Type} first last (body : nat -> St -> St) s :
  (first < last)%nat ->
  for_range first last body s = for_range (S first) last body (body first s).
Proof.
  intros Hlt. unfold for_range.
  replace (last - first)%nat with (S (last - S first)) by lia.
  reflexivity.
Qed.

(** Induction over the iterations of a [for] loop: an invariant that
    may mention the loop counter. *)
Lemma for_range_ind {St : Type} (Q : nat -> St -> Prop) first last body s :
  (first <= last)%nat ->
  Q first s ->
  (forall k s, (first <= k < last)%nat -> Q k s -> Q (S k) (body k s)) ->
  Q last (for_range first last body s).
Proof.
  intros Hle H0 Hstep.
  induction last as [| last IH].
  - replace first with 0%nat in * by lia. now rewrite for_range_empty.
  - destruct (Nat.eq_dec first (S last)) as [-> | Hne].
    + now rewrite for_range_empty.
    + rewrite for_range_last by lia. apply Hstep; [lia |].
      apply IH; [lia |]. intros k s' Hk. apply Hstep. lia.
Qed.

Lemma for_range_preserves {St : Type} (Q : St -> Prop) first last body s :
  Q s ->
  (forall k s, (first <= k < last)%nat -> Q s -> Q (body k s)) ->
  Q (for_range first last body s).
Proof.
  intros H0 Hstep.
  destruct (Nat.le_gt_cases first last) as [Hle | Hgt].
  - apply (for_range_ind (fun _ => Q)); auto.
  - rewrite for_range_empty by lia. exact H0.
Qed.

Lemma for_range_ext {St : Type} first last (body body' : nat -> St -> St) s :
  (forall k s, (first <= k < last)%nat -> body k s = body' k s) ->
  for_range first last body s = for_range first last body' s.
Proof.
  intros Hext.
  destruct (Nat.le_gt_cases first last) as [Hle | Hgt].
  - apply (for_range_ind
             (fun k s' => s' = for_range first k body' s)); auto.
    + now rewrite for_range_empty.
    + intros k s' Hk ->. rewrite for_range_last by lia. apply Hext. lia.
  - now rewrite !for_range_empty by lia.
Qed.

(** A loop over two independent variables is two loops. *)
Lemma for_range2_split {A B : Type} first last (f : nat -> A -> A)
    (g : nat -> B -> B) a b :
  for_range2 first last f g (a, b)
  = (for_range first last f a, for_range first last g b).
Proof.
  unfold for_range2.
  destruct (Nat.le_gt_cases first last) as [Hle | Hgt].
  - apply (for_range_ind
             (fun m s => s = (for_range first m f a, for_range first m g b)));
      [exact Hle | now rewrite !for_range_empty |].
    intros k s Hk ->. now rewrite !for_range_last by lia.
  - now rewrite !for_range_empty by lia.
Qed.

(** [fill] writes the first [n] entries and keeps the length. *)
Lemma fill_spec {A : Type} n (f : nat -> A) buf :
  length (fill n f buf) = length buf
  /\ (forall k, (k < n)%nat -> (k < length buf)%nat ->
        fill n f buf !! k = Some (f k))
  /\ (forall k, (n <= k)%nat -> fill n f buf !! k = buf !! k).
Proof.
  unfold fill.
  apply (for_range_ind
           (fun m b =>
              length b = length buf
              /\ (forall k, (k < m)%nat -> (k < length buf)%nat ->
                    b !! k = Some (f k))
              /\ (forall k, (m <= k)%nat -> b !! k = buf !! k))).
  - lia.
  - split; [reflexivity |]. split; [intros; lia | auto].
  - intros m b Hm (Hlen & Hlo & Hhi). repeat split.
    + now rewrite length_insert.
    + intros k Hk Hkb. destruct (Nat.eq_dec k m) as [-> | Hne].
      * apply list_lookup_insert_eq. lia.
      * rewrite list_lookup_insert_ne by lia. apply Hlo; lia.
    + intros k Hk. rewrite list_lookup_insert_ne by lia. apply Hhi. lia.
Qed.

Lemma fill_length {A : Type} n (f : nat -> A) buf :
  length (fill n f buf) = length buf.
Proof. apply fill_spec. Qed.

Lemma fill_full {A : Type} n (f : nat -> A) buf :
  length buf = n -> fill n f buf = map f (seq 0 n).
Proof.
  intros Hlen. apply list_eq. intros k.
  destruct (fill_spec n f buf) as (_ & Hlo & Hhi).
  rewrite list_lookup_fmap.
  destruct (Nat.lt_ge_cases k n) as [Hk | Hk].
  - rewrite Hlo by lia. now rewrite lookup_seq_lt.
  - rewrite Hhi by lia. rewrite lookup_seq_ge by lia. simpl.
    apply lookup_ge_None. lia.
Qed.

Lemma for_range_insert_full {A : Type} n (f : nat -> A) buf :
  length buf = n ->
  for_range 0 n (fun k b => <[k := f k]> b) buf = map f (seq 0 n).
Proof. apply fill_full. Qed.

End LoopFacts.

(** ** Bead arrays *)

Section BeadArrayFacts.

Lemma bead_update_vec copy particle g arr k :
  bead (update_vec copy particle g arr) k
  = if decide (copy = k) then alter g particle (bead arr k) else bead arr k.
Proof.
  unfold bead, update_vec. rewrite list_lookup_alter.
  destruct (decide (copy = k)) as [-> | Hne]; [| reflexivity].
  destruct (arr !! k); reflexivity.
Qed.

Lemma vec_at_update_vec_other_particle copy particle g arr k j :
  particle <> j ->
  vec_at (update_vec copy particle g arr) k j = vec_at arr k j.
Proof.
  intros Hne. unfold vec_at. rewrite bead_update_vec.
  destruct (decide (copy = k)); [| reflexivity].
  now rewrite list_lookup_alter_ne.
Qed.

Lemma vec_at_update_vec_other_copy copy particle g arr k j :
  copy <> k ->
  vec_at (update_vec copy particle g arr) k j = vec_at arr k j.
Proof.
  intros Hne. unfold vec_at. rewrite bead_update_vec.
  destruct (decide (copy = k)); [contradiction | reflexivity].
Qed.

Lemma vec_at_update_vec_same copy particle g arr :
  (copy < length arr)%nat -> (particle < length (bead arr copy))%nat ->
  vec_at (update_vec copy particle g arr) copy particle
  = g (vec_at arr copy particle).
Proof.
  intros Hc Hp. unfold vec_at. rewrite bead_update_vec.
  destruct (decide (copy = copy)); [| contradiction].
  rewrite list_lookup_alter.
  destruct (decide (particle = particle)); [| contradiction].
  destruct (lookup_lt_is_Some_2 _ _ Hp) as [x ->]. reflexivity.
Qed.

Lemma update_vec_length copy particle g arr :
  length (update_vec copy particle g arr) = length arr.
Proof. unfold update_vec. apply length_alter. Qed.

Lemma update_vec_bead_length copy particle g arr k :
  length (bead (update_vec copy particle g arr) k) = length (bead arr k).
Proof.
  rewrite bead_update_vec. destruct (decide (copy = k)); [| reflexivity].
  apply length_alter.
Qed.

Lemma update_vec_shaped P N copy particle g arr :
  shaped P N arr -> shaped P N (update_vec copy particle g arr).
Proof.
  intros [Hlen Hbeads]. split.
  - now rewrite update_vec_length.
  - intros k Hk. rewrite update_vec_bead_length. now apply Hbeads.
Qed.

Lemma component_set_component c x v c' :
  (c < 3)%nat -> (c' < 3)%nat ->
  component (set_component c x v) c'
  = if decide (c = c') then x else component v c'.
Proof.
  intros Hc Hc'.
  destruct c as [| [| [| c]]]; try lia;
    destruct c' as [| [| [| c']]]; try lia; reflexivity.
Qed.

(** Reading a coordinate after writing one. *)
Lemma coord_set_coord_same copy particle c x arr :
  (copy < length arr)%nat -> (particle < length (bead arr copy))%nat ->
  (c < 3)%nat ->
  coord (set_coord copy particle c x arr) copy particle c = x.
Proof.
  intros Hk Hj Hc. unfold coord, set_coord.
  fold (update_vec copy particle (set_component c x) arr).
  rewrite vec_at_update_vec_same by assumption.
  rewrite component_set_component by assumption.
  destruct (decide (c = c)); [reflexivity | contradiction].
Qed.

Lemma coord_set_coord_other copy particle c x arr k j c' :
  (c < 3)%nat -> (c' < 3)%nat ->
  (copy, particle, c) <> (k, j, c') ->
  coord (set_coord copy particle c x arr) k j c' = coord arr k j c'.
Proof.
  intros Hc Hc' Hne. unfold coord, set_coord.
  fold (update_vec copy particle (set_component c x) arr).
  destruct (Nat.eq_dec copy k) as [-> | Hk];
    [| now rewrite vec_at_update_vec_other_copy].
  destruct (Nat.eq_dec particle j) as [-> | Hj];
    [| now rewrite vec_at_update_vec_other_particle].
  unfold vec_at. rewrite bead_update_vec.
  destruct (decide (k = k)); [| contradiction].
  rewrite list_lookup_alter. destruct (decide (j = j)); [| contradiction].
  destruct (bead arr k !! j) as [v |]; simpl; [| reflexivity].
  rewrite component_set_component by assumption.
  destruct (decide (c = c')) as [-> | ]; [congruence | reflexivity].
Qed.

(** Storing one coordinate of the first [n] copies:
    [for (k = 0; k < n; k++) arr[k][particle][c] = f(k)]. *)
Lemma store_coords_prefix_spec P N n particle c (f : nat -> R) arr :
  shaped P N arr -> (n <= P)%nat -> (particle < N)%nat -> (c < 3)%nat ->
  let arr' :=
    for_range 0 n (fun k a => set_coord k particle c (f k) a) arr in
  shaped P N arr'
  /\ (forall k, (k < n)%nat -> coord arr' k particle c = f k)
  /\ (forall k j c', (c' < 3)%nat -> (j, c') <> (particle, c) ->
        coord arr' k j c' = coord arr k j c')
  /\ (forall k j, j <> particle -> vec_at arr' k j = vec_at arr k j).
Proof.
  intros Hshape Hn Hj Hc. cbv zeta.
  apply (for_range_ind
           (fun m a =>
              shaped P N a
              /\ (forall k, (k < m)%nat -> coord a k particle c = f k)
              /\ (forall k j c', (c' < 3)%nat -> (j, c') <> (particle, c) ->
                    coord a k j c' = coord arr k j c')
              /\ (forall k j, j <> particle -> vec_at a k j = vec_at arr k j))).
  - lia.
  - split; [exact Hshape |]. split; [intros; lia |]. split; auto.
  - intros m a Hm (Hsh & Hdone & Hother & Hvec).
    split; [apply update_vec_shaped, Hsh |]. split; [| split].
    + intros k Hk. destruct (Nat.eq_dec k m) as [-> | Hne].
      * apply coord_set_coord_same; [| | assumption].
        -- destruct Hsh as [-> _]. lia.
        -- destruct Hsh as [_ ->]; lia.
      * rewrite coord_set_coord_other; [apply Hdone; lia | lia | lia |].
        congruence.
    + intros k j c' Hc' Hne. rewrite coord_set_coord_other; auto.
      congruence.
    + intros k j Hne. unfold set_coord.
      fold (update_vec m particle (set_component c (f m)) a).
      rewrite vec_at_update_vec_other_particle by congruence. now apply Hvec.
Qed.

Lemma store_coords_spec P N particle c (f : nat -> R) arr :
  shaped P N arr -> (particle < N)%nat -> (c < 3)%nat ->
  let arr' :=
    for_range 0 P (fun k a => set_coord k particle c (f k) a) arr in
  shaped P N arr'
  /\ (forall k, (k < P)%nat -> coord arr' k particle c = f k)
  /\ (forall k j c', (c' < 3)%nat -> (j, c') <> (particle, c) ->
        coord arr' k j c' = coord arr k j c')
  /\ (forall k j, j <> particle -> vec_at arr' k j = vec_at arr k j).
Proof.
  intros Hshape. now apply store_coords_prefix_spec.
Qed.

(** Adding to one coordinate of every copy:
    [for (k = 0; k < P; k++) arr[k][particle][c] += g(k)]. *)
Lemma add_coords_spec P N particle c (g : nat -> R) arr :
  shaped P N arr -> (particle < N)%nat -> (c < 3)%nat ->
  let arr' :=
    for_range 0 P
      (fun k a => set_coord k particle c (coord a k particle c + g k) a)
      arr in
  shaped P N arr'
  /\ (forall k, (k < P)%nat ->
        coord arr' k particle c = coord arr k particle c + g k)
  /\ (forall k j c', (c' < 3)%nat -> (j, c') <> (particle, c) ->
        coord arr' k j c' = coord arr k j c').
Proof.
  intros Hshape Hj Hc. cbv zeta.
  pose (Q := fun (m : nat) (a : BeadArray) =>
              shaped P N a
              /\ (forall k, (k < m)%nat ->
                    coord a k particle c = coord arr k particle c + g k)
              /\ (forall k, (m <= k)%nat ->
                    coord a k particle c = coord arr k particle c)
              /\ (forall k j c', (c' < 3)%nat -> (j, c') <> (particle, c) ->
                    coord a k j c' = coord arr k j c')).
  assert (HQ : Q P (for_range 0 P
                      (fun k a => set_coord k particle c
                                    (coord a k particle c + g k) a) arr)).
  { apply for_range_ind; [lia | |].
    - split; [exact Hshape |]. split; [intros; lia |]. split; auto.
    - intros m a Hm (Hsh & Hdone & Hrest & Hother).
      split; [apply update_vec_shaped, Hsh |]. split; [| split].
      + intros k Hk. destruct (Nat.eq_dec k m) as [-> | Hne].
        * rewrite coord_set_coord_same; [| | | assumption].
          -- now rewrite Hrest by lia.
          -- destruct Hsh as [-> _]. lia.
          -- destruct Hsh as [_ ->]; lia.
        * rewrite coord_set_coord_other; [apply Hdone; lia | lia | lia |].
          congruence.
      + intros k Hk.
        rewrite coord_set_coord_other; [apply Hrest; lia | lia | lia |].
        intros Heq. injection Heq as ->. lia.
      + intros k j c' Hc' Hne. rewrite coord_set_coord_other; auto.
        congruence. }
  destruct HQ as (Hsh & Hdone & _ & Hother). auto.
Qed.

(** The same loop on any array: a different particle is not written. *)
Lemma store_coords_other_particle P particle c (f : nat -> R) arr k j :
  j <> particle ->
  vec_at (for_range 0 P (fun k a => set_coord k particle c (f k) a) arr) k j
  = vec_at arr k j.
Proof.
  intros Hne.
  apply (for_range_preserves (fun a => vec_at a k j = vec_at arr k j));
    [reflexivity |].
  intros m a _ <-. unfold set_coord.
  fold (update_vec m particle (set_component c (f m)) a).
  apply vec_at_update_vec_other_particle. congruence.
Qed.

End BeadArrayFacts.

(** ** Massless particles *)

Section MasslessFacts.
Context `{PhysicalConstants} `{Pocketfft} {G : Type} `{RandomNumbers G}.
Variable system : System.
Variable integrator : RPMDIntegrator.
Variable numCopies numParticles : nat.

Lemma for_massive_components_preserves {St : Type} (Q : St -> Prop)
    (body : nat -> nat -> St -> St) s :
  Q s ->
  (forall particle c s,
     getParticleMass system particle <> 0 -> Q s -> Q (body particle c s)) ->
  Q (for_massive_components system numParticles body s).
Proof.
  intros Hs Hstep. unfold for_massive_components.
  apply for_range_preserves; [exact Hs |].
  intros particle s' _ Hs'.
  destruct (Req_dec_T (getParticleMass system particle) 0) as [_ | Hm];
    [exact Hs' |].
  apply for_range_preserves; [exact Hs' |].
  intros c s'' _. now apply Hstep.
Qed.

Lemma thermostatComponent_other_particle particle c vel v g k j :
  j <> particle ->
  vec_at (fst (fst (thermostatComponent system integrator numCopies
                      particle c (vel, v, g)))) k j
  = vec_at vel k j.
Proof.
  intros Hne. unfold thermostatComponent.
  destruct (getNormallyDistributedRandomNumber g) as [xi g1].
  destruct (thermostatModes _ _ _ _ _) as [v1 g2]. simpl.
  now apply store_coords_other_particle.
Qed.

Lemma thermostatComponentOpen_other_particle particle c vel v g k j :
  j <> particle ->
  vec_at (fst (fst (thermostatComponentOpen system integrator numCopies
                      particle c (vel, v, g)))) k j
  = vec_at vel k j.
Proof.
  intros Hne. unfold thermostatComponentOpen.
  destruct (getNormallyDistributedRandomNumber g) as [xi g1].
  destruct (for_range _ _ _ _) as [v1 g2]. simpl.
  now apply store_coords_other_particle.
Qed.

Lemma evolveComponent_other_particle particle c pos vel qv k j :
  j <> particle ->
  let r := evolveComponent integrator numCopies particle c (pos, vel, qv) in
  vec_at (fst (fst r)) k j = vec_at pos k j
  /\ vec_at (snd (fst r)) k j = vec_at vel k j.
Proof.
  intros Hne. destruct qv as [q v]. unfold evolveComponent.
  rewrite for_range2_split.
  destruct (evolveModes _ _ _) as [q1 v1].
  rewrite for_range2_split. simpl.
  split; now apply store_coords_other_particle.
Qed.

Lemma evolveComponentOpen_other_particle particle c pos vel qv k j :
  j <> particle ->
  let r := evolveComponentOpen integrator numCopies particle c (pos, vel, qv) in
  vec_at (fst (fst r)) k j = vec_at pos k j
  /\ vec_at (snd (fst r)) k j = vec_at vel k j.
Proof.
  intros Hne. destruct qv as [q v]. unfold evolveComponentOpen.
  rewrite for_range2_split.
  destruct (for_range 1 _ _ _) as [q1 v1].
  rewrite for_range2_split. simpl.
  split; now apply store_coords_other_particle.
Qed.

(** C9.  A particle of mass zero keeps its position and velocity in
    every copy through the thermostat, the velocity half-kick and the
    free-polymer drift, on the closed and on the open path: the loops
    skip it, and what they do for the other particles does not write its
    entries. *)
Theorem massless_particle_is_not_moved j :
  getParticleMass system j = 0 ->
  (forall vel v g k,
     vec_at (fst (fst (applyThermostat system integrator numCopies
                         numParticles (vel, v, g)))) k j
     = vec_at vel k j)
  /\ (forall f vel k,
        vec_at (updateVelocities system integrator numCopies numParticles
                  f vel) k j
        = vec_at vel k j)
  /\ (forall pos vel qv k,
        let r := evolveFreeRingPolymer system integrator numCopies
                   numParticles (pos, vel, qv) in
        vec_at (fst (fst r)) k j = vec_at pos k j
        /\ vec_at (snd (fst r)) k j = vec_at vel k j)
  /\ (forall vel v g k,
        vec_at (fst (fst (applyThermostatOpen system integrator numCopies
                            numParticles (vel, v, g)))) k j
        = vec_at vel k j)
  /\ (forall pos vel qv k,
        let r := evolveFreeChain system integrator numCopies numParticles
                   (pos, vel, qv) in
        vec_at (fst (fst r)) k j = vec_at pos k j
        /\ vec_at (snd (fst r)) k j = vec_at vel k j).
Proof.
  intros Hmass.
  assert (Hother : forall particle,
             getParticleMass system particle <> 0 -> j <> particle).
  { intros particle Hp ->. contradiction. }
  split; [| split; [| split; [| split]]].
  - intros vel v g k. unfold applyThermostat.
    destruct (getApplyThermostat integrator); [| reflexivity].
    apply (for_massive_components_preserves
             (fun s => vec_at (fst (fst s)) k j = vec_at vel k j));
      [reflexivity |].
    intros particle c [[vel' v'] g'] Hp Hs. simpl in Hs. rewrite <- Hs.
    apply thermostatComponent_other_particle. auto.
  - intros f vel k. unfold updateVelocities.
    apply (for_range_preserves (fun a => vec_at a k j = vec_at vel k j));
      [reflexivity |].
    intros i a _ Ha.
    apply (for_range_preserves (fun a => vec_at a k j = vec_at vel k j));
      [exact Ha |].
    intros particle a' _ Ha'.
    destruct (Req_dec_T (getParticleMass system particle) 0) as [_ | Hp];
      [exact Ha' |].
    rewrite vec_at_update_vec_other_particle; [exact Ha' |].
    intros ->. contradiction.
  - intros pos vel qv k. cbv zeta. unfold evolveFreeRingPolymer.
    apply (for_massive_components_preserves
             (fun s => vec_at (fst (fst s)) k j = vec_at pos k j
                       /\ vec_at (snd (fst s)) k j = vec_at vel k j));
      [split; reflexivity |].
    intros particle c [[pos' vel'] qv'] Hp [Hs1 Hs2]. simpl in Hs1, Hs2.
    rewrite <- Hs1, <- Hs2.
    apply evolveComponent_other_particle. auto.
  - intros vel v g k. unfold applyThermostatOpen.
    destruct (getApplyThermostat integrator); [| reflexivity].
    apply (for_massive_components_preserves
             (fun s => vec_at (fst (fst s)) k j = vec_at vel k j));
      [reflexivity |].
    intros particle c [[vel' v'] g'] Hp Hs. simpl in Hs. rewrite <- Hs.
    apply thermostatComponentOpen_other_particle. auto.
  - intros pos vel qv k. cbv zeta. unfold evolveFreeChain.
    apply (for_massive_components_preserves
             (fun s => vec_at (fst (fst s)) k j = vec_at pos k j
                       /\ vec_at (snd (fst s)) k j = vec_at vel k j));
      [split; reflexivity |].
    intros particle c [[pos' vel'] qv'] Hp [Hs1 Hs2]. simpl in Hs1, Hs2.
    rewrite <- Hs1, <- Hs2.
    apply evolveComponentOpen_other_particle. auto.
Qed.

End MasslessFacts.

(** ** Mode buffers *)

Section BufferFacts.

Lemma cget_insert_same (l : list Complex) k x :
  (k < length l)%nat -> cget (<[k := x]> l) k = x.
Proof. intros Hk. unfold cget. now rewrite list_lookup_insert_eq. Qed.

Lemma cget_insert_other (l : list Complex) k k' x :
  k <> k' -> cget (<[k := x]> l) k' = cget l k'.
Proof. intros Hk. unfold cget. now rewrite list_lookup_insert_ne. Qed.

Lemma cget_map (f : nat -> Complex) n k :
  (k < n)%nat -> cget (map f (seq 0 n)) k = f k.
Proof.
  intros Hk. unfold cget. rewrite list_lookup_fmap.
  now rewrite lookup_seq_lt.
Qed.

Lemma cget_app_l (l1 l2 : list Complex) k :
  (k < length l1)%nat -> cget (l1 ++ l2) k = cget l1 k.
Proof. intros Hk. unfold cget. now rewrite lookup_app_l. Qed.

Lemma cget_app_r (l1 l2 : list Complex) k :
  (length l1 <= k)%nat -> cget (l1 ++ l2) k = cget l2 (k - length l1).
Proof. intros Hk. unfold cget. now rewrite lookup_app_r. Qed.

(** A buffer is the list of its entries. *)
Lemma buffer_eq_map (l : list Complex) n (f : nat -> Complex) :
  length l = n -> (forall k, (k < n)%nat -> cget l k = f k) ->
  l = map f (seq 0 n).
Proof.
  intros Hlen Hf. apply list_eq. intros k. rewrite list_lookup_fmap.
  destruct (Nat.lt_ge_cases k n) as [Hk | Hk].
  - rewrite lookup_seq_lt by exact Hk. simpl. rewrite <- (Hf k Hk).
    unfold cget. destruct (lookup_lt_is_Some_2 l k) as [x ->]; [lia |].
    reflexivity.
  - rewrite lookup_seq_ge by exact Hk. simpl. apply lookup_ge_None. lia.
Qed.

Lemma c2c_length n forward fct data :
  (n <= length data)%nat -> length (c2c n forward fct data) = length data.
Proof.
  intros Hn. unfold c2c.
  rewrite length_app, length_map, length_seq, length_drop. lia.
Qed.

Lemma c2c_low n forward fct data j :
  (j < n)%nat ->
  cget (c2c n forward fct data) j
  = Cscale (Csum (fun m => Cmul (cget data m) (twiddle forward n j m)) n) fct.
Proof.
  intros Hj. unfold c2c.
  rewrite cget_app_l by (rewrite length_map, length_seq; exact Hj).
  now rewrite cget_map.
Qed.

Lemma c2c_high n forward fct data j :
  (n <= j)%nat -> (n <= length data)%nat ->
  cget (c2c n forward fct data) j = cget data j.
Proof.
  intros Hj Hn. unfold c2c.
  rewrite cget_app_r by (rewrite length_map, length_seq; exact Hj).
  rewrite length_map, length_seq. unfold cget. rewrite lookup_drop.
  now replace (n + (j - n))%nat with j by lia.
Qed.

End BufferFacts.

(** ** The free ring polymer *)

Section DriftFacts.
Context `{PhysicalConstants}.
Variable integrator : RPMDIntegrator.
Variable numCopies : nat.

Lemma evolveMode_rotates k q v :
  (k < length q)%nat -> (k < length v)%nat ->
  let r := evolveMode integrator numCopies k (q, v) in
  cget (fst r) k
    = rotated_position (omega integrator numCopies k) (dt integrator)
        (cget q k) (cget v k)
  /\ cget (snd r) k
    = rotated_velocity (omega integrator numCopies k) (dt integrator)
        (cget q k) (cget v k)
  /\ length (fst r) = length q /\ length (snd r) = length v
  /\ forall k', k' <> k ->
       cget (fst r) k' = cget q k' /\ cget (snd r) k' = cget v k'.
Proof.
  intros Hq Hv. unfold evolveMode. simpl.
  rewrite !cget_insert_same by assumption.
  rewrite !length_insert.
  split; [| split; [| split; [| split]]]; try reflexivity.
  - unfold rotated_position, omega, Cadd, Cscale. simpl.
    f_equal; unfold Rdiv; ring.
  - unfold rotated_velocity, omega, Csub, Cscale. simpl.
    f_equal; ring.
  - intros k' Hk'. now rewrite !cget_insert_other by congruence.
Qed.

(** The loop over the modes, as a whole. *)
Lemma evolveModes_spec q v :
  length q = numCopies -> length v = numCopies ->
  let r := evolveModes integrator numCopies (q, v) in
  length (fst r) = numCopies /\ length (snd r) = numCopies
  /\ ((0 < numCopies)%nat ->
      cget (fst r) 0 = drifted_centroid (dt integrator) (cget q 0) (cget v 0)
      /\ cget (snd r) 0 = cget v 0)
  /\ (forall k, (1 <= k < numCopies)%nat ->
        cget (fst r) k
          = rotated_position (omega integrator numCopies k) (dt integrator)
              (cget q k) (cget v k)
        /\ cget (snd r) k
          = rotated_velocity (omega integrator numCopies k) (dt integrator)
              (cget q k) (cget v k)).
Proof.
  intros Hq Hv. cbv zeta. unfold evolveModes.
  set (q0 := <[0%nat := Cadd (cget q 0) (Cscale (cget v 0) (dt integrator))]> q).
  assert (Hq0 : length q0 = numCopies) by (unfold q0; now rewrite length_insert).
  destruct (Nat.eq_dec numCopies 0%nat) as [Hz | Hnz].
  { rewrite for_range_empty by lia. simpl.
    split; [exact Hq0 |]. split; [exact Hv |]. split; intros; lia. }
  pose (Q := fun (m : nat) (r : list Complex * list Complex) =>
    length (fst r) = numCopies /\ length (snd r) = numCopies
    /\ cget (fst r) 0 = cget q0 0 /\ cget (snd r) 0 = cget v 0
    /\ (forall k, (1 <= k < m)%nat ->
          cget (fst r) k
            = rotated_position (omega integrator numCopies k) (dt integrator)
                (cget q k) (cget v k)
          /\ cget (snd r) k
            = rotated_velocity (omega integrator numCopies k) (dt integrator)
                (cget q k) (cget v k))
    /\ (forall k, (m <= k)%nat ->
          cget (fst r) k = cget q k /\ cget (snd r) k = cget v k)).
  assert (HQ : Q numCopies (for_range 1 numCopies
                              (evolveMode integrator numCopies) (q0, v))).
  { apply for_range_ind; [lia | |].
    - unfold Q. simpl.
      split; [exact Hq0 |]. split; [exact Hv |].
      split; [reflexivity |]. split; [reflexivity |].
      split; [intros; lia |].
      intros k Hk. split; [| reflexivity].
      unfold q0. now rewrite cget_insert_other by lia.
    - intros k [q1 v1] Hk (Hl1 & Hl2 & Hc1 & Hc2 & Hdone & Hrest).
      simpl in Hl1, Hl2, Hc1, Hc2, Hdone, Hrest.
      destruct (evolveMode_rotates k q1 v1) as (Hp & Hvv & Hlq & Hlv & Hoth);
        [lia | lia |].
      destruct (Hrest k (Nat.le_refl k)) as [Hqk Hvk].
      unfold Q. rewrite Hlq, Hlv.
      split; [exact Hl1 |]. split; [exact Hl2 |].
      split; [rewrite (proj1 (Hoth 0%nat ltac:(lia))); exact Hc1 |].
      split; [rewrite (proj2 (Hoth 0%nat ltac:(lia))); exact Hc2 |].
      split.
      + intros k' Hk'. destruct (Nat.eq_dec k' k) as [-> | Hne].
        * rewrite Hp, Hvv, Hqk, Hvk. split; reflexivity.
        * destruct (Hoth k' Hne) as [-> ->]. apply Hdone. lia.
      + intros k' Hk'. destruct (Hoth k' ltac:(lia)) as [-> ->].
        apply Hrest. lia. }
  destruct HQ as (Hl1 & Hl2 & Hc1 & Hc2 & Hdone & _).
  split; [exact Hl1 |]. split; [exact Hl2 |]. split.
  - intros _. rewrite Hc1, Hc2. split; [| reflexivity].
    unfold q0. rewrite cget_insert_same by lia. reflexivity.
  - exact Hdone.
Qed.

End DriftFacts.

(** ** Loops over particles and components *)

(** A loop body that, for particle [p] and component [c], rewrites the
    [(p, c)] coordinates of the copies from those coordinates alone and
    touches no other coordinate, run over all massive particles: every
    coordinate ends up as the body's function of its own initial
    values. *)
Section LocalUpdates.
Variable system : System.
Variable numParticles P : nat.
Context {St V : Type}.
Variable view : St -> nat -> nat -> nat -> V.
Variable WF : St -> Prop.
Variable body : nat -> nat -> St -> St.
Variable F : nat -> nat -> (nat -> V) -> nat -> V.
Hypothesis F_ext :
  forall p c f f' k, (forall k', f k' = f' k') -> F p c f k = F p c f' k.
Hypothesis body_spec :
  forall p c st,
    (p < numParticles)%nat -> (c < 3)%nat -> WF st ->
    WF (body p c st)
    /\ (forall k, (k < P)%nat ->
          view (body p c st) k p c = F p c (fun k' => view st k' p c) k)
    /\ (forall k j c', (c' < 3)%nat -> (j, c') <> (p, c) ->
          view (body p c st) k j c' = view st k j c').

Lemma for_massive_components_local st :
  WF st ->
  let st' := for_massive_components system numParticles body st in
  WF st'
  /\ forall j c, (j < numParticles)%nat -> (c < 3)%nat ->
       (getParticleMass system j <> 0 ->
        forall k, (k < P)%nat ->
          view st' k j c = F j c (fun k' => view st k' j c) k)
       /\ (getParticleMass system j = 0 ->
           forall k, view st' k j c = view st k j c).
Proof.
  intros Hwf. cbv zeta.
  pose (done := fun (j c : nat) (s : St) =>
          forall k, (k < P)%nat ->
            view s k j c = F j c (fun k' => view st k' j c) k).
  pose (same := fun (j c : nat) (s : St) =>
          forall k, view s k j c = view st k j c).
  pose (Inv := fun (m : nat) (s : St) =>
          WF s
          /\ forall j c, (c < 3)%nat ->
               ((j < m)%nat -> getParticleMass system j <> 0 -> done j c s)
               /\ ((m <= j)%nat \/ getParticleMass system j = 0 -> same j c s)).
  assert (HInv : Inv numParticles
                   (for_massive_components system numParticles body st)).
  { unfold for_massive_components. apply for_range_ind; [lia | |].
    - split; [exact Hwf |]. intros j c Hc. split; [intros; lia |].
      intros _ k. reflexivity.
    - intros m s Hm [Hs Hjc].
      destruct (Req_dec_T (getParticleMass system m) 0) as [Hzero | Hmass].
      + split; [exact Hs |]. intros j c Hc. destruct (Hjc j c Hc) as [Hd Hsm].
        split.
        * intros Hj Hmj. apply Hd; [| exact Hmj].
          destruct (Nat.eq_dec j m) as [-> | ?]; [contradiction | lia].
        * intros [Hj | Hj]; apply Hsm; [left; lia | now right].
      + pose (Inv2 := fun (n : nat) (s : St) =>
            WF s
            /\ forall j c, (c < 3)%nat ->
                 (((j < m)%nat \/ (j = m /\ (c < n)%nat)) ->
                  getParticleMass system j <> 0 -> done j c s)
                 /\ ((m < j)%nat \/ getParticleMass system j = 0
                     \/ (j = m /\ (n <= c)%nat) -> same j c s)).
        assert (H2 : Inv2 3%nat (for_range 0 3 (body m) s)).
        { apply for_range_ind; [lia | |].
          - split; [exact Hs |]. intros j c Hc.
            destruct (Hjc j c Hc) as [Hd Hsm]. split.
            + intros [Hj | [_ Hj]] Hmj; [now apply Hd | lia].
            + intros [Hj | [Hj | [-> _]]]; apply Hsm;
                [left; lia | now right | left; lia].
          - intros n s2 Hn [Hs2 Hjc2].
            destruct (body_spec m n s2) as (Hwf' & Hnew & Hold);
              [lia | lia | exact Hs2 |].
            split; [exact Hwf' |]. intros j c Hc.
            destruct (Hjc2 j c Hc) as [Hd Hsm].
            destruct (Nat.eq_dec j m) as [-> | Hjm].
            + destruct (Nat.eq_dec c n) as [-> | Hcn].
              * split.
                -- intros _ _ k Hk. rewrite (Hnew k Hk). apply F_ext.
                   intros k'. apply Hsm. right; right. split; [reflexivity | lia].
                -- intros [Hj | [Hj | [_ Hj]]]; [lia | contradiction | lia].
              * split.
                -- intros [Hj | [_ Hj]] Hmj k Hk; [lia |].
                   rewrite Hold by (auto; congruence).
                   apply Hd; [right; split; [reflexivity | lia] | exact Hmj
                             | exact Hk].
                -- intros [Hj | [Hj | [_ Hj]]] k; [lia | contradiction |].
                   rewrite Hold by (auto; congruence).
                   apply Hsm. right; right. split; [reflexivity | lia].
            + split.
              * intros [Hj | [Hj _]] Hmj k Hk; [| contradiction].
                rewrite Hold by (auto; congruence).
                apply Hd; [now left | exact Hmj | exact Hk].
              * intros Hj k. rewrite Hold by (auto; congruence).
                apply Hsm. destruct Hj as [Hj | [Hj | [Hj _]]];
                  [now left | right; now left | contradiction]. }
        destruct H2 as [Hs3 Hjc3]. split; [exact Hs3 |].
        intros j c Hc. destruct (Hjc3 j c Hc) as [Hd Hsm]. split.
        * intros Hj Hmj. apply Hd; [| exact Hmj].
          destruct (Nat.eq_dec j m) as [-> | ?]; [right; split; [reflexivity | lia] | left; lia].
        * intros [Hj | Hj]; apply Hsm; [left; lia | right; now left]. }
  destruct HInv as [Hwf' Hjc]. split; [exact Hwf' |].
  intros j c Hj Hc. destruct (Hjc j c Hc) as [Hd Hsm]. split.
  - intros Hmj. now apply Hd.
  - intros Hmj. apply Hsm. now right.
Qed.

End LocalUpdates.

Section DriftLoopFacts.
Context `{PhysicalConstants}.
Variable system : System.
Variable integrator : RPMDIntegrator.
Variable numCopies numParticles : nat.

Lemma drift_of_ext f f' k :
  (forall k', f k' = f' k') -> drift_of integrator numCopies f k = drift_of integrator numCopies f' k.
Proof.
  intros Hext. unfold drift_of.
  assert (E1 : map (fun k' => mkComplex (scale numCopies * fst (f k')) 0)
                 (seq 0 numCopies)
               = map (fun k' => mkComplex (scale numCopies * fst (f' k')) 0)
                   (seq 0 numCopies)).
  { apply map_ext. intros k'. now rewrite Hext. }
  assert (E2 : map (fun k' => mkComplex (scale numCopies * snd (f k')) 0)
                 (seq 0 numCopies)
               = map (fun k' => mkComplex (scale numCopies * snd (f' k')) 0)
                   (seq 0 numCopies)).
  { apply map_ext. intros k'. now rewrite Hext. }
  now rewrite E1, E2.
Qed.

Lemma evolveModes_drifted q v :
  length q = numCopies -> length v = numCopies ->
  evolveModes integrator numCopies (q, v)
  = (drifted_positions integrator numCopies q v,
     drifted_velocities integrator numCopies q v).
Proof.
  intros Hq Hv.
  destruct (evolveModes_spec integrator numCopies q v Hq Hv)
    as (Hl1 & Hl2 & Hcen & Hmodes).
  destruct (evolveModes integrator numCopies (q, v)) as [q1 v1].
  simpl in Hl1, Hl2, Hcen, Hmodes.
  f_equal; apply buffer_eq_map; try assumption; intros k Hk.
  - destruct k as [| k]; simpl.
    + apply Hcen. lia.
    + apply Hmodes. lia.
  - destruct k as [| k]; simpl.
    + apply Hcen. lia.
    + apply Hmodes. lia.
Qed.

Lemma evolveComponent_spec particle c st :
  (particle < numParticles)%nat -> (c < 3)%nat ->
  drift_state_ok numCopies numParticles st ->
  let st' := evolveComponent integrator numCopies particle c st in
  let view := fun (s : BeadArray * BeadArray * (list Complex * list Complex))
                  k j c' =>
                (coord (fst (fst s)) k j c', coord (snd (fst s)) k j c') in
  drift_state_ok numCopies numParticles st'
  /\ (forall k, (k < numCopies)%nat ->
        view st' k particle c = drift_of integrator numCopies (fun k' => view st k' particle c) k)
  /\ (forall k j c', (c' < 3)%nat -> (j, c') <> (particle, c) ->
        view st' k j c' = view st k j c').
Proof.
  intros Hp Hc. destruct st as [[pos vel] [q v]].
  intros (Hpos & Hvel & Hq & Hv). simpl in Hpos, Hvel, Hq, Hv. cbv zeta.
  unfold evolveComponent.
  rewrite for_range2_split.
  rewrite (for_range_insert_full numCopies _ q Hq),
    (for_range_insert_full numCopies _ v Hv).
  rewrite evolveModes_drifted
    by (rewrite c2c_length; rewrite length_map, length_seq; lia).
  rewrite for_range2_split.
  match goal with
  | |- context [for_range 0 numCopies
                  (fun k pos => set_coord k particle c (@?f k) pos) pos] =>
      destruct (store_coords_spec numCopies numParticles particle c f pos
                  Hpos Hp Hc) as (Hs1 & Hn1 & Ho1 & _)
  end.
  match goal with
  | |- context [for_range 0 numCopies
                  (fun k vel => set_coord k particle c (@?f k) vel) vel] =>
      destruct (store_coords_spec numCopies numParticles particle c f vel
                  Hvel Hp Hc) as (Hs2 & Hn2 & Ho2 & _)
  end.
  split; [| split].
  - unfold drift_state_ok. simpl.
    split; [exact Hs1 |]. split; [exact Hs2 |].
    split; rewrite c2c_length;
      unfold drifted_positions, drifted_velocities;
      rewrite length_map, length_seq; lia.
  - intros k Hk. simpl. rewrite (Hn1 k Hk), (Hn2 k Hk). reflexivity.
  - intros k j c' Hc' Hne. simpl.
    now rewrite (Ho1 k j c' Hc' Hne), (Ho2 k j c' Hc' Hne).
Qed.

(** C1.  The closed-path drift.  The loop over the modes leaves the
    centroid at [q_0 + v_0 dt] (with [v_0] as it was) and every mode
    [1 <= k < P] at [v_k s / w_k + q_k c] and [v_k c - q_k w_k s], both
    from the values [q_k], [v_k] before the update; and for every
    particle of non-zero mass and every Cartesian component, the drift
    over all particles stores the inverse transform of exactly these
    modes of the coordinate's initial positions and velocities. *)
Theorem drift_rotates_every_mode :
  (forall q v,
     length q = numCopies -> length v = numCopies ->
     let r := evolveModes integrator numCopies (q, v) in
     ((0 < numCopies)%nat ->
      cget (fst r) 0 = drifted_centroid (dt integrator) (cget q 0) (cget v 0)
      /\ cget (snd r) 0 = cget v 0)
     /\ (forall k, (1 <= k < numCopies)%nat ->
           cget (fst r) k
             = rotated_position (omega integrator numCopies k)
                 (dt integrator) (cget q k) (cget v k)
           /\ cget (snd r) k
             = rotated_velocity (omega integrator numCopies k)
                 (dt integrator) (cget q k) (cget v k)))
  /\ (forall st particle c k,
        drift_state_ok numCopies numParticles st ->
        (particle < numParticles)%nat ->
        getParticleMass system particle <> 0 ->
        (c < 3)%nat -> (k < numCopies)%nat ->
        let pos := fst (fst st) in
        let vel := snd (fst st) in
        let st' :=
          evolveFreeRingPolymer system integrator numCopies numParticles st in
        let Q := to_modes numCopies pos particle c in
        let V := to_modes numCopies vel particle c in
        coord (fst (fst st')) k particle c
          = from_modes numCopies (drifted_positions integrator numCopies Q V) k
        /\ coord (snd (fst st')) k particle c
          = from_modes numCopies (drifted_velocities integrator numCopies Q V)
              k).
Proof.
  split.
  - intros q v Hq Hv.
    destruct (evolveModes_spec integrator numCopies q v Hq Hv)
      as (_ & _ & Hcen & Hmodes).
    split; assumption.
  - intros st particle c k Hok Hp Hmass Hc Hk. cbv zeta.
    unfold evolveFreeRingPolymer.
    destruct (for_massive_components_local system numParticles numCopies
                (fun (s : BeadArray * BeadArray
                          * (list Complex * list Complex)) k j c' =>
                   (coord (fst (fst s)) k j c', coord (snd (fst s)) k j c'))
                (drift_state_ok numCopies numParticles)
                (evolveComponent integrator numCopies)
                (fun _ _ => drift_of integrator numCopies)
                (fun _ _ => drift_of_ext)
                (fun p c' s Hp' Hc' Hs => evolveComponent_spec p c' s Hp' Hc' Hs)
                st Hok) as [_ Hall].
    destruct (Hall particle c Hp Hc) as [Hdone _].
    specialize (Hdone Hmass k Hk). unfold drift_of in Hdone.
    injection Hdone as Hpos Hvel. split; assumption.
Qed.

End DriftLoopFacts.

(** ** The PILE thermostat on the closed path *)

Section ThermostatFacts.
Context `{PhysicalConstants} {G : Type} `{RandomNumbers G}.
Variable system : System.
Variable integrator : RPMDIntegrator.
Variable numCopies : nat.
Variable particle : nat.



Lemma generator_at_next k g :
  (1 <= k)%nat ->
  generator_at numCopies (S k) g
  = after_mode numCopies k (generator_at numCopies k g).
Proof. intros Hk. unfold generator_at. now rewrite for_range_last. Qed.



End ThermostatFacts.

(** ** Sums *)

Section SumFacts.

Lemma real_Csum f n : real (Csum f n) = Rsum (fun m => real (f m)) n.
Proof. induction n as [| n IH]; simpl; [reflexivity | now rewrite IH]. Qed.

Lemma imag_Csum f n : imag (Csum f n) = Rsum (fun m => imag (f m)) n.
Proof. induction n as [| n IH]; simpl; [reflexivity | now rewrite IH]. Qed.

Lemma Rsum_ext f g n :
  (forall m, (m < n)%nat -> f m = g m) -> Rsum f n = Rsum g n.
Proof.
  induction n as [| n IH]; intros Hext; simpl; [reflexivity |].
  rewrite IH by (intros; apply Hext; lia). now rewrite Hext by lia.
Qed.

Lemma Rsum_zero f n : (forall m, (m < n)%nat -> f m = 0) -> Rsum f n = 0.
Proof.
  induction n as [| n IH]; intros Hz; simpl; [reflexivity |].
  rewrite IH by (intros; apply Hz; lia). rewrite Hz by lia. lra.
Qed.

Lemma Rsum_scale c f n : Rsum (fun m => c * f m) n = c * Rsum f n.
Proof. induction n as [| n IH]; simpl; [lra | rewrite IH; lra]. Qed.

Lemma Rsum_opp f n : Rsum (fun m => - f m) n = - Rsum f n.
Proof. induction n as [| n IH]; simpl; [lra | rewrite IH; lra]. Qed.

Lemma Rsum_plus f g n : Rsum (fun m => f m + g m) n = Rsum f n + Rsum g n.
Proof. induction n as [| n IH]; simpl; [lra | rewrite IH; lra]. Qed.

Lemma Rsum_first f n : Rsum f (S n) = f 0%nat + Rsum (fun m => f (S m)) n.
Proof.
  induction n as [| n IH]; [simpl; lra |].
  change (Rsum f (S (S n))) with (Rsum f (S n) + f (S n)).
  rewrite IH. simpl. lra.
Qed.

(** Summing in the opposite order. *)
Lemma Rsum_rev f n : Rsum f n = Rsum (fun m => f (n - 1 - m)%nat) n.
Proof.
  revert f. induction n as [| n IH]; intros f; [reflexivity |].
  rewrite Rsum_first.
  change (Rsum (fun m => f (S n - 1 - m)%nat) (S n))
    with (Rsum (fun m => f (S n - 1 - m)%nat) n + f (S n - 1 - n)%nat).
  replace (S n - 1 - n)%nat with 0%nat by lia.
  rewrite (IH (fun m => f (S m))).
  rewrite Rplus_comm. f_equal. apply Rsum_ext. intros m Hm.
  f_equal. lia.
Qed.

(** A sum whose terms cancel in mirrored pairs. *)
Lemma Rsum_antisymmetric f n :
  (forall m, (m < n)%nat -> f (n - 1 - m)%nat = - f m) -> Rsum f n = 0.
Proof.
  intros Hanti.
  assert (Hneg : Rsum f n = - Rsum f n).
  { rewrite (Rsum_rev f n) at 1.
    rewrite (Rsum_ext _ (fun m => -1 * f m) n)
      by (intros m Hm; rewrite Hanti by exact Hm; lra).
    rewrite Rsum_scale. lra. }
  lra.
Qed.

End SumFacts.

(** ** The discrete Fourier transform *)

Section FourierFacts.

Lemma twiddle_angle forward n j m :
  twiddle forward n j m
  = mkComplex (cos (angle n j m))
      (if forward then - sin (angle n j m) else sin (angle n j m)).
Proof. reflexivity. Qed.

Lemma INR_pos n : (0 < n)%nat -> 0 < INR n.
Proof. intros Hn. apply lt_0_INR. exact Hn. Qed.

Lemma angle_mirror_m n j m :
  (0 < n)%nat -> (m <= n)%nat ->
  angle n j (n - m) = - angle n j m + 2 * INR j * PI.
Proof.
  intros Hn Hm. unfold angle. rewrite minus_INR by exact Hm.
  pose proof (INR_pos n Hn). field. lra.
Qed.

Lemma angle_mirror_j n j m :
  (0 < n)%nat -> (j <= n)%nat ->
  angle n (n - j) m = - angle n j m + 2 * INR m * PI.
Proof.
  intros Hn Hj. unfold angle. rewrite minus_INR by exact Hj.
  pose proof (INR_pos n Hn). field. lra.
Qed.

Lemma cos_mirror x k : cos (- x + 2 * INR k * PI) = cos x.
Proof. rewrite cos_period. apply cos_neg. Qed.

Lemma sin_mirror x k : sin (- x + 2 * INR k * PI) = - sin x.
Proof. rewrite sin_period. apply sin_neg. Qed.

Lemma angle_0_m n m : angle n 0 m = 0.
Proof. unfold angle. simpl. unfold Rdiv. ring. Qed.

Lemma angle_j_0 n j : angle n j 0 = 0.
Proof. unfold angle. simpl. unfold Rdiv. ring. Qed.

(** The real and imaginary part of one output of [c2c]. *)
Lemma c2c_real n forward data j :
  (j < n)%nat ->
  real (cget (c2c n forward 1 data) j)
  = Rsum (fun m => real (cget data m) * cos (angle n j m)
                   - imag (cget data m)
                     * (if forward then - sin (angle n j m)
                        else sin (angle n j m))) n.
Proof.
  intros Hj. rewrite c2c_low by exact Hj. simpl.
  rewrite real_Csum, Rmult_1_r. apply Rsum_ext. intros m _.
  simpl. destruct forward; reflexivity.
Qed.

Lemma c2c_imag n forward data j :
  (j < n)%nat ->
  imag (cget (c2c n forward 1 data) j)
  = Rsum (fun m => real (cget data m)
                   * (if forward then - sin (angle n j m)
                      else sin (angle n j m))
                   + imag (cget data m) * cos (angle n j m)) n.
Proof.
  intros Hj. rewrite c2c_low by exact Hj. simpl.
  rewrite imag_Csum, Rmult_1_r. apply Rsum_ext. intros m _.
  simpl. destruct forward; reflexivity.
Qed.

Lemma complex_eq a b : real a = real b -> imag a = imag b -> a = b.
Proof. destruct a, b. simpl. now intros -> ->. Qed.

(** The forward transform of real data is Hermitian. *)
Lemma c2c_forward_real_hermitian P data :
  length data = P ->
  (forall m, (m < P)%nat -> imag (cget data m) = 0) ->
  hermitian P (c2c P true 1 data).
Proof.
  intros Hlen Hreal.
  destruct (Nat.eq_dec P 0%nat) as [-> | HP].
  { destruct data; [| discriminate]. split; [reflexivity | intros; lia]. }
  split.
  - rewrite c2c_imag by lia. apply Rsum_zero. intros m Hm.
    rewrite (Hreal m Hm), angle_0_m, sin_0. lra.
  - intros k Hk. apply complex_eq; simpl.
    + rewrite !c2c_real by lia. apply Rsum_ext. intros m Hm.
      rewrite (Hreal m Hm).
      rewrite angle_mirror_j by lia. rewrite cos_mirror, sin_mirror. lra.
    + rewrite !c2c_imag by lia. rewrite <- Rsum_opp.
      apply Rsum_ext. intros m Hm. rewrite (Hreal m Hm).
      rewrite angle_mirror_j by lia. rewrite sin_mirror. lra.
Qed.

(** The backward transform of a Hermitian spectrum is real. *)
Lemma c2c_backward_hermitian_real P v n :
  hermitian P v -> (n < P)%nat ->
  imag (cget (c2c P false 1 v) n) = 0.
Proof.
  intros [H0 Hmirror] Hn. rewrite c2c_imag by exact Hn.
  destruct P as [| P']; [lia |].
  rewrite Rsum_first. rewrite angle_j_0, sin_0, H0.
  rewrite Rsum_antisymmetric; [lra |].
  intros m Hm.
  replace (S (P' - 1 - m)) with (S P' - S m)%nat by lia.
  rewrite (Hmirror (S m)) by lia. simpl real. simpl imag.
  rewrite angle_mirror_m by lia. rewrite cos_mirror, sin_mirror. lra.
Qed.

(** *** The transform of a constant *)

Lemma sum_of_cosines h n :
  2 * sin h * Rsum (fun m => cos (2 * INR m * h)) n
  = sin ((2 * INR n - 1) * h) + sin h.
Proof.
  induction n as [| n IH].
  - simpl. replace ((2 * 0 - 1) * h) with (- h) by ring.
    rewrite sin_neg. lra.
  - change (Rsum (fun m => cos (2 * INR m * h)) (S n))
      with (Rsum (fun m => cos (2 * INR m * h)) n + cos (2 * INR n * h)).
    rewrite Rmult_plus_distr_l, IH. rewrite S_INR.
    replace ((2 * (INR n + 1) - 1) * h) with (2 * INR n * h + h) by ring.
    replace ((2 * INR n - 1) * h) with (2 * INR n * h - h) by ring.
    rewrite sin_plus, sin_minus. ring.
Qed.

Lemma sum_of_sines h n :
  2 * sin h * Rsum (fun m => sin (2 * INR m * h)) n
  = cos h - cos ((2 * INR n - 1) * h).
Proof.
  induction n as [| n IH].
  - simpl. replace ((2 * 0 - 1) * h) with (- h) by ring.
    rewrite cos_neg. lra.
  - change (Rsum (fun m => sin (2 * INR m * h)) (S n))
      with (Rsum (fun m => sin (2 * INR m * h)) n + sin (2 * INR n * h)).
    rewrite Rmult_plus_distr_l, IH. rewrite S_INR.
    replace ((2 * (INR n + 1) - 1) * h) with (2 * INR n * h + h) by ring.
    replace ((2 * INR n - 1) * h) with (2 * INR n * h - h) by ring.
    rewrite cos_plus, cos_minus. ring.
Qed.

Lemma half_angle_sin_pos n j :
  (0 < j < n)%nat -> 0 < sin (PI * INR j / INR n).
Proof.
  intros Hj. pose proof PI_RGT_0 as Hpi.
  assert (Hn : 0 < INR n) by (apply INR_pos; lia).
  assert (Hj0 : 0 < INR j) by (apply INR_pos; lia).
  assert (Hjn : INR j < INR n) by (apply lt_INR; lia).
  apply sin_gt_0.
  - apply Rdiv_lt_0_compat; [| exact Hn]. now apply Rmult_lt_0_compat.
  - apply (Rmult_lt_reg_r (INR n)); [exact Hn |].
    unfold Rdiv. rewrite Rmult_assoc, Rinv_l, Rmult_1_r by lra.
    now apply Rmult_lt_compat_l.
Qed.

Lemma angle_half n j m :
  angle n j m = 2 * INR m * (PI * INR j / INR n).
Proof. unfold angle, Rdiv. ring. Qed.

Lemma full_turn_less_half n j :
  (0 < n)%nat ->
  (2 * INR n - 1) * (PI * INR j / INR n)
  = - (PI * INR j / INR n) + 2 * INR j * PI.
Proof. intros Hn. pose proof (INR_pos n Hn). field. lra. Qed.

(** The roots of unity sum to zero. *)
Lemma roots_of_unity_cos n j :
  (0 < j < n)%nat -> Rsum (fun m => cos (angle n j m)) n = 0.
Proof.
  intros Hj. pose proof (half_angle_sin_pos n j Hj) as Hs.
  pose proof (sum_of_cosines (PI * INR j / INR n) n) as Hsum.
  rewrite full_turn_less_half, sin_mirror in Hsum by lia.
  rewrite (Rsum_ext _ (fun m => cos (2 * INR m * (PI * INR j / INR n))))
    by (intros; now rewrite angle_half).
  nra.
Qed.

Lemma roots_of_unity_sin n j :
  (0 < j < n)%nat -> Rsum (fun m => sin (angle n j m)) n = 0.
Proof.
  intros Hj. pose proof (half_angle_sin_pos n j Hj) as Hs.
  pose proof (sum_of_sines (PI * INR j / INR n) n) as Hsum.
  rewrite full_turn_less_half, cos_mirror in Hsum by lia.
  rewrite (Rsum_ext _ (fun m => sin (2 * INR m * (PI * INR j / INR n))))
    by (intros; now rewrite angle_half).
  nra.
Qed.

Lemma Rsum_const c n : Rsum (fun _ => c) n = INR n * c.
Proof.
  induction n as [| n IH]; [simpl; lra |].
  change (Rsum (fun _ => c) (S n)) with (Rsum (fun _ => c) n + c).
  rewrite IH, S_INR. ring.
Qed.

(** The transform of a constant sequence is [n] times the constant in
    bin 0 and zero elsewhere. *)
Lemma c2c_constant n forward data x :
  (forall m, (m < n)%nat -> cget data m = mkComplex x 0) ->
  ((0 < n)%nat ->
   cget (c2c n forward 1 data) 0 = mkComplex (INR n * x) 0)
  /\ (forall j, (0 < j < n)%nat -> cget (c2c n forward 1 data) j = Czero).
Proof.
  intros Hconst. split.
  - intros Hn. apply complex_eq; simpl.
    + rewrite c2c_real by exact Hn.
      rewrite (Rsum_ext _ (fun _ => x)); [apply Rsum_const |].
      intros m Hm. rewrite (Hconst m Hm), angle_0_m, cos_0, sin_0. simpl.
      destruct forward; lra.
    + rewrite c2c_imag by exact Hn. apply Rsum_zero.
      intros m Hm. rewrite (Hconst m Hm), angle_0_m, cos_0, sin_0. simpl.
      destruct forward; lra.
  - intros j Hj. apply complex_eq; simpl.
    + rewrite c2c_real by lia.
      rewrite (Rsum_ext _ (fun m => x * cos (angle n j m))).
      * rewrite Rsum_scale, roots_of_unity_cos by exact Hj. lra.
      * intros m Hm. rewrite (Hconst m Hm). simpl. lra.
    + rewrite c2c_imag by lia.
      rewrite (Rsum_ext _ (fun m => (if forward then - x else x)
                                    * sin (angle n j m))).
      * rewrite Rsum_scale, roots_of_unity_sin by exact Hj. lra.
      * intros m Hm. rewrite (Hconst m Hm). simpl. destruct forward; lra.
Qed.

(** The transform of a spectrum with bin 0 only is constant. *)
Lemma c2c_only_centroid n forward data y :
  (0 < n)%nat ->
  cget data 0 = mkComplex y 0 ->
  (forall m, (0 < m < n)%nat -> cget data m = Czero) ->
  forall j, (j < n)%nat -> cget (c2c n forward 1 data) j = mkComplex y 0.
Proof.
  intros Hn H0 Hrest j Hj. destruct n as [| n']; [lia |].
  apply complex_eq; simpl.
  - rewrite c2c_real by exact Hj. rewrite Rsum_first.
    rewrite H0, angle_j_0, cos_0, sin_0. simpl real. simpl imag.
    rewrite Rsum_zero.
    + destruct forward; lra.
    + intros m Hm. rewrite (Hrest (S m)) by lia. simpl. lra.
  - rewrite c2c_imag by exact Hj. rewrite Rsum_first.
    rewrite H0, angle_j_0, cos_0, sin_0. simpl real. simpl imag.
    rewrite Rsum_zero.
    + destruct forward; lra.
    + intros m Hm. rewrite (Hrest (S m)) by lia. simpl. lra.
Qed.

(** A transform of length 1 changes nothing. *)
Lemma c2c_length_one forward data :
  (1 <= length data)%nat -> c2c 1 forward 1 data = data.
Proof.
  intros Hlen. destruct data as [| x data]; [simpl in Hlen; lia |].
  unfold c2c. simpl. f_equal.
  apply complex_eq; simpl; unfold cget; simpl;
    replace (2 * PI * 0 * 0 / 1) with 0 by (unfold Rdiv; ring);
    rewrite cos_0, sin_0; destruct forward; ring.
Qed.

End FourierFacts.

(** ** The thermostat keeps the velocities real *)

Section PileFacts.
Context `{PhysicalConstants} {G : Type} `{RandomNumbers G}.
Variable system : System.
Variable integrator : RPMDIntegrator.
Variable numCopies : nat.
Variable particle : nat.









End PileFacts.

Section PileExample.

Lemma moving_positions_shaped : shaped 2 1 moving_positions.
Proof.
  split; [reflexivity |]. intros k Hk.
  destruct k as [| [| k]]; [reflexivity | reflexivity | lia].
Defined.

Lemma moving_velocities_shaped : shaped 2 1 moving_velocities.
Proof.
  split; [reflexivity |]. intros k Hk.
  destruct k as [| [| k]]; [reflexivity | reflexivity | lia].
Defined.



End PileExample.

(** ** Ring-polymer contraction *)

Section ContractionFacts.

Lemma keptStart_bounds copies :
  (1 <= copies)%nat -> (1 <= keptStart copies <= copies)%nat.
Proof.
  intros Hc. unfold keptStart.
  pose proof (Nat.div_mod_eq (copies + 1) 2).
  pose proof (Nat.mod_upper_bound (copies + 1) 2). lia.
Qed.

(** The packing loop: the high modes come down next to the low ones. *)
Lemma packModes_spec totalCopies copies q :
  (1 <= copies < totalCopies)%nat -> length q = totalCopies ->
  length (packModes totalCopies copies q) = totalCopies
  /\ (forall i, (i < keptStart copies)%nat ->
        cget (packModes totalCopies copies q) i = cget q i)
  /\ (forall i, (keptStart copies <= i < copies)%nat ->
        cget (packModes totalCopies copies q) i
        = cget q (i + (totalCopies - copies))).
Proof.
  intros Hc Hlen. pose proof (keptStart_bounds copies ltac:(lia)) as Hs.
  unfold packModes. fold (keptStart copies).
  set (d := (totalCopies - copies)%nat).
  pose (Q := fun (m : nat) (b : list Complex) =>
    length b = totalCopies
    /\ (forall i, (keptStart copies <= i)%nat -> (i + d < m)%nat ->
          cget b i = cget q (i + d))
    /\ (forall i, (i < keptStart copies)%nat \/ (m <= i + d)%nat ->
          cget b i = cget q i)).
  assert (HQ : Q totalCopies
                 (for_range (d + keptStart copies) totalCopies
                    (fun k b => <[(k - d)%nat := cget b k]> b) q)).
  { apply for_range_ind; [lia | |].
    - split; [exact Hlen |]. split; [intros; lia | reflexivity].
    - intros m b Hm (Hl & Hmoved & Hkept).
      split; [now rewrite length_insert |]. split.
      + intros i Hi1 Hi2. destruct (Nat.eq_dec i (m - d)%nat) as [-> | Hne].
        * rewrite cget_insert_same by lia.
          replace (m - d + d)%nat with m by lia. apply Hkept. right. lia.
        * rewrite cget_insert_other by lia. apply Hmoved; lia.
      + intros i Hi. rewrite cget_insert_other by lia. apply Hkept. lia. }
  destruct HQ as (Hl & Hmoved & Hkept).
  split; [exact Hl |]. split.
  - intros i Hi. apply Hkept. now left.
  - intros i Hi. apply Hmoved; lia.
Qed.

Lemma cget_take (l : list Complex) n i :
  (i < n)%nat -> cget (take n l) i = cget l i.
Proof.
  intros Hi. unfold cget. rewrite lookup_take.
  destruct (decide (i < n)%nat); [reflexivity | lia].
Qed.

Lemma cget_drop (l : list Complex) n i : cget (drop n l) i = cget l (n + i).
Proof. unfold cget. now rewrite lookup_drop. Qed.

Lemma cget_replicate n i : cget (replicate n Czero) i = Czero.
Proof.
  unfold cget. destruct (replicate n Czero !! i) as [x |] eqn:Hx;
    [| reflexivity].
  apply lookup_replicate in Hx. now destruct Hx as [-> _].
Qed.

Lemma kept_modes_length totalCopies copies X :
  (1 <= copies < totalCopies)%nat -> length X = totalCopies ->
  length (kept_modes totalCopies copies X) = copies.
Proof.
  intros Hc Hlen. pose proof (keptStart_bounds copies ltac:(lia)).
  unfold kept_modes, keptEnd.
  rewrite length_app, length_take, length_drop. lia.
Qed.

(** The first [copies] entries of the packed buffer are the retained
    modes. *)
Lemma packModes_kept totalCopies copies q :
  (1 <= copies < totalCopies)%nat -> length q = totalCopies ->
  take copies (packModes totalCopies copies q)
  = kept_modes totalCopies copies q.
Proof.
  intros Hc Hlen. pose proof (keptStart_bounds copies ltac:(lia)) as Hs.
  destruct (packModes_spec totalCopies copies q Hc Hlen)
    as (Hl & Hlow & Hhigh).
  rewrite (buffer_eq_map (take copies (packModes totalCopies copies q)) copies
             (cget (kept_modes totalCopies copies q))).
  - symmetry. apply buffer_eq_map; [now apply kept_modes_length | reflexivity].
  - rewrite length_take. lia.
  - intros k Hk. rewrite cget_take by exact Hk.
    unfold kept_modes.
    destruct (Nat.lt_ge_cases k (keptStart copies)) as [Hlt | Hge].
    + rewrite cget_app_l by (rewrite length_take; lia).
      rewrite cget_take by exact Hlt. now apply Hlow.
    + rewrite cget_app_r by (rewrite length_take; lia).
      rewrite length_take, cget_drop. rewrite Hhigh by lia.
      f_equal. unfold keptEnd. lia.
Qed.

(** [c2c] on the first [n] entries only reads those. *)
Lemma c2c_reads_prefix n forward fct data data' j :
  (j < n)%nat ->
  (forall m, (m < n)%nat -> cget data m = cget data' m) ->
  cget (c2c n forward fct data) j = cget (c2c n forward fct data') j.
Proof.
  intros Hj Hsame. rewrite !c2c_low by exact Hj. f_equal.
  assert (Hsum : forall k, (k <= n)%nat ->
            Csum (fun m => Cmul (cget data m) (twiddle forward n j m)) k
            = Csum (fun m => Cmul (cget data' m) (twiddle forward n j m)) k).
  { induction k as [| k IH]; intros Hk; simpl; [reflexivity |].
    rewrite IH by lia. now rewrite Hsame by lia. }
  now apply Hsum.
Qed.

(** Writing zeros over a range. *)
Lemma zero_range_spec first last (q : list Complex) :
  let r := for_range first last (fun k b => <[k := Czero]> b) q in
  length r = length q
  /\ (forall i, (first <= i < last)%nat -> (i < length q)%nat ->
        cget r i = Czero)
  /\ (forall i, (i < first)%nat \/ (last <= i)%nat -> cget r i = cget q i).
Proof.
  cbv zeta.
  destruct (Nat.le_gt_cases first last) as [Hle | Hgt].
  - pose (Q := fun (m : nat) (b : list Complex) =>
      length b = length q
      /\ (forall i, (first <= i < m)%nat -> (i < length q)%nat ->
            cget b i = Czero)
      /\ (forall i, (i < first)%nat \/ (m <= i)%nat -> cget b i = cget q i)).
    assert (HQ : Q last (for_range first last
                           (fun k b => <[k := Czero]> b) q)).
    { apply for_range_ind; [exact Hle | |].
      - split; [reflexivity |]. split; [intros; lia | reflexivity].
      - intros m b Hm (Hl & Hz & Hs).
        split; [now rewrite length_insert |]. split.
        + intros i Hi Hil. destruct (Nat.eq_dec i m) as [-> | Hne].
          * apply cget_insert_same. lia.
          * rewrite cget_insert_other by lia. apply Hz; lia.
        + intros i Hi. rewrite cget_insert_other by lia. apply Hs. lia. }
    exact HQ.
  - rewrite for_range_empty by lia.
    split; [reflexivity |]. split; [intros; lia | reflexivity].
Qed.

(** The unpacking loops when the source and the destination of the
    copy do not overlap: the high modes are back in place with zeros
    between. *)
Lemma unpackModes_spec totalCopies copies q :
  (1 <= copies < totalCopies)%nat -> length q = totalCopies ->
  (copies <= keptEnd totalCopies copies)%nat ->
  let r := unpackModes totalCopies copies q in
  length r = totalCopies
  /\ (forall i, (i < keptStart copies)%nat -> cget r i = cget q i)
  /\ (forall i, (keptStart copies <= i < keptEnd totalCopies copies)%nat ->
        cget r i = Czero)
  /\ (forall i, (keptEnd totalCopies copies <= i < totalCopies)%nat ->
        cget r i = cget q (i - (totalCopies - copies))).
Proof.
  intros Hc Hlen Hfree. cbv zeta.
  pose proof (keptStart_bounds copies ltac:(lia)) as Hs.
  unfold unpackModes. fold (keptStart copies).
  fold (keptEnd totalCopies copies).
  set (d := (totalCopies - copies)%nat).
  assert (Hend : keptEnd totalCopies copies = (d + keptStart copies)%nat)
    by reflexivity.
  pose (Q := fun (m : nat) (b : list Complex) =>
    length b = totalCopies
    /\ (forall i, (keptEnd totalCopies copies <= i < m)%nat ->
          cget b i = cget q (i - d))
    /\ (forall i, (i < keptEnd totalCopies copies)%nat \/ (m <= i)%nat ->
          cget b i = cget q i)).
  assert (HQ : Q totalCopies
                 (for_range (keptEnd totalCopies copies) totalCopies
                    (fun k b => <[k := cget b (k - d)]> b) q)).
  { apply for_range_ind; [lia | |].
    - split; [exact Hlen |]. split; [intros; lia | reflexivity].
    - intros m b Hm (Hl & Hmoved & Hkept).
      split; [now rewrite length_insert |]. split.
      + intros i Hi. destruct (Nat.eq_dec i m) as [-> | Hne].
        * rewrite cget_insert_same by lia. apply Hkept. left. lia.
        * rewrite cget_insert_other by lia. apply Hmoved. lia.
      + intros i Hi. rewrite cget_insert_other by lia. apply Hkept. lia. }
  destruct HQ as (Hl & Hmoved & Hkept).
  match goal with
  | |- context [for_range (keptStart copies) ?e ?b ?s] =>
      destruct (zero_range_spec (keptStart copies) e s) as (Hzl & Hz & Hzs)
  end.
  split; [now rewrite Hzl |]. split; [| split].
  - intros i Hi. rewrite Hzs by lia. apply Hkept. lia.
  - intros i Hi. apply Hz; lia.
  - intros i Hi. rewrite Hzs by lia. apply Hmoved. lia.
Qed.

(** The unpacking loops on a spectrum that has bin 0 only, whether or
    not the copy overlaps. *)
Lemma unpackModes_centroid_only totalCopies copies q y :
  (1 <= copies < totalCopies)%nat -> length q = totalCopies ->
  cget q 0 = y ->
  (forall i, (0 < i < copies)%nat -> cget q i = Czero) ->
  let r := unpackModes totalCopies copies q in
  length r = totalCopies /\ cget r 0 = y
  /\ (forall i, (0 < i < totalCopies)%nat -> cget r i = Czero).
Proof.
  intros Hc Hlen H0 Hzero. cbv zeta.
  pose proof (keptStart_bounds copies ltac:(lia)) as Hs.
  unfold unpackModes. fold (keptStart copies).
  fold (keptEnd totalCopies copies).
  set (d := (totalCopies - copies)%nat).
  assert (Hend : keptEnd totalCopies copies = (d + keptStart copies)%nat)
    by reflexivity.
  pose (Q := fun (m : nat) (b : list Complex) =>
    length b = totalCopies /\ cget b 0 = y
    /\ (forall i, (0 < i < copies)%nat
                  \/ (keptEnd totalCopies copies <= i < m)%nat ->
          cget b i = Czero)).
  assert (HQ : Q totalCopies
                 (for_range (keptEnd totalCopies copies) totalCopies
                    (fun k b => <[k := cget b (k - d)]> b) q)).
  { apply for_range_ind; [lia | |].
    - split; [exact Hlen |]. split; [exact H0 |].
      intros i [Hi | Hi]; [now apply Hzero | lia].
    - intros m b Hm (Hl & Hb0 & Hz).
      split; [now rewrite length_insert |].
      split; [rewrite cget_insert_other by lia; exact Hb0 |].
      intros i Hi. destruct (Nat.eq_dec i m) as [-> | Hne].
      + rewrite cget_insert_same by lia. apply Hz. left. lia.
      + rewrite cget_insert_other by lia. apply Hz. lia. }
  destruct HQ as (Hl & Hb0 & Hz).
  match goal with
  | |- context [for_range (keptStart copies) ?e ?b ?s] =>
      destruct (zero_range_spec (keptStart copies) e s) as (Hzl & Hzz & Hzs)
  end.
  split; [now rewrite Hzl |]. split.
  - rewrite Hzs by lia. exact Hb0.
  - intros i Hi.
    destruct (Nat.lt_ge_cases i (keptStart copies)) as [Hlo | Hlo].
    + rewrite Hzs by lia. apply Hz. left. lia.
    + destruct (Nat.lt_ge_cases i (keptEnd totalCopies copies)) as [Hhi | Hhi].
      * apply Hzz; lia.
      * rewrite Hzs by lia. apply Hz. right. lia.
Qed.

End ContractionFacts.

Section ContractionOperator.
Variable totalCopies copies : nat.
Variable numParticles : nat.
Hypothesis Hcopies : (1 <= copies < totalCopies)%nat.

Lemma cget_as_complex arr particle c n m :
  (m < n)%nat ->
  cget (as_complex arr particle c n) m = mkComplex (coord arr m particle c) 0.
Proof. intros Hm. unfold as_complex. now rewrite cget_map. Qed.

Lemma as_complex_length arr particle c n :
  length (as_complex arr particle c n) = n.
Proof. unfold as_complex. now rewrite length_map, length_seq. Qed.

(** The positions direction, for one particle and component. *)
Lemma contractPositions_spec maxCopies pos particle c cpos q :
  shaped maxCopies numParticles cpos -> (copies <= maxCopies)%nat ->
  (particle < numParticles)%nat -> (c < 3)%nat -> length q = totalCopies ->
  let r := contractPositions totalCopies copies pos particle c (cpos, q) in
  shaped maxCopies numParticles (fst r)
  /\ length (snd r) = totalCopies
  /\ (forall k, (k < copies)%nat ->
        coord (fst r) k particle c
        = contracted_position totalCopies copies pos particle c k)
  /\ (forall k j c', (c' < 3)%nat -> (j, c') <> (particle, c) ->
        coord (fst r) k j c' = coord cpos k j c').
Proof.
  intros Hshape Hmax Hp Hc Hlen. cbv zeta. unfold contractPositions.
  rewrite (fill_full totalCopies _ q Hlen).
  fold (as_complex pos particle c totalCopies).
  set (X := c2c totalCopies true 1 (as_complex pos particle c totalCopies)).
  assert (HX : length X = totalCopies).
  { unfold X. rewrite c2c_length; rewrite as_complex_length; lia. }
  set (q2 := if (1 <? copies)%nat
             then c2c copies false 1 (packModes totalCopies copies X)
             else X).
  assert (Hq2 : length q2 = totalCopies
                /\ forall k, (k < copies)%nat ->
                     cget q2 k
                     = cget (c2c copies false 1
                               (kept_modes totalCopies copies X)) k).
  { unfold q2. destruct (Nat.ltb_spec 1 copies) as [Hgt | Hle].
    - destruct (packModes_spec totalCopies copies X Hcopies HX)
        as (Hpl & _ & _).
      split; [rewrite c2c_length; lia |].
      intros k Hk. apply c2c_reads_prefix; [exact Hk |].
      intros m Hm. rewrite <- (packModes_kept totalCopies copies X Hcopies HX).
      now rewrite cget_take.
    - assert (copies = 1%nat) as -> by lia.
      split; [exact HX |]. intros k Hk.
      rewrite c2c_length_one
        by (rewrite kept_modes_length; [lia | lia | exact HX]).
      unfold kept_modes. change (keptStart 1) with 1%nat.
      rewrite cget_app_l by (rewrite length_take; lia).
      now rewrite cget_take. }
  destruct Hq2 as [Hq2l Hq2v].
  match goal with
  | |- context [for_range 0 copies
                  (fun k a => set_coord k particle c (@?f k) a) cpos] =>
      destruct (store_coords_prefix_spec maxCopies numParticles copies
                  particle c f cpos Hshape Hmax Hp Hc)
        as (Hs1 & Hn1 & Ho1 & _)
  end.
  cbn [fst snd].
  split; [exact Hs1 |]. split; [exact Hq2l |]. split; [| exact Ho1].
  intros k Hk. rewrite (Hn1 k Hk). unfold contracted_position.
  now rewrite Hq2v.
Qed.

(** The first [copies] entries of the buffer after the forward
    transform of the contracted forces. *)
Lemma forces_spectrum cf particle c q :
  length q = totalCopies ->
  let q1 :=
    fill copies (fun k => mkComplex (coord cf k particle c) 0) q in
  let q2 := if (1 <? copies)%nat then c2c copies true 1 q1 else q1 in
  length q2 = totalCopies
  /\ forall m, (m < copies)%nat ->
       cget q2 m = cget (c2c copies true 1 (as_complex cf particle c copies)) m.
Proof.
  intros Hlen. cbv zeta.
  destruct (fill_spec copies
              (fun k => mkComplex (coord cf k particle c) 0) q)
    as (Hfl & Hflo & _).
  assert (Hload : forall m, (m < copies)%nat ->
            cget (fill copies
                    (fun k => mkComplex (coord cf k particle c) 0) q) m
            = cget (as_complex cf particle c copies) m).
  { intros m Hm. rewrite cget_as_complex by exact Hm.
    unfold cget. now rewrite Hflo by lia. }
  destruct (Nat.ltb_spec 1 copies) as [Hgt | Hle].
  - split; [rewrite c2c_length; lia |].
    intros m Hm. now apply c2c_reads_prefix.
  - assert (copies = 1%nat) as Hone by lia.
    split; [lia |]. intros m Hm. rewrite Hone.
    rewrite c2c_length_one by (rewrite as_complex_length; lia).
    rewrite <- Hone. now apply Hload.
Qed.

(** The forces direction, for one particle and component, when the copy
    in the unpacking loop does not overlap. *)
Lemma extendForces_spec cf particle c f q :
  shaped totalCopies numParticles f ->
  (particle < numParticles)%nat -> (c < 3)%nat -> length q = totalCopies ->
  (copies <= keptEnd totalCopies copies)%nat ->
  let r := extendForces totalCopies copies cf particle c (f, q) in
  shaped totalCopies numParticles (fst r)
  /\ (forall k, (k < totalCopies)%nat ->
        coord (fst r) k particle c
        = coord f k particle c
          + extended_force totalCopies copies cf particle c k)
  /\ (forall k j c', (c' < 3)%nat -> (j, c') <> (particle, c) ->
        coord (fst r) k j c' = coord f k j c').
Proof.
  intros Hshape Hp Hc Hlen Hfree. cbv zeta. unfold extendForces.
  destruct (forces_spectrum cf particle c q Hlen) as [Hl2 Hv2].
  cbv zeta in Hl2, Hv2.
  set (q2 := if (1 <? copies)%nat then _ else _) in *.
  set (F := c2c copies true 1 (as_complex cf particle c copies)) in *.
  assert (HF : length F = copies).
  { unfold F. rewrite c2c_length; rewrite as_complex_length; lia. }
  pose proof (keptStart_bounds copies ltac:(lia)) as Hs.
  destruct (unpackModes_spec totalCopies copies q2 Hcopies Hl2 Hfree)
    as (Hl3 & Hlow & Hmid & Hhigh).
  assert (Hpad : forall m, (m < totalCopies)%nat ->
            cget (unpackModes totalCopies copies q2) m
            = cget (padded_modes totalCopies copies F) m).
  { intros m Hm. unfold padded_modes.
    destruct (Nat.lt_ge_cases m (keptStart copies)) as [H1 | H1].
    - rewrite cget_app_l by (rewrite length_take; lia).
      rewrite cget_take by exact H1. rewrite Hlow by exact H1.
      apply Hv2. lia.
    - rewrite cget_app_r by (rewrite length_take; lia).
      rewrite length_take, HF.
      replace (keptStart copies `min` copies)%nat with (keptStart copies)
        by lia.
      destruct (Nat.lt_ge_cases m (keptEnd totalCopies copies)) as [H2 | H2].
      + rewrite cget_app_l by (rewrite length_replicate; lia).
        rewrite cget_replicate. apply Hmid. lia.
      + rewrite cget_app_r by (rewrite length_replicate; lia).
        rewrite length_replicate, cget_drop. rewrite Hhigh by lia.
        rewrite Hv2 by (unfold keptEnd in *; lia).
        f_equal. unfold keptEnd in *. lia. }
  match goal with
  | |- context [for_range 0 totalCopies
                  (fun k a => set_coord k particle c
                                (coord a k particle c + @?g k) a) f] =>
      destruct (add_coords_spec totalCopies numParticles particle c g f
                  Hshape Hp Hc) as (Hs1 & Hn1 & Ho1)
  end.
  cbn [fst snd].
  split; [exact Hs1 |]. split; [| exact Ho1].
  intros k Hk. rewrite (Hn1 k Hk). unfold extended_force. f_equal. f_equal.
  f_equal. now apply c2c_reads_prefix.
Qed.

(** Constant positions contract to the same constant. *)
Lemma contracted_position_constant pos particle c x k :
  (forall m, (m < totalCopies)%nat -> coord pos m particle c = x) ->
  (k < copies)%nat ->
  contracted_position totalCopies copies pos particle c k = x.
Proof.
  intros Hconst Hk. unfold contracted_position.
  set (X := c2c totalCopies true 1 (as_complex pos particle c totalCopies)).
  assert (HX : length X = totalCopies).
  { unfold X. rewrite c2c_length; rewrite as_complex_length; lia. }
  destruct (c2c_constant totalCopies true
              (as_complex pos particle c totalCopies) x) as [H0 Hrest].
  { intros m Hm. rewrite cget_as_complex by exact Hm.
    now rewrite Hconst. }
  fold X in H0, Hrest.
  pose proof (keptStart_bounds copies ltac:(lia)) as Hs.
  rewrite (c2c_only_centroid copies false
             (kept_modes totalCopies copies X) (INR totalCopies * x)).
  - simpl. field. apply not_0_INR. lia.
  - lia.
  - unfold kept_modes. rewrite cget_app_l by (rewrite length_take; lia).
    rewrite cget_take by lia. apply H0. lia.
  - intros m Hm. unfold kept_modes.
    destruct (Nat.lt_ge_cases m (keptStart copies)) as [H1 | H1].
    + rewrite cget_app_l by (rewrite length_take; lia).
      rewrite cget_take by exact H1. apply Hrest. lia.
    + rewrite cget_app_r by (rewrite length_take; lia).
      rewrite length_take, cget_drop. apply Hrest.
      unfold keptEnd. lia.
  - exact Hk.
Qed.

(** Constant contracted forces add the same constant to every copy,
    also when the copy in the unpacking loop overlaps. *)
Lemma extendForces_constant cf particle c f q c0 :
  shaped totalCopies numParticles f ->
  (particle < numParticles)%nat -> (c < 3)%nat -> length q = totalCopies ->
  (forall m, (m < copies)%nat -> coord cf m particle c = c0) ->
  forall k, (k < totalCopies)%nat ->
    coord (fst (extendForces totalCopies copies cf particle c (f, q)))
      k particle c
    = coord f k particle c + c0.
Proof.
  intros Hshape Hp Hc Hlen Hconst k Hk. unfold extendForces.
  destruct (forces_spectrum cf particle c q Hlen) as [Hl2 Hv2].
  cbv zeta in Hl2, Hv2.
  set (q2 := if (1 <? copies)%nat then _ else _) in *.
  destruct (c2c_constant copies true (as_complex cf particle c copies) c0)
    as [H0 Hrest].
  { intros m Hm. rewrite cget_as_complex by exact Hm. now rewrite Hconst. }
  destruct (unpackModes_centroid_only totalCopies copies q2
              (mkComplex (INR copies * c0) 0) Hcopies Hl2)
    as (Hl3 & Hu0 & Hurest).
  { rewrite Hv2 by lia. apply H0. lia. }
  { intros i Hi. rewrite Hv2 by lia. now apply Hrest. }
  match goal with
  | |- context [for_range 0 totalCopies
                  (fun k a => set_coord k particle c
                                (coord a k particle c + @?g k) a) f] =>
      destruct (add_coords_spec totalCopies numParticles particle c g f
                  Hshape Hp Hc) as (_ & Hn1 & _)
  end.
  cbn [fst snd]. rewrite (Hn1 k Hk). f_equal.
  rewrite (c2c_only_centroid totalCopies false _ (INR copies * c0));
    [| lia | exact Hu0 | exact Hurest | exact Hk].
  simpl. field. apply not_0_INR. lia.
Qed.

End ContractionOperator.

Section ContractionTheorems.

(** C3, as amended.  For a contraction from [P] to [P'] copies,
    [1 <= P' < P], of one coordinate of one particle.  Positions: the
    packed buffer holds the bins [0, start) and [end, P) of the forward
    transform, with [start = (P'+1)/2] rounded down and
    [end = P - P' + start]; the contracted position is [1/P] times the
    real part of their backward transform of length [P'].  Forces: when
    the bins moved up do not overlap their destination
    ([P' <= end]), what is added to the force of copy [k] is [1/P']
    times the real part of the backward transform, of length [P], of
    the forward transform of length [P'] put back at the two ends with
    zeros between. *)
Theorem contraction_keeps_low_modes totalCopies copies numParticles :
  (1 <= copies < totalCopies)%nat ->
  (forall X, length X = totalCopies ->
     take copies (packModes totalCopies copies X)
     = kept_modes totalCopies copies X)
  /\ (forall maxCopies pos particle c cpos q k,
        shaped maxCopies numParticles cpos -> (copies <= maxCopies)%nat ->
        (particle < numParticles)%nat -> (c < 3)%nat ->
        length q = totalCopies -> (k < copies)%nat ->
        coord (fst (contractPositions totalCopies copies pos particle c
                      (cpos, q))) k particle c
        = contracted_position totalCopies copies pos particle c k)
  /\ (forall cf particle c f q k,
        shaped totalCopies numParticles f ->
        (particle < numParticles)%nat -> (c < 3)%nat ->
        length q = totalCopies ->
        (copies <= keptEnd totalCopies copies)%nat ->
        (k < totalCopies)%nat ->
        coord (fst (extendForces totalCopies copies cf particle c (f, q)))
          k particle c
        = coord f k particle c
          + extended_force totalCopies copies cf particle c k).
Proof.
  intros Hc. split; [| split].
  - intros X HX. now apply packModes_kept.
  - intros maxCopies pos particle c cpos q k Hsh Hmax Hp Hcc Hq Hk.
    destruct (contractPositions_spec totalCopies copies numParticles Hc
                maxCopies pos particle c cpos q Hsh Hmax Hp Hcc Hq)
      as (_ & _ & Hval & _).
    now apply Hval.
  - intros cf particle c f q k Hsh Hp Hcc Hq Hfree Hk.
    destruct (extendForces_spec totalCopies copies numParticles Hc
                cf particle c f q Hsh Hp Hcc Hq Hfree) as (_ & Hval & _).
    now apply Hval.
Qed.

(** The theorem C3 for a contraction from 4 copies to 2. *)
Lemma contraction_keeps_low_modes_witness :
  (1 <= 2 < 4)%nat
  /\ (forall X, length X = 4%nat ->
        take 2 (packModes 4 2 X) = kept_modes 4 2 X).
Proof.
  assert (H : (1 <= 2 < 4)%nat) by lia.
  split; [exact H |].
  exact (proj1 (contraction_keeps_low_modes 4 2 1 H)).
Defined.

Lemma impulse_spectrum_length :
  length (c2c 4 true 1 (as_complex impulse_positions 0 0 4)) = 4%nat.
Proof. reflexivity. Qed.

Lemma impulse_spectrum_imag j :
  (j < 4)%nat ->
  imag (cget (c2c 4 true 1 (as_complex impulse_positions 0 0 4)) j)
  = - sin (angle 4 j 1).
Proof.
  intros Hj. rewrite c2c_imag by exact Hj.
  unfold Rsum. rewrite !cget_as_complex by lia.
  unfold coord, vec_at, bead. simpl. lra.
Qed.

(** C3 as stated fails for even [P']: with 4 copies contracted to 2 the
    code keeps bins 0 and 3, where the ceiling of (P'+1)/2 would keep
    bins 0 and 1; for the positions of [impulse_positions] bin 3 is [i]
    and bin 1 is [-i]. *)
Lemma contraction_keeps_bin_3_not_bin_1 :
  let X := c2c 4 true 1 (as_complex impulse_positions 0 0 4) in
  cget (take 2 (packModes 4 2 X)) 1 = cget X 3
  /\ cget (claimed_kept_modes 4 2 X) 1 = cget X 1
  /\ imag (cget X 3) = 1
  /\ imag (cget X 1) = -1
  /\ take 2 (packModes 4 2 X) <> claimed_kept_modes 4 2 X.
Proof.
  cbv zeta.
  set (X := c2c 4 true 1 (as_complex impulse_positions 0 0 4)).
  assert (HX : length X = 4%nat) by exact impulse_spectrum_length.
  assert (Hpack : cget (take 2 (packModes 4 2 X)) 1 = cget X 3).
  { rewrite packModes_kept by (lia || exact HX).
    unfold kept_modes, keptEnd. change (keptStart 2) with 1%nat.
    rewrite cget_app_r by (rewrite length_take; lia).
    rewrite length_take, HX, cget_drop. reflexivity. }
  assert (Hclaim : cget (claimed_kept_modes 4 2 X) 1 = cget X 1).
  { unfold claimed_kept_modes. change (claimedStart 2) with 2%nat.
    rewrite cget_app_l by (rewrite length_take; lia).
    now rewrite cget_take by lia. }
  assert (H3 : imag (cget X 3) = 1).
  { unfold X. rewrite impulse_spectrum_imag by lia.
    replace (angle 4 3 1) with (3 * (PI / 2))
      by (unfold angle; simpl; field).
    rewrite sin_3PI2. lra. }
  assert (H1 : imag (cget X 1) = -1).
  { unfold X. rewrite impulse_spectrum_imag by lia.
    replace (angle 4 1 1) with (PI / 2) by (unfold angle; simpl; field).
    rewrite sin_PI2. lra. }
  repeat (split; [assumption |]).
  intros Heq. apply (f_equal (fun l => imag (cget l 1))) in Heq.
  rewrite Hpack, Hclaim, H3, H1 in Heq. lra.
Qed.

(** Outside the condition of the forces direction the copy overlaps: a
    bin already overwritten is read again.  From 4 contracted copies to
    5, bin 2 lands in both high bins and bin 3 is lost. *)
Lemma unpackModes_overlap a b c d e :
  (keptEnd 5 4 < 4)%nat
  /\ unpackModes 5 4 [a; b; c; d; e] = [a; b; Czero; c; c].
Proof. split; [unfold keptEnd, keptStart; simpl; lia | reflexivity]. Qed.

(** C7, as amended.  If all [P] copies of a coordinate hold the same
    position [x], every one of the [P'] contracted positions is [x]; and
    if all [P'] contracted forces of a coordinate are [c0], the
    extension adds [c0] to the force of every copy, so that the total
    added over the copies is [P c0]. *)
Theorem contraction_of_constants totalCopies copies numParticles :
  (1 <= copies < totalCopies)%nat ->
  (forall maxCopies pos particle c cpos q x k,
     shaped maxCopies numParticles cpos -> (copies <= maxCopies)%nat ->
     (particle < numParticles)%nat -> (c < 3)%nat ->
     length q = totalCopies ->
     (forall m, (m < totalCopies)%nat -> coord pos m particle c = x) ->
     (k < copies)%nat ->
     coord (fst (contractPositions totalCopies copies pos particle c
                   (cpos, q))) k particle c = x)
  /\ (forall cf particle c f q c0,
        shaped totalCopies numParticles f ->
        (particle < numParticles)%nat -> (c < 3)%nat ->
        length q = totalCopies ->
        (forall m, (m < copies)%nat -> coord cf m particle c = c0) ->
        let f' :=
          fst (extendForces totalCopies copies cf particle c (f, q)) in
        (forall k, (k < totalCopies)%nat ->
           coord f' k particle c = coord f k particle c + c0)
        /\ total_added totalCopies f f' particle c = INR totalCopies * c0).
Proof.
  intros Hc. split.
  - intros maxCopies pos particle c cpos q x k Hsh Hmax Hp Hcc Hq Hconst Hk.
    destruct (contractPositions_spec totalCopies copies numParticles Hc
                maxCopies pos particle c cpos q Hsh Hmax Hp Hcc Hq)
      as (_ & _ & Hval & _).
    rewrite (Hval k Hk).
    now apply contracted_position_constant.
  - intros cf particle c f q c0 Hsh Hp Hcc Hq Hconst. cbv zeta.
    pose proof (extendForces_constant totalCopies copies numParticles Hc
                  cf particle c f q c0 Hsh Hp Hcc Hq Hconst) as Hadd.
    split; [exact Hadd |].
    unfold total_added.
    rewrite (Rsum_ext _ (fun _ => c0)); [apply Rsum_const |].
    intros k Hk. rewrite (Hadd k Hk). lra.
Qed.

Lemma no_forces_shaped : shaped 2 1 no_forces.
Proof.
  split; [reflexivity |]. intros k Hk.
  destruct k as [| [| k]]; [reflexivity | reflexivity | lia].
Defined.

Lemma unit_contracted_force_constant m :
  (m < 1)%nat -> coord unit_contracted_force m 0 0 = 1.
Proof. intros Hm. destruct m; [reflexivity | lia]. Defined.

(** The theorem C7 for the unit force contracted from 2 copies to 1. *)
Lemma contraction_of_constants_witness :
  (1 <= 1 < 2)%nat
  /\ forall k, (k < 2)%nat ->
       coord (fst (extendForces 2 1 unit_contracted_force 0 0
                     (no_forces, [Czero; Czero]))) k 0 0
       = coord no_forces k 0 0 + 1.
Proof.
  assert (H : (1 <= 1 < 2)%nat) by lia.
  split; [exact H |].
  refine (proj1 (proj2 (contraction_of_constants 2 1 1 H)
                   unit_contracted_force 0%nat 0%nat no_forces
                   [Czero; Czero] 1 no_forces_shaped _ _ _ _)).
  - lia.
  - lia.
  - reflexivity.
  - exact unit_contracted_force_constant.
Defined.

(** C7 as stated fails: the contributions of a constant contracted force
    [c0] add up to [P c0] over the copies, not to [c0].  Here two copies
    receive the unit force each: the total is 2. *)
Lemma extended_unit_force_totals_two :
  let f' :=
    fst (extendForces 2 1 unit_contracted_force 0 0
           (no_forces, [Czero; Czero])) in
  total_added 2 no_forces f' 0 0 = 2
  /\ total_added 2 no_forces f' 0 0 <> 1.
Proof.
  cbv zeta.
  assert (H : (1 <= 1 < 2)%nat) by lia.
  pose proof (extendForces_constant 2 1 1 H unit_contracted_force 0%nat 0%nat
                no_forces [Czero; Czero] 1 no_forces_shaped ltac:(lia)
                ltac:(lia) eq_refl unit_contracted_force_constant) as Hadd.
  unfold total_added, Rsum.
  rewrite (Hadd 0%nat) by lia. rewrite (Hadd 1%nat) by lia.
  split; lra.
Qed.

End ContractionTheorems.

(** ** The open path: force evaluation *)

Section GatherFacts.
Context {E : Type} `{ContextImpl E}.

Lemma gatherBead_cases i st :
  (exists s, gatherBead i st = Done s
             /\ groupsByCopies (fst s) = groupsByCopies (fst st))
  \/ (exists s, gatherBead i st = Thrown Messages.barostat s
                /\ groupsByCopies (fst s) = groupsByCopies (fst st)).
Proof.
  destruct st as [self context]. unfold gatherBead.
  destruct (box_neqb _ _).
  - right. eexists. split; reflexivity.
  - left. eexists. split; reflexivity.
Qed.

Lemma gatherForces_cases n : forall first st,
  (exists s, for_each gatherBead (seq first n) st = Done s
             /\ groupsByCopies (fst s) = groupsByCopies (fst st))
  \/ (exists s, for_each gatherBead (seq first n) st
                = Thrown Messages.barostat s
                /\ groupsByCopies (fst s) = groupsByCopies (fst st)).
Proof.
  induction n as [| n IH]; intros first st; simpl.
  - left. eauto.
  - destruct (gatherBead_cases first st) as [(s & -> & Hg) | (s & -> & Hg)];
      simpl.
    + rewrite <- Hg. apply IH.
    + right. eauto.
Qed.

(** Without a barostat the pass over the copies completes. *)
Lemma gatherForces_completes n :
  (forall c : Context E, ctx_box (updateContextState c) = ctx_box c) ->
  forall first st, exists s, for_each gatherBead (seq first n) st = Done s.
Proof.
  intros Hbox. induction n as [| n IH]; intros first st; simpl; [eauto |].
  destruct st as [self context]. unfold gatherBead at 1.
  rewrite Hbox.
  assert (Hsame : forall b, box_neqb b b = false).
  { intros [[a b] c]. unfold box_neqb, Vec3_neqb. simpl.
    repeat match goal with
           | |- context [Req_dec_T ?x ?x] =>
               destruct (Req_dec_T x x); [| contradiction]
           end.
    reflexivity. }
  rewrite Hsame. simpl. apply IH.
Qed.

(** [computeForcesOpenPath] with a non-empty schedule always throws, and
    with an empty one it never throws the contraction error. *)
Lemma computeForcesOpenPath_cases st :
  (groupsByCopies (fst st) <> [] ->
   exists msg s,
     computeForcesOpenPath st = Thrown msg s
     /\ (msg = Messages.open_path_contraction \/ msg = Messages.barostat)
     /\ ((forall c : Context E, ctx_box (updateContextState c) = ctx_box c) ->
         msg = Messages.open_path_contraction))
  /\ (groupsByCopies (fst st) = [] ->
      (exists s, computeForcesOpenPath st = Done s
                 /\ groupsByCopies (fst s) = [])
      \/ (exists s, computeForcesOpenPath st = Thrown Messages.barostat s)).
Proof.
  unfold computeForcesOpenPath, gatherForces.
  set (n := length (positions (fst st))).
  destruct (gatherForces_cases n 0 st) as [(s & Hs & Hg) | (s & Hs & Hg)];
    rewrite Hs; simpl; destruct s as [self context]; simpl in Hg.
  - split.
    + intros Hne. rewrite <- Hg in Hne.
      destruct (groupsByCopies self) as [| g l] eqn:Hl; [contradiction |].
      simpl. eexists. eexists.
      split; [reflexivity |]. split; [now left | reflexivity].
    + intros Hempty. rewrite <- Hg in Hempty. left.
      rewrite Hempty. simpl. eexists. split; [reflexivity |]. simpl.
      exact Hempty.
  - split.
    + intros _. eexists. eexists. split; [reflexivity |].
      split; [now right |]. intros Hbox.
      destruct (gatherForces_completes n Hbox 0%nat st) as [s' Hs'].
      rewrite Hs' in Hs. discriminate Hs.
    + intros _. right. eauto.
Qed.

End GatherFacts.

Section EndpointFacts.

Lemma box_neqb_same b : box_neqb b b = false.
Proof.
  destruct b as [[a b] c]. unfold box_neqb, Vec3_neqb. simpl.
  repeat match goal with
         | |- context [Req_dec_T ?x ?x] =>
             destruct (Req_dec_T x x); [| contradiction]
         end.
  reflexivity.
Qed.

(** The loop that halves the forces of the two end copies. *)
Lemma halveEndpoints_spec totalCopies numParticles f :
  (2 <= totalCopies)%nat -> shaped totalCopies numParticles f ->
  let f' := halveEndpoints totalCopies numParticles f in
  forall i, (i < numParticles)%nat ->
    vec_at f' 0 i = Vec3_scale (vec_at f 0 i) 0.5
    /\ vec_at f' (totalCopies - 1) i
       = Vec3_scale (vec_at f (totalCopies - 1) i) 0.5
    /\ forall k, (0 < k < totalCopies - 1)%nat ->
         vec_at f' k i = vec_at f k i.
Proof.
  intros HP Hshape. cbv zeta. unfold halveEndpoints.
  set (half := fun v => Vec3_scale v 0.5).
  pose (Q := fun (m : nat) (a : BeadArray) =>
    shaped totalCopies numParticles a
    /\ (forall i, (i < m)%nat ->
          vec_at a 0 i = half (vec_at f 0 i)
          /\ vec_at a (totalCopies - 1) i
             = half (vec_at f (totalCopies - 1) i))
    /\ (forall k i, (m <= i)%nat \/ (0 < k < totalCopies - 1)%nat ->
          vec_at a k i = vec_at f k i)).
  assert (HQ : Q numParticles
                 (for_range 0 numParticles
                    (fun i a => update_vec (totalCopies - 1) i half
                                  (update_vec 0 i half a)) f)).
  { apply for_range_ind; [lia | |].
    - split; [exact Hshape |]. split; [intros; lia | reflexivity].
    - intros m a Hm (Hsh & Hdone & Hrest).
      assert (Hsh1 : shaped totalCopies numParticles (update_vec 0 m half a))
        by now apply update_vec_shaped.
      split; [now apply update_vec_shaped |]. split.
      + intros i Hi. destruct (Nat.eq_dec i m) as [-> | Hne].
        * split.
          -- rewrite vec_at_update_vec_other_copy by lia.
             rewrite vec_at_update_vec_same.
             ++ f_equal. apply Hrest. left. lia.
             ++ destruct Hsh as [-> _]. lia.
             ++ destruct Hsh as [_ ->]; lia.
          -- rewrite vec_at_update_vec_same.
             ++ rewrite vec_at_update_vec_other_copy by lia.
                f_equal. apply Hrest. left. lia.
             ++ destruct Hsh1 as [-> _]. lia.
             ++ destruct Hsh1 as [_ ->]; lia.
        * rewrite !vec_at_update_vec_other_particle by congruence.
          apply Hdone. lia.
      + intros k i Hki.
        destruct (Nat.eq_dec m i) as [-> | Hne].
        * destruct Hki as [Hki | Hki]; [lia |].
          rewrite !vec_at_update_vec_other_copy by lia.
          apply Hrest. now right.
        * rewrite !vec_at_update_vec_other_particle by exact Hne.
          apply Hrest. lia. }
  destruct HQ as (_ & Hdone & Hrest).
  intros i Hi. destruct (Hdone i Hi) as [H0 H1].
  split; [exact H0 |]. split; [exact H1 |].
  intros k Hk. apply Hrest. now right.
Qed.

End EndpointFacts.

Section OpenForceTheorems.
Context {E : Type} `{ContextImpl E}.

(** What [computeForcesOpenPath] leaves behind once the pass over the
    copies has completed, whether or not it then throws. *)
Lemma computeForcesOpenPath_state st gathered context' :
  gatherForces (length (positions (fst st))) st = Done (gathered, context') ->
  state_of (computeForcesOpenPath st)
  = (with_beads gathered (positions gathered) (velocities gathered)
       (halveEndpoints (length (positions (fst st)))
          (length (bead (positions (fst st)) 0)) (forces gathered)),
     context').
Proof.
  intros Hg. unfold computeForcesOpenPath. rewrite Hg. simpl.
  destruct (groupsByCopies gathered); reflexivity.
Qed.

(** C6, as amended.  On the open path with at least two copies, once
    the forces of all copies have been gathered, the forces of copy 0
    and of copy [P-1] are multiplied by 1/2 for every particle and those
    of the copies between are left alone; this is the state in which
    [computeForcesOpenPath] ends, before any contraction could add to
    the forces. *)
Theorem open_path_halves_endpoint_forces st gathered context' :
  let totalCopies := length (positions (fst st)) in
  let numParticles := length (bead (positions (fst st)) 0) in
  (2 <= totalCopies)%nat ->
  gatherForces totalCopies st = Done (gathered, context') ->
  shaped totalCopies numParticles (forces gathered) ->
  let after := fst (state_of (computeForcesOpenPath st)) in
  positions after = positions gathered
  /\ velocities after = velocities gathered
  /\ forall i, (i < numParticles)%nat ->
       vec_at (forces after) 0 i
       = Vec3_scale (vec_at (forces gathered) 0 i) 0.5
       /\ vec_at (forces after) (totalCopies - 1) i
          = Vec3_scale (vec_at (forces gathered) (totalCopies - 1) i) 0.5
       /\ forall k, (0 < k < totalCopies - 1)%nat ->
            vec_at (forces after) k i = vec_at (forces gathered) k i.
Proof.
  intros totalCopies numParticles HP Hg Hshape after.
  unfold after. rewrite (computeForcesOpenPath_state st gathered context' Hg).
  simpl. split; [reflexivity |]. split; [reflexivity |].
  now apply halveEndpoints_spec.
Qed.

End OpenForceTheorems.

(** ** The open path on the example kernels *)

Section OpenExamples.

Lemma gather_one_copy :
  @gatherForces unit constant_force_engine 1 (one_copy_kernel, rest_context)
  = Done (gathered_one_copy, gathered_context).
Proof.
  unfold gatherForces. simpl. unfold gatherBead. simpl.
  rewrite box_neqb_same. reflexivity.
Qed.

Lemma gather_two_copies :
  @gatherForces unit constant_force_engine 2
    (two_copy_contracting_kernel, rest_context)
  = Done (gathered_two_copies, gathered_context).
Proof.
  unfold gatherForces. simpl. unfold gatherBead at 1. simpl.
  rewrite box_neqb_same. simpl. unfold gatherBead. simpl.
  rewrite box_neqb_same. reflexivity.
Qed.

Lemma gathered_two_copies_shaped : shaped 2 1 (forces gathered_two_copies).
Proof.
  split; [reflexivity |]. intros k Hk.
  destruct k as [| [| k]]; [reflexivity | reflexivity | lia].
Qed.

(** The theorem C6 on two copies under the constant force 4: each end
    copy is left with the force 2. *)
Lemma open_path_halves_endpoint_forces_witness :
  (2 <= 2)%nat
  /\ vec_at (forces (fst (state_of
               (@computeForcesOpenPath unit constant_force_engine
                  (two_copy_contracting_kernel, rest_context))))) 0 0
     = Vec3_scale (mkVec3 4 0 0) 0.5
  /\ vec_at (forces (fst (state_of
               (@computeForcesOpenPath unit constant_force_engine
                  (two_copy_contracting_kernel, rest_context))))) 1 0
     = Vec3_scale (mkVec3 4 0 0) 0.5.
Proof.
  assert (HP : (2 <= 2)%nat) by lia.
  split; [exact HP |].
  destruct (@open_path_halves_endpoint_forces unit constant_force_engine
              (two_copy_contracting_kernel, rest_context)
              gathered_two_copies gathered_context HP gather_two_copies
              gathered_two_copies_shaped) as (_ & _ & Hf).
  destruct (Hf 0%nat ltac:(simpl; lia)) as (H0 & H1 & _).
  split; [exact H0 | exact H1].
Defined.

(** C6 as stated fails for a single copy, which is both copy 0 and copy
    [P-1]: its force is halved twice.  Under the constant force 4 the
    one copy is left with the force 1, not 2. *)
Lemma single_copy_force_is_quartered :
  let st := (one_copy_kernel, rest_context) in
  @gatherForces unit constant_force_engine 1 st
  = Done (gathered_one_copy, gathered_context)
  /\ vec_at (forces gathered_one_copy) 0 0 = mkVec3 4 0 0
  /\ vec_at (forces (fst (state_of
               (@computeForcesOpenPath unit constant_force_engine st)))) 0 0
     = mkVec3 1 0 0
  /\ mkVec3 1 0 0 <> Vec3_scale (mkVec3 4 0 0) 0.5.
Proof.
  cbv zeta. split; [exact gather_one_copy |]. split; [reflexivity |]. split.
  - rewrite (@computeForcesOpenPath_state unit constant_force_engine
               (one_copy_kernel, rest_context) _ _ gather_one_copy).
    unfold halveEndpoints, for_range, update_vec, vec_at, bead, Vec3_scale.
    simpl. f_equal; lra.
  - unfold Vec3_scale. simpl. intros Heq. injection Heq as Hx _ _. lra.
Qed.

End OpenExamples.

(** ** [execute] on the open path *)

Section OpenExecute.
Context `{PhysicalConstants} `{Pocketfft} {G : Type} `{RandomNumbers G}
  {E : Type} `{ContextImpl E}.
Variable system : System.
Variable integrator : RPMDIntegrator.

Lemma messages_differ : Messages.barostat <> Messages.open_path_contraction.
Proof. discriminate. Qed.

Lemma openPathStep_cases numCopies numParticles st :
  (groupsByCopies (fst (fst st)) <> [] ->
   refused (openPathStep system integrator numCopies numParticles st))
  /\ (groupsByCopies (fst (fst st)) = [] ->
      accepted (openPathStep system integrator numCopies numParticles st)).
Proof.
  destruct st as [[self context] g]. unfold openPathStep.
  destruct (applyThermostatOpen _ _ _ _ _) as [[vel v] g1].
  destruct (evolveFreeChain _ _ _ _ _) as [[pos vel1] [q v1]].
  match goal with
  | |- context [computeForcesOpenPath ?s] =>
      destruct (computeForcesOpenPath_cases s) as [Hne Hempty]
  end.
  simpl in Hne, Hempty. simpl fst. split.
  - intros Hg. destruct (Hne Hg) as (msg & s & -> & Hmsg & Hbox).
    simpl. exists msg, (s, g1). auto.
  - intros Hg. destruct (Hempty Hg) as [(s & -> & _) | (s & ->)]; simpl.
    + destruct s as [self2 context2].
      destruct (applyThermostatOpen _ _ _ _ _) as [[vel2 v2] g2].
      left. eauto.
    + right. eauto.
Qed.

(** C4, as amended.  On the open path with a non-empty contraction
    schedule every call of [execute] throws: "Contractions are not
    implemented for LePIGS!", unless the barostat check of the pass over
    the copies throws first, which it does not when updating the
    context leaves the periodic box alone.  With an empty schedule the
    step never throws the contraction error: it completes or throws
    the barostat error. *)
Theorem open_path_refuses_contractions forcesAreValid
    (st : @StepState G E) :
  getUseOpenPath integrator = true ->
  (groupsByCopies (fst (fst st)) <> [] ->
   exists msg s,
     execute system integrator forcesAreValid st = Thrown msg s
     /\ (msg = Messages.open_path_contraction \/ msg = Messages.barostat)
     /\ ((forall c : Context E, ctx_box (updateContextState c) = ctx_box c) ->
         msg = Messages.open_path_contraction))
  /\ (groupsByCopies (fst (fst st)) = [] ->
      ((exists s, execute system integrator forcesAreValid st = Done s)
       \/ (exists s, execute system integrator forcesAreValid st
                     = Thrown Messages.barostat s))
      /\ ~ throws (execute system integrator forcesAreValid st)
             Messages.open_path_contraction).
Proof.
  intros Hopen. unfold execute. rewrite Hopen.
  destruct st as [[self context] g]. unfold executeOpenPath. simpl fst.
  assert (Hstep : forall st' : @StepState G E,
            groupsByCopies (fst (fst st')) = groupsByCopies self ->
            (groupsByCopies self <> [] ->
             refused (openPathStep system integrator
                        (length (positions self))
                        (length (bead (positions self) 0)) st'))
            /\ (groupsByCopies self = [] ->
                accepted (openPathStep system integrator
                            (length (positions self))
                            (length (bead (positions self) 0)) st'))).
  { intros st' <-. apply openPathStep_cases. }
  assert (Hnot : forall o : Outcome (@StepState G E),
            accepted o -> ~ throws o Messages.open_path_contraction).
  { intros o [[s ->] | [s ->]] [s' Hs']; [discriminate |].
    injection Hs' as Hm _. now apply messages_differ. }
  destruct forcesAreValid.
  - simpl. destruct (Hstep (self, context, g) eq_refl) as [Hne Hempty].
    split; [exact Hne |]. intros Hg. split; [apply Hempty, Hg |].
    apply Hnot, Hempty, Hg.
  - destruct (computeForcesOpenPath_cases (self, context)) as [Hne Hempty].
    simpl in Hne, Hempty. split.
    + intros Hg. destruct (Hne Hg) as (msg & s & -> & Hmsg & Hbox).
      simpl. exists msg, (s, g). auto.
    + intros Hg.
      assert (Hacc : accepted
                (and_then (with_generator g (computeForcesOpenPath
                                               (self, context)))
                   (openPathStep system integrator (length (positions self))
                      (length (bead (positions self) 0))))).
      { destruct (Hempty Hg) as [(s & -> & Hs) | (s & ->)]; simpl.
        - apply (Hstep (s, g)); [simpl; congruence | exact Hg].
        - right. eauto. }
      split; [exact Hacc | now apply Hnot].
Qed.

End OpenExecute.

(** ** The theorems on the concrete environment *)

Section ConcreteEnvironment.

Lemma constant_force_engine_keeps_box (c : Context unit) :
  ctx_box (@updateContextState unit constant_force_engine c) = ctx_box c.
Proof. reflexivity. Defined.

Lemma contracting_schedule_not_empty :
  groupsByCopies two_copy_contracting_kernel <> [].
Proof. discriminate. Defined.

(** The theorem C4 on two copies with force group 1 contracted. *)
Lemma open_path_refuses_contractions_witness :
  getUseOpenPath open_integrator = true
  /\ groupsByCopies two_copy_contracting_kernel <> []
  /\ exists msg s,
       @execute reference_constants reference_dct unit silent_generator
         unit constant_force_engine one_particle open_integrator false
         (two_copy_contracting_kernel, rest_context, tt)
       = Thrown msg s
       /\ (msg = Messages.open_path_contraction \/ msg = Messages.barostat)
       /\ ((forall c : Context unit,
              ctx_box (@updateContextState unit constant_force_engine c)
              = ctx_box c) ->
           msg = Messages.open_path_contraction).
Proof.
  assert (Hopen : getUseOpenPath open_integrator = true) by reflexivity.
  split; [exact Hopen |].
  split; [exact contracting_schedule_not_empty |].
  exact (proj1 (@open_path_refuses_contractions reference_constants
                  reference_dct unit silent_generator unit
                  constant_force_engine one_particle open_integrator false
                  (two_copy_contracting_kernel, rest_context, tt) Hopen)
           contracting_schedule_not_empty).
Defined.

(** C4 as stated fails: the error is thrown only after the pass over the
    copies has stored the new forces and halved those of the end
    copies.  The kernel that the exception leaves behind differs from
    the one the step started with. *)
Lemma open_path_error_follows_the_force_pass :
  let st := (two_copy_contracting_kernel, rest_context, tt) in
  let o :=
    @execute reference_constants reference_dct unit silent_generator
      unit constant_force_engine one_particle open_integrator false st in
  throws o Messages.open_path_contraction
  /\ vec_at (forces two_copy_contracting_kernel) 0 0 = Vec3_zero
  /\ vec_at (forces (fst (fst (state_of o)))) 0 0 = mkVec3 2 0 0
  /\ fst (fst (state_of o)) <> two_copy_contracting_kernel.
Proof.
  cbv zeta.
  assert (Hexec :
    @execute reference_constants reference_dct unit silent_generator
      unit constant_force_engine one_particle open_integrator false
      (two_copy_contracting_kernel, rest_context, tt)
    = Thrown Messages.open_path_contraction
        (with_beads gathered_two_copies (positions gathered_two_copies)
           (velocities gathered_two_copies)
           (halveEndpoints 2 1 (forces gathered_two_copies)),
         gathered_context, tt)).
  { unfold execute, executeOpenPath. simpl getUseOpenPath. cbv iota.
    unfold computeForcesOpenPath.
    change (length (positions (fst (two_copy_contracting_kernel,
                                    rest_context)))) with 2%nat.
    rewrite gather_two_copies. reflexivity. }
  rewrite Hexec.
  assert (Hforce :
    vec_at (halveEndpoints 2 1 (forces gathered_two_copies)) 0 0
    = mkVec3 2 0 0).
  { unfold halveEndpoints, for_range, update_vec, vec_at, bead, Vec3_scale.
    simpl. f_equal; lra. }
  split; [eexists; reflexivity |]. split; [reflexivity |].
  split; [exact Hforce |].
  intros Heq. apply (f_equal (fun k => vec_at (forces k) 0 0)) in Heq.
  change (vec_at (halveEndpoints 2 1 (forces gathered_two_copies)) 0 0
          = Vec3_zero) in Heq.
  rewrite Hforce in Heq. injection Heq as Hx. lra.
Qed.

Lemma virtual_site_is_massless : getParticleMass with_virtual_site 1 = 0.
Proof. reflexivity. Defined.

(** The theorem C9 for the massless second particle of
    [with_virtual_site]. *)
Lemma massless_particle_is_not_moved_witness :
  getParticleMass with_virtual_site 1 = 0
  /\ (forall f vel k,
        vec_at (updateVelocities with_virtual_site scenario5 2 2 f vel) k 1
        = vec_at vel k 1).
Proof.
  split; [exact virtual_site_is_massless |].
  exact (proj1 (proj2 (@massless_particle_is_not_moved reference_constants
                         reference_dct unit silent_generator
                         with_virtual_site scenario5 2 2 1
                         virtual_site_is_massless))).
Defined.

End ConcreteEnvironment.

(** ** [initialize]: the sizes of the arrays *)

Section InitializeSizes.

Lemma resize_length {A : Type} n (d : A) l : length (resize n d l) = n.
Proof.
  unfold resize. rewrite length_app, length_take, length_replicate. lia.
Qed.

Lemma resize_beads_shaped P N a : shaped P N (resize_beads P N a).
Proof.
  unfold resize_beads. split.
  - now rewrite length_map, resize_length.
  - intros k Hk. unfold bead. rewrite list_lookup_fmap.
    destruct (lookup_lt_is_Some_2 (resize P [] a) k) as [x ->];
      [rewrite resize_length; exact Hk |].
    simpl. apply resize_length.
Qed.

Lemma add_contraction_workspace numCopies c st st' :
  workspace_covers numCopies st ->
  add_contraction numCopies c st = Done st' ->
  workspace_covers numCopies st'.
Proof.
  destruct st as [self mx]. intros (Hmx & Hkeys & Hmax).
  unfold add_contraction.
  destruct ((fst c <? 0) || (fst c >? 31))%Z; [discriminate |].
  destruct ((snd c <? 0) || (snd c >? numCopies))%Z eqn:Hrange;
    [discriminate |].
  apply orb_false_iff in Hrange. destruct Hrange as [Hlo Hhi].
  apply Z.ltb_ge in Hlo. rewrite Z.gtb_ltb in Hhi. apply Z.ltb_ge in Hhi.
  destruct (Z.eqb_spec (snd c) numCopies) as [Heq | Hne]; simpl.
  - intros [= <-]. split; [exact Hmx |]. split; assumption.
  - destruct (IntMap.find (snd c) (groupsByCopies self)) as [mask |]
      eqn:Hfind.
    + intros [= <-]. simpl.
      pose proof (find_In _ _ _ Hfind) as Hin.
      destruct (Hkeys _ _ Hin) as [Hb Hle].
      split; [exact Hmx |]. split.
      * intros copies m Hm. apply In_set in Hm.
        destruct Hm as [[= -> ->] | Hm];
          [split; assumption | exact (Hkeys _ _ Hm)].
      * destruct Hmax as [-> | [m Hm]]; [now left |]. right.
        destruct (Z.eq_dec mx (snd c)) as [-> | Hd].
        -- rewrite find_set_eq. eauto.
        -- rewrite find_set_ne by exact Hd. eauto.
    + destruct (Z.gtb_spec (snd c) mx) as [Hgt | Hle]; intros [= <-]; simpl.
      * split; [lia |]. split.
        -- intros copies m Hm. apply In_set in Hm.
           destruct Hm as [[= -> ->] | Hm]; [lia |].
           destruct (Hkeys _ _ Hm). lia.
        -- right. rewrite find_set_eq. eauto.
      * split; [exact Hmx |]. split.
        -- intros copies m Hm. apply In_set in Hm.
           destruct Hm as [[= -> ->] | Hm]; [lia | exact (Hkeys _ _ Hm)].
        -- destruct Hmax as [-> | [m Hm]]; [now left |]. right.
           rewrite find_set_ne; [eauto |].
           intros ->. rewrite Hfind in Hm. discriminate Hm.
Qed.

Lemma contraction_loop_workspace numCopies l : forall st st',
  workspace_covers numCopies st ->
  for_each (add_contraction numCopies) l st = Done st' ->
  workspace_covers numCopies st'.
Proof.
  induction l as [| c l IH]; intros st st' Hst; cbn [for_each].
  - now intros [= <-].
  - destruct (add_contraction numCopies c st) as [st1 | msg st1] eqn:Hstep;
      simpl; [| discriminate].
    apply IH. eapply add_contraction_workspace; eassumption.
Qed.

(** The loop over the contractions does not touch the bead arrays. *)
Lemma contraction_loop_beads numCopies l : forall s m s' m',
  for_each (add_contraction numCopies) l (s, m) = Done (s', m') ->
  positions s' = positions s /\ velocities s' = velocities s
  /\ forces s' = forces s.
Proof.
  induction l as [| c l IH]; intros s m s' m'; cbn [for_each].
  - now intros [= <- _].
  - destruct (add_contraction numCopies c (s, m))
      as [[s1 m1] | msg st1] eqn:Hstep; simpl; [| discriminate].
    intros Hrest. destruct (IH _ _ _ _ Hrest) as (-> & -> & ->).
    revert Hstep. unfold add_contraction.
    repeat match goal with
           | |- context [if ?b then _ else _] => destruct b
           | |- context [match ?o with Some _ => _ | None => _ end] =>
               destruct o
           end; try discriminate; intros [= <- _]; auto.
Qed.

(** X1.  After a successful [initialize] of a fresh kernel for [P >= 0]
    copies of [N] particles, the three bead arrays hold [P] copies of
    [N] particles each, and the two contraction work arrays hold [M]
    copies of [N] particles, where [M] is the largest number of copies
    of the schedule (0 without a schedule): every scheduled contraction
    has between 0 and [P - 1] copies and fits the work arrays. *)
Theorem initialize_sizes_the_arrays system integrator self self' seed :
  (0 <= getNumCopies integrator)%Z ->
  groupsByCopies self = IntMap.empty ->
  initialize system integrator self = Done (self', seed) ->
  let P := Z.to_nat (getNumCopies integrator) in
  let N := getNumParticles system in
  shaped P N (positions self') /\ shaped P N (velocities self')
  /\ shaped P N (forces self')
  /\ exists M : nat,
       shaped M N (contractedPositions self')
       /\ shaped M N (contractedForces self')
       /\ (forall copies mask,
             In (copies, mask) (groupsByCopies self') ->
             (0 <= copies < getNumCopies integrator)%Z
             /\ (Z.to_nat copies <= M)%nat)
       /\ (M = 0%nat
           \/ exists mask, In (Z.of_nat M, mask) (groupsByCopies self')).
Proof.
  intros Hcopies Hempty. unfold initialize.
  destruct (Z.ltb_spec (getNumCopies integrator) 0) as [Hneg | _]; [lia |].
  match goal with
  | |- context [for_each ?b ?l ?st] =>
      destruct (for_each b l st) as [[loop mx] | msg [loop mx]] eqn:Hrun;
        [| discriminate];
      assert (Hinv : workspace_covers (getNumCopies integrator) (loop, mx))
  end.
  { eapply contraction_loop_workspace; [| exact Hrun].
    simpl. rewrite Hempty. split; [lia |]. split; [intros ? ? [] | now left]. }
  pose proof (contraction_loop_beads _ _ _ _ _ _ Hrun) as Hbeads.
  simpl in Hbeads.
  destruct Hbeads as (Hp & Hv & Hf).
  destruct Hinv as (Hmx & Hkeys & Hmax).
  intros [= <- _]. cbv zeta. simpl.
  rewrite Hp, Hv, Hf.
  split; [apply resize_beads_shaped |].
  split; [apply resize_beads_shaped |].
  split; [apply resize_beads_shaped |].
  exists (Z.to_nat mx).
  split; [apply resize_beads_shaped |].
  split; [apply resize_beads_shaped |]. split.
  - intros copies mask Hin. destruct (Hkeys _ _ Hin) as [Hb Hle].
    split; [exact Hb | lia].
  - destruct Hmax as [-> | [mask Hfind]]; [now left |]. right.
    exists mask. rewrite Z2Nat.id by exact Hmx. now apply find_In.
Qed.

(** The theorem at scenario 5: eight copies, and work arrays of four. *)
Lemma initialize_sizes_the_arrays_witness :
  (0 <= getNumCopies scenario5)%Z
  /\ groupsByCopies newKernel = IntMap.empty
  /\ exists self' seed,
       initialize one_particle scenario5 newKernel = Done (self', seed)
       /\ shaped 8 1 (positions self').
Proof.
  assert (H0 : (0 <= getNumCopies scenario5)%Z) by (simpl; lia).
  split; [exact H0 |]. split; [reflexivity |].
  eexists. eexists. split; [reflexivity |].
  exact (proj1 (initialize_sizes_the_arrays one_particle scenario5 newKernel
                  _ (Some 0%Z) H0 eq_refl eq_refl)).
Defined.

End InitializeSizes.

(** ** The velocity half-kick *)

Section KickFacts.
Variable system : System.
Variable integrator : RPMDIntegrator.
Variable P N : nat.

(** What one pass of "Update velocities" leaves in every entry. *)
Lemma updateVelocities_spec f vel :
  shaped P N vel ->
  let vel' := updateVelocities system integrator P N f vel in
  shaped P N vel'
  /\ forall i j, (i < P)%nat -> (j < N)%nat ->
       getParticleMass system j <> 0 ->
       vec_at vel' i j
       = Vec3_add (vec_at vel i j)
           (Vec3_scale (vec_at f i j)
              (halfdt integrator / getParticleMass system j)).
Proof.
  intros Hshape. cbv zeta. unfold updateVelocities.
  set (kicked := fun i j =>
         Vec3_add (vec_at vel i j)
           (Vec3_scale (vec_at f i j)
              (halfdt integrator / getParticleMass system j))).
  pose (Q := fun (m : nat) (a : BeadArray) =>
    shaped P N a
    /\ (forall i j, (i < m)%nat -> (j < N)%nat ->
          getParticleMass system j <> 0 -> vec_at a i j = kicked i j)
    /\ (forall i j, (m <= i)%nat -> vec_at a i j = vec_at vel i j)).
  match goal with
  | |- shaped P N ?r /\ _ => assert (HQ : Q P r)
  end.
  { apply for_range_ind; [lia | |].
    - split; [exact Hshape |]. split; [intros; lia | reflexivity].
    - intros m a Hm (Hsh & Hdone & Hrest).
      pose (Q2 := fun (n : nat) (b : BeadArray) =>
        shaped P N b
        /\ (forall i j, (i < m)%nat \/ (i = m /\ (j < n)%nat) ->
              (j < N)%nat -> getParticleMass system j <> 0 ->
              vec_at b i j = kicked i j)
        /\ (forall i j, (m < i)%nat \/ (i = m /\ (n <= j)%nat) ->
              vec_at b i j = vec_at vel i j)).
      match goal with
      | |- Q (S m) ?r => assert (HQ2 : Q2 N r)
      end.
      { apply for_range_ind; [lia | |].
        - split; [exact Hsh |]. split.
          + intros i j [Hi | [_ Hj]] HjN Hmass; [now apply Hdone | lia].
          + intros i j Hij. apply Hrest. lia.
        - intros n b Hn (Hsh2 & Hdone2 & Hrest2).
          destruct (Req_dec_T (getParticleMass system n) 0) as [Hz | Hnz].
          + split; [exact Hsh2 |]. split.
            * intros i j Hij HjN Hmass.
              apply Hdone2; [| exact HjN | exact Hmass].
              destruct Hij as [Hi | [-> Hj]]; [now left | right].
              split; [reflexivity |].
              destruct (Nat.eq_dec j n) as [-> | ?]; [contradiction | lia].
            * intros i j Hij. apply Hrest2. lia.
          + split; [now apply update_vec_shaped |]. split.
            * intros i j Hij HjN Hmass.
              destruct (Nat.eq_dec j n) as [-> | Hjn].
              -- destruct (Nat.eq_dec i m) as [-> | Him].
                 ++ rewrite vec_at_update_vec_same.
                    ** unfold kicked. f_equal. apply Hrest2. right.
                       split; [reflexivity | lia].
                    ** destruct Hsh2 as [-> _]. lia.
                    ** destruct Hsh2 as [_ ->]; lia.
                 ++ rewrite vec_at_update_vec_other_copy by congruence.
                    apply Hdone2; [| exact HjN | exact Hmass]. left. lia.
              -- rewrite vec_at_update_vec_other_particle by congruence.
                 apply Hdone2; [| exact HjN | exact Hmass].
                 destruct Hij as [Hi | [-> Hj]]; [now left | right].
                 split; [reflexivity | lia].
            * intros i j Hij.
              destruct (Nat.eq_dec j n) as [-> | Hjn].
              -- rewrite vec_at_update_vec_other_copy by lia.
                 apply Hrest2. lia.
              -- rewrite vec_at_update_vec_other_particle by congruence.
                 apply Hrest2. lia. }
      destruct HQ2 as (Hsh2 & Hdone2 & Hrest2).
      split; [exact Hsh2 |]. split.
      + intros i j Hi HjN Hmass. apply Hdone2; [| exact HjN | exact Hmass].
        destruct (Nat.eq_dec i m) as [-> | ?];
          [right; split; [reflexivity | lia] | left; lia].
      + intros i j Hi. apply Hrest2. left. lia. }
  destruct HQ as (Hsh & Hdone & _). split; [exact Hsh |].
  intros i j Hi Hj Hmass. now apply Hdone.
Qed.

(** X2.  "Update velocities": every copy of every particle of non-zero
    mass [m] receives [v += f (dt/2) / m] from the force on that copy;
    and two such passes with the same forces, as on either side of a
    step boundary, add up to the full kick [v += f dt / m]. *)
Theorem half_kick_adds_force_over_mass f vel :
  shaped P N vel ->
  let vel1 := updateVelocities system integrator P N f vel in
  let vel2 := updateVelocities system integrator P N f vel1 in
  shaped P N vel1
  /\ forall i j, (i < P)%nat -> (j < N)%nat ->
       getParticleMass system j <> 0 ->
       vec_at vel1 i j
       = Vec3_add (vec_at vel i j)
           (Vec3_scale (vec_at f i j)
              (halfdt integrator / getParticleMass system j))
       /\ vec_at vel2 i j
          = Vec3_add (vec_at vel i j)
              (Vec3_scale (vec_at f i j)
                 (dt integrator / getParticleMass system j)).
Proof.
  intros Hshape. cbv zeta.
  destruct (updateVelocities_spec f vel Hshape) as [Hsh1 Hv1].
  destruct (updateVelocities_spec f _ Hsh1) as [_ Hv2].
  cbv zeta in Hv1, Hv2.
  split; [exact Hsh1 |]. intros i j Hi Hj Hmass.
  split; [now apply Hv1 |].
  rewrite (Hv2 i j Hi Hj Hmass), (Hv1 i j Hi Hj Hmass).
  unfold Vec3_add, Vec3_scale, halfdt. simpl. f_equal; unfold Rdiv; lra.
Qed.

End KickFacts.

Section KickExample.

(** The theorem on two copies of one particle at rest. *)
Lemma half_kick_adds_force_over_mass_witness :
  shaped 2 1 no_forces
  /\ forall f, shaped 2 1 (updateVelocities one_particle scenario5 2 1 f
                             no_forces).
Proof.
  split; [exact no_forces_shaped |].
  intros f.
  exact (proj1 (half_kick_adds_force_over_mass one_particle scenario5 2 1 f
                  no_forces no_forces_shaped)).
Defined.

End KickExample.

(** ** Bin 0 of a transform and the sum over the copies *)

Section CentroidSums.

Lemma Rsum_swap (f : nat -> nat -> R) n p :
  Rsum (fun k => Rsum (fun m => f k m) n) p
  = Rsum (fun m => Rsum (fun k => f k m) p) n.
Proof.
  induction p as [| p IH]; simpl.
  - symmetry. now apply Rsum_zero.
  - rewrite IH. now rewrite <- Rsum_plus.
Qed.

Lemma angle_sym n j m : angle n j m = angle n m j.
Proof. unfold angle, Rdiv. ring. Qed.

(** Bin 0 of a transform is the sum of the data. *)
Lemma c2c_bin0_real n forward data :
  (0 < n)%nat ->
  (forall m, (m < n)%nat -> imag (cget data m) = 0) ->
  real (cget (c2c n forward 1 data) 0) = Rsum (fun m => real (cget data m)) n.
Proof.
  intros Hn Hreal. rewrite c2c_real by exact Hn.
  apply Rsum_ext. intros m Hm.
  rewrite angle_0_m, cos_0, sin_0, (Hreal m Hm). destruct forward; lra.
Qed.

(** The outputs of a transform add up to [n] times bin 0 of the data. *)
Lemma c2c_sum n forward data :
  (0 < n)%nat ->
  Rsum (fun k => real (cget (c2c n forward 1 data) k)) n
  = INR n * real (cget data 0).
Proof.
  intros Hn.
  rewrite (Rsum_ext _
             (fun k => Rsum (fun m => real (cget data m) * cos (angle n k m)
                                      - imag (cget data m)
                                        * (if forward
                                           then - sin (angle n k m)
                                           else sin (angle n k m))) n))
    by (intros k Hk; now apply c2c_real).
  rewrite Rsum_swap.
  assert (Hcol : forall m, (m < n)%nat ->
            Rsum (fun k => real (cget data m) * cos (angle n k m)
                           - imag (cget data m)
                             * (if forward then - sin (angle n k m)
                                else sin (angle n k m))) n
            = if (m =? 0)%nat then INR n * real (cget data 0) else 0).
  { intros m Hm.
    rewrite (Rsum_ext _
               (fun k => real (cget data m) * cos (angle n m k)
                         + (if forward then imag (cget data m)
                            else - imag (cget data m))
                           * sin (angle n m k)))
      by (intros k _; rewrite (angle_sym n k m); destruct forward; lra).
    rewrite Rsum_plus, !Rsum_scale.
    destruct m as [| m]; simpl.
    - rewrite (Rsum_ext _ (fun _ => 1))
        by (intros k _; now rewrite angle_0_m, cos_0).
      rewrite (Rsum_zero (fun k => sin (angle n 0 k)))
        by (intros k _; now rewrite angle_0_m, sin_0).
      rewrite Rsum_const. ring.
    - rewrite roots_of_unity_cos, roots_of_unity_sin by lia. ring. }
  rewrite (Rsum_ext _ _ n Hcol).
  destruct n as [| n']; [lia |].
  rewrite Rsum_first. simpl Nat.eqb. cbv iota.
  rewrite Rsum_zero by reflexivity. lra.
Qed.

Lemma scale_squared n : (0 < n)%nat -> scale n * scale n * INR n = 1.
Proof.
  intros Hn. unfold scale.
  pose proof (INR_pos n Hn) as Hpos.
  pose proof (sqrt_lt_R0 _ Hpos) as Hs.
  pose proof (sqrt_sqrt (INR n) ltac:(lra)) as Hsq.
  rewrite <- Hsq at 3. field. lra.
Qed.

Lemma scale_times n : (0 < n)%nat -> scale n * INR n = sqrt (INR n).
Proof.
  intros Hn. unfold scale.
  pose proof (INR_pos n Hn) as Hpos.
  pose proof (sqrt_lt_R0 _ Hpos) as Hs.
  pose proof (sqrt_sqrt (INR n) ltac:(lra)) as Hsq.
  rewrite <- Hsq at 2. field. lra.
Qed.

(** Bin 0 of the modes of a coordinate, and the sum over the copies of
    the coordinate that a list of modes stands for. *)
Lemma to_modes_bin0 P arr particle c :
  (0 < P)%nat ->
  real (cget (to_modes P arr particle c) 0)
  = scale P * bead_sum arr particle c P
  /\ imag (cget (to_modes P arr particle c) 0) = 0.
Proof.
  intros HP. unfold to_modes, bead_sum. split.
  - rewrite c2c_bin0_real; [| exact HP |].
    + rewrite <- Rsum_scale. apply Rsum_ext. intros m Hm.
      now rewrite cget_map.
    + intros m Hm. now rewrite cget_map.
  - rewrite c2c_imag by exact HP. apply Rsum_zero. intros m Hm.
    rewrite cget_map by exact Hm. simpl.
    rewrite angle_0_m, sin_0, cos_0. lra.
Qed.

Lemma from_modes_sum P modes :
  (0 < P)%nat ->
  Rsum (from_modes P modes) P = sqrt (INR P) * real (cget modes 0).
Proof.
  intros HP. unfold from_modes. rewrite Rsum_scale, c2c_sum by exact HP.
  rewrite <- (scale_times P HP). ring.
Qed.

End CentroidSums.

(** ** The centroid under the free ring-polymer drift *)

Section DriftCentroid.
Context `{PhysicalConstants}.
Variable system : System.
Variable integrator : RPMDIntegrator.
Variable numCopies numParticles : nat.

(** Every coordinate of a particle of non-zero mass after the drift
    over all particles. *)
Lemma evolveFreeRingPolymer_coords st particle c k :
  drift_state_ok numCopies numParticles st ->
  (particle < numParticles)%nat ->
  getParticleMass system particle <> 0 ->
  (c < 3)%nat -> (k < numCopies)%nat ->
  let st' :=
    evolveFreeRingPolymer system integrator numCopies numParticles st in
  let Q := to_modes numCopies (fst (fst st)) particle c in
  let V := to_modes numCopies (snd (fst st)) particle c in
  coord (fst (fst st')) k particle c
    = from_modes numCopies (drifted_positions integrator numCopies Q V) k
  /\ coord (snd (fst st')) k particle c
    = from_modes numCopies (drifted_velocities integrator numCopies Q V) k.
Proof.
  intros Hok Hp Hmass Hc Hk. cbv zeta. unfold evolveFreeRingPolymer.
  destruct (for_massive_components_local system numParticles numCopies
              (fun (s : BeadArray * BeadArray
                        * (list Complex * list Complex)) k j c' =>
                 (coord (fst (fst s)) k j c', coord (snd (fst s)) k j c'))
              (drift_state_ok numCopies numParticles)
              (evolveComponent integrator numCopies)
              (fun _ _ => drift_of integrator numCopies)
              (fun _ _ => drift_of_ext integrator numCopies)
              (fun p c' s Hp' Hc' Hs =>
                 evolveComponent_spec integrator numCopies numParticles
                   p c' s Hp' Hc' Hs)
              st Hok) as [_ Hall].
  destruct (Hall particle c Hp Hc) as [Hdone _].
  specialize (Hdone Hmass k Hk). unfold drift_of in Hdone.
  injection Hdone as Hpos Hvel. split; assumption.
Qed.

(** X3.  For a temperature that gives the ring polymer a frequency
    ([twown <> 0], so that no mode divides by zero), the drift moves the
    centroid of every coordinate of a particle of non-zero mass in a
    straight line: the sum over the copies of the positions grows by
    [dt] times the sum of the velocities, and the sum of the velocities
    is kept. *)
Theorem drift_moves_the_centroid_freely st particle c :
  (0 < numCopies)%nat ->
  twown integrator numCopies <> 0 ->
  drift_state_ok numCopies numParticles st ->
  (particle < numParticles)%nat ->
  getParticleMass system particle <> 0 ->
  (c < 3)%nat ->
  let st' :=
    evolveFreeRingPolymer system integrator numCopies numParticles st in
  bead_sum (fst (fst st')) particle c numCopies
  = bead_sum (fst (fst st)) particle c numCopies
    + dt integrator * bead_sum (snd (fst st)) particle c numCopies
  /\ bead_sum (snd (fst st')) particle c numCopies
     = bead_sum (snd (fst st)) particle c numCopies.
Proof.
  intros HP _ Hok Hp Hmass Hc. cbv zeta.
  destruct (to_modes_bin0 numCopies (fst (fst st)) particle c HP)
    as [HQ0 _].
  destruct (to_modes_bin0 numCopies (snd (fst st)) particle c HP)
    as [HV0 _].
  pose proof (scale_squared numCopies HP) as Hsc.
  pose proof (scale_times numCopies HP) as Hst.
  split.
  - unfold bead_sum at 1.
    rewrite (Rsum_ext _
               (from_modes numCopies
                  (drifted_positions integrator numCopies
                     (to_modes numCopies (fst (fst st)) particle c)
                     (to_modes numCopies (snd (fst st)) particle c))))
      by (intros k Hk;
          apply (evolveFreeRingPolymer_coords st particle c k Hok Hp Hmass
                   Hc Hk)).
    rewrite from_modes_sum by exact HP.
    unfold drifted_positions. rewrite cget_map by exact HP.
    simpl. rewrite HQ0, HV0, <- Hst.
    set (a := bead_sum (fst (fst st)) particle c numCopies).
    set (b := bead_sum (snd (fst st)) particle c numCopies).
    replace (scale numCopies * INR numCopies
             * (scale numCopies * a + scale numCopies * b * dt integrator))
      with (scale numCopies * scale numCopies * INR numCopies
            * (a + dt integrator * b)) by ring.
    rewrite Hsc. ring.
  - unfold bead_sum at 1.
    rewrite (Rsum_ext _
               (from_modes numCopies
                  (drifted_velocities integrator numCopies
                     (to_modes numCopies (fst (fst st)) particle c)
                     (to_modes numCopies (snd (fst st)) particle c))))
      by (intros k Hk;
          apply (evolveFreeRingPolymer_coords st particle c k Hok Hp Hmass
                   Hc Hk)).
    rewrite from_modes_sum by exact HP.
    unfold drifted_velocities. rewrite cget_map by exact HP.
    simpl. rewrite HV0, <- Hst.
    set (b := bead_sum (snd (fst st)) particle c numCopies).
    replace (scale numCopies * INR numCopies * (scale numCopies * b))
      with (scale numCopies * scale numCopies * INR numCopies * b) by ring.
    rewrite Hsc. ring.
Qed.

End DriftCentroid.

Section DriftCentroidExample.

Lemma one_particle_is_massive : getParticleMass one_particle 0 <> 0.
Proof. unfold getParticleMass. simpl. lra. Defined.

Lemma rest_state_ok :
  drift_state_ok 2 1
    (no_forces, no_forces, ([Czero; Czero], [Czero; Czero])).
Proof.
  split; [exact no_forces_shaped |]. split; [exact no_forces_shaped |].
  split; reflexivity.
Defined.

Lemma reference_twown_not_zero : @twown reference_constants scenario5 2 <> 0.
Proof. unfold twown, nkT, hbar. simpl. lra. Defined.

Lemma moving_state_ok :
  drift_state_ok 2 1
    (moving_positions, moving_velocities, (used_buffer, used_buffer)).
Proof.
  split; [exact moving_positions_shaped |].
  split; [exact moving_velocities_shaped |].
  split; reflexivity.
Defined.

Lemma moving_sums :
  bead_sum moving_positions 0 1 2 = 3
  /\ bead_sum moving_velocities 0 1 2 = -1.
Proof.
  unfold bead_sum, Rsum, coord, vec_at, bead, component. simpl.
  split; lra.
Defined.

(** The theorem on the y coordinate of two copies of one particle in
    motion: the positions sum to 3 and the velocities to -1 before the
    drift. *)
Lemma drift_moves_the_centroid_freely_witness :
  (0 < 2)%nat
  /\ @twown reference_constants scenario5 2 <> 0
  /\ drift_state_ok 2 1
       (moving_positions, moving_velocities, (used_buffer, used_buffer))
  /\ getParticleMass one_particle 0 <> 0
  /\ let st' :=
       @evolveFreeRingPolymer reference_constants one_particle scenario5 2 1
         (moving_positions, moving_velocities, (used_buffer, used_buffer)) in
     bead_sum (fst (fst st')) 0 1 2 = 3 + dt scenario5 * -1
     /\ bead_sum (snd (fst st')) 0 1 2 = -1.
Proof.
  assert (HP : (0 < 2)%nat) by lia.
  assert (Hp : (0 < 1)%nat) by lia.
  assert (Hc : (1 < 3)%nat) by lia.
  split; [exact HP |]. split; [exact reference_twown_not_zero |].
  split; [exact moving_state_ok |].
  split; [exact one_particle_is_massive |].
  pose proof (@drift_moves_the_centroid_freely reference_constants
                one_particle scenario5 2 1 _ 0%nat 1%nat HP
                reference_twown_not_zero moving_state_ok Hp
                one_particle_is_massive Hc) as Hthm.
  cbv zeta in Hthm. cbn [fst snd] in Hthm.
  destruct moving_sums as [Hq Hv]. rewrite Hq, Hv in Hthm.
  exact Hthm.
Defined.

End DriftCentroidExample.

(** ** The centroid under the closed-path thermostat *)

Section ThermostatCentroid.
Context `{PhysicalConstants} {G : Type} `{RandomNumbers G}.
Variable system : System.
Variable integrator : RPMDIntegrator.
Variable numCopies numParticles : nat.



End ThermostatCentroid.

Section ThermostatCentroidExample.


End ThermostatCentroidExample.

(** ** Contraction and the centroid *)

Section ContractionMeans.
Variable totalCopies copies : nat.
Variable numParticles : nat.
Hypothesis Hcopies : (1 <= copies < totalCopies)%nat.

Lemma as_complex_bin0 arr particle c n forward :
  (0 < n)%nat ->
  real (cget (c2c n forward 1 (as_complex arr particle c n)) 0)
  = bead_sum arr particle c n.
Proof.
  intros Hn. unfold bead_sum. rewrite c2c_bin0_real; [| exact Hn |].
  - apply Rsum_ext. intros m Hm. now rewrite cget_as_complex.
  - intros m Hm. now rewrite cget_as_complex.
Qed.

(** The unpacking loops never write bin 0, overlap or not. *)
Lemma unpackModes_bin0 q :
  length (unpackModes totalCopies copies q) = length q
  /\ cget (unpackModes totalCopies copies q) 0 = cget q 0.
Proof.
  pose proof (keptStart_bounds copies ltac:(lia)) as Hs.
  unfold unpackModes. fold (keptStart copies).
  apply (for_range_preserves
           (fun b => length b = length q /\ cget b 0 = cget q 0)).
  - apply (for_range_preserves
             (fun b => length b = length q /\ cget b 0 = cget q 0));
      [split; reflexivity |].
    intros k b Hk [Hl H0]. split; [now rewrite length_insert |].
    rewrite cget_insert_other by lia. exact H0.
  - intros k b Hk [Hl H0]. split; [now rewrite length_insert |].
    rewrite cget_insert_other by lia. exact H0.
Qed.

(** X5.  The contracted copies of a coordinate have the centroid of the
    full set of copies: their mean over the [P'] contracted copies is
    the mean of the positions over the [P] copies. *)
Theorem contraction_keeps_the_centroid maxCopies pos particle c cpos q :
  shaped maxCopies numParticles cpos -> (copies <= maxCopies)%nat ->
  (particle < numParticles)%nat -> (c < 3)%nat -> length q = totalCopies ->
  let r := contractPositions totalCopies copies pos particle c (cpos, q) in
  bead_sum (fst r) particle c copies / INR copies
  = bead_sum pos particle c totalCopies / INR totalCopies.
Proof.
  intros Hshape Hmax Hp Hc Hlen. cbv zeta.
  destruct (contractPositions_spec totalCopies copies numParticles Hcopies
              maxCopies pos particle c cpos q Hshape Hmax Hp Hc Hlen)
    as (_ & _ & Hval & _).
  unfold bead_sum at 1. rewrite (Rsum_ext _ _ copies Hval).
  unfold contracted_position. rewrite Rsum_scale, c2c_sum by lia.
  pose proof (keptStart_bounds copies ltac:(lia)) as Hs.
  set (X := c2c totalCopies true 1 (as_complex pos particle c totalCopies)).
  assert (HX : length X = totalCopies).
  { unfold X. rewrite c2c_length; rewrite as_complex_length; lia. }
  unfold kept_modes. rewrite cget_app_l by (rewrite length_take; lia).
  rewrite cget_take by lia. unfold X.
  rewrite as_complex_bin0 by lia.
  assert (H1 : INR copies <> 0) by (apply not_0_INR; lia).
  assert (H2 : INR totalCopies <> 0) by (apply not_0_INR; lia).
  field. split; assumption.
Qed.

(** X6.  The extension of the contracted forces keeps the mean force:
    what it adds to a coordinate, averaged over the [P] copies, is the
    average of the contracted force over the [P'] contracted copies; so
    the total added is [P / P'] times the total contracted force. This
    holds also when the copy in the unpacking loop overlaps. *)
Theorem extension_keeps_the_mean_force cf particle c f q :
  shaped totalCopies numParticles f ->
  (particle < numParticles)%nat -> (c < 3)%nat -> length q = totalCopies ->
  let f' := fst (extendForces totalCopies copies cf particle c (f, q)) in
  total_added totalCopies f f' particle c / INR totalCopies
  = bead_sum cf particle c copies / INR copies.
Proof.
  intros Hshape Hp Hc Hlen. cbv zeta. unfold extendForces.
  destruct (forces_spectrum totalCopies copies Hcopies cf particle c q Hlen)
    as [Hl2 Hv2].
  cbv zeta in Hl2, Hv2.
  set (q2 := if (1 <? copies)%nat then _ else _) in *.
  destruct (unpackModes_bin0 q2) as [Hl3 Hu0].
  match goal with
  | |- context [for_range 0 totalCopies
                  (fun k a => set_coord k particle c
                                (coord a k particle c + @?g k) a) f] =>
      destruct (add_coords_spec totalCopies numParticles particle c g f
                  Hshape Hp Hc) as (_ & Hn1 & _)
  end.
  cbn [fst snd]. unfold total_added.
  rewrite (Rsum_ext _
             (fun k => 1 / INR copies
                       * real (cget (c2c totalCopies false 1
                                       (unpackModes totalCopies copies q2))
                                 k)))
    by (intros k Hk; rewrite (Hn1 k Hk); ring).
  rewrite Rsum_scale, c2c_sum by lia.
  rewrite Hu0, Hv2 by lia. rewrite as_complex_bin0 by lia.
  assert (H1 : INR copies <> 0) by (apply not_0_INR; lia).
  assert (H2 : INR totalCopies <> 0) by (apply not_0_INR; lia).
  field. split; assumption.
Qed.

End ContractionMeans.

Section ContractionMeansExamples.

(** The two theorems for a contraction from two copies to one. *)
Lemma contraction_keeps_the_centroid_witness :
  (1 <= 1 < 2)%nat
  /\ shaped 2 1 no_forces
  /\ bead_sum (fst (contractPositions 2 1 impulse_positions 0 0
                      (no_forces, [Czero; Czero]))) 0 0 1 / INR 1
     = bead_sum impulse_positions 0 0 2 / INR 2.
Proof.
  assert (H : (1 <= 1 < 2)%nat) by lia.
  assert (Hm : (1 <= 2)%nat) by lia.
  assert (Hp : (0 < 1)%nat) by lia.
  assert (Hc : (0 < 3)%nat) by lia.
  split; [exact H |]. split; [exact no_forces_shaped |].
  exact (contraction_keeps_the_centroid 2 1 1 H 2 impulse_positions 0%nat
           0%nat no_forces [Czero; Czero] no_forces_shaped Hm Hp Hc eq_refl).
Defined.

Lemma extension_keeps_the_mean_force_witness :
  (1 <= 1 < 2)%nat
  /\ shaped 2 1 no_forces
  /\ total_added 2 no_forces
       (fst (extendForces 2 1 unit_contracted_force 0 0
               (no_forces, [Czero; Czero]))) 0 0 / INR 2
     = bead_sum unit_contracted_force 0 0 1 / INR 1.
Proof.
  assert (H : (1 <= 1 < 2)%nat) by lia.
  assert (Hp : (0 < 1)%nat) by lia.
  assert (Hc : (0 < 3)%nat) by lia.
  split; [exact H |]. split; [exact no_forces_shaped |].
  exact (extension_keeps_the_mean_force 2 1 1 H unit_contracted_force 0%nat
           0%nat no_forces [Czero; Czero] no_forces_shaped Hp Hc eq_refl).
Defined.

End ContractionMeansExamples.

(** ** The drift as a rotation *)

Section DriftEnergy.
Context `{PhysicalConstants}.
Variable integrator : RPMDIntegrator.
Variable numCopies : nat.

Lemma rotation_keeps_energy w t q v :
  w <> 0 ->
  mode_energy w (rotated_position w t q v) (rotated_velocity w t q v)
  = mode_energy w q v.
Proof.
  intros Hw. unfold mode_energy, rotated_position, rotated_velocity.
  simpl real. simpl imag.
  pose proof (sin2_cos2 (w * t)) as Hone. unfold Rsqr in Hone.
  set (s := sin (w * t)) in *. set (c := cos (w * t)) in *.
  destruct q as [qr qi], v as [vr vi]. simpl.
  replace (w * (w * 1) * ((vr * s / w + qr * c) * ((vr * s / w + qr * c) * 1)
                          + (vi * s / w + qi * c)
                            * ((vi * s / w + qi * c) * 1)))
    with ((vr * s + qr * w * c) * (vr * s + qr * w * c)
          + (vi * s + qi * w * c) * (vi * s + qi * w * c))
    by (field; exact Hw).
  replace ((vr * c - qr * w * s) * ((vr * c - qr * w * s) * 1)
           + (vi * c - qi * w * s) * ((vi * c - qi * w * s) * 1)
           + ((vr * s + qr * w * c) * (vr * s + qr * w * c)
              + (vi * s + qi * w * c) * (vi * s + qi * w * c)))
    with ((vr * vr + vi * vi + w * w * (qr * qr + qi * qi))
          * (s * s + c * c)) by ring.
  rewrite Hone. ring.
Qed.

(** X7.  The loop over the modes of the free ring polymer conserves the
    energy [|v_k|^2 + w_k^2 |q_k|^2] of every mode [1 <= k < P] whose
    frequency [w_k] is not zero: the update is a rotation in phase
    space. *)
Theorem drift_conserves_mode_energy q v k :
  length q = numCopies -> length v = numCopies ->
  (1 <= k < numCopies)%nat ->
  omega integrator numCopies k <> 0 ->
  let r := evolveModes integrator numCopies (q, v) in
  mode_energy (omega integrator numCopies k) (cget (fst r) k) (cget (snd r) k)
  = mode_energy (omega integrator numCopies k) (cget q k) (cget v k).
Proof.
  intros Hq Hv Hk Hw. cbv zeta.
  destruct (evolveModes_spec integrator numCopies q v Hq Hv)
    as (_ & _ & _ & Hmodes).
  destruct (Hmodes k Hk) as [-> ->].
  now apply rotation_keeps_energy.
Qed.

End DriftEnergy.

Section DriftEnergyExample.

Lemma reference_frequency_not_zero :
  @omega reference_constants scenario5 2 1 <> 0.
Proof.
  unfold omega, twown, nkT, hbar. simpl.
  replace (1 * PI / (1 + 1)) with (PI / 2) by lra.
  rewrite sin_PI2. lra.
Defined.

(** The theorem on the one internal mode of two copies. *)
Lemma drift_conserves_mode_energy_witness :
  (1 <= 1 < 2)%nat
  /\ @omega reference_constants scenario5 2 1 <> 0
  /\ forall a b c d,
       let r := @evolveModes reference_constants scenario5 2
                  ([a; b], [c; d]) in
       mode_energy (@omega reference_constants scenario5 2 1)
         (cget (fst r) 1) (cget (snd r) 1)
       = mode_energy (@omega reference_constants scenario5 2 1) b d.
Proof.
  assert (Hk : (1 <= 1 < 2)%nat) by lia.
  split; [exact Hk |]. split; [exact reference_frequency_not_zero |].
  intros a b c d.
  exact (@drift_conserves_mode_energy reference_constants scenario5 2
           [a; b] [c; d] 1%nat eq_refl eq_refl Hk
           reference_frequency_not_zero).
Defined.

End DriftEnergyExample.

(** ** The random numbers a step consumes *)

Section DrawFacts.
Context `{PhysicalConstants} `{Pocketfft} {G : Type} `{RandomNumbers G}.
Variable system : System.
Variable integrator : RPMDIntegrator.
Variable numCopies numParticles : nat.

Lemma draws_add n m (g : G) : draws (n + m) g = draws n (draws m g).
Proof. unfold draws. apply Nat.iter_add. Qed.

Lemma draws_succ n (g : G) :
  draws (S n) g = draws n (snd (getNormallyDistributedRandomNumber g)).
Proof.
  replace (S n) with (n + 1)%nat by lia. now rewrite draws_add.
Qed.

Lemma after_mode_draws k (g : G) :
  after_mode numCopies k g
  = draws (if isNyquist numCopies k then 1 else 2) g.
Proof. unfold after_mode. destruct (isNyquist numCopies k); reflexivity. Qed.

Lemma thermostatMode_generator particle k v (g : G) :
  snd (thermostatMode system integrator numCopies particle k (v, g))
  = after_mode numCopies k g.
Proof.
  unfold thermostatMode, after_mode. fold (isNyquist numCopies k).
  destruct (getNormallyDistributedRandomNumber g) as [xi1 g1]. cbn [fst snd].
  destruct (isNyquist numCopies k).
  - now destruct (k <? numCopies - k)%nat.
  - destruct (getNormallyDistributedRandomNumber g1) as [xi2 g2].
    cbn [fst snd]. now destruct (k <? numCopies - k)%nat.
Qed.

Lemma thermostatModes_generator particle v (g : G) :
  snd (thermostatModes system integrator numCopies particle (v, g))
  = generator_at numCopies (numCopies / 2 + 1) g.
Proof.
  unfold thermostatModes, generator_at.
  apply (for_range_ind
           (fun m (s : list Complex * G) =>
              snd s = for_range 1 m (after_mode numCopies) g)); [lia | |].
  - now rewrite for_range_empty.
  - intros m [v1 g1] Hm Hs. simpl in Hs. subst g1.
    rewrite thermostatMode_generator. now rewrite for_range_last by lia.
Qed.

(** Two draws for every mode below the Nyquist bin. *)
Lemma generator_at_low m (g : G) :
  (1 <= m)%nat -> (2 * m <= numCopies + 1)%nat ->
  generator_at numCopies m g = draws (2 * (m - 1)) g.
Proof.
  intros Hm1 Hm2. unfold generator_at.
  apply (for_range_ind
           (fun k (g' : G) =>
              (2 * k <= numCopies + 1)%nat -> g' = draws (2 * (k - 1)) g));
    [exact Hm1 | reflexivity | | exact Hm2].
  intros k g' Hk IH Hle. rewrite IH by lia.
  rewrite after_mode_draws.
  assert (Hny : isNyquist numCopies k = false).
  { unfold isNyquist. apply andb_false_iff.
    destruct (Nat.eqb_spec (numCopies mod 2) 0) as [Hev | Hodd];
      [| now left].
    right. apply Nat.eqb_neq.
    pose proof (Nat.div_mod_eq numCopies 2). lia. }
  rewrite Hny, <- draws_add. f_equal. lia.
Qed.

(** The loop over the internal modes draws [P - 1] numbers. *)
Lemma generator_at_draws (g : G) :
  (1 <= numCopies)%nat ->
  generator_at numCopies (numCopies / 2 + 1) g = draws (numCopies - 1) g.
Proof.
  intros HP.
  pose proof (Nat.div_mod_eq numCopies 2) as Hdiv.
  pose proof (Nat.mod_upper_bound numCopies 2 ltac:(lia)) as Hmod.
  destruct (Nat.eq_dec (numCopies / 2)%nat 0%nat) as [Hz | Hnz].
  - rewrite Hz. simpl. unfold generator_at. rewrite for_range_empty by lia.
    replace (numCopies - 1)%nat with 0%nat by lia. reflexivity.
  - replace (numCopies / 2 + 1)%nat with (S (numCopies / 2)) by lia.
    rewrite generator_at_next by lia.
    rewrite generator_at_low by lia.
    rewrite after_mode_draws, <- draws_add. f_equal.
    unfold isNyquist. rewrite Nat.eqb_refl, andb_true_r.
    destruct (Nat.eqb_spec (numCopies mod 2) 0); lia.
Qed.

Lemma thermostatComponent_generator particle c vel v (g : G) :
  (1 <= numCopies)%nat ->
  snd (thermostatComponent system integrator numCopies particle c
         (vel, v, g))
  = draws numCopies g.
Proof.
  intros HP. unfold thermostatComponent.
  destruct (getNormallyDistributedRandomNumber g) as [xi g1] eqn:Hdraw.
  match goal with
  | |- context [thermostatModes ?s ?i ?n ?p (?b, g1)] =>
      pose proof (thermostatModes_generator p b g1) as Hg;
      destruct (thermostatModes s i n p (b, g1)) as [v1 g2]
  end.
  cbn [fst snd] in *. subst g2.
  rewrite generator_at_draws by exact HP.
  replace numCopies with (S (numCopies - 1)) at 2 by lia.
  rewrite draws_succ, Hdraw. reflexivity.
Qed.

Lemma thermostatModeOpen_generator particle k v (g : G) :
  snd (thermostatModeOpen system integrator numCopies particle k (v, g))
  = draws 1 g.
Proof.
  unfold thermostatModeOpen.
  destruct (getNormallyDistributedRandomNumber g) as [xi g1] eqn:Hdraw.
  cbn [fst snd]. unfold draws. simpl. now rewrite Hdraw.
Qed.

Lemma thermostatComponentOpen_generator particle c vel v (g : G) :
  (1 <= numCopies)%nat ->
  snd (thermostatComponentOpen system integrator numCopies particle c
         (vel, v, g))
  = draws numCopies g.
Proof.
  intros HP. unfold thermostatComponentOpen.
  destruct (getNormallyDistributedRandomNumber g) as [xi g1] eqn:Hdraw.
  match goal with
  | |- context [for_range 1 numCopies ?body (?b, g1)] =>
      assert (Hg : snd (for_range 1 numCopies body (b, g1))
                   = draws (numCopies - 1) g1);
      [| destruct (for_range 1 numCopies body (b, g1)) as [v1 g2]]
  end.
  { apply (for_range_ind
             (fun m (s : list R * G) => snd s = draws (m - 1) g1));
      [exact HP | reflexivity |].
    intros m [v1 g2] Hm Hs. simpl in Hs. subst g2.
    rewrite thermostatModeOpen_generator, <- draws_add. f_equal. lia. }
  cbn [fst snd] in *. subst g2.
  replace numCopies with (S (numCopies - 1)) at 2 by lia.
  rewrite draws_succ, Hdraw. reflexivity.
Qed.

(** A loop over the massive particles whose body draws [P] numbers for
    every component draws [3 P] numbers per massive particle. *)
Lemma for_massive_components_draws {B : Type}
    (body : nat -> nat -> B * G -> B * G) (st : B * G) :
  (forall particle c b g, snd (body particle c (b, g)) = draws numCopies g) ->
  snd (for_massive_components system numParticles body st)
  = draws (3 * numCopies * massive_count system numParticles) (snd st).
Proof.
  intros Hbody. unfold for_massive_components.
  apply (for_range_ind
           (fun m (s : B * G) =>
              snd s = draws (3 * numCopies * massive_count system m)
                        (snd st))); [lia | |].
  - simpl. now rewrite Nat.mul_0_r.
  - intros m s Hm Hs. simpl massive_count.
    destruct (Req_dec_T (getParticleMass system m) 0) as [_ | _].
    + now rewrite Nat.add_0_r.
    + replace (3 * numCopies * (massive_count system m + 1))%nat
        with (numCopies
              + (numCopies
                 + (numCopies + 3 * numCopies * massive_count system m)))%nat
        by lia.
      rewrite !draws_add, <- Hs.
      unfold for_range. simpl.
      destruct s as [b0 g0].
      destruct (body m 0%nat (b0, g0)) as [b1 g1] eqn:E1.
      destruct (body m 1%nat (b1, g1)) as [b2 g2] eqn:E2.
      rewrite Hbody. f_equal.
      replace g2 with (snd (body m 1%nat (b1, g1))) by now rewrite E2.
      rewrite Hbody. f_equal.
      replace g1 with (snd (body m 0%nat (b0, g0))) by now rewrite E1.
      now rewrite Hbody.
Qed.

Lemma applyThermostat_generator st :
  (1 <= numCopies)%nat ->
  snd (applyThermostat system integrator numCopies numParticles st)
  = draws (thermostat_draws system integrator numCopies numParticles)
      (snd st).
Proof.
  intros HP. unfold applyThermostat, thermostat_draws.
  destruct (getApplyThermostat integrator); [| reflexivity].
  apply for_massive_components_draws.
  intros particle c [vel v] g. now apply thermostatComponent_generator.
Qed.

Lemma applyThermostatOpen_generator st :
  (1 <= numCopies)%nat ->
  snd (applyThermostatOpen system integrator numCopies numParticles st)
  = draws (thermostat_draws system integrator numCopies numParticles)
      (snd st).
Proof.
  intros HP. unfold applyThermostatOpen, thermostat_draws.
  destruct (getApplyThermostat integrator); [| reflexivity].
  apply for_massive_components_draws.
  intros particle c [vel v] g. now apply thermostatComponentOpen_generator.
Qed.

End DrawFacts.

Section StepDraws.
Context `{PhysicalConstants} `{Pocketfft} {G : Type} `{RandomNumbers G}
  {E : Type} `{ContextImpl E}.
Variable system : System.
Variable integrator : RPMDIntegrator.

Lemma closedPathStep_draws numCopies numParticles (st : @StepState G E) :
  (1 <= numCopies)%nat ->
  step_draws (thermostat_draws system integrator numCopies numParticles)
    (snd st) (closedPathStep system integrator numCopies numParticles st).
Proof.
  intros HP. destruct st as [[self context] g]. unfold closedPathStep.
  match goal with
  | |- context [applyThermostat ?s ?i ?n ?m ?x] =>
      pose proof (applyThermostat_generator s i n m x HP) as Hg1;
      destruct (applyThermostat s i n m x) as [[vel v1] g1]
  end.
  cbn [fst snd] in Hg1. subst g1.
  destruct (evolveFreeRingPolymer _ _ _ _ _) as [[pos vel2] [q v2]].
  destruct (computeForcesClosedPath _) as [[self2 context2] | msg s2];
    cbn [with_generator and_then].
  - match goal with
    | |- context [applyThermostat ?s ?i ?n ?m ?x] =>
        pose proof (applyThermostat_generator s i n m x HP) as Hg2;
        destruct (applyThermostat s i n m x) as [[vel3 v3] g3]
    end.
    cbn [fst snd step_draws] in *. subst g3.
    rewrite <- draws_add. f_equal. lia.
  - cbn [step_draws snd]. now right.
Qed.

Lemma openPathStep_draws numCopies numParticles (st : @StepState G E) :
  (1 <= numCopies)%nat ->
  step_draws (thermostat_draws system integrator numCopies numParticles)
    (snd st) (openPathStep system integrator numCopies numParticles st).
Proof.
  intros HP. destruct st as [[self context] g]. unfold openPathStep.
  match goal with
  | |- context [applyThermostatOpen ?s ?i ?n ?m ?x] =>
      pose proof (applyThermostatOpen_generator s i n m x HP) as Hg1;
      destruct (applyThermostatOpen s i n m x) as [[vel v1] g1]
  end.
  cbn [fst snd] in Hg1. subst g1.
  destruct (evolveFreeChain _ _ _ _ _) as [[pos vel2] [q v2]].
  destruct (computeForcesOpenPath _) as [[self2 context2] | msg s2];
    cbn [with_generator and_then].
  - match goal with
    | |- context [applyThermostatOpen ?s ?i ?n ?m ?x] =>
        pose proof (applyThermostatOpen_generator s i n m x HP) as Hg2;
        destruct (applyThermostatOpen s i n m x) as [[vel3 v3] g3]
    end.
    cbn [fst snd step_draws] in *. subst g3.
    rewrite <- draws_add. f_equal. lia.
  - cbn [step_draws snd]. now right.
Qed.

(** X8.  A step on [P >= 1] copies, closed or open path, draws exactly
    [3 P] normal deviates per particle of non-zero mass in each of its
    two passes of the thermostat, and none with the thermostat switched
    off. A step that throws has drawn for no pass (the error came from
    the first force evaluation) or for one. *)
Theorem step_draws_three_per_bead forcesAreValid (st : @StepState G E) :
  let P := length (positions (fst (fst st))) in
  let N := length (bead (positions (fst (fst st))) 0) in
  (1 <= P)%nat ->
  match execute system integrator forcesAreValid st with
  | Done st' =>
      snd st' = draws (2 * thermostat_draws system integrator P N) (snd st)
  | Thrown _ st' =>
      snd st' = snd st
      \/ snd st' = draws (thermostat_draws system integrator P N) (snd st)
  end.
Proof.
  destruct st as [[self context] g]. cbn [fst snd]. intros HP.
  fold (step_draws
          (thermostat_draws system integrator (length (positions self))
             (length (bead (positions self) 0))) g
          (execute system integrator forcesAreValid (self, context, g))).
  unfold execute, executeClosedPath, executeOpenPath.
  destruct (getUseOpenPath integrator), forcesAreValid;
    cbn [with_generator and_then].
  - apply (openPathStep_draws _ _ (self, context, g) HP).
  - destruct (computeForcesOpenPath _) as [s | msg s];
      cbn [with_generator and_then].
    + apply (openPathStep_draws _ _ (s, g) HP).
    + now left.
  - apply (closedPathStep_draws _ _ (self, context, g) HP).
  - destruct (computeForcesClosedPath _) as [s | msg s];
      cbn [with_generator and_then].
    + apply (closedPathStep_draws _ _ (s, g) HP).
    + now left.
Qed.

End StepDraws.

(** ** The force evaluation: errors, and the two paths compared *)

Section ForceOutcomes.
Context {E : Type} `{ContextImpl E}.

(** [computeForcesClosedPath] completes or throws the barostat error,
    and completes when updating the context leaves the box alone. *)
Lemma computeForcesClosedPath_cases st :
  ((exists s, computeForcesClosedPath st = Done s)
   \/ (exists s, computeForcesClosedPath st = Thrown Messages.barostat s))
  /\ ((forall c : Context E, ctx_box (updateContextState c) = ctx_box c) ->
      exists s, computeForcesClosedPath st = Done s).
Proof.
  unfold computeForcesClosedPath, gatherForces.
  set (n := length (positions (fst st))). split.
  - destruct (gatherForces_cases n 0 st) as [(s & -> & _) | (s & -> & _)];
      simpl; eauto.
  - intros Hbox. destruct (gatherForces_completes n Hbox 0%nat st) as [s ->].
    simpl. eauto.
Qed.

(** X9.  Without a contraction schedule the open path evaluates the
    forces as the closed path does, and then halves those of the two end
    copies; it throws when the closed path throws, with the same error
    and state. *)
Theorem open_path_forces_are_closed_path_forces_halved st :
  groupsByCopies (fst st) = [] ->
  computeForcesOpenPath st
  = match computeForcesClosedPath st with
    | Done (self, context) =>
        Done
          (with_beads self (positions self) (velocities self)
             (halveEndpoints (length (positions (fst st)))
                (length (bead (positions (fst st)) 0)) (forces self)),
           context)
    | Thrown msg s => Thrown msg s
    end.
Proof.
  intros Hempty. unfold computeForcesOpenPath, computeForcesClosedPath.
  unfold gatherForces.
  destruct (gatherForces_cases (length (positions (fst st))) 0 st)
    as [([self context] & -> & Hg) | (s & -> & _)]; simpl; [| reflexivity].
  simpl in Hg. rewrite Hempty in Hg. rewrite Hg. reflexivity.
Qed.

End ForceOutcomes.

Section ClosedPathOutcomes.
Context `{PhysicalConstants} `{Pocketfft} {G : Type} `{RandomNumbers G}
  {E : Type} `{ContextImpl E}.
Variable system : System.
Variable integrator : RPMDIntegrator.

Lemma closedPathStep_cases numCopies numParticles (st : @StepState G E) :
  ((exists s, closedPathStep system integrator numCopies numParticles st
              = Done s)
   \/ (exists s, closedPathStep system integrator numCopies numParticles st
                 = Thrown Messages.barostat s))
  /\ ((forall c : Context E, ctx_box (updateContextState c) = ctx_box c) ->
      exists s, closedPathStep system integrator numCopies numParticles st
                = Done s).
Proof.
  destruct st as [[self context] g]. unfold closedPathStep.
  destruct (applyThermostat _ _ _ _ _) as [[vel v] g1].
  destruct (evolveFreeRingPolymer _ _ _ _ _) as [[pos vel1] [q v1]].
  match goal with
  | |- context [computeForcesClosedPath ?s] =>
      destruct (computeForcesClosedPath_cases s) as [Hcases Hbox]
  end.
  split.
  - destruct Hcases as [([self2 context2] & ->) | (s & ->)]; simpl.
    + destruct (applyThermostat _ _ _ _ _) as [[vel2 v2] g2]. eauto.
    + eauto.
  - intros Hkeep. destruct (Hbox Hkeep) as ([self2 context2] & ->). simpl.
    destruct (applyThermostat _ _ _ _ _) as [[vel2 v2] g2]. eauto.
Qed.


End ClosedPathOutcomes.

Section ForceOutcomesExample.

(** The comparison of the two paths on one copy without a schedule. *)
Lemma open_path_forces_are_closed_path_forces_halved_witness :
  groupsByCopies one_copy_kernel = []
  /\ @computeForcesOpenPath unit constant_force_engine
       (one_copy_kernel, rest_context)
     = match
         @computeForcesClosedPath unit constant_force_engine
           (one_copy_kernel, rest_context)
       with
       | Done (self, context) =>
           Done
             (with_beads self (positions self) (velocities self)
                (halveEndpoints 1 1 (forces self)),
              context)
       | Thrown msg s => Thrown msg s
       end.
Proof.
  assert (Hempty : groupsByCopies one_copy_kernel = []) by reflexivity.
  split; [exact Hempty |].
  exact (@open_path_forces_are_closed_path_forces_halved unit
           constant_force_engine (one_copy_kernel, rest_context) Hempty).
Defined.

End ForceOutcomesExample.

Section StepDrawsExample.

Lemma one_massive_particle : massive_count one_particle 1 = 1%nat.
Proof.
  simpl. destruct (Req_dec_T (getParticleMass one_particle 0) 0) as [Hz | _].
  - exfalso. exact (one_particle_is_massive Hz).
  - reflexivity.
Defined.

Lemma counting_draws n g : @draws nat counting_generator n g = (n + g)%nat.
Proof.
  induction n as [| n IH]; [reflexivity |].
  change (@draws nat counting_generator (S n) g)
    with (S (@draws nat counting_generator n g)).
  now rewrite IH.
Defined.

(** The theorem on a step whose forces are valid, for two copies of one
    particle in motion, with the thermostat on and the generator that
    counts its draws, starting from the count 0: each pass of the
    thermostat draws 6 times, the step completes and has drawn 12
    times. *)
Lemma step_draws_three_per_bead_witness :
  (1 <= 2)%nat
  /\ thermostat_draws one_particle scenario5 2 1 = 6%nat
  /\ exists st',
       @execute reference_constants reference_dct nat counting_generator
         unit constant_force_engine one_particle scenario5 true
         (moving_kernel, rest_context, 0%nat)
       = Done st'
       /\ snd st' = 12%nat.
Proof.
  assert (HP : (1 <= 2)%nat) by lia.
  assert (Hdraws : thermostat_draws one_particle scenario5 2 1 = 6%nat).
  { unfold thermostat_draws. simpl getApplyThermostat. cbv iota.
    now rewrite one_massive_particle. }
  split; [exact HP |]. split; [exact Hdraws |].
  pose proof (@step_draws_three_per_bead reference_constants reference_dct
                nat counting_generator unit constant_force_engine
                one_particle scenario5 true
                (moving_kernel, rest_context, 0%nat) HP) as Hthm.
  cbv zeta in Hthm.
  change (length (positions (fst (fst (moving_kernel, rest_context, 0%nat)))))
    with 2%nat in Hthm.
  change (length (bead (positions
                          (fst (fst (moving_kernel, rest_context, 0%nat))))
                    0))
    with 1%nat in Hthm.
  change (snd (moving_kernel, rest_context, 0%nat)) with 0%nat in Hthm.
  rewrite Hdraws, !counting_draws in Hthm.
  destruct (proj2 (@closedPathStep_cases reference_constants nat
                     counting_generator unit constant_force_engine
                     one_particle scenario5 2 1
                     (moving_kernel, rest_context, 0%nat))
              constant_force_engine_keeps_box) as [st' Hdone].
  change (@closedPathStep reference_constants nat counting_generator unit
            constant_force_engine one_particle scenario5 2 1
            (moving_kernel, rest_context, 0%nat))
    with (@execute reference_constants reference_dct nat counting_generator
            unit constant_force_engine one_particle scenario5 true
            (moving_kernel, rest_context, 0%nat)) in Hdone.
  rewrite Hdone in Hthm.
  exists st'. split; [exact Hdone | exact Hthm].
Defined.

End StepDrawsExample.

(** ** What a step leaves alone *)

Section LengthFacts.

Lemma for_range_length {A : Type} first last
    (body : nat -> list A -> list A) a :
  (forall k b, length (body k b) = length b) ->
  length (for_range first last body a) = length a.
Proof.
  intros Hbody.
  apply (for_range_preserves (fun b => length b = length a));
    [reflexivity |].
  intros k b _ <-. apply Hbody.
Qed.

Lemma set_coord_length copy particle c x arr :
  length (set_coord copy particle c x arr) = length arr.
Proof. unfold set_coord. apply length_alter. Qed.

Lemma for_components_preserves {St : Type} (Q : St -> Prop) numParticles
    (body : nat -> nat -> St -> St) s :
  Q s -> (forall particle c s, Q s -> Q (body particle c s)) ->
  Q (for_components numParticles body s).
Proof.
  intros Hs Hbody. unfold for_components.
  apply for_range_preserves; [exact Hs |]. intros particle s' _ Hs'.
  apply for_range_preserves; [exact Hs' |]. intros c s'' _. apply Hbody.
Qed.

Lemma contractPositions_length totalCopies copies pos particle c st :
  length (fst (contractPositions totalCopies copies pos particle c st))
  = length (fst st).
Proof.
  destruct st as [cpos q]. unfold contractPositions. cbn [fst].
  apply for_range_length. intros. apply set_coord_length.
Qed.

Lemma extendForces_length totalCopies copies cf particle c st :
  length (fst (extendForces totalCopies copies cf particle c st))
  = length (fst st).
Proof.
  destruct st as [f q]. unfold extendForces. cbn [fst].
  apply for_range_length. intros. apply set_coord_length.
Qed.

Lemma halveEndpoints_length totalCopies numParticles f :
  length (halveEndpoints totalCopies numParticles f) = length f.
Proof.
  unfold halveEndpoints. apply for_range_length. intros k b.
  now rewrite !update_vec_length.
Qed.

End LengthFacts.

Section StepLengthFacts.
Context `{PhysicalConstants} `{Pocketfft} {G : Type} `{RandomNumbers G}.
Variable system : System.
Variable integrator : RPMDIntegrator.
Variable numCopies numParticles : nat.

Lemma updateVelocities_length f vel :
  length (updateVelocities system integrator numCopies numParticles f vel)
  = length vel.
Proof.
  unfold updateVelocities. apply for_range_length. intros i b.
  apply for_range_length. intros j b'.
  destruct (Req_dec_T _ _); [reflexivity | apply update_vec_length].
Qed.

Lemma applyThermostat_length st :
  length (fst (fst (applyThermostat system integrator numCopies numParticles
                      st)))
  = length (fst (fst st)).
Proof.
  unfold applyThermostat. destruct (getApplyThermostat integrator);
    [| reflexivity].
  apply (for_massive_components_preserves system numParticles
           (fun s : BeadArray * list Complex * G =>
              length (fst (fst s)) = length (fst (fst st))));
    [reflexivity |].
  intros particle c [[vel v] g] _ <-. unfold thermostatComponent.
  destruct (getNormallyDistributedRandomNumber g) as [xi g1].
  destruct (thermostatModes _ _ _ _ _) as [v1 g2]. cbn [fst].
  apply for_range_length. intros. apply set_coord_length.
Qed.

Lemma applyThermostatOpen_length st :
  length (fst (fst (applyThermostatOpen system integrator numCopies
                      numParticles st)))
  = length (fst (fst st)).
Proof.
  unfold applyThermostatOpen. destruct (getApplyThermostat integrator);
    [| reflexivity].
  apply (for_massive_components_preserves system numParticles
           (fun s : BeadArray * list R * G =>
              length (fst (fst s)) = length (fst (fst st))));
    [reflexivity |].
  intros particle c [[vel v] g] _ <-. unfold thermostatComponentOpen.
  destruct (getNormallyDistributedRandomNumber g) as [xi g1].
  destruct (for_range _ _ _ _) as [v1 g2]. cbn [fst].
  apply for_range_length. intros. apply set_coord_length.
Qed.

Lemma evolveFreeRingPolymer_length st :
  let r := evolveFreeRingPolymer system integrator numCopies numParticles st in
  length (fst (fst r)) = length (fst (fst st))
  /\ length (snd (fst r)) = length (snd (fst st)).
Proof.
  cbv zeta. unfold evolveFreeRingPolymer.
  apply (for_massive_components_preserves system numParticles
           (fun s : BeadArray * BeadArray * (list Complex * list Complex) =>
              length (fst (fst s)) = length (fst (fst st))
              /\ length (snd (fst s)) = length (snd (fst st))));
    [split; reflexivity |].
  intros particle c [[pos vel] [q v]] _ [<- <-]. unfold evolveComponent.
  rewrite for_range2_split.
  destruct (evolveModes _ _ _) as [q1 v1].
  rewrite for_range2_split. cbn [fst snd].
  split; apply for_range_length; intros; apply set_coord_length.
Qed.

Lemma evolveFreeChain_length st :
  let r := evolveFreeChain system integrator numCopies numParticles st in
  length (fst (fst r)) = length (fst (fst st))
  /\ length (snd (fst r)) = length (snd (fst st)).
Proof.
  cbv zeta. unfold evolveFreeChain.
  apply (for_massive_components_preserves system numParticles
           (fun s : BeadArray * BeadArray * (list R * list R) =>
              length (fst (fst s)) = length (fst (fst st))
              /\ length (snd (fst s)) = length (snd (fst st))));
    [split; reflexivity |].
  intros particle c [[pos vel] [q v]] _ [<- <-]. unfold evolveComponentOpen.
  rewrite for_range2_split.
  destruct (for_range 1 _ _ _) as [q1 v1].
  rewrite for_range2_split. cbn [fst snd].
  split; apply for_range_length; intros; apply set_coord_length.
Qed.

End StepLengthFacts.

Section ForceInvariants.
Context {E : Type} `{ContextImpl E}.

Lemma for_each_state_preserves {A St : Type} (Q : St -> Prop)
    (body : A -> St -> Outcome St) l : forall s,
  Q s -> (forall a s, Q s -> Q (state_of (body a s))) ->
  Q (state_of (for_each body l s)).
Proof.
  induction l as [| a l IH]; intros s Hs Hbody; cbn [for_each];
    [exact Hs |].
  pose proof (Hbody a s Hs) as Ha.
  destruct (body a s) as [s1 | msg s1]; simpl in *; [now apply IH | exact Ha].
Qed.

Lemma fold_left_preserves {A St : Type} (Q : St -> Prop)
    (f : St -> A -> St) l : forall s,
  Q s -> (forall a s, Q s -> Q (f s a)) -> Q (fold_left f l s).
Proof.
  induction l as [| a l IH]; intros s Hs Hf; simpl; [exact Hs |].
  apply IH; [now apply Hf | exact Hf].
Qed.

(** An invariant of the pass over the copies and of the work for one
    contraction is an invariant of the whole force evaluation, whether
    it completes or throws. *)
Lemma computeForcesClosedPath_invariant (Q : Kernel * Context E -> Prop) st :
  Q st ->
  (forall i s, Q s -> Q (state_of (gatherBead i s))) ->
  (forall P N g s, Q s -> Q (contractGroup P N g s)) ->
  Q (state_of (computeForcesClosedPath st)).
Proof.
  intros Hst Hgather Hgroup. unfold computeForcesClosedPath, gatherForces.
  pose proof (for_each_state_preserves Q gatherBead
                (seq 0 (length (positions (fst st)))) st Hst Hgather) as Hg.
  destruct (for_each gatherBead _ st) as [s | msg s]; simpl in *;
    [| exact Hg].
  apply fold_left_preserves; [exact Hg |].
  intros g s' Hs'. now apply Hgroup.
Qed.

Lemma computeForcesOpenPath_invariant (Q : Kernel * Context E -> Prop) st :
  Q st ->
  (forall i s, Q s -> Q (state_of (gatherBead i s))) ->
  (forall P N self c,
     Q (self, c) ->
     Q (with_beads self (positions self) (velocities self)
          (halveEndpoints P N (forces self)), c)) ->
  Q (state_of (computeForcesOpenPath st)).
Proof.
  intros Hst Hgather Hhalve. unfold computeForcesOpenPath, gatherForces.
  pose proof (for_each_state_preserves Q gatherBead
                (seq 0 (length (positions (fst st)))) st Hst Hgather) as Hg.
  destruct (for_each gatherBead _ st) as [[self context] | msg s];
    simpl in *; [| exact Hg].
  destruct (groupsByCopies _); simpl; now apply Hhalve.
Qed.

(** The pass over the copies and the contractions keep the layout. *)
Lemma gatherBead_layout i (st : Kernel * Context E) :
  layout (fst (state_of (gatherBead i st))) = layout (fst st).
Proof.
  destruct st as [self context]. unfold gatherBead.
  destruct (box_neqb _ _); [reflexivity |].
  unfold layout. simpl. now rewrite !length_insert.
Qed.

Lemma contractGroup_layout P N g (st : Kernel * Context E) :
  layout (fst (contractGroup P N g st)) = layout (fst st).
Proof.
  destruct st as [self context]. unfold contractGroup.
  match goal with
  | |- context [for_components N ?body ?s] =>
      assert (Hc : length (fst (for_components N body s))
                   = length (contractedPositions self))
        by (apply (for_components_preserves
                     (fun s' => length (fst s')
                                = length (contractedPositions self)));
            [reflexivity |];
            intros particle c s' <-; apply contractPositions_length);
      destruct (for_components N body s) as [cpos q]
  end.
  cbn [fst] in Hc.
  match goal with
  | |- context [for_range 0 ?n ?body ?s] =>
      assert (Hb : layout (fst (for_range 0 n body s)) = layout self);
      [| destruct (for_range 0 n body s) as [self1 context1]]
  end.
  { apply (for_range_preserves
             (fun s' : Kernel * Context E => layout (fst s') = layout self)).
    - unfold layout. simpl. now rewrite Hc.
    - intros i [self1 context1] _ <-. unfold contractedBead, layout. simpl.
      now rewrite length_insert. }
  cbn [fst] in Hb.
  match goal with
  | |- context [for_components N ?body ?s] =>
      assert (Hf : length (fst (for_components N body s))
                   = length (forces self1))
        by (apply (for_components_preserves
                     (fun s' => length (fst s') = length (forces self1)));
            [reflexivity |];
            intros particle c s' <-; apply extendForces_length);
      destruct (for_components N body s) as [f q1]
  end.
  cbn [fst] in *. rewrite <- Hb. unfold layout. simpl. now rewrite Hf.
Qed.

(** With an engine that keeps the clock, they keep the clock too. *)
Lemma gatherBead_clock i (st : Kernel * Context E) :
  engine_keeps_clock ->
  clock (snd (state_of (gatherBead i st))) = clock (snd st).
Proof.
  intros Hengine. destruct st as [self context]. unfold gatherBead.
  set (c1 := computeVirtualSites _).
  assert (H1 : clock c1 = clock context)
    by (unfold c1; now rewrite (proj1 (Hengine _))).
  assert (H2 : clock (updateContextState c1) = clock context)
    by now rewrite (proj1 (proj2 (Hengine _))).
  destruct (box_neqb _ _); cbn [state_of snd]; [exact H2 |].
  now rewrite (proj2 (proj2 (Hengine _))).
Qed.

Lemma contractGroup_clock P N g (st : Kernel * Context E) :
  engine_keeps_clock ->
  clock (snd (contractGroup P N g st)) = clock (snd st).
Proof.
  intros Hengine. destruct st as [self context]. unfold contractGroup.
  destruct (for_components N _ _) as [cpos q].
  match goal with
  | |- context [for_range 0 ?n ?body ?s] =>
      assert (Hb : clock (snd (for_range 0 n body s)) = clock context);
      [| destruct (for_range 0 n body s) as [self1 context1]]
  end.
  { apply (for_range_preserves
             (fun s' : Kernel * Context E => clock (snd s') = clock context));
      [reflexivity |].
    intros i [self1 context1] _ <-. unfold contractedBead. cbn [snd].
    rewrite (proj2 (proj2 (Hengine _))). now rewrite (proj1 (Hengine _)). }
  destruct (for_components N _ _) as [f q1]. exact Hb.
Qed.

End ForceInvariants.

Section StepInvariants.
Context `{PhysicalConstants} `{Pocketfft} {G : Type} `{RandomNumbers G}
  {E : Type} `{ContextImpl E}.
Variable system : System.
Variable integrator : RPMDIntegrator.

Lemma layout_with_beads self pos vel :
  length pos = length (positions self) ->
  length vel = length (velocities self) ->
  layout (with_beads self pos vel (forces self)) = layout self.
Proof. intros Hp Hv. unfold layout. simpl. now rewrite Hp, Hv. Qed.

Lemma closedPathStep_layout numCopies numParticles (st : @StepState G E) :
  layout (fst (fst (state_of (closedPathStep system integrator numCopies
                                numParticles st))))
  = layout (fst (fst st)).
Proof.
  destruct st as [[self context] g]. unfold closedPathStep.
  match goal with
  | |- context [applyThermostat ?s ?i ?n ?m ?x] =>
      pose proof (applyThermostat_length s i n m x) as Hl1;
      destruct (applyThermostat s i n m x) as [[vel v] g1]
  end.
  match goal with
  | |- context [evolveFreeRingPolymer ?s ?i ?n ?m ?x] =>
      destruct (evolveFreeRingPolymer_length s i n m x) as [Hl2 Hl3];
      destruct (evolveFreeRingPolymer s i n m x) as [[pos vel2] [q v2]]
  end.
  cbn [fst snd] in Hl1, Hl2, Hl3. rewrite updateVelocities_length, Hl1 in Hl3.
  match goal with
  | |- context [computeForcesClosedPath ?s] =>
      pose proof (computeForcesClosedPath_invariant
                    (fun s' => layout (fst s') = layout self) s
                    (layout_with_beads self pos vel2 Hl2 Hl3)
                    (fun i s' Hs' => eq_trans (gatherBead_layout i s') Hs')
                    (fun P N g' s' Hs' =>
                       eq_trans (contractGroup_layout P N g' s') Hs'))
        as Hf;
      destruct (computeForcesClosedPath s)
        as [[self2 context2] | msg [self2 context2]]
  end; cbn [with_generator and_then state_of fst] in *; [| exact Hf].
  match goal with
  | |- context [applyThermostat ?s ?i ?n ?m ?x] =>
      pose proof (applyThermostat_length s i n m x) as Hl4;
      destruct (applyThermostat s i n m x) as [[vel3 v3] g3]
  end.
  cbn [state_of fst snd] in *. rewrite updateVelocities_length in Hl4.
  rewrite <- Hf. now apply layout_with_beads.
Qed.

Lemma halved_layout P N self :
  layout (with_beads self (positions self) (velocities self)
            (halveEndpoints P N (forces self)))
  = layout self.
Proof. unfold layout. simpl. now rewrite halveEndpoints_length. Qed.

Lemma openPathStep_layout numCopies numParticles (st : @StepState G E) :
  layout (fst (fst (state_of (openPathStep system integrator numCopies
                                numParticles st))))
  = layout (fst (fst st)).
Proof.
  destruct st as [[self context] g]. unfold openPathStep.
  match goal with
  | |- context [applyThermostatOpen ?s ?i ?n ?m ?x] =>
      pose proof (applyThermostatOpen_length s i n m x) as Hl1;
      destruct (applyThermostatOpen s i n m x) as [[vel v] g1]
  end.
  match goal with
  | |- context [evolveFreeChain ?s ?i ?n ?m ?x] =>
      destruct (evolveFreeChain_length s i n m x) as [Hl2 Hl3];
      destruct (evolveFreeChain s i n m x) as [[pos vel2] [q v2]]
  end.
  cbn [fst snd] in Hl1, Hl2, Hl3. rewrite updateVelocities_length, Hl1 in Hl3.
  match goal with
  | |- context [computeForcesOpenPath ?s] =>
      pose proof (computeForcesOpenPath_invariant
                    (fun s' => layout (fst s') = layout self) s
                    (layout_with_beads self pos vel2 Hl2 Hl3)
                    (fun i s' Hs' => eq_trans (gatherBead_layout i s') Hs')
                    (fun P N self' c' Hs' =>
                       eq_trans (halved_layout P N self') Hs'))
        as Hf;
      destruct (computeForcesOpenPath s)
        as [[self2 context2] | msg [self2 context2]]
  end; cbn [with_generator and_then state_of fst] in *; [| exact Hf].
  match goal with
  | |- context [applyThermostatOpen ?s ?i ?n ?m ?x] =>
      pose proof (applyThermostatOpen_length s i n m x) as Hl4;
      destruct (applyThermostatOpen s i n m x) as [[vel3 v3] g3]
  end.
  cbn [state_of fst snd] in *. rewrite updateVelocities_length in Hl4.
  rewrite <- Hf. now apply layout_with_beads.
Qed.

(** X11.  A step, on either path and whether it completes or throws,
    leaves the contraction schedule ([groupsByCopies],
    [groupsNotContracted]) as it was and does not change the number of
    copies held by any of the kernel's five arrays. *)
Theorem step_keeps_schedule_and_sizes forcesAreValid (st : @StepState G E) :
  layout (fst (fst (state_of (execute system integrator forcesAreValid st))))
  = layout (fst (fst st)).
Proof.
  destruct st as [[self context] g].
  unfold execute, executeClosedPath, executeOpenPath. cbn [fst].
  destruct (getUseOpenPath integrator), forcesAreValid;
    cbn [with_generator and_then].
  - apply (openPathStep_layout _ _ (self, context, g)).
  - pose proof (computeForcesOpenPath_invariant
                  (fun s' => layout (fst s') = layout self) (self, context)
                  eq_refl
                  (fun i s' Hs' => eq_trans (gatherBead_layout i s') Hs')
                  (fun P N self' c' Hs' =>
                     eq_trans (halved_layout P N self') Hs')) as Hf.
    destruct (computeForcesOpenPath _) as [s | msg s];
      cbn [with_generator and_then state_of fst] in *; [| exact Hf].
    rewrite <- Hf. apply (openPathStep_layout _ _ (s, g)).
  - apply (closedPathStep_layout _ _ (self, context, g)).
  - pose proof (computeForcesClosedPath_invariant
                  (fun s' => layout (fst s') = layout self) (self, context)
                  eq_refl
                  (fun i s' Hs' => eq_trans (gatherBead_layout i s') Hs')
                  (fun P N g' s' Hs' =>
                     eq_trans (contractGroup_layout P N g' s') Hs')) as Hf.
    destruct (computeForcesClosedPath _) as [s | msg s];
      cbn [with_generator and_then state_of fst] in *; [| exact Hf].
    rewrite <- Hf. apply (closedPathStep_layout _ _ (s, g)).
Qed.

(** The clock after a step that started at the clock [c0]. *)
Lemma closedPathStep_clock numCopies numParticles (st : @StepState G E) :
  engine_keeps_clock ->
  match closedPathStep system integrator numCopies numParticles st with
  | Done st' =>
      clock (snd (fst st'))
      = (ctx_time (snd (fst st)) + getStepSize integrator,
         (ctx_stepCount (snd (fst st)) + 1)%Z)
  | Thrown _ st' => clock (snd (fst st')) = clock (snd (fst st))
  end.
Proof.
  intros Hengine. destruct st as [[self context] g]. unfold closedPathStep.
  destruct (applyThermostat _ _ _ _ _) as [[vel v] g1].
  destruct (evolveFreeRingPolymer _ _ _ _ _) as [[pos vel2] [q v2]].
  match goal with
  | |- context [computeForcesClosedPath ?s] =>
      pose proof (computeForcesClosedPath_invariant
                    (fun s' => clock (snd s') = clock context) s eq_refl
                    (fun i s' Hs' =>
                       eq_trans (gatherBead_clock i s' Hengine) Hs')
                    (fun P N g' s' Hs' =>
                       eq_trans (contractGroup_clock P N g' s' Hengine) Hs'))
        as Hf;
      destruct (computeForcesClosedPath s)
        as [[self2 context2] | msg [self2 context2]]
  end; cbn [with_generator and_then state_of fst snd] in *; [| exact Hf].
  destruct (applyThermostat _ _ _ _ _) as [[vel3 v3] g3].
  cbn [fst snd]. unfold clock in *. simpl. unfold dt.
  now injection Hf as -> ->.
Qed.

Lemma openPathStep_clock numCopies numParticles (st : @StepState G E) :
  engine_keeps_clock ->
  match openPathStep system integrator numCopies numParticles st with
  | Done st' =>
      clock (snd (fst st'))
      = (ctx_time (snd (fst st)) + getStepSize integrator,
         (ctx_stepCount (snd (fst st)) + 1)%Z)
  | Thrown _ st' => clock (snd (fst st')) = clock (snd (fst st))
  end.
Proof.
  intros Hengine. destruct st as [[self context] g]. unfold openPathStep.
  destruct (applyThermostatOpen _ _ _ _ _) as [[vel v] g1].
  destruct (evolveFreeChain _ _ _ _ _) as [[pos vel2] [q v2]].
  match goal with
  | |- context [computeForcesOpenPath ?s] =>
      pose proof (computeForcesOpenPath_invariant
                    (fun s' => clock (snd s') = clock context) s eq_refl
                    (fun i s' Hs' =>
                       eq_trans (gatherBead_clock i s' Hengine) Hs')
                    (fun P N self' c' Hs' => Hs'))
        as Hf;
      destruct (computeForcesOpenPath s)
        as [[self2 context2] | msg [self2 context2]]
  end; cbn [with_generator and_then state_of fst snd] in *; [| exact Hf].
  destruct (applyThermostatOpen _ _ _ _ _) as [[vel3 v3] g3].
  cbn [fst snd]. unfold clock in *. simpl. unfold dt.
  now injection Hf as -> ->.
Qed.

(** X12.  With an engine that does not itself move the clock, a step
    that completes advances the time of the context by the step size and
    the step count by one, and a step that throws leaves both as they
    were. *)
Theorem step_advances_the_clock_once forcesAreValid (st : @StepState G E) :
  engine_keeps_clock ->
  match execute system integrator forcesAreValid st with
  | Done st' =>
      clock (snd (fst st'))
      = (ctx_time (snd (fst st)) + getStepSize integrator,
         (ctx_stepCount (snd (fst st)) + 1)%Z)
  | Thrown _ st' => clock (snd (fst st')) = clock (snd (fst st))
  end.
Proof.
  intros Hengine. destruct st as [[self context] g].
  unfold execute, executeClosedPath, executeOpenPath. cbn [fst snd].
  destruct (getUseOpenPath integrator), forcesAreValid;
    cbn [with_generator and_then].
  - apply (openPathStep_clock _ _ (self, context, g) Hengine).
  - pose proof (computeForcesOpenPath_invariant
                  (fun s' => clock (snd s') = clock context) (self, context)
                  eq_refl
                  (fun i s' Hs' =>
                     eq_trans (gatherBead_clock i s' Hengine) Hs')
                  (fun P N self' c' Hs' => Hs')) as Hf.
    destruct (computeForcesOpenPath _) as [[self1 context1] | msg s];
      cbn [with_generator and_then state_of fst snd] in *; [| exact Hf].
    pose proof (openPathStep_clock (length (positions self))
                  (length (bead (positions self) 0)) (self1, context1, g)
                  Hengine) as Hstep.
    cbn [fst snd] in Hstep. rewrite Hf in Hstep.
    unfold clock in Hf. injection Hf as Ht Hn.
    rewrite Ht, Hn in Hstep. exact Hstep.
  - apply (closedPathStep_clock _ _ (self, context, g) Hengine).
  - pose proof (computeForcesClosedPath_invariant
                  (fun s' => clock (snd s') = clock context) (self, context)
                  eq_refl
                  (fun i s' Hs' =>
                     eq_trans (gatherBead_clock i s' Hengine) Hs')
                  (fun P N g' s' Hs' =>
                     eq_trans (contractGroup_clock P N g' s' Hengine) Hs'))
      as Hf.
    destruct (computeForcesClosedPath _) as [[self1 context1] | msg s];
      cbn [with_generator and_then state_of fst snd] in *; [| exact Hf].
    pose proof (closedPathStep_clock (length (positions self))
                  (length (bead (positions self) 0)) (self1, context1, g)
                  Hengine) as Hstep.
    cbn [fst snd] in Hstep. rewrite Hf in Hstep.
    unfold clock in Hf. injection Hf as Ht Hn.
    rewrite Ht, Hn in Hstep. exact Hstep.
Qed.

End StepInvariants.

Section StepInvariantsExample.

Lemma constant_force_engine_keeps_clock :
  @engine_keeps_clock unit constant_force_engine.
Proof. intros c. split; [| split]; reflexivity. Defined.

(** The theorem on one copy of one particle under the constant force. *)
Lemma step_advances_the_clock_once_witness :
  @engine_keeps_clock unit constant_force_engine
  /\ match
       @execute reference_constants reference_dct unit silent_generator
         unit constant_force_engine one_particle scenario5 false
         (one_copy_kernel, rest_context, tt)
     with
     | Done st' =>
         clock (snd (fst st'))
         = (ctx_time rest_context + getStepSize scenario5,
            (ctx_stepCount rest_context + 1)%Z)
     | Thrown _ st' => clock (snd (fst st')) = clock rest_context
     end.
Proof.
  split; [exact constant_force_engine_keeps_clock |].
  exact (@step_advances_the_clock_once reference_constants reference_dct
           unit silent_generator unit constant_force_engine one_particle
           scenario5 false (one_copy_kernel, rest_context, tt)
           constant_force_engine_keeps_clock).
Defined.

End StepInvariantsExample.

(** ** The kinetic energy and the accessors *)

Section KineticEnergy.
Context {E : Type}.

Lemma Vec3_dot_self_nonneg v : 0 <= Vec3_dot v v.
Proof. unfold Vec3_dot. nra. Qed.

Lemma Vec3_dot_self_zero v : Vec3_dot v v = 0 -> v = Vec3_zero.
Proof.
  destruct v as [x y z]. unfold Vec3_dot, Vec3_zero. simpl. intros Hz.
  assert (x = 0) by nra. assert (y = 0) by nra. assert (z = 0) by nra.
  now subst.
Qed.

(** X13.  [computeKineticEnergy] is never negative, and it is zero
    exactly when every particle of positive mass is at rest in the
    context: particles of zero or negative mass do not count, and
    neither do the copies held by the kernel. *)
Theorem kinetic_energy_is_zero_only_at_rest system (context : Context E) :
  0 <= computeKineticEnergy system context
  /\ (computeKineticEnergy system context = 0
      <-> forall i, (i < getNumParticles system)%nat ->
            0 < getParticleMass system i ->
            default Vec3_zero (ctx_velocities context !! i) = Vec3_zero).
Proof.
  unfold computeKineticEnergy.
  match goal with
  | |- 0 <= 0.5 * ?e /\ _ =>
      assert (He : 0 <= e
                   /\ (e = 0
                       <-> forall i, (i < getNumParticles system)%nat ->
                             0 < getParticleMass system i ->
                             default Vec3_zero (ctx_velocities context !! i)
                             = Vec3_zero))
  end.
  { apply (for_range_ind
             (fun m e =>
                0 <= e
                /\ (e = 0
                    <-> forall i, (i < m)%nat ->
                          0 < getParticleMass system i ->
                          default Vec3_zero (ctx_velocities context !! i)
                          = Vec3_zero))); [lia | |].
    - split; [lra |]. split; [intros _ i Hi; lia | reflexivity].
    - intros m e Hm [Hpos Hiff].
      destruct (Rlt_dec 0 (getParticleMass system m)) as [Hmass | Hmass].
      + set (v := default Vec3_zero (ctx_velocities context !! m)).
        pose proof (Vec3_dot_self_nonneg v) as Hv.
        assert (Hterm : 0 <= getParticleMass system m * Vec3_dot v v)
          by (apply Rmult_le_pos; lra).
        split; [lra |]. split.
        * intros Hsum i Hi Hmi.
          destruct (Nat.eq_dec i m) as [-> | Hne].
          -- apply Vec3_dot_self_zero. fold v. nra.
          -- apply Hiff; [lra | lia | exact Hmi].
        * intros Hrest.
          assert (He0 : e = 0) by (apply Hiff; intros i Hi; apply Hrest; lia).
          pose proof (Hrest m ltac:(lia) Hmass) as Hvm. fold v in Hvm.
          rewrite Hvm, He0. unfold Vec3_dot, Vec3_zero. simpl. ring.
      + split; [exact Hpos |]. split.
        * intros He0 i Hi Hmi.
          destruct (Nat.eq_dec i m) as [-> | Hne]; [contradiction |].
          apply Hiff; [exact He0 | lia | exact Hmi].
        * intros Hrest. apply Hiff. intros i Hi. apply Hrest. lia. }
  destruct He as [Hpos Hiff]. split; [lra |].
  split.
  - intros Hz. apply Hiff. lra.
  - intros Hrest. rewrite (proj2 Hiff Hrest). lra.
Qed.

End KineticEnergy.

Section AccessorFacts.
Context {E : Type}.

(** Writing one copy of a bead array from a vector per particle. *)
Lemma write_copy_spec copy (src : list Vec3) arr :
  (copy < length arr)%nat ->
  (length (bead arr copy) <= length src)%nat ->
  let arr' :=
    for_range 0 (length (bead arr copy))
      (fun i a => update_vec copy i (fun _ => default Vec3_zero (src !! i)) a)
      arr in
  length arr' = length arr
  /\ bead arr' copy = take (length (bead arr copy)) src
  /\ forall k, k <> copy -> bead arr' k = bead arr k.
Proof.
  intros Hcopy Hsrc. cbv zeta.
  set (N := length (bead arr copy)).
  pose (Q := fun (m : nat) (a : BeadArray) =>
    length a = length arr
    /\ length (bead a copy) = N
    /\ (forall i, (i < m)%nat -> bead a copy !! i = src !! i)
    /\ (forall k, k <> copy -> bead a k = bead arr k)).
  match goal with
  | |- length ?r = _ /\ _ => assert (HQ : Q N r)
  end.
  { apply for_range_ind; [lia | |].
    - split; [reflexivity |]. split; [reflexivity |].
      split; [intros; lia | reflexivity].
    - intros m a Hm (Hl & Hb & Hdone & Hother).
      split; [now rewrite update_vec_length |].
      split; [now rewrite update_vec_bead_length |]. split.
      + intros i Hi. rewrite bead_update_vec.
        destruct (decide (copy = copy)); [| contradiction].
        rewrite list_lookup_alter.
        destruct (decide (m = i)) as [<- | Hne].
        * destruct (lookup_lt_is_Some_2 (bead a copy) m ltac:(lia))
            as [x ->].
          destruct (lookup_lt_is_Some_2 src m ltac:(lia)) as [y ->].
          reflexivity.
        * apply Hdone. lia.
      + intros k Hk. rewrite bead_update_vec.
        destruct (decide (copy = k)); [congruence | now apply Hother]. }
  destruct HQ as (Hl & Hb & Hdone & Hother).
  split; [exact Hl |]. split; [| exact Hother].
  apply list_eq. intros i.
  destruct (Nat.lt_ge_cases i N) as [Hi | Hi].
  - rewrite lookup_take_lt by exact Hi. now apply Hdone.
  - rewrite lookup_take_ge by exact Hi. apply lookup_ge_None. lia.
Qed.

(** X14.  [setPositions] and [setVelocities] overwrite one copy, from
    the first entries of their argument, and leave every other copy, the
    other arrays and the schedule alone; [copyToContext] of that copy
    then hands the same vectors to the context. *)
Theorem set_then_copy_round_trip copy pos vel self (context : Context E) :
  (copy < length (positions self))%nat ->
  (copy < length (velocities self))%nat ->
  (length (bead (positions self) copy) <= length pos)%nat ->
  (length (bead (velocities self) copy) <= length vel)%nat ->
  let self' := setVelocities copy vel (setPositions copy pos self) in
  let context' := copyToContext copy self' context in
  ctx_positions context' = take (length (bead (positions self) copy)) pos
  /\ ctx_velocities context'
     = take (length (bead (velocities self) copy)) vel
  /\ (forall k, k <> copy ->
        bead (positions self') k = bead (positions self) k
        /\ bead (velocities self') k = bead (velocities self) k)
  /\ forces self' = forces self
  /\ layout self' = layout self.
Proof.
  intros Hcp Hcv Hp Hv. cbv zeta.
  destruct (write_copy_spec copy pos (positions self) Hcp Hp)
    as (Hl1 & Hb1 & Ho1).
  destruct (write_copy_spec copy vel (velocities self) Hcv Hv)
    as (Hl2 & Hb2 & Ho2).
  unfold copyToContext, setVelocities, setPositions. simpl.
  split; [exact Hb1 |]. split; [exact Hb2 |].
  split; [| split; [reflexivity |]].
  - intros k Hk. split; [now apply Ho1 | now apply Ho2].
  - unfold layout. simpl. now rewrite Hl1, Hl2.
Qed.

End AccessorFacts.

Section AccessorExample.

(** The theorem on the one copy of [one_copy_kernel]. *)
Lemma set_then_copy_round_trip_witness :
  (0 < length (positions one_copy_kernel))%nat
  /\ (length (bead (positions one_copy_kernel) 0) <= 1)%nat
  /\ forall p v,
       ctx_positions
         (copyToContext 0
            (setVelocities 0 [v] (setPositions 0 [p] one_copy_kernel))
            rest_context)
       = take (length (bead (positions one_copy_kernel) 0)) [p].
Proof.
  assert (H0 : (0 < length (positions one_copy_kernel))%nat)
    by (simpl; lia).
  assert (H1 : (0 < length (velocities one_copy_kernel))%nat)
    by (simpl; lia).
  assert (H2 : forall p : Vec3,
             (length (bead (positions one_copy_kernel) 0) <= length [p])%nat)
    by (intros p; simpl; lia).
  assert (H3 : forall v : Vec3,
             (length (bead (velocities one_copy_kernel) 0) <= length [v])%nat)
    by (intros v; simpl; lia).
  split; [exact H0 |]. split; [exact (H2 Vec3_zero) |].
  intros p v.
  exact (proj1 (@set_then_copy_round_trip unit 0%nat [p] [v] one_copy_kernel
                  rest_context H0 H1 (H2 p) (H3 v))).
Defined.

End AccessorExample.

(** ** The transform and its inverse *)

Section TransformRoundTrip.

Lemma angle_diff n j m k :
  (k <= m)%nat -> angle n j m - angle n j k = angle n (m - k) j.
Proof.
  intros Hkm. unfold angle. rewrite minus_INR by exact Hkm.
  unfold Rdiv. ring.
Qed.

(** Orthogonality of the twiddle factors. *)
Lemma twiddles_orthogonal_cos n m k :
  (m < n)%nat -> (k < n)%nat ->
  Rsum (fun j => cos (angle n j m - angle n j k)) n
  = if (m =? k)%nat then INR n else 0.
Proof.
  intros Hm Hk. destruct (Nat.eqb_spec m k) as [-> | Hne].
  - rewrite (Rsum_ext _ (fun _ => 1)).
    + rewrite Rsum_const. ring.
    + intros j _. rewrite Rminus_diag. apply cos_0.
  - destruct (Nat.lt_ge_cases k m) as [Hlt | Hge].
    + rewrite (Rsum_ext _ (fun j => cos (angle n (m - k) j)))
        by (intros j _; now rewrite angle_diff by lia).
      apply roots_of_unity_cos. lia.
    + rewrite (Rsum_ext _ (fun j => cos (angle n (k - m) j))).
      * apply roots_of_unity_cos. lia.
      * intros j _. rewrite <- angle_diff by lia.
        rewrite <- cos_neg. f_equal. ring.
Qed.

Lemma twiddles_orthogonal_sin n m k :
  (m < n)%nat -> (k < n)%nat ->
  Rsum (fun j => sin (angle n j m - angle n j k)) n = 0.
Proof.
  intros Hm Hk. destruct (Nat.eq_dec m k) as [-> | Hne].
  - apply Rsum_zero. intros j _. rewrite Rminus_diag. apply sin_0.
  - destruct (Nat.lt_ge_cases k m) as [Hlt | Hge].
    + rewrite (Rsum_ext _ (fun j => sin (angle n (m - k) j)))
        by (intros j _; now rewrite angle_diff by lia).
      apply roots_of_unity_sin. lia.
    + rewrite (Rsum_ext _ (fun j => - sin (angle n (k - m) j))).
      * rewrite Rsum_opp, roots_of_unity_sin by lia. ring.
      * intros j _. rewrite <- angle_diff by lia.
        rewrite <- sin_neg. f_equal. ring.
Qed.

Lemma Rsum_delta (f : nat -> R) k n :
  (k < n)%nat -> Rsum (fun m => if (m =? k)%nat then f m else 0) n = f k.
Proof.
  induction n as [| n IH]; intros Hk; [lia |]. simpl.
  destruct (Nat.eqb_spec n k) as [-> | Hne].
  - rewrite Rsum_zero; [lra |]. intros m Hm.
    destruct (Nat.eqb_spec m k); [lia | reflexivity].
  - rewrite IH by lia. lra.
Qed.

(** A sum over the frequencies of products of twiddle factors picks
    one entry of the data. *)
Lemma Rsum_pick (x y : nat -> R) n k :
  (k < n)%nat ->
  Rsum (fun j =>
          Rsum (fun m => x m * cos (angle n j m - angle n j k)
                         + y m * sin (angle n j m - angle n j k)) n) n
  = INR n * x k.
Proof.
  intros Hk. rewrite Rsum_swap.
  rewrite (Rsum_ext _ (fun m => if (m =? k)%nat then INR n * x m else 0)).
  - now apply Rsum_delta.
  - intros m Hm. rewrite Rsum_plus, !Rsum_scale.
    rewrite twiddles_orthogonal_cos, twiddles_orthogonal_sin by assumption.
    destruct (m =? k)%nat; ring.
Qed.

Lemma Rsum_scale_r c f n : Rsum (fun m => f m * c) n = Rsum f n * c.
Proof.
  rewrite (Rsum_ext _ (fun m => c * f m)) by (intros; ring).
  rewrite Rsum_scale. ring.
Qed.

Lemma Rsum_minus f g n :
  Rsum (fun m => f m - g m) n = Rsum f n - Rsum g n.
Proof. induction n as [| n IH]; simpl; [lra | rewrite IH; lra]. Qed.

(** A transform followed by the transform in the other direction gives
    back the data, [n] times. *)
Lemma c2c_inverse n forward data k :
  (k < n)%nat ->
  cget (c2c n (negb forward) 1 (c2c n forward 1 data)) k
  = Cscale (cget data k) (INR n).
Proof.
  intros Hk.
  set (sg := if forward then -1 else 1).
  set (x := fun m => real (cget data m)).
  set (y := fun m => imag (cget data m)).
  assert (Hre : forall j, (j < n)%nat ->
            real (cget (c2c n forward 1 data) j)
            = Rsum (fun m => x m * cos (angle n j m)
                             - y m * (sg * sin (angle n j m))) n).
  { intros j Hj. rewrite c2c_real by exact Hj. apply Rsum_ext.
    intros m _. unfold sg, x, y. destruct forward; ring. }
  assert (Him : forall j, (j < n)%nat ->
            imag (cget (c2c n forward 1 data) j)
            = Rsum (fun m => x m * (sg * sin (angle n j m))
                             + y m * cos (angle n j m)) n).
  { intros j Hj. rewrite c2c_imag by exact Hj. apply Rsum_ext.
    intros m _. unfold sg, x, y. destruct forward; ring. }
  apply complex_eq; simpl.
  - rewrite c2c_real by exact Hk.
    rewrite (Rsum_ext _
               (fun j =>
                  Rsum (fun m => x m * cos (angle n j m - angle n j k)
                                 + (- sg * y m)
                                   * sin (angle n j m - angle n j k)) n)).
    + rewrite Rsum_pick by exact Hk. unfold x. ring.
    + intros j Hj. rewrite (Hre j Hj), (Him j Hj).
      replace (if negb forward then - sin (angle n k j) else sin (angle n k j))
        with (- sg * sin (angle n j k))
        by (rewrite (angle_sym n k j); unfold sg; destruct forward; simpl;
            ring).
      rewrite (angle_sym n k j).
      rewrite <- !Rsum_scale_r. rewrite <- Rsum_minus.
      apply Rsum_ext. intros m _. rewrite cos_minus, sin_minus.
      unfold sg. destruct forward; ring.
  - rewrite c2c_imag by exact Hk.
    rewrite (Rsum_ext _
               (fun j =>
                  Rsum (fun m => y m * cos (angle n j m - angle n j k)
                                 + (sg * x m)
                                   * sin (angle n j m - angle n j k)) n)).
    + rewrite Rsum_pick by exact Hk. unfold y. ring.
    + intros j Hj. rewrite (Hre j Hj), (Him j Hj).
      replace (if negb forward then - sin (angle n k j) else sin (angle n k j))
        with (- sg * sin (angle n j k))
        by (rewrite (angle_sym n k j); unfold sg; destruct forward; simpl;
            ring).
      rewrite (angle_sym n k j).
      rewrite <- !Rsum_scale_r. rewrite <- Rsum_plus.
      apply Rsum_ext. intros m _. rewrite cos_minus, sin_minus.
      unfold sg. destruct forward; ring.
Qed.

End TransformRoundTrip.

(** ** Modes and coordinates *)

Section ModeRoundTrip.
Variable P : nat.
Hypothesis HP : (0 < P)%nat.

(** From the coordinates to the modes and back. *)
Lemma from_to_modes arr particle c k :
  (k < P)%nat ->
  from_modes P (to_modes P arr particle c) k = coord arr k particle c.
Proof.
  intros Hk. unfold from_modes, to_modes.
  rewrite (c2c_inverse P true _ k Hk). rewrite cget_map by exact Hk.
  simpl. pose proof (scale_squared P HP) as Hsc.
  replace (scale P * (scale P * coord arr k particle c * INR P))
    with (scale P * scale P * INR P * coord arr k particle c) by ring.
  rewrite Hsc. ring.
Qed.

(** A transform is linear in a factor common to the data. *)
Lemma c2c_scaled forward data data' x j :
  (forall m, (m < P)%nat -> cget data' m = Cscale (cget data m) x) ->
  (j < P)%nat ->
  cget (c2c P forward 1 data') j = Cscale (cget (c2c P forward 1 data) j) x.
Proof.
  intros Hdata Hj. apply complex_eq; simpl.
  - rewrite !c2c_real by exact Hj. rewrite <- Rsum_scale_r.
    apply Rsum_ext. intros m Hm. rewrite (Hdata m Hm). simpl. ring.
  - rewrite !c2c_imag by exact Hj. rewrite <- Rsum_scale_r.
    apply Rsum_ext. intros m Hm. rewrite (Hdata m Hm). simpl. ring.
Qed.

(** From Hermitian modes to the coordinates and back. *)
Lemma to_from_modes X arr particle c :
  length X = P -> hermitian P X ->
  (forall k, (k < P)%nat -> coord arr k particle c = from_modes P X k) ->
  to_modes P arr particle c = X.
Proof.
  intros HX Hherm Hcoord.
  rewrite (buffer_eq_map X P (cget X) HX (fun k _ => eq_refl)).
  apply buffer_eq_map.
  - unfold to_modes. rewrite c2c_length; rewrite length_map, length_seq; lia.
  - intros j Hj. unfold to_modes.
    rewrite (c2c_scaled true (c2c P false 1 X) _ (scale P * scale P) j);
      [| | exact Hj].
    + pose proof (c2c_inverse P false X j Hj) as Hinv.
      simpl negb in Hinv. rewrite Hinv.
      pose proof (scale_squared P HP) as Hsc.
      apply complex_eq; simpl.
      * replace (real (cget X j) * INR P * (scale P * scale P))
          with (scale P * scale P * INR P * real (cget X j)) by ring.
        rewrite Hsc. ring.
      * replace (imag (cget X j) * INR P * (scale P * scale P))
          with (scale P * scale P * INR P * imag (cget X j)) by ring.
        rewrite Hsc. ring.
    + intros m Hm. rewrite cget_map by exact Hm.
      rewrite (Hcoord m Hm). unfold from_modes.
      apply complex_eq; simpl; [ring |].
      rewrite (c2c_backward_hermitian_real P X m Hherm Hm). ring.
Qed.

End ModeRoundTrip.

(** ** The drift keeps the modes Hermitian *)

Section DriftHermitian.
Context `{PhysicalConstants}.
Variable integrator : RPMDIntegrator.
Variable P : nat.

Lemma omega_mirror k :
  (0 < k < P)%nat -> omega integrator P (P - k) = omega integrator P k.
Proof.
  intros Hk. unfold omega. f_equal.
  rewrite minus_INR by lia.
  replace ((INR P - INR k) * PI / INR P) with (PI - INR k * PI / INR P).
  - apply sin_PI_x.
  - pose proof (INR_pos P ltac:(lia)). field. lra.
Qed.

Lemma omega_not_zero k :
  twown integrator P <> 0 -> (0 < k < P)%nat -> omega integrator P k <> 0.
Proof.
  intros Hw Hk. unfold omega.
  pose proof (half_angle_sin_pos P k Hk) as Hs.
  replace (INR k * PI / INR P) with (PI * INR k / INR P)
    by (unfold Rdiv; ring).
  intros Hz. apply Rmult_integral in Hz. destruct Hz; [contradiction | lra].
Qed.

Lemma drifted_hermitian Q V :
  hermitian P Q -> hermitian P V ->
  hermitian P (drifted_positions integrator P Q V)
  /\ hermitian P (drifted_velocities integrator P Q V).
Proof.
  intros [HQ0 HQm] [HV0 HVm].
  destruct (Nat.eq_dec P 0%nat) as [-> | HP0].
  { split; (split; [reflexivity | intros; lia]). }
  unfold drifted_positions, drifted_velocities.
  split; (split; [rewrite cget_map by lia; simpl; rewrite ?HQ0, ?HV0; ring |]).
  - intros k Hk. rewrite !cget_map by lia.
    destruct (Nat.eqb_spec (P - k) 0%nat); [lia |].
    destruct (Nat.eqb_spec k 0%nat); [lia |].
    rewrite omega_mirror, (HQm k Hk), (HVm k Hk) by exact Hk.
    unfold rotated_position, Cconj. simpl. f_equal. unfold Rdiv. ring.
  - intros k Hk. rewrite !cget_map by lia.
    destruct (Nat.eqb_spec (P - k) 0%nat); [lia |].
    destruct (Nat.eqb_spec k 0%nat); [lia |].
    rewrite omega_mirror, (HQm k Hk), (HVm k Hk) by exact Hk.
    unfold rotated_velocity, Cconj. simpl. f_equal. ring.
Qed.

Lemma to_modes_hermitian arr particle c :
  hermitian P (to_modes P arr particle c)
  /\ length (to_modes P arr particle c) = P.
Proof.
  unfold to_modes. split.
  - apply c2c_forward_real_hermitian; [now rewrite length_map, length_seq |].
    intros m Hm. now rewrite cget_map.
  - rewrite c2c_length; rewrite length_map, length_seq; lia.
Qed.

Lemma drifted_length Q V :
  length (drifted_positions integrator P Q V) = P
  /\ length (drifted_velocities integrator P Q V) = P.
Proof.
  unfold drifted_positions, drifted_velocities.
  now rewrite !length_map, !length_seq.
Qed.

(** X15.  For a temperature that gives the ring polymer a frequency
    ([twown <> 0], so that no mode divides by zero), the pass of the
    drift for one coordinate transforms back two Hermitian mode vectors:
    the buffers it reads the new positions and velocities from have no
    imaginary part, so that taking the real part discards nothing. *)
Theorem drift_keeps_the_buffers_real particle c pos vel q v n :
  twown integrator P <> 0 ->
  length q = P -> length v = P -> (n < P)%nat ->
  let r := evolveComponent integrator P particle c (pos, vel, (q, v)) in
  imag (cget (fst (snd r)) n) = 0 /\ imag (cget (snd (snd r)) n) = 0.
Proof.
  intros _ Hq Hv Hn. cbv zeta. unfold evolveComponent.
  rewrite for_range2_split.
  rewrite (for_range_insert_full P _ q Hq), (for_range_insert_full P _ v Hv).
  fold (to_modes P pos particle c). fold (to_modes P vel particle c).
  destruct (to_modes_hermitian pos particle c) as [HQ HQl].
  destruct (to_modes_hermitian vel particle c) as [HV HVl].
  rewrite (evolveModes_drifted integrator P _ _ HQl HVl).
  rewrite for_range2_split. cbn [fst snd].
  destruct (drifted_hermitian _ _ HQ HV) as [HDq HDv].
  split; now apply c2c_backward_hermitian_real.
Qed.

End DriftHermitian.

(** ** The drift as a flow *)

Section DriftFlow.
Context `{PhysicalConstants}.
Variable system : System.
Variable integrator : RPMDIntegrator.
Variable P N : nat.

Lemma omega_with_step t k :
  omega (with_step integrator t) P k = omega integrator P k.
Proof. reflexivity. Qed.

Lemma to_modes_ext arr arr' particle c :
  (forall k, (k < P)%nat -> coord arr k particle c = coord arr' k particle c) ->
  to_modes P arr particle c = to_modes P arr' particle c.
Proof.
  intros Hext. unfold to_modes. f_equal. apply map_ext_in.
  intros k Hk. apply in_seq in Hk. now rewrite Hext by lia.
Qed.

(** The state after the drift is of the kernel's shape again, and a
    particle of mass zero is where it was. *)
Lemma evolveFreeRingPolymer_ok I st :
  drift_state_ok P N st ->
  let st' := evolveFreeRingPolymer system I P N st in
  drift_state_ok P N st'
  /\ forall j c k, (j < N)%nat -> (c < 3)%nat ->
       getParticleMass system j = 0 ->
       coord (fst (fst st')) k j c = coord (fst (fst st)) k j c
       /\ coord (snd (fst st')) k j c = coord (snd (fst st)) k j c.
Proof.
  intros Hok. cbv zeta. unfold evolveFreeRingPolymer.
  destruct (for_massive_components_local system N P
              (fun (s : BeadArray * BeadArray
                        * (list Complex * list Complex)) k j c' =>
                 (coord (fst (fst s)) k j c', coord (snd (fst s)) k j c'))
              (drift_state_ok P N)
              (evolveComponent I P)
              (fun _ _ => drift_of I P)
              (fun _ _ => drift_of_ext I P)
              (fun p c' s Hp' Hc' Hs =>
                 evolveComponent_spec I P N p c' s Hp' Hc' Hs)
              st Hok) as [Hwf Hall].
  split; [exact Hwf |]. intros j c k Hj Hc Hmass.
  destruct (Hall j c Hj Hc) as [_ Hsame].
  specialize (Hsame Hmass k). injection Hsame as Hp Hv. split; assumption.
Qed.

(** With step size zero the modes stay as they are. *)
Lemma drifted_zero_step Q V :
  getStepSize integrator = 0 -> length Q = P -> length V = P ->
  drifted_positions integrator P Q V = Q
  /\ drifted_velocities integrator P Q V = V.
Proof.
  intros Hdt HQ HV. unfold drifted_positions, drifted_velocities, dt.
  rewrite Hdt.
  split; symmetry; apply buffer_eq_map; try assumption; intros k Hk;
    destruct (Nat.eqb_spec k 0) as [-> | Hne];
    try reflexivity;
    apply complex_eq;
    unfold drifted_centroid, rotated_position, rotated_velocity; simpl;
    rewrite ?Rmult_0_r, ?sin_0, ?cos_0; unfold Rdiv; ring.
Qed.

(** X16.  For a temperature that gives the ring polymer a frequency
    ([twown <> 0], so that no mode divides by zero), a step of size zero
    is exact: the transform to the modes and back, with the factor
    [1/sqrt P] each way, restores every position and velocity of every
    copy. *)
Theorem zero_step_drift_changes_nothing st particle c k :
  getStepSize integrator = 0 ->
  twown integrator P <> 0 ->
  drift_state_ok P N st ->
  (particle < N)%nat -> (c < 3)%nat -> (k < P)%nat ->
  let st' := evolveFreeRingPolymer system integrator P N st in
  coord (fst (fst st')) k particle c = coord (fst (fst st)) k particle c
  /\ coord (snd (fst st')) k particle c = coord (snd (fst st)) k particle c.
Proof.
  intros Hdt _ Hok Hp Hc Hk. cbv zeta.
  destruct (Req_dec_T (getParticleMass system particle) 0) as [Hz | Hmass].
  - now apply (evolveFreeRingPolymer_ok integrator st Hok).
  - destruct (evolveFreeRingPolymer_coords system integrator P N st particle
                c k Hok Hp Hmass Hc Hk) as [-> ->].
    destruct (to_modes_hermitian P (fst (fst st)) particle c) as [_ HQl].
    destruct (to_modes_hermitian P (snd (fst st)) particle c) as [_ HVl].
    destruct (drifted_zero_step _ _ Hdt HQl HVl) as [-> ->].
    split; apply from_to_modes; lia.
Qed.

(** Two rotations of a mode compose to the rotation by the sum. *)
Lemma drifted_compose Q V s t :
  twown integrator P <> 0 -> length Q = P -> length V = P ->
  let Q1 := drifted_positions (with_step integrator t) P Q V in
  let V1 := drifted_velocities (with_step integrator t) P Q V in
  drifted_positions (with_step integrator s) P Q1 V1
  = drifted_positions (with_step integrator (s + t)) P Q V
  /\ drifted_velocities (with_step integrator s) P Q1 V1
     = drifted_velocities (with_step integrator (s + t)) P Q V.
Proof.
  intros Hw HQ HV. cbv zeta.
  unfold drifted_positions, drifted_velocities.
  split; apply map_ext_in; intros k Hk; apply in_seq in Hk;
    rewrite !cget_map by lia;
    destruct (Nat.eqb_spec k 0) as [-> | Hne].
  - cbn [Nat.eqb]. apply complex_eq; simpl; ring.
  - rewrite !omega_with_step.
    pose proof (omega_not_zero integrator P k Hw ltac:(lia)) as Hwk.
    unfold rotated_position, rotated_velocity.
    change (dt (with_step integrator s)) with s.
    change (dt (with_step integrator t)) with t.
    change (dt (with_step integrator (s + t))) with (s + t).
    apply complex_eq; simpl;
      rewrite Rmult_plus_distr_l, sin_plus, cos_plus; field; exact Hwk.
  - cbn [Nat.eqb]. reflexivity.
  - rewrite !omega_with_step.
    pose proof (omega_not_zero integrator P k Hw ltac:(lia)) as Hwk.
    unfold rotated_position, rotated_velocity.
    change (dt (with_step integrator s)) with s.
    change (dt (with_step integrator t)) with t.
    change (dt (with_step integrator (s + t))) with (s + t).
    apply complex_eq; simpl;
      rewrite Rmult_plus_distr_l, sin_plus, cos_plus; field; exact Hwk.
Qed.

(** X17.  The drift is a flow: for a temperature that gives the ring
    polymer a frequency ([twown <> 0]), drifting by [t] and then by [s]
    leaves every coordinate of every particle of non-zero mass where one
    drift by [s + t] leaves it. The positions and velocities stored
    between the two carry the whole state of the modes. *)
Theorem drift_composes st particle c k s t :
  twown integrator P <> 0 ->
  drift_state_ok P N st ->
  (particle < N)%nat -> getParticleMass system particle <> 0 ->
  (c < 3)%nat -> (k < P)%nat ->
  let drift := fun t' =>
    evolveFreeRingPolymer system (with_step integrator t') P N in
  coord (fst (fst (drift s (drift t st)))) k particle c
  = coord (fst (fst (drift (s + t) st))) k particle c
  /\ coord (snd (fst (drift s (drift t st)))) k particle c
     = coord (snd (fst (drift (s + t) st))) k particle c.
Proof.
  intros Hw Hok Hp Hmass Hc Hk. cbv beta zeta.
  assert (HP : (0 < P)%nat) by lia.
  set (st1 := evolveFreeRingPolymer system (with_step integrator t) P N st).
  destruct (evolveFreeRingPolymer_ok (with_step integrator t) st Hok)
    as [Hok1 _].
  fold st1 in Hok1.
  set (Q := to_modes P (fst (fst st)) particle c).
  set (V := to_modes P (snd (fst st)) particle c).
  destruct (to_modes_hermitian P (fst (fst st)) particle c) as [HQh HQl].
  destruct (to_modes_hermitian P (snd (fst st)) particle c) as [HVh HVl].
  fold Q in HQh, HQl. fold V in HVh, HVl.
  destruct (drifted_hermitian (with_step integrator t) P Q V HQh HVh)
    as [HD1 HD2].
  destruct (drifted_length (with_step integrator t) P Q V) as [HL1 HL2].
  assert (HQ1 : to_modes P (fst (fst st1)) particle c
                = drifted_positions (with_step integrator t) P Q V).
  { apply (to_from_modes P HP _ _ _ _ HL1 HD1). intros k' Hk'.
    apply (evolveFreeRingPolymer_coords system (with_step integrator t) P N
             st particle c k' Hok Hp Hmass Hc Hk'). }
  assert (HV1 : to_modes P (snd (fst st1)) particle c
                = drifted_velocities (with_step integrator t) P Q V).
  { apply (to_from_modes P HP _ _ _ _ HL2 HD2). intros k' Hk'.
    apply (evolveFreeRingPolymer_coords system (with_step integrator t) P N
             st particle c k' Hok Hp Hmass Hc Hk'). }
  destruct (evolveFreeRingPolymer_coords system (with_step integrator s) P N
              st1 particle c k Hok1 Hp Hmass Hc Hk) as [-> ->].
  destruct (evolveFreeRingPolymer_coords system (with_step integrator (s + t))
              P N st particle c k Hok Hp Hmass Hc Hk) as [-> ->].
  rewrite HQ1, HV1. fold Q. fold V.
  assert (Hw' : twown integrator P <> 0) by exact Hw.
  destruct (drifted_compose Q V s t Hw' HQl HVl) as [-> ->].
  split; reflexivity.
Qed.

(** X18.  Every coordinate drifts on its own: what the drift leaves in a
    coordinate of a particle of non-zero mass depends on the positions
    and velocities of that coordinate only. *)
Theorem drift_is_separable st1 st2 particle c :
  drift_state_ok P N st1 -> drift_state_ok P N st2 ->
  (particle < N)%nat -> getParticleMass system particle <> 0 ->
  (c < 3)%nat ->
  (forall k, (k < P)%nat ->
     coord (fst (fst st1)) k particle c = coord (fst (fst st2)) k particle c
     /\ coord (snd (fst st1)) k particle c
        = coord (snd (fst st2)) k particle c) ->
  let drift := evolveFreeRingPolymer system integrator P N in
  forall k, (k < P)%nat ->
    coord (fst (fst (drift st1))) k particle c
    = coord (fst (fst (drift st2))) k particle c
    /\ coord (snd (fst (drift st1))) k particle c
       = coord (snd (fst (drift st2))) k particle c.
Proof.
  intros Hok1 Hok2 Hp Hmass Hc Hsame. cbv zeta. intros k Hk.
  destruct (evolveFreeRingPolymer_coords system integrator P N st1 particle
              c k Hok1 Hp Hmass Hc Hk) as [-> ->].
  destruct (evolveFreeRingPolymer_coords system integrator P N st2 particle
              c k Hok2 Hp Hmass Hc Hk) as [-> ->].
  rewrite (to_modes_ext (fst (fst st1)) (fst (fst st2)) particle c)
    by (intros k' Hk'; apply (Hsame k' Hk')).
  rewrite (to_modes_ext (snd (fst st1)) (snd (fst st2)) particle c)
    by (intros k' Hk'; apply (Hsame k' Hk')).
  split; reflexivity.
Qed.

End DriftFlow.

Section DriftFlowExamples.

Lemma displaced_state_ok :
  drift_state_ok 2 1
    (displaced_in_y, no_forces, ([Czero; Czero], [Czero; Czero])).
Proof.
  split; [| split; [exact no_forces_shaped | split; reflexivity]].
  split; [reflexivity |]. intros k Hk.
  destruct k as [| [| k]]; [reflexivity | reflexivity | lia].
Defined.

Lemma displaced_state_agrees k :
  (k < 2)%nat ->
  coord no_forces k 0 0 = coord displaced_in_y k 0 0
  /\ coord no_forces k 0 0 = coord no_forces k 0 0.
Proof.
  intros Hk. split; [| reflexivity].
  destruct k as [| [| k]]; [reflexivity | reflexivity | lia].
Defined.

Lemma moving_coordinates :
  coord moving_positions 0 0 1 = 2 /\ coord moving_velocities 0 0 1 = -2.
Proof. split; reflexivity. Defined.

(** The theorems on the y coordinate of two copies of one particle in
    motion, with mode buffers left by an earlier pass. *)
Lemma drift_keeps_the_buffers_real_witness :
  @twown reference_constants scenario5 2 <> 0
  /\ (1 < 2)%nat
  /\ let r :=
       @evolveComponent reference_constants scenario5 2 0 1
         (moving_positions, moving_velocities, (used_buffer, used_buffer)) in
     imag (cget (fst (snd r)) 1) = 0 /\ imag (cget (snd (snd r)) 1) = 0.
Proof.
  assert (Hn : (1 < 2)%nat) by lia.
  split; [exact reference_twown_not_zero |]. split; [exact Hn |].
  exact (@drift_keeps_the_buffers_real reference_constants scenario5 2
           0%nat 1%nat moving_positions moving_velocities used_buffer
           used_buffer 1%nat reference_twown_not_zero eq_refl eq_refl Hn).
Defined.

Lemma zero_step_drift_changes_nothing_witness :
  getStepSize (with_step scenario5 0) = 0
  /\ @twown reference_constants (with_step scenario5 0) 2 <> 0
  /\ drift_state_ok 2 1
       (moving_positions, moving_velocities, (used_buffer, used_buffer))
  /\ let st' :=
       @evolveFreeRingPolymer reference_constants one_particle
         (with_step scenario5 0) 2 1
         (moving_positions, moving_velocities, (used_buffer, used_buffer)) in
     coord (fst (fst st')) 0 0 1 = 2 /\ coord (snd (fst st')) 0 0 1 = -2.
Proof.
  assert (Hdt : getStepSize (with_step scenario5 0) = 0) by reflexivity.
  assert (Hp : (0 < 1)%nat) by lia.
  assert (Hc : (1 < 3)%nat) by lia.
  assert (Hk : (0 < 2)%nat) by lia.
  split; [exact Hdt |]. split; [exact reference_twown_not_zero |].
  split; [exact moving_state_ok |].
  pose proof (@zero_step_drift_changes_nothing reference_constants
                one_particle (with_step scenario5 0) 2 1 _ 0%nat 1%nat
                0%nat Hdt reference_twown_not_zero moving_state_ok Hp Hc Hk)
    as Hthm.
  cbv zeta in Hthm. cbn [fst snd] in Hthm.
  destruct moving_coordinates as [Hq Hv]. rewrite Hq, Hv in Hthm.
  exact Hthm.
Defined.

Lemma drift_composes_witness :
  @twown reference_constants scenario5 2 <> 0
  /\ drift_state_ok 2 1
       (moving_positions, moving_velocities, (used_buffer, used_buffer))
  /\ getParticleMass one_particle 0 <> 0
  /\ forall s t,
       let drift := fun t' =>
         @evolveFreeRingPolymer reference_constants one_particle
           (with_step scenario5 t') 2 1 in
       let st :=
         (moving_positions, moving_velocities, (used_buffer, used_buffer)) in
       coord (fst (fst (drift s (drift t st)))) 1 0 1
       = coord (fst (fst (drift (s + t) st))) 1 0 1
       /\ coord (snd (fst (drift s (drift t st)))) 1 0 1
          = coord (snd (fst (drift (s + t) st))) 1 0 1.
Proof.
  assert (Hp : (0 < 1)%nat) by lia.
  assert (Hc : (1 < 3)%nat) by lia.
  assert (Hk : (1 < 2)%nat) by lia.
  split; [exact reference_twown_not_zero |].
  split; [exact moving_state_ok |].
  split; [exact one_particle_is_massive |].
  intros s t.
  exact (@drift_composes reference_constants one_particle scenario5 2
           1 _ 0%nat 1%nat 1%nat s t reference_twown_not_zero
           moving_state_ok Hp one_particle_is_massive Hc Hk).
Defined.

(** The x coordinate drifts the same way whether or not copy 0 is
    displaced along y. *)
Lemma drift_is_separable_witness :
  drift_state_ok 2 1
    (displaced_in_y, no_forces, ([Czero; Czero], [Czero; Czero]))
  /\ getParticleMass one_particle 0 <> 0
  /\ forall k, (k < 2)%nat ->
       let drift :=
         @evolveFreeRingPolymer reference_constants one_particle scenario5
           2 1 in
       coord (fst (fst (drift (no_forces, no_forces,
                               ([Czero; Czero], [Czero; Czero]))))) k 0 0
       = coord (fst (fst (drift (displaced_in_y, no_forces,
                                 ([Czero; Czero], [Czero; Czero]))))) k 0 0.
Proof.
  assert (Hp : (0 < 1)%nat) by lia.
  assert (Hc : (0 < 3)%nat) by lia.
  split; [exact displaced_state_ok |].
  split; [exact one_particle_is_massive |].
  intros k Hk.
  exact (proj1 (@drift_is_separable reference_constants one_particle
                  scenario5 2 1 _ _ 0%nat 0%nat rest_state_ok
                  displaced_state_ok Hp one_particle_is_massive Hc
                  displaced_state_agrees k Hk)).
Defined.

End DriftFlowExamples.

(** ** The open path: thermostat and drift *)

Section RealBufferFacts.

Lemma rget_insert_same (l : list R) k x :
  (k < length l)%nat -> rget (<[k := x]> l) k = x.
Proof. intros Hk. unfold rget. now rewrite list_lookup_insert_eq. Qed.

Lemma rget_insert_other (l : list R) k k' x :
  k <> k' -> rget (<[k := x]> l) k' = rget l k'.
Proof. intros Hne. unfold rget. now rewrite list_lookup_insert_ne. Qed.

Lemma rget_map (f : nat -> R) n k :
  (k < n)%nat -> rget (map f (seq 0 n)) k = f k.
Proof.
  intros Hk. unfold rget. rewrite list_lookup_fmap.
  now rewrite lookup_seq_lt.
Qed.

Lemma real_buffer_eq_map (l : list R) n (f : nat -> R) :
  length l = n -> (forall k, (k < n)%nat -> rget l k = f k) ->
  l = map f (seq 0 n).
Proof.
  intros Hlen Hf. apply list_eq. intros k. rewrite list_lookup_fmap.
  destruct (Nat.lt_ge_cases k n) as [Hk | Hk].
  - rewrite lookup_seq_lt by exact Hk. simpl. rewrite <- (Hf k Hk).
    unfold rget. destruct (lookup_lt_is_Some_2 l k) as [x ->]; [lia |].
    reflexivity.
  - rewrite lookup_seq_ge by exact Hk. simpl. apply lookup_ge_None. lia.
Qed.

End RealBufferFacts.

Section OpenModeFacts.
Context `{PhysicalConstants} `{Pocketfft} {G : Type} `{RandomNumbers G}.
Variable system : System.
Variable integrator : RPMDIntegrator.
Variable numCopies numParticles : nat.

(** The loop over the modes [k >= 1] of the open chain. *)
Lemma evolveModesOpen_spec q v :
  length q = numCopies -> length v = numCopies ->
  let r := for_range 1 numCopies (evolveModeOpen integrator numCopies) (q, v) in
  length (fst r) = numCopies /\ length (snd r) = numCopies
  /\ rget (fst r) 0 = rget q 0 /\ rget (snd r) 0 = rget v 0
  /\ forall k, (1 <= k < numCopies)%nat ->
       let w := omega_open integrator numCopies k in
       rget (fst r) k
       = rget v k * sin (w * dt integrator) / w
         + rget q k * cos (w * dt integrator)
       /\ rget (snd r) k
          = rget v k * cos (w * dt integrator)
            - rget q k * w * sin (w * dt integrator).
Proof.
  intros Hq Hv. cbv zeta.
  destruct (Nat.le_gt_cases numCopies 1) as [Hsmall | Hbig].
  { rewrite for_range_empty by lia. cbn [fst snd].
    split; [exact Hq |]. split; [exact Hv |].
    split; [reflexivity |]. split; [reflexivity | intros; lia]. }
  pose (Q := fun (m : nat) (r : list R * list R) =>
    length (fst r) = numCopies /\ length (snd r) = numCopies
    /\ (forall k, (1 <= k < m)%nat ->
          rget (fst r) k
          = rget v k * sin (omega_open integrator numCopies k * dt integrator)
            / omega_open integrator numCopies k
            + rget q k
              * cos (omega_open integrator numCopies k * dt integrator)
          /\ rget (snd r) k
             = rget v k
               * cos (omega_open integrator numCopies k * dt integrator)
               - rget q k * omega_open integrator numCopies k
                 * sin (omega_open integrator numCopies k * dt integrator))
    /\ (forall k, k = 0%nat \/ (m <= k)%nat ->
          rget (fst r) k = rget q k /\ rget (snd r) k = rget v k)).
  match goal with
  | |- length (fst ?r) = _ /\ _ => assert (HQ : Q numCopies r)
  end.
  { apply for_range_ind; [lia | |].
    - split; [exact Hq |]. split; [exact Hv |].
      split; [intros; lia |]. intros k _. split; reflexivity.
    - intros m [q1 v1] Hm (Hl1 & Hl2 & Hdone & Hrest).
      cbn [fst snd] in *. unfold evolveModeOpen.
      cbv beta iota zeta. unfold Q. cbn [fst snd]. rewrite !length_insert.
      split; [exact Hl1 |]. split; [exact Hl2 |].
      destruct (Hrest m (or_intror (Nat.le_refl m))) as [Hqm Hvm].
      split.
      + intros k Hk. destruct (Nat.eq_dec k m) as [-> | Hne].
        * rewrite !rget_insert_same by lia. rewrite Hqm, Hvm.
          unfold omega_open. split; unfold Rdiv; ring.
        * rewrite !rget_insert_other by lia. apply Hdone. lia.
      + intros k Hk. rewrite !rget_insert_other by lia. apply Hrest. lia. }
  destruct HQ as (Hl1 & Hl2 & Hdone & Hrest).
  split; [exact Hl1 |]. split; [exact Hl2 |].
  destruct (Hrest 0%nat (or_introl eq_refl)) as [H0q H0v].
  split; [exact H0q |]. split; [exact H0v |]. exact Hdone.
Qed.

(** The loop over the modes [k >= 1] of the open-path thermostat, from
    the generator [g1] that the draw for bin 0 has left. *)
Lemma thermostatModesOpen_spec particle v (g1 : G) :
  length v = numCopies ->
  let r :=
    for_range 1 numCopies
      (thermostatModeOpen system integrator numCopies particle) (v, g1) in
  length (fst r) = numCopies
  /\ rget (fst r) 0 = rget v 0
  /\ forall k, (1 <= k < numCopies)%nat ->
       rget (fst r) k
       = rget v k * open_c1 integrator numCopies k
         + open_c3 system integrator numCopies particle k
           * draw_number (k - 1) g1.
Proof.
  intros Hv. cbv zeta.
  destruct (Nat.le_gt_cases numCopies 1) as [Hsmall | Hbig].
  { rewrite for_range_empty by lia. cbn [fst snd].
    split; [exact Hv |]. split; [reflexivity | intros; lia]. }
  pose (Q := fun (m : nat) (r : list R * G) =>
    length (fst r) = numCopies
    /\ snd r = draws (m - 1) g1
    /\ (forall k, (1 <= k < m)%nat ->
          rget (fst r) k
          = rget v k * open_c1 integrator numCopies k
            + open_c3 system integrator numCopies particle k
              * draw_number (k - 1) g1)
    /\ (forall k, k = 0%nat \/ (m <= k)%nat -> rget (fst r) k = rget v k)).
  match goal with
  | |- length (fst ?r) = _ /\ _ => assert (HQ : Q numCopies r)
  end.
  { apply for_range_ind; [lia | |].
    - split; [exact Hv |]. split; [reflexivity |].
      split; [intros; lia | reflexivity].
    - intros m [v1 g2] Hm (Hl & Hg & Hdone & Hrest).
      cbn [fst snd] in *. subst g2. unfold Q, thermostatModeOpen.
      destruct (getNormallyDistributedRandomNumber (draws (m - 1) g1))
        as [xi g3] eqn:Hdraw.
      cbn [fst snd]. rewrite length_insert.
      split; [exact Hl |]. split.
      + replace (S m - 1)%nat with (S (m - 1)) by lia.
        unfold draws in *. simpl. now rewrite Hdraw.
      + split.
        * intros k Hk. destruct (Nat.eq_dec k m) as [-> | Hne].
          -- rewrite rget_insert_same by lia.
             rewrite (Hrest m (or_intror (Nat.le_refl m))).
             unfold open_c3, open_c1, omega_open, draw_number.
             rewrite Hdraw. cbn [fst].
             match goal with
             | |- context [sqrt (1 - ?a * ?a)] =>
                 replace (a * a) with (a ^ 2) by ring
             end.
             reflexivity.
          -- rewrite rget_insert_other by lia. apply Hdone. lia.
        * intros k Hk. rewrite rget_insert_other by lia. apply Hrest. lia. }
  destruct HQ as (Hl & _ & Hdone & Hrest).
  split; [exact Hl |]. split; [apply Hrest; now left | exact Hdone].
Qed.

(** X19.  One pass of the open-path thermostat for one coordinate: the
    velocities go through the cosine transform of type 2, every bin [k]
    is damped by its [c1] and receives the draw number [k] of the pass
    times its [c3] (bin 0 with the friction of the integrator, the
    others with their own frequency [2 (P-1) k_B T / hbar sin(k pi /
    2P)] and no factor [1/sqrt 2]), and the transform of type 3 gives
    the new velocities. *)
Theorem open_thermostat_damps_every_mode particle c vel v (g : G) k :
  dct_keeps_length numCopies ->
  shaped numCopies numParticles vel ->
  (particle < numParticles)%nat -> (c < 3)%nat ->
  length v = numCopies -> (k < numCopies)%nat ->
  let r :=
    thermostatComponentOpen system integrator numCopies particle c
      (vel, v, g) in
  let V :=
    dct numCopies 2 (fct numCopies) true (column numCopies vel particle c) in
  coord (fst (fst r)) k particle c
  = rget (dct numCopies 3 (fct numCopies) true
            (open_thermostatted system integrator numCopies particle V g)) k.
Proof.
  intros Hdct Hshape Hp Hc Hlen Hk. cbv zeta.
  unfold thermostatComponentOpen.
  rewrite (fill_full numCopies _ v Hlen).
  fold (column numCopies vel particle c).
  set (V := dct numCopies 2 (fct numCopies) true
              (column numCopies vel particle c)).
  assert (HVl : length V = numCopies).
  { apply Hdct. unfold column. now rewrite length_map, length_seq. }
  destruct (getNormallyDistributedRandomNumber g) as [xi g1] eqn:Hdraw.
  set (V0 := <[0%nat := _]> V).
  assert (Hl0 : length V0 = numCopies)
    by (unfold V0; now rewrite length_insert).
  destruct (thermostatModesOpen_spec particle V0 g1 Hl0)
    as (Hl1 & Hcen & Hmodes).
  destruct (for_range 1 numCopies _ (V0, g1)) as [V1 g2].
  cbn [fst snd] in *.
  match goal with
  | |- context [for_range 0 numCopies
                  (fun k vel => set_coord k particle c (@?f k) vel) vel] =>
      destruct (store_coords_spec numCopies numParticles particle c f vel
                  Hshape Hp Hc) as (_ & Hnew & _)
  end.
  rewrite (Hnew k Hk). f_equal. f_equal.
  apply real_buffer_eq_map; [exact Hl1 |].
  intros j Hj. destruct j as [| j]; cbn [Nat.eqb].
  - rewrite Hcen. unfold V0. rewrite rget_insert_same by lia.
    unfold draw_number, draws. simpl. rewrite Hdraw. cbn [fst]. ring.
  - rewrite (Hmodes (S j)) by lia. unfold V0.
    rewrite rget_insert_other by lia. f_equal. f_equal.
    unfold draw_number. f_equal.
    replace (S j) with ((S j - 1) + 1)%nat at 2 by lia.
    rewrite draws_add. unfold draws at 2. simpl. now rewrite Hdraw.
Qed.

End OpenModeFacts.

Section OpenDriftFacts.
Context `{PhysicalConstants} `{Pocketfft}.
Variable system : System.
Variable integrator : RPMDIntegrator.
Variable numCopies numParticles : nat.
Hypothesis Hdct : dct_keeps_length numCopies.

Lemma open_drift_of_ext f f' k :
  (forall k', f k' = f' k') ->
  open_drift_of integrator numCopies f k
  = open_drift_of integrator numCopies f' k.
Proof.
  intros Hext. unfold open_drift_of.
  assert (E1 : map (fun k' => fst (f k')) (seq 0 numCopies)
               = map (fun k' => fst (f' k')) (seq 0 numCopies))
    by (apply map_ext; intros k'; now rewrite Hext).
  assert (E2 : map (fun k' => snd (f k')) (seq 0 numCopies)
               = map (fun k' => snd (f' k')) (seq 0 numCopies))
    by (apply map_ext; intros k'; now rewrite Hext).
  now rewrite E1, E2.
Qed.

Lemma evolveComponentOpen_spec particle c st :
  (particle < numParticles)%nat -> (c < 3)%nat ->
  open_state_ok numCopies numParticles st ->
  let st' := evolveComponentOpen integrator numCopies particle c st in
  let view := fun (s : BeadArray * BeadArray * (list R * list R)) k j c' =>
                (coord (fst (fst s)) k j c', coord (snd (fst s)) k j c') in
  open_state_ok numCopies numParticles st'
  /\ (forall k, (k < numCopies)%nat ->
        view st' k particle c
        = open_drift_of integrator numCopies
            (fun k' => view st k' particle c) k)
  /\ (forall k j c', (c' < 3)%nat -> (j, c') <> (particle, c) ->
        view st' k j c' = view st k j c').
Proof.
  intros Hp Hc. destruct st as [[pos vel] [q v]].
  intros (Hpos & Hvel & Hq & Hv). simpl in Hpos, Hvel, Hq, Hv. cbv zeta.
  unfold evolveComponentOpen.
  rewrite for_range2_split.
  rewrite (for_range_insert_full numCopies _ q Hq),
    (for_range_insert_full numCopies _ v Hv).
  set (Q := dct numCopies 2 (fct numCopies) true _).
  set (V := dct numCopies 2 (fct numCopies) true _).
  assert (HQl : length Q = numCopies)
    by (apply Hdct; now rewrite length_map, length_seq).
  assert (HVl : length V = numCopies)
    by (apply Hdct; now rewrite length_map, length_seq).
  set (Q0 := <[0%nat := _]> Q).
  assert (HQ0l : length Q0 = numCopies)
    by (unfold Q0; now rewrite length_insert).
  destruct (evolveModesOpen_spec integrator numCopies Q0 V HQ0l HVl)
    as (Hl1 & Hl2 & Hq0 & Hv0 & Hmodes).
  destruct (for_range 1 numCopies _ (Q0, V)) as [Q1 V1].
  cbn [fst snd] in *.
  assert (HQ1 : Q1 = open_drifted_positions integrator numCopies Q V).
  { apply real_buffer_eq_map; [exact Hl1 |]. intros k Hk.
    destruct k as [| k]; cbn [Nat.eqb].
    - rewrite Hq0. unfold Q0. now rewrite rget_insert_same by lia.
    - destruct (Hmodes (S k) ltac:(lia)) as [-> _]. unfold Q0.
      now rewrite rget_insert_other by lia. }
  assert (HV1 : V1 = open_drifted_velocities integrator numCopies Q V).
  { apply real_buffer_eq_map; [exact Hl2 |]. intros k Hk.
    destruct k as [| k]; cbn [Nat.eqb].
    - exact Hv0.
    - destruct (Hmodes (S k) ltac:(lia)) as [_ ->]. unfold Q0.
      now rewrite rget_insert_other by lia. }
  rewrite for_range2_split.
  match goal with
  | |- context [for_range 0 numCopies
                  (fun k pos => set_coord k particle c (@?f k) pos) pos] =>
      destruct (store_coords_spec numCopies numParticles particle c f pos
                  Hpos Hp Hc) as (Hs1 & Hn1 & Ho1 & _)
  end.
  match goal with
  | |- context [for_range 0 numCopies
                  (fun k vel => set_coord k particle c (@?f k) vel) vel] =>
      destruct (store_coords_spec numCopies numParticles particle c f vel
                  Hvel Hp Hc) as (Hs2 & Hn2 & Ho2 & _)
  end.
  split; [| split].
  - unfold open_state_ok. cbn [fst snd].
    split; [exact Hs1 |]. split; [exact Hs2 |].
    split; apply Hdct; assumption.
  - intros k Hk. cbn [fst snd]. rewrite (Hn1 k Hk), (Hn2 k Hk).
    rewrite HQ1, HV1. reflexivity.
  - intros k j c' Hc' Hne. cbn [fst snd].
    now rewrite (Ho1 k j c' Hc' Hne), (Ho2 k j c' Hc' Hne).
Qed.

Lemma open_rotation_keeps_energy w t q v :
  w <> 0 ->
  (v * cos (w * t) - q * w * sin (w * t)) ^ 2
  + w ^ 2 * (v * sin (w * t) / w + q * cos (w * t)) ^ 2
  = v ^ 2 + w ^ 2 * q ^ 2.
Proof.
  intros Hw. pose proof (sin2_cos2 (w * t)) as Hone. unfold Rsqr in Hone.
  set (s := sin (w * t)) in *. set (c := cos (w * t)) in *.
  replace (w ^ 2 * (v * s / w + q * c) ^ 2)
    with ((v * s + q * w * c) ^ 2) by (field; exact Hw).
  replace ((v * c - q * w * s) ^ 2 + (v * s + q * w * c) ^ 2)
    with ((v ^ 2 + w ^ 2 * q ^ 2) * (s * s + c * c)) by ring.
  rewrite Hone. ring.
Qed.

(** X20.  The open-path drift. For every particle of non-zero mass and
    every Cartesian component, the positions and the velocities over the
    copies go through the cosine transform of type 2; bin 0 moves freely
    ([q_0 + v_0 dt]) and every bin [1 <= k < P] is rotated at the
    frequency [w_k = 2 (P-1) k_B T / hbar sin(k pi / 2P)]; and the
    transform of type 3 of these bins is what the drift stores. The
    rotation conserves [v_k^2 + w_k^2 q_k^2] of every bin whose
    frequency is not zero. *)
Theorem open_drift_rotates_every_mode st particle c k :
  open_state_ok numCopies numParticles st ->
  (particle < numParticles)%nat ->
  getParticleMass system particle <> 0 ->
  (c < 3)%nat -> (k < numCopies)%nat ->
  let st' := evolveFreeChain system integrator numCopies numParticles st in
  let Q :=
    dct numCopies 2 (fct numCopies) true
      (column numCopies (fst (fst st)) particle c) in
  let V :=
    dct numCopies 2 (fct numCopies) true
      (column numCopies (snd (fst st)) particle c) in
  let Q' := open_drifted_positions integrator numCopies Q V in
  let V' := open_drifted_velocities integrator numCopies Q V in
  coord (fst (fst st')) k particle c
  = rget (dct numCopies 3 (fct numCopies) true Q') k
  /\ coord (snd (fst st')) k particle c
     = rget (dct numCopies 3 (fct numCopies) true V') k
  /\ forall j, (1 <= j < numCopies)%nat ->
       omega_open integrator numCopies j <> 0 ->
       rget V' j ^ 2 + omega_open integrator numCopies j ^ 2 * rget Q' j ^ 2
       = rget V j ^ 2 + omega_open integrator numCopies j ^ 2 * rget Q j ^ 2.
Proof.
  intros Hok Hp Hmass Hc Hk. cbv zeta. unfold evolveFreeChain.
  destruct (for_massive_components_local system numParticles numCopies
              (fun (s : BeadArray * BeadArray * (list R * list R)) k j c' =>
                 (coord (fst (fst s)) k j c', coord (snd (fst s)) k j c'))
              (open_state_ok numCopies numParticles)
              (evolveComponentOpen integrator numCopies)
              (fun _ _ => open_drift_of integrator numCopies)
              (fun _ _ => open_drift_of_ext)
              (fun p c' s Hp' Hc' Hs =>
                 evolveComponentOpen_spec p c' s Hp' Hc' Hs)
              st Hok) as [_ Hall].
  destruct (Hall particle c Hp Hc) as [Hdone _].
  specialize (Hdone Hmass k Hk). unfold open_drift_of in Hdone.
  cbn [fst snd] in Hdone.
  fold (column numCopies (fst (fst st)) particle c) in Hdone.
  fold (column numCopies (snd (fst st)) particle c) in Hdone.
  injection Hdone as Hpos Hvel.
  split; [exact Hpos |]. split; [exact Hvel |].
  intros j Hj Hw.
  unfold open_drifted_positions, open_drifted_velocities.
  rewrite !rget_map by lia.
  destruct (Nat.eqb_spec j 0%nat); [lia |].
  now apply open_rotation_keeps_energy.
Qed.

End OpenDriftFacts.

Section OpenExamplesOfModes.

Lemma reference_dct_keeps_length P : @dct_keeps_length reference_dct P.
Proof.
  intros type fct' ortho data Hlen. simpl.
  rewrite length_app, length_map, length_seq, length_drop. lia.
Defined.

Lemma open_moving_state_ok :
  open_state_ok 2 1
    (moving_positions, moving_velocities,
     (used_real_buffer, used_real_buffer)).
Proof.
  split; [exact moving_positions_shaped |].
  split; [exact moving_velocities_shaped |].
  split; reflexivity.
Defined.

(** The two theorems on the y coordinate of two copies of one particle
    in motion, with buffers left by an earlier pass and, for the
    thermostat, the generator that counts its draws. *)
Lemma open_thermostat_damps_every_mode_witness :
  @dct_keeps_length reference_dct 2
  /\ shaped 2 1 moving_velocities
  /\ forall k, (k < 2)%nat ->
       coord (fst (fst (@thermostatComponentOpen reference_constants
                          reference_dct nat counting_generator one_particle
                          open_integrator 2 0 1
                          (moving_velocities, used_real_buffer, 0%nat))))
         k 0 1
       = rget (@dct reference_dct 2 3 (fct 2) true
                 (@open_thermostatted reference_constants nat
                    counting_generator one_particle open_integrator 2 0
                    (@dct reference_dct 2 2 (fct 2) true
                       (column 2 moving_velocities 0 1)) 0%nat)) k.
Proof.
  assert (Hp : (0 < 1)%nat) by lia.
  assert (Hc : (1 < 3)%nat) by lia.
  split; [exact (reference_dct_keeps_length 2) |].
  split; [exact moving_velocities_shaped |].
  intros k Hk.
  exact (@open_thermostat_damps_every_mode reference_constants reference_dct
           nat counting_generator one_particle open_integrator 2 1 0%nat
           1%nat moving_velocities used_real_buffer 0%nat k
           (reference_dct_keeps_length 2) moving_velocities_shaped Hp Hc
           eq_refl Hk).
Defined.

Lemma open_drift_rotates_every_mode_witness :
  @dct_keeps_length reference_dct 2
  /\ open_state_ok 2 1
       (moving_positions, moving_velocities,
        (used_real_buffer, used_real_buffer))
  /\ getParticleMass one_particle 0 <> 0
  /\ forall k, (k < 2)%nat ->
       let st' :=
         @evolveFreeChain reference_constants reference_dct one_particle
           open_integrator 2 1
           (moving_positions, moving_velocities,
            (used_real_buffer, used_real_buffer)) in
       let Q :=
         @dct reference_dct 2 2 (fct 2) true (column 2 moving_positions 0 1)
       in
       let V :=
         @dct reference_dct 2 2 (fct 2) true (column 2 moving_velocities 0 1)
       in
       coord (fst (fst st')) k 0 1
       = rget (@dct reference_dct 2 3 (fct 2) true
                 (@open_drifted_positions reference_constants
                    open_integrator 2 Q V)) k
       /\ coord (snd (fst st')) k 0 1
          = rget (@dct reference_dct 2 3 (fct 2) true
                    (@open_drifted_velocities reference_constants
                       open_integrator 2 Q V)) k.
Proof.
  assert (Hp : (0 < 1)%nat) by lia.
  assert (Hc : (1 < 3)%nat) by lia.
  split; [exact (reference_dct_keeps_length 2) |].
  split; [exact open_moving_state_ok |].
  split; [exact one_particle_is_massive |].
  intros k Hk. cbv zeta.
  destruct (@open_drift_rotates_every_mode reference_constants
              reference_dct one_particle open_integrator 2 1
              (reference_dct_keeps_length 2) _ 0%nat 1%nat k
              open_moving_state_ok Hp one_particle_is_massive Hc Hk)
    as (Hpos & Hvel & _).
  split; [exact Hpos | exact Hvel].
Defined.

End OpenExamplesOfModes.

(** ** The pass over the copies *)

Section GatherPass.
Context {E : Type} `{ContextImpl E}.
Variable F : Z -> list Vec3 -> list Vec3.
Hypothesis Hengine : static_engine F.

Lemma bead_insert_same (arr : BeadArray) i :
  (i < length arr)%nat -> <[i := bead arr i]> arr = arr.
Proof.
  intros Hi. unfold bead.
  destruct (lookup_lt_is_Some_2 arr i Hi) as [x Hx]. rewrite Hx. simpl.
  now apply list_insert_id.
Qed.

Lemma bead_insert (arr : BeadArray) i x k :
  (i < length arr)%nat ->
  bead (<[i := x]> arr) k = if decide (i = k) then x else bead arr k.
Proof.
  intros Hi. unfold bead. destruct (decide (i = k)) as [-> | Hne].
  - now rewrite list_lookup_insert_eq.
  - now rewrite list_lookup_insert_ne.
Qed.

(** One pass of the loop body with a static engine. *)
Lemma gatherBead_static i self context :
  (i < length (positions self))%nat ->
  (i < length (velocities self))%nat ->
  exists context',
    gatherBead i (self, context)
    = Done (with_beads self (positions self) (velocities self)
              (<[i := F (groupsNotContracted self) (bead (positions self) i)]>
                 (forces self)),
            context').
Proof.
  intros Hp Hv. destruct Hengine as (Hsites & Hupdate & Hcalc).
  unfold gatherBead.
  set (c0 := set_ctx_velocities _ (set_ctx_positions _ context)).
  destruct (Hsites c0) as [Hs1 Hs2].
  destruct (Hupdate (computeVirtualSites c0)) as (Hu1 & Hu2 & Hu3).
  rewrite Hu3, box_neqb_same.
  eexists. f_equal. f_equal.
  match goal with
  | |- context [calcForcesAndEnergy true false ?g ?c] =>
      destruct (Hcalc true false g c) as (_ & _ & Hf)
  end.
  cbn [positions velocities forces with_beads groupsNotContracted] in *.
  rewrite Hf. rewrite !Hu1, !Hu2, !Hs1, !Hs2. unfold c0. simpl.
  rewrite (bead_insert_same _ i Hp), (bead_insert_same _ i Hv).
  reflexivity.
Qed.

(** The loop, from copy [first] on. *)
Lemma gatherForces_static n : forall first self context,
  (first + n <= length (positions self))%nat ->
  length (velocities self) = length (positions self) ->
  length (forces self) = length (positions self) ->
  exists self' context',
    for_each gatherBead (seq first n) (self, context) = Done (self', context')
    /\ positions self' = positions self
    /\ velocities self' = velocities self
    /\ layout self' = layout self
    /\ forall k,
         bead (forces self') k
         = if decide (first <= k < first + n)%nat
           then F (groupsNotContracted self) (bead (positions self) k)
           else bead (forces self) k.
Proof.
  induction n as [| n IH]; intros first self context Hn Hv Hf.
  - exists self, context. simpl.
    split; [reflexivity |]. split; [reflexivity |]. split; [reflexivity |].
    split; [reflexivity |]. intros k.
    destruct (decide (first <= k < first + 0)%nat); [lia | reflexivity].
  - cbn [seq for_each].
    destruct (gatherBead_static first self context ltac:(lia) ltac:(lia))
      as [context1 ->].
    cbn [and_then].
    set (self1 := with_beads self _ _ _).
    destruct (IH (S first) self1 context1) as
      (self' & context' & Hrun & Hp' & Hv' & Hl' & Hf');
      [unfold self1; simpl; lia | exact Hv
      | unfold self1; simpl; now rewrite length_insert |].
    exists self', context'. split; [exact Hrun |].
    split; [exact Hp' |]. split; [exact Hv' |]. split.
    + rewrite Hl'. unfold layout, self1. simpl. now rewrite length_insert.
    + intros k. rewrite Hf'. unfold self1. simpl.
      rewrite bead_insert by lia.
      repeat match goal with
             | |- context [decide ?P] => destruct (decide P)
             end; try lia; try reflexivity.
      now subst.
Qed.

(** X21.  With an engine that has no virtual sites and no barostat and
    whose forces are a function [F] of the force groups and the
    positions, the pass over the copies completes, moves no particle,
    and leaves in [forces[k]], for every copy [k], the forces [F] of the
    groups that are not contracted at the positions of copy [k]. *)
Theorem force_pass_evaluates_every_copy self context :
  length (velocities self) = length (positions self) ->
  length (forces self) = length (positions self) ->
  exists self' context',
    gatherForces (length (positions self)) (self, context)
    = Done (self', context')
    /\ positions self' = positions self
    /\ velocities self' = velocities self
    /\ layout self' = layout self
    /\ forall k, (k < length (positions self))%nat ->
         bead (forces self') k
         = F (groupsNotContracted self) (bead (positions self) k).
Proof.
  intros Hv Hf. unfold gatherForces.
  destruct (gatherForces_static (length (positions self)) 0 self context
              ltac:(lia) Hv Hf)
    as (self' & context' & Hrun & Hp' & Hv' & Hl' & Hf').
  exists self', context'. split; [exact Hrun |].
  split; [exact Hp' |]. split; [exact Hv' |]. split; [exact Hl' |].
  intros k Hk. rewrite Hf'.
  destruct (decide (0 <= k < 0 + length (positions self))%nat);
    [reflexivity | lia].
Qed.

End GatherPass.

Section GatherPassExample.

Lemma constant_force_engine_is_static :
  @static_engine unit constant_force_engine
    (fun _ pos => map (fun _ => mkVec3 4 0 0) pos).
Proof.
  split; [| split].
  - intros c. split; reflexivity.
  - intros c. split; [| split]; reflexivity.
  - intros a b g c. split; [| split]; reflexivity.
Defined.

(** The theorem under the constant force, on one copy. *)
Lemma force_pass_evaluates_every_copy_witness :
  @static_engine unit constant_force_engine
    (fun _ pos => map (fun _ => mkVec3 4 0 0) pos)
  /\ length (forces one_copy_kernel) = length (positions one_copy_kernel)
  /\ exists self' context',
       @gatherForces unit constant_force_engine 1
         (one_copy_kernel, rest_context)
       = Done (self', context')
       /\ positions self' = positions one_copy_kernel
       /\ velocities self' = velocities one_copy_kernel
       /\ layout self' = layout one_copy_kernel
       /\ forall k, (k < 1)%nat ->
            bead (forces self') k
            = map (fun _ => mkVec3 4 0 0) (bead (positions one_copy_kernel) k).
Proof.
  split; [exact constant_force_engine_is_static |].
  split; [reflexivity |].
  exact (@force_pass_evaluates_every_copy unit constant_force_engine _
           constant_force_engine_is_static one_copy_kernel rest_context
           eq_refl eq_refl).
Defined.

End GatherPassExample.

(** ** The work for one contraction, as a whole *)

(** The loop over all particles and components, for a body that
    rewrites the coordinates [(p, c)] of the copies from those
    coordinates alone. *)
Section LocalUpdatesOfAll.
Variable numParticles P : nat.
Context {St V : Type}.
Variable view : St -> nat -> nat -> nat -> V.
Variable WF : St -> Prop.
Variable body : nat -> nat -> St -> St.
Variable F : nat -> nat -> (nat -> V) -> nat -> V.
Hypothesis F_ext :
  forall p c f f' k, (forall k', f k' = f' k') -> F p c f k = F p c f' k.
Hypothesis body_spec :
  forall p c st,
    (p < numParticles)%nat -> (c < 3)%nat -> WF st ->
    WF (body p c st)
    /\ (forall k, (k < P)%nat ->
          view (body p c st) k p c = F p c (fun k' => view st k' p c) k)
    /\ (forall k j c', (c' < 3)%nat -> (j, c') <> (p, c) ->
          view (body p c st) k j c' = view st k j c').

Lemma unit_masses_not_zero j :
  (j < numParticles)%nat ->
  getParticleMass (mkSystem (replicate numParticles 1)) j <> 0.
Proof.
  intros Hj. unfold getParticleMass. simpl.
  rewrite lookup_replicate_2 by exact Hj. simpl. lra.
Qed.

Lemma for_components_local st :
  WF st ->
  let st' := for_components numParticles body st in
  WF st'
  /\ forall j c k, (j < numParticles)%nat -> (c < 3)%nat -> (k < P)%nat ->
       view st' k j c = F j c (fun k' => view st k' j c) k.
Proof.
  intros Hwf. cbv zeta.
  assert (Heq : for_components numParticles body st
                = for_massive_components (mkSystem (replicate numParticles 1))
                    numParticles body st).
  { unfold for_components, for_massive_components.
    apply for_range_ext. intros j s Hj.
    destruct (Req_dec_T _ 0) as [Hz | _]; [| reflexivity].
    exfalso. revert Hz. apply unit_masses_not_zero. lia. }
  rewrite Heq.
  destruct (for_massive_components_local (mkSystem (replicate numParticles 1))
              numParticles P view WF body F F_ext body_spec st Hwf)
    as [Hwf' Hall].
  split; [exact Hwf' |]. intros j c k Hj Hc Hk.
  destruct (Hall j c Hj Hc) as [Hdone _].
  apply Hdone; [now apply unit_masses_not_zero | exact Hk].
Qed.

End LocalUpdatesOfAll.

Section ContractGroup.
Context {E : Type} `{ContextImpl E}.
Variable F : Z -> list Vec3 -> list Vec3.
Hypothesis Hengine : static_engine F.
Variable totalCopies copies numParticles : nat.
Hypothesis Hcopies : (1 <= copies < totalCopies)%nat.

(** "Find the contracted positions", over all particles and
    components. *)
Lemma contractAllPositions_spec maxCopies pos cpos q :
  shaped maxCopies numParticles cpos -> (copies <= maxCopies)%nat ->
  length q = totalCopies ->
  let r :=
    for_components numParticles (contractPositions totalCopies copies pos)
      (cpos, q) in
  shaped maxCopies numParticles (fst r) /\ length (snd r) = totalCopies
  /\ forall j c k, (j < numParticles)%nat -> (c < 3)%nat -> (k < copies)%nat ->
       coord (fst r) k j c
       = contracted_position totalCopies copies pos j c k.
Proof.
  intros Hshape Hmax Hq. cbv zeta.
  destruct (for_components_local numParticles copies
              (fun (s : BeadArray * list Complex) k j c => coord (fst s) k j c)
              (fun s => shaped maxCopies numParticles (fst s)
                        /\ length (snd s) = totalCopies)
              (contractPositions totalCopies copies pos)
              (fun p c _ k => contracted_position totalCopies copies pos p c k)
              (fun _ _ _ _ _ _ => eq_refl)) with (st := (cpos, q))
    as [[Hs Hl] Hall].
  - intros p c [cpos1 q1] Hp Hc [Hs1 Hl1]. cbn [fst snd] in *.
    destruct (contractPositions_spec totalCopies copies numParticles Hcopies
                maxCopies pos p c cpos1 q1 Hs1 Hmax Hp Hc Hl1)
      as (Hs2 & Hl2 & Hval & Hother).
    split; [split; assumption |]. split; assumption.
  - split; assumption.
  - split; [exact Hs |]. split; [exact Hl |]. exact Hall.
Qed.

Lemma extendForces_buffer_length cf particle c f q :
  length q = totalCopies ->
  length (snd (extendForces totalCopies copies cf particle c (f, q)))
  = totalCopies.
Proof.
  intros Hq. unfold extendForces. cbn [snd].
  destruct (forces_spectrum totalCopies copies Hcopies cf particle c q Hq)
    as [Hl2 _].
  cbv zeta in Hl2.
  set (q2 := if (1 <? copies)%nat then _ else _) in *.
  destruct (unpackModes_bin0 totalCopies copies Hcopies q2) as [Hl3 _].
  rewrite c2c_length; rewrite Hl3, Hl2; lia.
Qed.

(** "Apply the forces to the original copies", over all particles and
    components. *)
Lemma extendAllForces_spec cf f q :
  shaped totalCopies numParticles f -> length q = totalCopies ->
  (copies <= keptEnd totalCopies copies)%nat ->
  let r :=
    for_components numParticles (extendForces totalCopies copies cf) (f, q) in
  forall j c k,
    (j < numParticles)%nat -> (c < 3)%nat -> (k < totalCopies)%nat ->
    coord (fst r) k j c
    = coord f k j c + extended_force totalCopies copies cf j c k.
Proof.
  intros Hshape Hq Hfree. cbv zeta.
  destruct (for_components_local numParticles totalCopies
              (fun (s : BeadArray * list Complex) k j c => coord (fst s) k j c)
              (fun s => shaped totalCopies numParticles (fst s)
                        /\ length (snd s) = totalCopies)
              (extendForces totalCopies copies cf)
              (fun p c g k => g k + extended_force totalCopies copies cf p c k))
    with (st := (f, q)) as [_ Hall].
  - intros p c g g' k Hext. now rewrite Hext.
  - intros p c [f1 q1] Hp Hc [Hs1 Hl1]. cbn [fst snd] in *.
    destruct (extendForces_spec totalCopies copies numParticles Hcopies
                cf p c f1 q1 Hs1 Hp Hc Hl1 Hfree) as (Hs2 & Hval & Hother).
    split; [split; [exact Hs2 | now apply extendForces_buffer_length] |].
    split; assumption.
  - split; assumption.
  - exact Hall.
Qed.

(** "Compute forces": the contracted copies go through the engine. *)
Lemma contractedBeads_static mask n : forall self context,
  (n <= length (contractedForces self))%nat ->
  exists cf context',
    for_range 0 n (contractedBead mask) (self, context)
    = (with_contracted self (contractedPositions self) cf, context')
    /\ length cf = length (contractedForces self)
    /\ forall i, (i < n)%nat ->
         bead cf i = F mask (bead (contractedPositions self) i).
Proof.
  destruct Hengine as (Hsites & _ & Hcalc).
  induction n as [| n IH]; intros self context Hn.
  - exists (contractedForces self), context.
    rewrite for_range_empty by lia.
    split; [now destruct self |]. split; [reflexivity | intros; lia].
  - destruct (IH self context ltac:(lia)) as (cf & context1 & Hrun & Hl & Hcf).
    rewrite for_range_last by lia. rewrite Hrun.
    unfold contractedBead. cbn [contractedPositions contractedForces
                                 with_contracted].
    match goal with
    | |- context [calcForcesAndEnergy true false mask ?c] =>
        destruct (Hcalc true false mask c) as (_ & _ & Hf);
        set (context2 := calcForcesAndEnergy true false mask c) in *
    end.
    exists (<[n := ctx_forces context2]> cf), context2.
    split; [reflexivity |]. split; [now rewrite length_insert |].
    intros i Hi. rewrite bead_insert by lia.
    destruct (decide (n = i)) as [<- | Hne]; [| apply Hcf; lia].
    rewrite Hf. f_equal. now rewrite (proj1 (Hsites _)).
Qed.

(** X22.  The body of the loop over the schedule, for a contraction of
    the groups [mask] to [copies] copies with [1 <= copies < P] whose
    retained bins do not overlap when they are moved back
    ([copies <= keptEnd P copies]), with an engine that has no virtual
    sites and whose forces are a function [F] of the groups and the
    positions: the contracted positions are computed from the positions
    of the copies, the forces [F mask] are evaluated at each contracted
    copy, and their extension to the [P] copies is added to the forces;
    positions and velocities are not touched. *)
Theorem contraction_adds_the_extended_group_forces maxCopies mask self
    context :
  (copies <= keptEnd totalCopies copies)%nat ->
  shaped totalCopies numParticles (forces self) ->
  shaped maxCopies numParticles (contractedPositions self) ->
  (copies <= maxCopies)%nat ->
  (copies <= length (contractedForces self))%nat ->
  let self' :=
    fst (contractGroup totalCopies numParticles (Z.of_nat copies, mask)
           (self, context)) in
  positions self' = positions self /\ velocities self' = velocities self
  /\ (forall i j c,
        (i < copies)%nat -> (j < numParticles)%nat -> (c < 3)%nat ->
        coord (contractedPositions self') i j c
        = contracted_position totalCopies copies (positions self) j c i)
  /\ (forall i, (i < copies)%nat ->
        bead (contractedForces self') i
        = F mask (bead (contractedPositions self') i))
  /\ (forall k j c,
        (k < totalCopies)%nat -> (j < numParticles)%nat -> (c < 3)%nat ->
        coord (forces self') k j c
        = coord (forces self) k j c
          + extended_force totalCopies copies (contractedForces self') j c k).
Proof.
  intros Hfree Hf Hcp Hmax Hcf. cbv zeta. unfold contractGroup.
  cbn [fst snd]. rewrite Nat2Z.id.
  destruct (contractAllPositions_spec maxCopies (positions self)
              (contractedPositions self) (replicate totalCopies Czero)
              Hcp Hmax (length_replicate _ _)) as (Hs1 & Hl1 & Hpos).
  destruct (for_components numParticles _ (contractedPositions self, _))
    as [cpos q1].
  cbn [fst snd] in Hs1, Hl1, Hpos.
  destruct (contractedBeads_static mask copies
              (with_contracted self cpos (contractedForces self)) context Hcf)
    as (cf & context1 & -> & Hlcf & Hbeads).
  cbn [contractedPositions contractedForces with_contracted positions
         velocities forces] in *.
  pose proof (extendAllForces_spec cf (forces self) q1 Hf Hl1 Hfree) as Hext.
  cbv zeta in Hext.
  destruct (for_components numParticles _ (forces self, q1)) as [f q2].
  cbn [fst snd contractedPositions contractedForces with_contracted
         with_beads positions velocities forces] in *.
  split; [reflexivity |]. split; [reflexivity |].
  split; [intros i j c Hi Hj Hc; now apply Hpos |].
  split; [exact Hbeads |].
  intros k j c Hk Hj Hc. now apply Hext.
Qed.

End ContractGroup.

Section ContractGroupExample.

Lemma moving_forces_shaped : shaped 2 1 moving_forces.
Proof.
  split; [reflexivity |]. intros k Hk.
  destruct k as [| [| k]]; [reflexivity | reflexivity | lia].
Defined.

Lemma one_contracted_copy_shaped :
  shaped 1 1 (contractedPositions moving_contracting_kernel).
Proof.
  split; [reflexivity |]. intros k Hk.
  destruct k as [| k]; [reflexivity | lia].
Defined.

Lemma two_to_one_does_not_overlap : (1 <= keptEnd 2 1)%nat.
Proof. unfold keptEnd, keptStart. simpl. lia. Defined.

(** The theorem for group 1 contracted from two copies to one, under
    the constant force, on a kernel of two copies in motion that already
    holds forces and whose work arrays hold what an earlier step left. *)
Lemma contraction_adds_the_extended_group_forces_witness :
  @static_engine unit constant_force_engine
    (fun _ pos => map (fun _ => mkVec3 4 0 0) pos)
  /\ (1 <= 1 < 2)%nat
  /\ (1 <= keptEnd 2 1)%nat
  /\ shaped 2 1 (forces moving_contracting_kernel)
  /\ let self' :=
       fst (@contractGroup unit constant_force_engine 2 1 (Z.of_nat 1, 2%Z)
              (moving_contracting_kernel, rest_context)) in
     positions self' = moving_positions
     /\ velocities self' = moving_velocities
     /\ (forall i j c,
           (i < 1)%nat -> (j < 1)%nat -> (c < 3)%nat ->
           coord (contractedPositions self') i j c
           = contracted_position 2 1 moving_positions j c i)
     /\ (forall i, (i < 1)%nat ->
           bead (contractedForces self') i
           = map (fun _ => mkVec3 4 0 0) (bead (contractedPositions self') i))
     /\ (forall k j c,
           (k < 2)%nat -> (j < 1)%nat -> (c < 3)%nat ->
           coord (forces self') k j c
           = coord moving_forces k j c
             + extended_force 2 1 (contractedForces self') j c k).
Proof.
  assert (Hc : (1 <= 1 < 2)%nat) by lia.
  assert (Hm : (1 <= 1)%nat) by lia.
  assert (Hl : (1 <= length (contractedForces moving_contracting_kernel))%nat)
    by (simpl; lia).
  split; [exact constant_force_engine_is_static |].
  split; [exact Hc |]. split; [exact two_to_one_does_not_overlap |].
  split; [exact moving_forces_shaped |].
  exact (@contraction_adds_the_extended_group_forces unit
           constant_force_engine _ constant_force_engine_is_static 2 1 1 Hc
           1 2%Z moving_contracting_kernel rest_context
           two_to_one_does_not_overlap moving_forces_shaped
           one_contracted_copy_shaped Hm Hl).
Defined.

End ContractGroupExample.

(** ** Noise and damping in the thermostat *)

Section ThermostatBalance.
Context `{PhysicalConstants}.
Variable integrator : RPMDIntegrator.
Variable P : nat.

Lemma exp_le_one x : x <= 0 -> exp x <= 1.
Proof.
  intros Hx. rewrite <- exp_0.
  destruct (Rle_lt_or_eq_dec _ _ Hx) as [Hlt | ->]; [| lra].
  left. now apply exp_increasing.
Qed.

Lemma damping_leaves_room x : x <= 0 -> 0 <= 1 - exp x * exp x.
Proof.
  intros Hx. pose proof (exp_le_one x Hx) as H1.
  pose proof (exp_pos x) as H0. nra.
Qed.

(** X23.  The thermostat adds as much noise as it removes by damping.
    With [friction dt >= 0] the centroid coefficients satisfy [c1_0^2 +
    c2_0^2 = 1]; and for a mode with [w_k dt >= 0], [c1^2 + c2^2 = 1] at
    the Nyquist bin, which is real, and [c1^2 + 2 c2^2 = 1] at the other
    modes, whose real and imaginary part each receive noise of amplitude
    [c2]. *)
Theorem thermostat_noise_balances_damping k :
  0 <= getFriction integrator * getStepSize integrator ->
  0 <= omega integrator P k * getStepSize integrator ->
  c1_0 integrator ^ 2 + c2_0 integrator ^ 2 = 1
  /\ pile_c1 integrator P k ^ 2
     + (if isNyquist P k then 1 else 2) * pile_c2 integrator P k ^ 2
     = 1.
Proof.
  intros Hf Hw. split.
  - unfold c2_0.
    assert (Hroom : 0 <= 1 - c1_0 integrator * c1_0 integrator).
    { unfold c1_0, halfdt, dt. apply damping_leaves_room. lra. }
    replace (sqrt (1 - c1_0 integrator * c1_0 integrator) ^ 2)
      with (sqrt (1 - c1_0 integrator * c1_0 integrator)
            * sqrt (1 - c1_0 integrator * c1_0 integrator)) by ring.
    rewrite sqrt_sqrt by exact Hroom. ring.
  - unfold pile_c2.
    set (c1 := pile_c1 integrator P k).
    assert (Hroom : 0 <= (1 - c1 ^ 2) / 2).
    { unfold c1, pile_c1, dt.
      assert (Hx : - 2 * omega integrator P k * getStepSize integrator / 2
                   <= 0).
      { replace (- 2 * omega integrator P k * getStepSize integrator / 2)
          with (- (omega integrator P k * getStepSize integrator))
          by field.
        lra. }
      pose proof (damping_leaves_room _ Hx) as Hr. lra. }
    pose proof (sqrt_sqrt _ Hroom) as Hsq.
    pose proof (sqrt_sqrt 2 ltac:(lra)) as Hsq2.
    destruct (isNyquist P k).
    + replace ((sqrt ((1 - c1 ^ 2) / 2) * sqrt 2) ^ 2)
        with (sqrt ((1 - c1 ^ 2) / 2) * sqrt ((1 - c1 ^ 2) / 2)
              * (sqrt 2 * sqrt 2)) by ring.
      rewrite Hsq, Hsq2. lra.
    + replace ((sqrt ((1 - c1 ^ 2) / 2) * 1) ^ 2)
        with (sqrt ((1 - c1 ^ 2) / 2) * sqrt ((1 - c1 ^ 2) / 2)) by ring.
      rewrite Hsq. lra.
Qed.

End ThermostatBalance.

Section ThermostatBalanceExample.

Lemma reference_frequency_not_negative :
  0 <= @omega reference_constants scenario5 2 1 * getStepSize scenario5.
Proof.
  unfold omega, twown, nkT, hbar. simpl.
  replace (1 * PI / (1 + 1)) with (PI / 2) by lra.
  rewrite sin_PI2. lra.
Defined.

Lemma reference_friction_not_negative :
  0 <= getFriction scenario5 * getStepSize scenario5.
Proof. simpl. lra. Defined.

(** The theorem for the one internal mode of two copies. *)
Lemma thermostat_noise_balances_damping_witness :
  0 <= getFriction scenario5 * getStepSize scenario5
  /\ 0 <= @omega reference_constants scenario5 2 1 * getStepSize scenario5
  /\ c1_0 scenario5 ^ 2 + c2_0 scenario5 ^ 2 = 1.
Proof.
  split; [exact reference_friction_not_negative |].
  split; [exact reference_frequency_not_negative |].
  exact (proj1 (@thermostat_noise_balances_damping reference_constants
                  scenario5 2 1%nat reference_friction_not_negative
                  reference_frequency_not_negative)).
Defined.

End ThermostatBalanceExample.
